(** * Hierarchical lock manager over a complete m-ary tree

    Shallow embedding of the two [TreeLocker] implementations of the
    repository:

    - [MulSongs]: [src/data/mulSongs.cpp], one spin lock around the whole
      state store;
    - [SongM]: [src/data/Song_M], one mutex per node, with the
      release / re-acquire / re-validate upgrade;
    - [MulSongsInt] and [SongMInt]: the same two, statement for statement,
      with the counters added as the compiled programs add them, modulo
      2^32 in the range of [int];
    - [MulSongsMain] and [SongMMain]: the programs around them, that is
      the queue between [main] and the worker thread, [process_queries]
      and the two [main]s with their name table.

    Conventions of the embedding.

    - A C++ [int] is a [Z].  Node indices and caller ids are only compared
      and used as indices; the counters in [descLocked] are incremented and
      decremented by one.  The embedding has this sum twice: in [Z], in
      [MulSongs] and [SongM], and as the sum of the machine, which wraps
      from the largest [int] to the smallest ([int_add]), in [MulSongsInt]
      and [SongMInt].  The two agree in every call in which no counter
      leaves the range of [int] ([stepInt_eq], [stepMInt_eq]), hence along
      every run from the initial state with n times its length below 2^31
      ([run_counters_bounded], [runInt_eq]) and along every run whose Lock
      and Unlock callers are not 0, where the counters stay in [0, n]
      ([run_consistent], [runInt_valid_eq]).  They differ in longer runs
      with the caller 0 ([lockRun_result], [longRun_result]).  The
      properties of runs of any length from the initial state (C1, C8) and
      the contracts of Lock and Unlock (C5, C6) are stated for the [int]
      operations; the properties of one call in a given state, which do
      not depend on the sum at the two ends of the range, and the
      properties of runs with bounded counters are stated for the
      operations in [Z].
    - A [vector<int>] is a [list Z], read with [vget] and written with
      [vset].  The source indexes with [operator[]]; every theorem is stated
      for node indices in [0, n), where both agree.
    - A [for] loop with a known trip count is a structural recursion on
      that count.  A [while] loop takes fuel and returns [None] when the
      fuel is exhausted; the totality lemmas show that the fuel the model
      passes is always enough.
    - A lock that the calling thread would wait for forever (a spin lock or
      a mutex that is already held, in a one-caller execution) is [None]
      as well.
    - The input of a [main] is the list of the values that its extractions
      deliver; the output is the list of the lines printed.
    - The two threads of [mulSongs.cpp] share the queue only, and every
      access to it happens under its spin lock.  An execution is therefore
      a sequence of rounds, each one an iteration of the loop of [main] or
      of the loop of the worker, in any order. *)

From Stdlib Require Import ZArith List Bool Lia Permutation FinFun.
From Stdlib Require Import Sorting.Sorted.
From Stdlib Require Strings.String.
Import ListNotations.
Import String.StringSyntax.
Open Scope Z_scope.
Delimit Scope string_scope with string.

(** ** Vectors of [int] *)

Definition vget (l : list Z) (i : Z) : Z := nth (Z.to_nat i) l 0.

Fixpoint upd (l : list Z) (i : nat) (x : Z) : list Z :=
  match l, i with
  | [], _ => []
  | _ :: l', O => x :: l'
  | y :: l', S i' => y :: upd l' i' x
  end.

Definition vset (l : list Z) (i : Z) (x : Z) : list Z := upd l (Z.to_nat i) x.

(** [v.assign(n, x)] *)
Definition assign (n : Z) (x : Z) : list Z := repeat x (Z.to_nat n).

(** ** A small option monad for loops with fuel and for blocking locks *)

Definition bind {A B : Type} (c : option A) (k : A -> option B) : option B :=
  match c with
  | Some a => k a
  | None => None
  end.

Notation "x <- c ;; k" := (bind c (fun x => k))
  (at level 61, c at next level, right associativity).

(** ** Operations submitted by the query source *)

Inductive Op : Type :=
| Lock (v uid : Z)
| Unlock (v uid : Z)
| Upgrade (v uid : Z).

Definition op_node (o : Op) : Z :=
  match o with Lock v _ | Unlock v _ | Upgrade v _ => v end.

(** ** Loops that both files contain, statement for statement

    They read and write the member vectors only, so they are written once,
    over the vectors. *)

(** The constructor's loop [for (int i = 1; i < n; ++i) parent[i] = (i - 1) / m];
    [k] is the number of iterations left.  C++ division truncates. *)
Fixpoint fillParents (k : nat) (i mm : Z) (par : list Z) : list Z :=
  match k with
  | O => par
  | S k' => fillParents k' (i + 1) mm (vset par i (Z.quot (i - 1) mm))
  end.

(** [while (p != -1) { if (lockedBy[p] != 0) return true; p = parent[p]; }] *)
Fixpoint lockedAncestor_loop (fuel : nat) (par lockedBy : list Z) (p : Z)
  : option bool :=
  match fuel with
  | O => None
  | S fuel' =>
      if p =? -1 then Some false
      else if negb (vget lockedBy p =? 0) then Some true
      else lockedAncestor_loop fuel' par lockedBy (vget par p)
  end.

(** [while (p != -1) { descLocked[p] += delta; p = parent[p]; }] *)
Fixpoint addAncestors_loop (fuel : nat) (par descLocked : list Z) (p delta : Z)
  : option (list Z) :=
  match fuel with
  | O => None
  | S fuel' =>
      if p =? -1 then Some descLocked
      else addAncestors_loop fuel' par
             (vset descLocked p (vget descLocked p + delta)) (vget par p) delta
  end.

(** ** The subtree traversals of [upgradeNode]

    The traversals only read [n], [m], [lockedBy], [descLocked] and the
    caller id. *)

Section Traversals.

Variables (nn mm : Z) (lockedBy descLocked : list Z) (uid : Z).

(** [mulSongs.cpp]: the inner [for (long long j = 0; j < m; ++j)] of
    [upgradeNode], with [k] iterations left.  The result is [canUpgrade],
    [descendantsToUnlock] and [nodesToVisit] (top of the stack first). *)
Fixpoint scanChildren (k : nat) (firstChild j : Z)
         (descendantsToUnlock nodesToVisit : list Z)
  : bool * list Z * list Z :=
  match k with
  | O => (true, descendantsToUnlock, nodesToVisit)
  | S k' =>
      let childIndex := firstChild + j in
      if childIndex >=? nn then (true, descendantsToUnlock, nodesToVisit)
      else
        let w := childIndex in
        if negb (vget lockedBy w =? 0) then
          if negb (vget lockedBy w =? uid)
          then (false, descendantsToUnlock, nodesToVisit)
          else scanChildren k' firstChild (j + 1)
                            (descendantsToUnlock ++ [w]) nodesToVisit
        else if vget descLocked w >? 0 then
          scanChildren k' firstChild (j + 1)
                       descendantsToUnlock (w :: nodesToVisit)
        else
          scanChildren k' firstChild (j + 1)
                       descendantsToUnlock nodesToVisit
  end.

(** [mulSongs.cpp]: the [while (!nodesToVisit.empty())] loop of
    [upgradeNode]. *)
Fixpoint visit (fuel : nat) (descendantsToUnlock nodesToVisit : list Z)
  : option (bool * list Z) :=
  match fuel with
  | O => None
  | S fuel' =>
      match nodesToVisit with
      | [] => Some (true, descendantsToUnlock)
      | u :: rest =>
          let firstChild := 1 * u * mm + 1 in
          match scanChildren (Z.to_nat mm) firstChild 0
                             descendantsToUnlock rest with
          | (true, d, s) => visit fuel' d s
          | (false, d, _) => Some (false, d)
          end
      end
  end.

(** [Song_M]: the inner loop of [collectLockedDescendants].  The result is
    [foreignLockFound], [candidates] and the stack [st].  A locked child
    is collected and, unlike in [mulSongs.cpp], still pushed when its
    counter is positive. *)
Fixpoint scanChildrenM (k : nat) (base j : Z) (candidates st : list Z)
  : bool * list Z * list Z :=
  match k with
  | O => (false, candidates, st)
  | S k' =>
      let c := base + j in
      if c >=? nn then (false, candidates, st)
      else
        let w := c in
        if negb (vget lockedBy w =? 0) then
          if negb (vget lockedBy w =? uid) then (true, candidates, st)
          else
            let candidates := candidates ++ [w] in
            if vget descLocked w >? 0
            then scanChildrenM k' base (j + 1) candidates (w :: st)
            else scanChildrenM k' base (j + 1) candidates st
        else
          if vget descLocked w >? 0
          then scanChildrenM k' base (j + 1) candidates (w :: st)
          else scanChildrenM k' base (j + 1) candidates st
  end.

(** [Song_M]: the [while (!st.empty())] loop of
    [collectLockedDescendants]; the result is [(foreignLockFound,
    candidates)]. *)
Fixpoint collect (fuel : nat) (candidates st : list Z)
  : option (bool * list Z) :=
  match fuel with
  | O => None
  | S fuel' =>
      match st with
      | [] => Some (false, candidates)
      | u :: rest =>
          let base := 1 * u * mm + 1 in
          match scanChildrenM (Z.to_nat mm) base 0 candidates rest with
          | (true, c, _) => Some (true, c)
          | (false, c, s) => collect fuel' c s
          end
      end
  end.

End Traversals.

(** ** [src/data/mulSongs.cpp]: one spin lock for the whole store *)

Module MulSongs.

Record TreeLocker : Type := mkTL {
  n : Z;
  m : Z;
  parent : list Z;
  lockedBy : list Z;
  descLocked : list Z;
  lock_flag : Z  (* the [SpinLock] member *)
}.

Definition set_lockedBy (t : TreeLocker) (l : list Z) : TreeLocker :=
  mkTL (n t) (m t) (parent t) l (descLocked t) (lock_flag t).

Definition set_descLocked (t : TreeLocker) (l : list Z) : TreeLocker :=
  mkTL (n t) (m t) (parent t) (lockedBy t) l (lock_flag t).

Definition set_lock_flag (t : TreeLocker) (f : Z) : TreeLocker :=
  mkTL (n t) (m t) (parent t) (lockedBy t) (descLocked t) f.

(** [SpinLock::lock]: test-and-set until the previous value is 0.  With
    one caller nobody else can release the flag, so a held flag spins
    forever. *)
Definition spin_lock (t : TreeLocker) : option TreeLocker :=
  if lock_flag t =? 0 then Some (set_lock_flag t 1) else None.

Definition spin_unlock (t : TreeLocker) : TreeLocker := set_lock_flag t 0.

Definition newTreeLocker (n_ m_ : Z) : TreeLocker :=
  mkTL n_ m_
       (fillParents (Z.to_nat (n_ - 1)) 1 m_ (assign n_ (-1)))
       (assign n_ 0)
       (assign n_ 0)
       0.

Definition hasLockedAncestor (t : TreeLocker) (v : Z) : option bool :=
  lockedAncestor_loop (S (Z.to_nat (n t))) (parent t) (lockedBy t)
                      (vget (parent t) v).

Definition updateAncestorDescLockCount (t : TreeLocker) (v delta : Z)
  : option TreeLocker :=
  d <- addAncestors_loop (S (Z.to_nat (n t))) (parent t) (descLocked t)
                         (vget (parent t) v) delta ;;
  Some (set_descLocked t d).

Definition lockNode (t : TreeLocker) (v uid : Z)
  : option (bool * TreeLocker) :=
  t <- spin_lock t ;;
  if negb (vget (lockedBy t) v =? 0) then Some (false, spin_unlock t)
  else
    a <- hasLockedAncestor t v ;;
    if a then Some (false, spin_unlock t)
    else if negb (vget (descLocked t) v =? 0) then Some (false, spin_unlock t)
    else
      let t := set_lockedBy t (vset (lockedBy t) v uid) in
      t <- updateAncestorDescLockCount t v 1 ;;
      Some (true, spin_unlock t).

Definition unlockNode (t : TreeLocker) (v uid : Z)
  : option (bool * TreeLocker) :=
  t <- spin_lock t ;;
  if negb (vget (lockedBy t) v =? uid) then Some (false, spin_unlock t)
  else
    let t := set_lockedBy t (vset (lockedBy t) v 0) in
    t <- updateAncestorDescLockCount t v (-1) ;;
    Some (true, spin_unlock t).

(** One pass of [for (int u : descendantsToUnlock)]. *)
Fixpoint unlockAll (t : TreeLocker) (us : list Z) : option TreeLocker :=
  match us with
  | [] => Some t
  | u :: us' =>
      let t := set_lockedBy t (vset (lockedBy t) u 0) in
      t <- updateAncestorDescLockCount t u (-1) ;;
      unlockAll t us'
  end.

Definition upgradeNode (t : TreeLocker) (v uid : Z)
  : option (bool * TreeLocker) :=
  t <- spin_lock t ;;
  if negb (vget (lockedBy t) v =? 0) then Some (false, spin_unlock t)
  else
    a <- hasLockedAncestor t v ;;
    if a then Some (false, spin_unlock t)
    else if vget (descLocked t) v =? 0 then Some (false, spin_unlock t)
    else
      r <- visit (n t) (m t) (lockedBy t) (descLocked t) uid
                 (S (Z.to_nat (n t))) [] [v] ;;
      match r with
      | (false, _) => Some (false, spin_unlock t)
      | (true, descendantsToUnlock) =>
          t <- unlockAll t descendantsToUnlock ;;
          let t := set_lockedBy t (vset (lockedBy t) v uid) in
          t <- updateAncestorDescLockCount t v 1 ;;
          Some (true, spin_unlock t)
      end.

(** The dispatch of [process_queries]. *)
Definition step (t : TreeLocker) (o : Op) : option (bool * TreeLocker) :=
  match o with
  | Lock v uid => lockNode t v uid
  | Unlock v uid => unlockNode t v uid
  | Upgrade v uid => upgradeNode t v uid
  end.

(** A sequence of queries, one at a time; the results in submission order. *)
Fixpoint run (t : TreeLocker) (os : list Op)
  : option (list bool * TreeLocker) :=
  match os with
  | [] => Some ([], t)
  | o :: os' =>
      r <- step t o ;;
      r' <- run (snd r) os' ;;
      Some (fst r :: fst r', snd r')
  end.

End MulSongs.

(** ** [src/data/Song_M]: one mutex per node *)

(** [std::sort] on the node ids (any sorting algorithm gives this list). *)
Fixpoint insert_sorted (x : Z) (l : list Z) : list Z :=
  match l with
  | [] => [x]
  | y :: l' => if x <=? y then x :: l else y :: insert_sorted x l'
  end.

Fixpoint sort (l : list Z) : list Z :=
  match l with
  | [] => []
  | x :: l' => insert_sorted x (sort l')
  end.

(** [erase(unique(begin, end), end)]: drop consecutive duplicates. *)
Fixpoint unique (l : list Z) : list Z :=
  match l with
  | [] => []
  | x :: l' =>
      match l' with
      | [] => [x]
      | y :: _ => if x =? y then unique l' else x :: unique l'
      end
  end.

Module SongM.

Record TreeLocker : Type := mkTL {
  n : Z;
  m : Z;
  parent : list Z;
  lockedBy : list Z;
  descLocked : list Z;
  nodeMx : list Z  (* one [mutex] per node: 1 when held, 0 when free *)
}.

Definition set_lockedBy (t : TreeLocker) (l : list Z) : TreeLocker :=
  mkTL (n t) (m t) (parent t) l (descLocked t) (nodeMx t).

Definition set_descLocked (t : TreeLocker) (l : list Z) : TreeLocker :=
  mkTL (n t) (m t) (parent t) (lockedBy t) l (nodeMx t).

Definition set_nodeMx (t : TreeLocker) (l : list Z) : TreeLocker :=
  mkTL (n t) (m t) (parent t) (lockedBy t) (descLocked t) l.

Definition newTreeLocker (n_ m_ : Z) : TreeLocker :=
  mkTL n_ m_
       (fillParents (Z.to_nat (n_ - 1)) 1 m_ (assign n_ (-1)))
       (assign n_ 0)
       (assign n_ 0)
       (assign n_ 0).

(** The [while] loop of [getPathToRoot]. *)
Fixpoint getPathToRoot_loop (fuel : nat) (par : list Z) (p : Z)
         (path : list Z) : option (list Z) :=
  match fuel with
  | O => None
  | S fuel' =>
      if p =? -1 then Some path
      else getPathToRoot_loop fuel' par (vget par p) (path ++ [p])
  end.

Definition getPathToRoot (t : TreeLocker) (v : Z) (includeSelf : bool)
  : option (list Z) :=
  let path := if includeSelf then [v] else [] in
  getPathToRoot_loop (S (Z.to_nat (n t))) (parent t) (vget (parent t) v) path.

(** [locks.emplace_back(nodeMx[id])] for each id: the constructor of
    [unique_lock] locks the mutex, and waits forever when the one caller
    already holds it.  [locks] is the list of the ids held. *)
Fixpoint lockEach (ids : list Z) (mx locks : list Z)
  : option (list Z * list Z) :=
  match ids with
  | [] => Some (mx, locks)
  | id :: ids' =>
      if vget mx id =? 0
      then lockEach ids' (vset mx id 1) (locks ++ [id])
      else None
  end.

Definition acquireLocks (t : TreeLocker) (nodes locks : list Z)
  : option (TreeLocker * list Z) :=
  let sortedNodes := unique (sort nodes) in
  r <- lockEach sortedNodes (nodeMx t) locks ;;
  Some (set_nodeMx t (fst r), snd r).

(** Destruction of the [unique_lock]s: at [locks.clear()] and when the
    vector goes out of scope at every [return]. *)
Definition releaseLocks (t : TreeLocker) (locks : list Z) : TreeLocker :=
  set_nodeMx t (fold_left (fun mx id => vset mx id 0) locks (nodeMx t)).

Definition collectLockedDescendants (t : TreeLocker) (v uid : Z)
           (candidates : list Z) : option (bool * list Z) :=
  collect (n t) (m t) (lockedBy t) (descLocked t) uid
          (S (Z.to_nat (n t))) candidates [v].

Definition hasLockedAncestor (t : TreeLocker) (v : Z) : option bool :=
  lockedAncestor_loop (S (Z.to_nat (n t))) (parent t) (lockedBy t)
                      (vget (parent t) v).

Definition addToAncestors (t : TreeLocker) (v delta : Z)
  : option TreeLocker :=
  d <- addAncestors_loop (S (Z.to_nat (n t))) (parent t) (descLocked t)
                         (vget (parent t) v) delta ;;
  Some (set_descLocked t d).

Definition lockNode (t : TreeLocker) (v uid : Z)
  : option (bool * TreeLocker) :=
  need <- getPathToRoot t v true ;;
  r <- acquireLocks t need [] ;;
  let '(t, locks) := r in
  if negb (vget (lockedBy t) v =? 0) then Some (false, releaseLocks t locks)
  else
    a <- hasLockedAncestor t v ;;
    if a then Some (false, releaseLocks t locks)
    else if negb (vget (descLocked t) v =? 0)
    then Some (false, releaseLocks t locks)
    else
      let t := set_lockedBy t (vset (lockedBy t) v uid) in
      t <- addToAncestors t v 1 ;;
      Some (true, releaseLocks t locks).

Definition unlockNode (t : TreeLocker) (v uid : Z)
  : option (bool * TreeLocker) :=
  need <- getPathToRoot t v true ;;
  r <- acquireLocks t need [] ;;
  let '(t, locks) := r in
  if negb (vget (lockedBy t) v =? uid) then Some (false, releaseLocks t locks)
  else
    let t := set_lockedBy t (vset (lockedBy t) v 0) in
    t <- addToAncestors t v (-1) ;;
    Some (true, releaseLocks t locks).

(** [lockedBy[v] != 0 || descLocked[v] == 0 || hasLockedAncestor(v)] *)
Definition cannotUpgrade (t : TreeLocker) (v : Z) : option bool :=
  if negb (vget (lockedBy t) v =? 0) then Some true
  else if vget (descLocked t) v =? 0 then Some true
  else hasLockedAncestor t v.

(** [for (int u : currentLockedDescendants) if (lockedBy[u] == uid) ...] *)
Fixpoint unlockAll (t : TreeLocker) (uid : Z) (us : list Z)
  : option TreeLocker :=
  match us with
  | [] => Some t
  | u :: us' =>
      if vget (lockedBy t) u =? uid then
        let t := set_lockedBy t (vset (lockedBy t) u 0) in
        t <- addToAncestors t u (-1) ;;
        unlockAll t uid us'
      else unlockAll t uid us'
  end.

Definition upgradeNode (t : TreeLocker) (v uid : Z)
  : option (bool * TreeLocker) :=
  (* first phase *)
  basePath <- getPathToRoot t v true ;;
  r <- acquireLocks t basePath [] ;;
  let '(t, locks) := r in
  c <- cannotUpgrade t v ;;
  if c then Some (false, releaseLocks t locks)
  else
    (* second phase *)
    r <- collectLockedDescendants t v uid [] ;;
    let '(foreignLockFound, lockedDescendants) := r in
    if foreignLockFound then Some (false, releaseLocks t locks)
    else
      (* third phase *)
      let t := releaseLocks t locks in
      let allNodesToLock := basePath ++ lockedDescendants in
      r <- acquireLocks t allNodesToLock [] ;;
      let '(t, locks) := r in
      c <- cannotUpgrade t v ;;
      if c then Some (false, releaseLocks t locks)
      else
        r <- collectLockedDescendants t v uid [] ;;
        let '(foreignLockFound, currentLockedDescendants) := r in
        if foreignLockFound then Some (false, releaseLocks t locks)
        else
          t <- unlockAll t uid currentLockedDescendants ;;
          let t := set_lockedBy t (vset (lockedBy t) v uid) in
          t <- addToAncestors t v 1 ;;
          Some (true, releaseLocks t locks).

(** The dispatch of [main]. *)
Definition step (t : TreeLocker) (o : Op) : option (bool * TreeLocker) :=
  match o with
  | Lock v uid => lockNode t v uid
  | Unlock v uid => unlockNode t v uid
  | Upgrade v uid => upgradeNode t v uid
  end.

Fixpoint run (t : TreeLocker) (os : list Op)
  : option (list bool * TreeLocker) :=
  match os with
  | [] => Some ([], t)
  | o :: os' =>
      r <- step t o ;;
      r' <- run (snd r) os' ;;
      Some (fst r :: fst r', snd r')
  end.

End SongM.

(** ** The programs around the two [TreeLocker]s

    Both [main]s read [N], [m], [Q], then [N] node names and [Q] queries
    [op node_name uid].  The input is taken as the values that the
    extractions [cin >> ...] deliver: the list of the names and the list of
    the queries. *)

Record InputQuery : Type := mkInput {
  in_op : Z;
  in_node : String.string;
  in_uid : Z  (* read as a [long long] *)
}.

(** [(int)uid] for a [long long]: the value modulo 2^32. *)
Definition to_int (z : Z) : Z := (z + 2 ^ 31) mod 2 ^ 32 - 2 ^ 31.

(** [unordered_map<string, int>], used through [operator[]] only; the
    order of its entries is not observable. *)
Definition NameMap : Type := list (String.string * Z).

Fixpoint find (mp : NameMap) (key : String.string) : option Z :=
  match mp with
  | [] => None
  | (k, value) :: mp' => if String.eqb key k then Some value else find mp' key
  end.

(** [mp[key] = value] *)
Fixpoint store (mp : NameMap) (key : String.string) (value : Z) : NameMap :=
  match mp with
  | [] => [(key, value)]
  | (k, old) :: mp' =>
      if String.eqb key k then (k, value) :: mp'
      else (k, old) :: store mp' key value
  end.

(** [mp[key]] read: a key that is missing is inserted with the value 0. *)
Definition fetch (mp : NameMap) (key : String.string) : Z * NameMap :=
  match find mp key with
  | Some value => (value, mp)
  | None => (0, store mp key 0)
  end.

(** [for (int i = 0; i < N; ++i) { cin >> name; name_to_id[name] = i; }] *)
Fixpoint readNames (names : list String.string) (i : Z) (mp : NameMap)
  : NameMap :=
  match names with
  | [] => mp
  | name :: names' => readNames names' (i + 1) (store mp name i)
  end.

(** [cout << (res ? "true" : "false") << "\n"]: one line of output. *)
Definition print (res : bool) : String.string :=
  if res then "true"%string else "false"%string.

(** *** [src/data/mulSongs.cpp]: the queue, the worker thread and [main] *)

Module MulSongsMain.
Import MulSongs.

Record Query : Type := mkQuery {
  op : Z;
  node_id : Z;
  uid : Z;
  is_sentinel : bool
}.

Record ThreadSafeQueue : Type := mkQueue {
  data : list Query;
  head : Z;
  spinlock : Z  (* the [lock_flag] of the [SpinLock] member *)
}.

Definition newQueue : ThreadSafeQueue := mkQueue [] 0 0.

Definition q_lock (s : ThreadSafeQueue) : option ThreadSafeQueue :=
  if spinlock s =? 0 then Some (mkQueue (data s) (head s) 1) else None.

Definition q_unlock (s : ThreadSafeQueue) : ThreadSafeQueue :=
  mkQueue (data s) (head s) 0.

Definition push (s : ThreadSafeQueue) (q : Query) : option ThreadSafeQueue :=
  s <- q_lock s ;;
  let s := mkQueue (data s ++ [q]) (head s) (spinlock s) in
  Some (q_unlock s).

(** [bool pop(Query& q)]: the result, the caller's [q], the queue. *)
Definition pop (s : ThreadSafeQueue) (q : Query)
  : option (bool * Query * ThreadSafeQueue) :=
  s <- q_lock s ;;
  if head s <? Z.of_nat (length (data s)) then
    let q := nth (Z.to_nat (head s)) (data s) q in
    let s := mkQueue (data s) (head s + 1) (spinlock s) in
    Some (true, q, q_unlock s)
  else Some (false, q, q_unlock s).

(** The [if] / [else if] chain of [process_queries]; [res] starts as
    false. *)
Definition dispatch (tl : TreeLocker) (q : Query)
  : option (bool * TreeLocker) :=
  if op q =? 1 then lockNode tl (node_id q) (uid q)
  else if op q =? 2 then unlockNode tl (node_id q) (uid q)
  else if op q =? 3 then upgradeNode tl (node_id q) (uid q)
  else Some (false, tl).

(** The two threads.  They share the queue only: the name table and the
    input belong to [main], the [TreeLocker] and the output to the worker
    once it is started. *)
Inductive Thread : Type := MainThread | WorkerThread.

Record Process : Type := mkProcess {
  name_to_id : NameMap;
  cin : list InputQuery;  (* the queries that [main] has not read yet *)
  sentinel_pushed : bool;
  queue : ThreadSafeQueue;
  tl : TreeLocker;
  cout : list String.string;  (* the lines printed so far *)
  worker_returned : bool
}.

Section Indeterminate.

(** The [int] members of a [Query] that is declared and not assigned;
    its [is_sentinel] is false. *)
Variable q0 : Query.

Definition newQuery : Query := mkQuery (op q0) (node_id q0) (uid q0) false.

(** One round of [main]: an iteration of [for (int i = 0; i < Q; ++i)],
    then the push of the sentinel, then the wait in [join]. *)
Definition main_turn (p : Process) : option Process :=
  match cin p with
  | x :: rest =>
      let '(id, mp) := fetch (name_to_id p) (in_node x) in
      let q := mkQuery (in_op x) id (to_int (in_uid x)) false in
      queue' <- push (queue p) q ;;
      Some (mkProcess mp rest (sentinel_pushed p) queue' (tl p) (cout p)
                      (worker_returned p))
  | [] =>
      if sentinel_pushed p then Some p
      else
        let sentinel_query :=
          mkQuery (op newQuery) (node_id newQuery) (uid newQuery) true in
        queue' <- push (queue p) sentinel_query ;;
        Some (mkProcess (name_to_id p) [] true queue' (tl p) (cout p)
                        (worker_returned p))
  end.

(** One iteration of [while (true)] in [process_queries]. *)
Definition worker_turn (p : Process) : option Process :=
  if worker_returned p then Some p
  else
    r <- pop (queue p) newQuery ;;
    let '(popped, q, queue') := r in
    if popped then
      if is_sentinel q then
        Some (mkProcess (name_to_id p) (cin p) (sentinel_pushed p) queue'
                        (tl p) (cout p) true)
      else
        r <- dispatch (tl p) q ;;
        Some (mkProcess (name_to_id p) (cin p) (sentinel_pushed p) queue'
                        (snd r) (cout p ++ [print (fst r)]) false)
    else
      Some (mkProcess (name_to_id p) (cin p) (sentinel_pushed p) queue'
                      (tl p) (cout p) false).

Definition turn (th : Thread) (p : Process) : option Process :=
  match th with
  | MainThread => main_turn p
  | WorkerThread => worker_turn p
  end.

(** An execution: the threads take their rounds in the order of [sch]. *)
Fixpoint run_threads (sch : list Thread) (p : Process) : option Process :=
  match sch with
  | [] => Some p
  | th :: sch' => p' <- turn th p ;; run_threads sch' p'
  end.

End Indeterminate.

(** [main], up to the start of the worker thread. *)
Definition start (N m_ : Z) (names : list String.string)
           (queries : list InputQuery) : Process :=
  mkProcess (readNames names 0 []) queries false newQueue
            (newTreeLocker N m_) [] false.

(** [worker_thread.join()] has returned. *)
Definition returned (p : Process) : bool :=
  sentinel_pushed p && worker_returned p.

End MulSongsMain.

(** *** [src/data/Song_M]: [main] *)

Module SongMMain.
Import SongM.

(** [if (op == 1) ok = ...; else if (op == 2) ...; else if (op == 3) ...],
    with [ok] false at the start. *)
Definition dispatch (tl : TreeLocker) (op v uid : Z)
  : option (bool * TreeLocker) :=
  if op =? 1 then lockNode tl v uid
  else if op =? 2 then unlockNode tl v uid
  else if op =? 3 then upgradeNode tl v uid
  else Some (false, tl).

(** [for (int i = 0; i < Q; ++i)] over the queries of the input. *)
Fixpoint queries (id : NameMap) (tl : TreeLocker) (cin : list InputQuery)
         (cout : list String.string)
  : option (list String.string * TreeLocker) :=
  match cin with
  | [] => Some (cout, tl)
  | x :: rest =>
      let '(v, id) := fetch id (in_node x) in
      let uid := to_int (in_uid x) in
      r <- dispatch tl (in_op x) v uid ;;
      queries id (snd r) rest (cout ++ [print (fst r)])
  end.

Definition main (N m_ : Z) (names : list String.string)
           (qs : list InputQuery)
  : option (list String.string * TreeLocker) :=
  queries (readNames names 0 []) (newTreeLocker N m_) qs [].

End SongMMain.

(** ** The counters as the machine has them

    [descLocked[p] += delta] acts on a [vector<int>].  The C++ standard
    leaves the overflow of an [int] undefined; the compiled programs add
    modulo 2^32.  The operations above add in [Z]; the ones below are the
    same operations, statement for statement, with the sum of the machine.
    The state, the spin lock, the mutexes, [hasLockedAncestor] and the
    traversals do not add to a counter and are shared. *)

Definition int_add (a b : Z) : Z := to_int (a + b).

(** [while (p != -1) { descLocked[p] += delta; p = parent[p]; }] *)
Fixpoint addAncestors_loop_int (fuel : nat) (par descLocked : list Z)
         (p delta : Z) : option (list Z) :=
  match fuel with
  | O => None
  | S fuel' =>
      if p =? -1 then Some descLocked
      else addAncestors_loop_int fuel' par
             (vset descLocked p (int_add (vget descLocked p) delta))
             (vget par p) delta
  end.

Module MulSongsInt.
Import MulSongs.

Definition updateAncestorDescLockCount (t : TreeLocker) (v delta : Z)
  : option TreeLocker :=
  d <- addAncestors_loop_int (S (Z.to_nat (n t))) (parent t) (descLocked t)
                             (vget (parent t) v) delta ;;
  Some (set_descLocked t d).

Definition lockNode (t : TreeLocker) (v uid : Z)
  : option (bool * TreeLocker) :=
  t <- spin_lock t ;;
  if negb (vget (lockedBy t) v =? 0) then Some (false, spin_unlock t)
  else
    a <- hasLockedAncestor t v ;;
    if a then Some (false, spin_unlock t)
    else if negb (vget (descLocked t) v =? 0) then Some (false, spin_unlock t)
    else
      let t := set_lockedBy t (vset (lockedBy t) v uid) in
      t <- updateAncestorDescLockCount t v 1 ;;
      Some (true, spin_unlock t).

Definition unlockNode (t : TreeLocker) (v uid : Z)
  : option (bool * TreeLocker) :=
  t <- spin_lock t ;;
  if negb (vget (lockedBy t) v =? uid) then Some (false, spin_unlock t)
  else
    let t := set_lockedBy t (vset (lockedBy t) v 0) in
    t <- updateAncestorDescLockCount t v (-1) ;;
    Some (true, spin_unlock t).

Fixpoint unlockAll (t : TreeLocker) (us : list Z) : option TreeLocker :=
  match us with
  | [] => Some t
  | u :: us' =>
      let t := set_lockedBy t (vset (lockedBy t) u 0) in
      t <- updateAncestorDescLockCount t u (-1) ;;
      unlockAll t us'
  end.

Definition upgradeNode (t : TreeLocker) (v uid : Z)
  : option (bool * TreeLocker) :=
  t <- spin_lock t ;;
  if negb (vget (lockedBy t) v =? 0) then Some (false, spin_unlock t)
  else
    a <- hasLockedAncestor t v ;;
    if a then Some (false, spin_unlock t)
    else if vget (descLocked t) v =? 0 then Some (false, spin_unlock t)
    else
      r <- visit (n t) (m t) (lockedBy t) (descLocked t) uid
                 (S (Z.to_nat (n t))) [] [v] ;;
      match r with
      | (false, _) => Some (false, spin_unlock t)
      | (true, descendantsToUnlock) =>
          t <- unlockAll t descendantsToUnlock ;;
          let t := set_lockedBy t (vset (lockedBy t) v uid) in
          t <- updateAncestorDescLockCount t v 1 ;;
          Some (true, spin_unlock t)
      end.

Definition step (t : TreeLocker) (o : Op) : option (bool * TreeLocker) :=
  match o with
  | Lock v uid => lockNode t v uid
  | Unlock v uid => unlockNode t v uid
  | Upgrade v uid => upgradeNode t v uid
  end.

Fixpoint run (t : TreeLocker) (os : list Op)
  : option (list bool * TreeLocker) :=
  match os with
  | [] => Some ([], t)
  | o :: os' =>
      r <- step t o ;;
      r' <- run (snd r) os' ;;
      Some (fst r :: fst r', snd r')
  end.

End MulSongsInt.

Module SongMInt.
Import SongM.

Definition addToAncestors (t : TreeLocker) (v delta : Z)
  : option TreeLocker :=
  d <- addAncestors_loop_int (S (Z.to_nat (n t))) (parent t) (descLocked t)
                             (vget (parent t) v) delta ;;
  Some (set_descLocked t d).

Definition lockNode (t : TreeLocker) (v uid : Z)
  : option (bool * TreeLocker) :=
  need <- getPathToRoot t v true ;;
  r <- acquireLocks t need [] ;;
  let '(t, locks) := r in
  if negb (vget (lockedBy t) v =? 0) then Some (false, releaseLocks t locks)
  else
    a <- hasLockedAncestor t v ;;
    if a then Some (false, releaseLocks t locks)
    else if negb (vget (descLocked t) v =? 0)
    then Some (false, releaseLocks t locks)
    else
      let t := set_lockedBy t (vset (lockedBy t) v uid) in
      t <- addToAncestors t v 1 ;;
      Some (true, releaseLocks t locks).

Definition unlockNode (t : TreeLocker) (v uid : Z)
  : option (bool * TreeLocker) :=
  need <- getPathToRoot t v true ;;
  r <- acquireLocks t need [] ;;
  let '(t, locks) := r in
  if negb (vget (lockedBy t) v =? uid) then Some (false, releaseLocks t locks)
  else
    let t := set_lockedBy t (vset (lockedBy t) v 0) in
    t <- addToAncestors t v (-1) ;;
    Some (true, releaseLocks t locks).

Fixpoint unlockAll (t : TreeLocker) (uid : Z) (us : list Z)
  : option TreeLocker :=
  match us with
  | [] => Some t
  | u :: us' =>
      if vget (lockedBy t) u =? uid then
        let t := set_lockedBy t (vset (lockedBy t) u 0) in
        t <- addToAncestors t u (-1) ;;
        unlockAll t uid us'
      else unlockAll t uid us'
  end.

Definition upgradeNode (t : TreeLocker) (v uid : Z)
  : option (bool * TreeLocker) :=
  (* first phase *)
  basePath <- getPathToRoot t v true ;;
  r <- acquireLocks t basePath [] ;;
  let '(t, locks) := r in
  c <- cannotUpgrade t v ;;
  if c then Some (false, releaseLocks t locks)
  else
    (* second phase *)
    r <- collectLockedDescendants t v uid [] ;;
    let '(foreignLockFound, lockedDescendants) := r in
    if foreignLockFound then Some (false, releaseLocks t locks)
    else
      (* third phase *)
      let t := releaseLocks t locks in
      let allNodesToLock := basePath ++ lockedDescendants in
      r <- acquireLocks t allNodesToLock [] ;;
      let '(t, locks) := r in
      c <- cannotUpgrade t v ;;
      if c then Some (false, releaseLocks t locks)
      else
        r <- collectLockedDescendants t v uid [] ;;
        let '(foreignLockFound, currentLockedDescendants) := r in
        if foreignLockFound then Some (false, releaseLocks t locks)
        else
          t <- unlockAll t uid currentLockedDescendants ;;
          let t := set_lockedBy t (vset (lockedBy t) v uid) in
          t <- addToAncestors t v 1 ;;
          Some (true, releaseLocks t locks).

Definition step (t : TreeLocker) (o : Op) : option (bool * TreeLocker) :=
  match o with
  | Lock v uid => lockNode t v uid
  | Unlock v uid => unlockNode t v uid
  | Upgrade v uid => upgradeNode t v uid
  end.

Fixpoint run (t : TreeLocker) (os : list Op)
  : option (list bool * TreeLocker) :=
  match os with
  | [] => Some ([], t)
  | o :: os' =>
      r <- step t o ;;
      r' <- run (snd r) os' ;;
      Some (fst r :: fst r', snd r')
  end.

End SongMInt.

(** ** Vocabulary of the specification *)

(** *** The shape of the tree: [parent(i) = (i-1) / m] *)

Section TreeShape.

Variable M : Z.

Definition parentOf (i : Z) : Z := (i - 1) / M.

(** [anc a w]: [a] is a proper ancestor of [w]. *)
Inductive anc : Z -> Z -> Prop :=
| anc_parent : forall w, 0 < w -> anc (parentOf w) w
| anc_up : forall a w, 0 < w -> anc a (parentOf w) -> anc a w.

(** The proper ancestors of [v], nearest first. *)
Fixpoint ancestors_fuel (fuel : nat) (v : Z) : list Z :=
  match fuel with
  | O => []
  | S fuel' =>
      if 0 <? v then parentOf v :: ancestors_fuel fuel' (parentOf v) else []
  end.

Definition ancestors (v : Z) : list Z := ancestors_fuel (Z.to_nat v) v.

Definition ancb (a w : Z) : bool := existsb (Z.eqb a) (ancestors w).

(** The children of a node that exist among the [N] nodes, in the order
    in which the traversals meet them. *)
Fixpoint kidsFrom (N : Z) (k : nat) (c : Z) : list Z :=
  match k with
  | O => []
  | S k' => if c >=? N then [] else c :: kidsFrom N k' (c + 1)
  end.

Definition kids (N u : Z) : list Z := kidsFrom N (Z.to_nat M) (u * M + 1).

(** The nodes that a loop over the parent links goes through when it
    starts at [p]. *)
Definition upFrom (p : Z) : list Z :=
  if p =? -1 then [] else p :: ancestors p.

(** The effect of [updateAncestorDescLockCount(v, delta)] on the counters. *)
Definition bump (d : list Z) (v delta : Z) : list Z :=
  fold_left (fun d p => vset d p (vget d p + delta)) (ancestors v) d.

End TreeShape.

(** The node indices [0 .. N-1]. *)
Definition nodes (N : Z) : list Z := map Z.of_nat (seq 0 (Z.to_nat N)).

(** A node is locked when its owner is not the sentinel 0. *)
Definition lockedb (lockedBy : list Z) (w : Z) : bool :=
  negb (vget lockedBy w =? 0).

(** Number of elements of [l] that satisfy [P]. *)
Fixpoint countZ (P : Z -> bool) (l : list Z) : Z :=
  match l with
  | [] => 0
  | w :: l' => (if P w then 1 else 0) + countZ P l'
  end.

Fixpoint sumZ (f : Z -> Z) (l : list Z) : Z :=
  match l with
  | [] => 0
  | w :: l' => f w + sumZ f l'
  end.

(** A child that stops an upgrade by [uid]: locked by somebody else. *)
Definition foreignb (lockedBy : list Z) (uid c : Z) : bool :=
  lockedb lockedBy c && negb (vget lockedBy c =? uid).

(** The children that [mulSongs.cpp] pushes: unlocked, positive counter. *)
Definition pushb (lockedBy descLocked : list Z) (c : Z) : bool :=
  negb (lockedb lockedBy c) && (vget descLocked c >? 0).

(** The children that [Song_M] pushes: positive counter. *)
Definition pushMb (descLocked : list Z) (c : Z) : bool :=
  vget descLocked c >? 0.

(** A node at which the traversal of [mulSongs.cpp] does not go down:
    locked, or with a counter that is not positive. *)
Definition stoppedb (lockedBy descLocked : list Z) (y : Z) : bool :=
  lockedb lockedBy y || (vget descLocked y <=? 0).

(** Loop invariant of the traversal of [upgradeNode(v, uid)] in
    [mulSongs.cpp]: [acc] is [descendantsToUnlock], [st] is [nodesToVisit]. *)
Record visitInv (M N : Z) (lb dl : list Z) (uid v : Z) (acc st : list Z)
  : Prop := mkVisitInv {
  vi_acc : forall a, In a acc ->
             anc M v a /\ a < N /\ vget lb a = uid /\ lockedb lb a = true;
  vi_st : forall u, In u st -> (u = v \/ anc M v u) /\ 0 <= u < N;
  vi_acc_nodup : NoDup acc;
  vi_st_nodup : NoDup st;
  vi_st_indep : forall u1 u2, In u1 st -> In u2 st -> ~ anc M u1 u2;
  vi_acc_st : forall a u, In a acc -> In u st -> ~ anc M u a;
  vi_cover : forall x, anc M v x -> x < N -> lockedb lb x = true ->
               In x acc \/
               (exists u, In u st /\ anc M u x) \/
               (exists y, anc M v y /\ anc M y x /\ stoppedb lb dl y = true)
}.

(** Number of nodes in the subtree of [u], and the work left for a stack. *)
Definition subtreeSize (M N u : Z) : Z :=
  countZ (fun w => (u =? w) || ancb M u w) (nodes N).

Definition stackWork (M N : Z) (st : list Z) : Z := sumZ (subtreeSize M N) st.

(** Number of locked nodes strictly below [v], by a scan of all the nodes. *)
Definition lockedBelow (M N : Z) (lockedBy : list Z) (v : Z) : Z :=
  countZ (fun w => ancb M v w && lockedb lockedBy w) (nodes N).

(** I1: a locked node has no locked ancestor and no locked descendant. *)
Definition I1 (M N : Z) (lockedBy : list Z) : Prop :=
  forall v, 0 <= v < N -> lockedb lockedBy v = true ->
    (forall a, anc M a v -> lockedb lockedBy a = false) /\
    (forall d, 0 <= d < N -> anc M v d -> lockedb lockedBy d = false).

(** I2: every counter is the number of locked nodes strictly below. *)
Definition I2 (M N : Z) (lockedBy descLocked : list Z) : Prop :=
  forall v, 0 <= v < N -> vget descLocked v = lockedBelow M N lockedBy v.

(** The two invariants as brute-force checks over all the nodes. *)
Definition I1b (M N : Z) (lockedBy : list Z) : bool :=
  forallb (fun a =>
             negb (lockedb lockedBy a)
             || forallb (fun w => negb (ancb M a w && lockedb lockedBy w))
                        (nodes N))
          (nodes N).

Definition I2b (M N : Z) (lockedBy descLocked : list Z) : bool :=
  forallb (fun v => vget descLocked v =? lockedBelow M N lockedBy v) (nodes N).

(** A weaker form of I2: no counter is below the number of locked nodes
    strictly below its node. *)
Definition covered (M N : Z) (lockedBy descLocked : list Z) : Prop :=
  forall v, 0 <= v < N -> lockedBelow M N lockedBy v <= vget descLocked v.

Definition coveredb (M N : Z) (lockedBy descLocked : list Z) : bool :=
  forallb (fun v => lockedBelow M N lockedBy v <=? vget descLocked v) (nodes N).

(** The parent table that the constructors build. *)
Definition parentTable (N M : Z) : list Z :=
  fillParents (Z.to_nat (N - 1)) 1 M (assign N (-1)).

Module MulSongsSpec.
Import MulSongs.

(** What the constructor establishes and no operation changes: the shape
    of the vectors, the parent table, and a free spin lock between two
    operations. *)
Record wf (t : TreeLocker) : Prop := mkWf {
  wf_m : 1 <= m t;
  wf_n : 0 <= n t;
  wf_parent : parent t = parentTable (n t) (m t);
  wf_lockedBy : Z.of_nat (length (lockedBy t)) = n t;
  wf_descLocked : Z.of_nat (length (descLocked t)) = n t;
  wf_flag : lock_flag t = 0
}.

Definition consistent (t : TreeLocker) : Prop :=
  I1 (m t) (n t) (lockedBy t) /\ I2 (m t) (n t) (lockedBy t) (descLocked t).

(** What the traversal of [upgradeNode] relies on: I1, and counters that
    are not too small. *)
Definition sound (t : TreeLocker) : Prop :=
  I1 (m t) (n t) (lockedBy t) /\ covered (m t) (n t) (lockedBy t) (descLocked t).

Definition consistentb (t : TreeLocker) : bool :=
  I1b (m t) (n t) (lockedBy t) && I2b (m t) (n t) (lockedBy t) (descLocked t).

Definition soundb (t : TreeLocker) : bool :=
  I1b (m t) (n t) (lockedBy t)
  && coveredb (m t) (n t) (lockedBy t) (descLocked t).

(** The state after [lockedBy[v] = uid; updateAncestorDescLockCount(v, delta)]. *)
Definition after (t : TreeLocker) (v uid delta : Z) : TreeLocker :=
  mkTL (n t) (m t) (parent t) (vset (lockedBy t) v uid)
       (bump (m t) (descLocked t) v delta) (lock_flag t).

(** The state after the [for (int u : descendantsToUnlock)] loop. *)
Definition afterAll (t : TreeLocker) (us : list Z) : TreeLocker :=
  fold_left (fun t u => after t u 0 (-1)) us t.

(** The state after a successful [upgradeNode(v, uid)] that released [us]. *)
Definition upgraded (t : TreeLocker) (v uid : Z) (us : list Z) : TreeLocker :=
  after (afterAll t us) v uid 1.

(** The traversal of [upgradeNode(v, uid)] from the state [t]. *)
Definition traverse (t : TreeLocker) (v uid : Z) : option (bool * list Z) :=
  visit (n t) (m t) (lockedBy t) (descLocked t) uid
        (S (Z.to_nat (n t))) [] [v].

(** The three checks of [lockNode]. *)
Definition lockable (t : TreeLocker) (v : Z) : bool :=
  (vget (lockedBy t) v =? 0)
  && negb (existsb (lockedb (lockedBy t)) (ancestors (m t) v))
  && (vget (descLocked t) v =? 0).

(** The three checks at the head of [upgradeNode]. *)
Definition upgradable (t : TreeLocker) (v : Z) : bool :=
  (vget (lockedBy t) v =? 0)
  && negb (existsb (lockedb (lockedBy t)) (ancestors (m t) v))
  && negb (vget (descLocked t) v =? 0).

(** Node indices come from the name table, so they are in [0, n). *)
Definition in_range (t : TreeLocker) (o : Op) : Prop :=
  0 <= op_node o < n t.

(** A valid caller id is different from the sentinel.  [upgradeNode]
    compares the caller with the owners it finds, so only [Lock] and
    [Unlock] need the restriction. *)
Definition valid_caller (o : Op) : Prop :=
  match o with
  | Lock _ uid | Unlock _ uid => uid <> 0
  | Upgrade _ _ => True
  end.

(** The weaker restriction under which I1 alone survives: no [Unlock] by
    the sentinel. *)
Definition unlock_valid (o : Op) : Prop :=
  match o with
  | Unlock _ uid => uid <> 0
  | Lock _ _ | Upgrade _ _ => True
  end.

(** The state after [Lock(3, 0); Lock(3, 1); Lock(4, 1)] in the same tree:
    the first call has only incremented the counters of nodes 1 and 0. *)
Definition scenarioB_inflated : TreeLocker :=
  mkTL 7 2 (parentTable 7 2) [0; 0; 0; 1; 1; 0; 0] [3; 3; 0; 0; 0; 0; 0] 0.

(** The state after [Lock(3, 1); Lock(4, 1)] in the tree of scenario B of
    the specification (n = 7, m = 2). *)
Definition scenarioB_locked : TreeLocker :=
  mkTL 7 2 (parentTable 7 2) [0; 0; 0; 1; 1; 0; 0] [2; 2; 0; 0; 0; 0; 0] 0.

End MulSongsSpec.

(** *** Relating the two implementations *)

(** The [Song_M] state with the same tree, owners and counters, and with
    every mutex free. *)
Definition toM (t : MulSongs.TreeLocker) : SongM.TreeLocker :=
  SongM.mkTL (MulSongs.n t) (MulSongs.m t) (MulSongs.parent t)
             (MulSongs.lockedBy t) (MulSongs.descLocked t)
             (assign (MulSongs.n t) 0).

Section Reach.

Variables (M N : Z) (lb dl : list Z).

(** [reachM u x]: the traversal of [Song_M] examines [x] once it has
    popped [u]: [x] is below [u] and every node strictly between them has
    a positive counter. *)
Inductive reachM : Z -> Z -> Prop :=
| reach_kid : forall u c, 0 <= u -> In c (kids M N u) -> reachM u c
| reach_step : forall u c x,
    0 <= u -> In c (kids M N u) -> pushMb dl c = true -> reachM c x ->
    reachM u x.

(** A node under which the traversal of [Song_M] meets no locked node. *)
Definition inert (u : Z) : Prop :=
  forall x, reachM u x -> lockedb lb x = false.

(** The invariant that makes the extra visits of [Song_M] harmless: a
    locked node with a positive counter is inert. *)
Definition harmless : Prop :=
  forall w, 0 <= w -> lockedb lb w = true -> pushMb dl w = true -> inert w.

(** The stack of [mulSongs.cpp] is the stack of [Song_M] without some
    inert nodes. *)
Inductive stackSim : list Z -> list Z -> Prop :=
| sim_nil : stackSim [] []
| sim_both : forall u s1 s2, stackSim s1 s2 -> stackSim (u :: s1) (u :: s2)
| sim_skip : forall u s1 s2,
    0 <= u -> inert u -> stackSim s1 s2 -> stackSim s1 (u :: s2).

End Reach.

(** [harmless], for a state of [mulSongs.cpp]. *)
Definition harmlessT (t : MulSongs.TreeLocker) : Prop :=
  harmless (MulSongs.m t) (MulSongs.n t) (MulSongs.lockedBy t)
           (MulSongs.descLocked t).

(** *** Vocabulary for the properties of the code beyond the specification *)

(** The caller of an operation. *)
Definition op_uid (o : Op) : Z :=
  match o with Lock _ uid | Unlock _ uid | Upgrade _ uid => uid end.

(** The number of locks that are held. *)
Definition lockCount (t : MulSongs.TreeLocker) : Z :=
  countZ (lockedb (MulSongs.lockedBy t)) (nodes (MulSongs.n t)).

(** The index of the last occurrence of [name] among the names of the
    input, counted from [i]. *)
Fixpoint lastIndex (names : list String.string) (i : Z) (name : String.string)
  : option Z :=
  match names with
  | [] => None
  | x :: names' =>
      match lastIndex names' (i + 1) name with
      | Some j => Some j
      | None => if String.eqb name x then Some i else None
      end
  end.

(** The node that a query names: the last node of that name, and the root
    for a name that no node has. *)
Definition nodeOf (names : list String.string) (name : String.string) : Z :=
  match lastIndex names 0 name with
  | Some i => i
  | None => 0
  end.

(** The query that [main] builds from a line of the input. *)
Definition resolve (names : list String.string) (x : InputQuery)
  : MulSongsMain.Query :=
  MulSongsMain.mkQuery (in_op x) (nodeOf names (in_node x))
                       (to_int (in_uid x)) false.

(** The queries answered one at a time, in the order of the input. *)
Fixpoint sequential (tl : MulSongs.TreeLocker) (qs : list MulSongsMain.Query)
  : option (list String.string * MulSongs.TreeLocker) :=
  match qs with
  | [] => Some ([], tl)
  | q :: qs' =>
      r <- MulSongsMain.dispatch tl q ;;
      r' <- sequential (snd r) qs' ;;
      Some (print (fst r) :: fst r', snd r')
  end.

(** The items that a sequence of queue operations pushes, and the items
    that it pops. *)
Inductive QueueOp : Type :=
| Push (q : MulSongsMain.Query)
| Pop.

Fixpoint pushed (ops : list QueueOp) : list MulSongsMain.Query :=
  match ops with
  | [] => []
  | Push q :: ops' => q :: pushed ops'
  | Pop :: ops' => pushed ops'
  end.

(** A sequence of [push] and [pop] calls on a queue; the result is the
    list of the items that the successful [pop]s delivered, in order. *)
Fixpoint queueRun (s : MulSongsMain.ThreadSafeQueue) (ops : list QueueOp)
  : option (list MulSongsMain.Query * MulSongsMain.ThreadSafeQueue) :=
  match ops with
  | [] => Some ([], s)
  | Push q :: ops' =>
      s' <- MulSongsMain.push s q ;;
      queueRun s' ops'
  | Pop :: ops' =>
      r <- MulSongsMain.pop s (MulSongsMain.mkQuery 0 0 0 false) ;;
      let '(ok, q, s') := r in
      r' <- queueRun s' ops' ;;
      Some ((if ok then [q] else []) ++ fst r', snd r')
  end.

(** A [Song_M] state with the tree, owners and counters of [t] and the
    mutexes [mx]. *)
Definition withMx (t : MulSongs.TreeLocker) (mx : list Z) : SongM.TreeLocker :=
  SongM.set_nodeMx (toM t) mx.

(** The nodes whose mutexes are enough for an operation of [Song_M]: the
    node, its ancestors and, for an upgrade, the locked nodes below. *)
Definition footprint (t : MulSongs.TreeLocker) (o : Op) (x : Z) : Prop :=
  x = op_node o \/ anc (MulSongs.m t) x (op_node o) \/
  match o with
  | Upgrade v _ =>
      0 <= x < MulSongs.n t /\ anc (MulSongs.m t) v x /\
      lockedb (MulSongs.lockedBy t) x = true
  | Lock _ _ | Unlock _ _ => False
  end.

(** The number of rounds that a thread takes in a schedule. *)
Fixpoint turns (th : MulSongsMain.Thread) (sch : list MulSongsMain.Thread)
  : nat :=
  match sch with
  | [] => O
  | x :: sch' =>
      match th, x with
      | MulSongsMain.MainThread, MulSongsMain.MainThread
      | MulSongsMain.WorkerThread, MulSongsMain.WorkerThread =>
          S (turns th sch')
      | _, _ => turns th sch'
      end
  end.

(** Where an execution of the two threads of [mulSongs.cpp] stands when
    [main] has pushed [k] items and the worker has popped [h] of them. *)
Section Threads.

Variables (names : list String.string) (N M : Z) (qs : list InputQuery)
          (q0 : MulSongsMain.Query).

(** Everything that [main] pushes: the queries, then the sentinel. *)
Definition sent : list MulSongsMain.Query :=
  map (resolve names) qs
  ++ [MulSongsMain.mkQuery (MulSongsMain.op q0) (MulSongsMain.node_id q0)
                           (MulSongsMain.uid q0) true].

Record threadsAt (k h : nat) (p : MulSongsMain.Process) : Prop := mkThreadsAt {
  ta_le : (h <= k <= S (length qs))%nat;
  ta_cin : MulSongsMain.cin p = skipn k qs;
  ta_sentinel : MulSongsMain.sentinel_pushed p = (length qs <? k)%nat;
  ta_names : forall name,
    fst (fetch (MulSongsMain.name_to_id p) name) = nodeOf names name;
  ta_data : MulSongsMain.data (MulSongsMain.queue p) = firstn k sent;
  ta_head : MulSongsMain.head (MulSongsMain.queue p) = Z.of_nat h;
  ta_lock : MulSongsMain.spinlock (MulSongsMain.queue p) = 0;
  ta_done : MulSongsMain.worker_returned p = (length qs <? h)%nat;
  ta_out : sequential (MulSongs.newTreeLocker N M)
                      (firstn h (map (resolve names) qs))
           = Some (MulSongsMain.cout p, MulSongsMain.tl p);
  ta_wf : MulSongsSpec.wf (MulSongsMain.tl p);
  ta_n : MulSongs.n (MulSongsMain.tl p) = N
}.

End Threads.

(** What an operation of [mulSongs.cpp] does when its checks pass: for
    each node that it writes, the new owner and the amount that it adds
    to the counters of the ancestors of the node. *)
Definition edits (t : MulSongs.TreeLocker) (o : Op) : list (Z * Z * Z) :=
  match o with
  | Lock v uid => [(v, uid, 1)]
  | Unlock v uid => [(v, 0, -1)]
  | Upgrade v uid =>
      match MulSongsSpec.traverse t v uid with
      | Some (_, L) => map (fun u => (u, 0, -1)) L ++ [(v, uid, 1)]
      | None => []
      end
  end.

Definition applyEdits (t : MulSongs.TreeLocker) (es : list (Z * Z * Z))
  : MulSongs.TreeLocker :=
  fold_left (fun t e => MulSongsSpec.after t (fst (fst e)) (snd (fst e)) (snd e))
            es t.

(** Whether the checks of an operation pass. *)
Definition permitted (t : MulSongs.TreeLocker) (o : Op) : bool :=
  match o with
  | Lock v _ => MulSongsSpec.lockable t v
  | Unlock v uid => vget (MulSongs.lockedBy t) v =? uid
  | Upgrade v uid =>
      MulSongsSpec.upgradable t v
      && match MulSongsSpec.traverse t v uid with
         | Some (b, _) => b
         | None => false
         end
  end.

(** Two nodes of which neither is the other nor above the other. *)
Definition unrelated (M u v : Z) : Prop :=
  u <> v /\ ~ anc M u v /\ ~ anc M v u.

(** What an operation on [u] reads: the owners of [u], of the nodes above
    and of the nodes below, and the counters of [u] and of the nodes
    below. *)
Definition sameView (M u : Z) (t t' : MulSongs.TreeLocker) : Prop :=
  (forall x, 0 <= x -> x = u \/ anc M x u \/ anc M u x ->
     vget (MulSongs.lockedBy t) x = vget (MulSongs.lockedBy t') x) /\
  (forall x, 0 <= x -> x = u \/ anc M u x ->
     vget (MulSongs.descLocked t) x = vget (MulSongs.descLocked t') x).

(** A state whose counters leave room for one operation: no sum that
    the operation computes leaves the range of [int]. *)
Definition hasRoom (t : MulSongs.TreeLocker) : Prop :=
  forall y, 0 <= y < MulSongs.n t ->
    - 2 ^ 31 + MulSongs.n t <= vget (MulSongs.descLocked t) y /\
    vget (MulSongs.descLocked t) y + 1 < 2 ^ 31.

(** The effect of [updateAncestorDescLockCount(v, delta)] on [int]
    counters. *)
Definition bumpInt (M : Z) (d : list Z) (v delta : Z) : list Z :=
  fold_left (fun d p => vset d p (int_add (vget d p) delta)) (ancestors M v) d.

(** The state after [lockedBy[v] = uid; updateAncestorDescLockCount(v, delta)]
    with [int] counters. *)
Definition afterInt (t : MulSongs.TreeLocker) (v uid delta : Z)
  : MulSongs.TreeLocker :=
  MulSongs.mkTL (MulSongs.n t) (MulSongs.m t) (MulSongs.parent t)
                (vset (MulSongs.lockedBy t) v uid)
                (bumpInt (MulSongs.m t) (MulSongs.descLocked t) v delta)
                (MulSongs.lock_flag t).

(** The tree of 7 nodes with nothing locked and the counters of nodes 1
    and 0 at [k], as [int]s: the state after [k] calls [Lock(3, 0)]. *)
Definition inflatedState (k : Z) : MulSongs.TreeLocker :=
  MulSongs.mkTL 7 2 (parentTable 7 2) [0; 0; 0; 0; 0; 0; 0]
                [to_int k; to_int k; 0; 0; 0; 0; 0] 0.

(** A run without any [Unlock] in which the counter of node 1 goes from 0
    up to the largest [int], round to the smallest, and up to -1: the next
    [Lock] of node 3 brings it to 0 with node 3 locked. *)
Definition lockRun : list Op :=
  repeat (Lock 3 0) (Z.to_nat (2 ^ 32 - 1)) ++ [Lock 3 5; Lock 1 9].

(** The tree of 7 nodes with nodes 1 and 3 locked by caller 7, the counter
    of node 1 at [x] and the counter of the root at [y], as [int]s. *)
Definition wrappedState (x y : Z) : MulSongs.TreeLocker :=
  MulSongs.mkTL 7 2 (parentTable 7 2) [0; 7; 0; 7; 0; 0; 0]
                [to_int y; to_int x; 0; 0; 0; 0; 0] 0.

Definition wrappedStateM (x y : Z) : SongM.TreeLocker :=
  SongM.mkTL 7 2 (parentTable 7 2) [0; 7; 0; 7; 0; 0; 0]
             [to_int y; to_int x; 0; 0; 0; 0; 0] [0; 0; 0; 0; 0; 0; 0].

(** A run in which a counter goes once around the range of [int]: node 3
    is locked, an [Unlock] by caller 0 takes the counters of nodes 1 and 0
    down again, node 1 is locked above node 3, and 2^32 - 1 further
    [Unlock]s by caller 0 take the counter of node 1 from 0 round to 1. *)
Definition longRun : list Op :=
  [Lock 3 7; Unlock 4 0; Lock 1 7]
  ++ repeat (Unlock 4 0) (Z.to_nat (2 ^ 32 - 1))
  ++ [Upgrade 0 7].

(* ================================================================== *)
(** * Proofs *)
(* ================================================================== *)

(** ** Vectors *)

Lemma upd_length : forall l i x, length (upd l i x) = length l.
Proof.
  induction l as [|y l IH]; intros [|i] x; simpl; auto.
Qed.

Lemma upd_nth_same : forall l i x,
  (i < length l)%nat -> nth i (upd l i x) 0 = x.
Proof.
  induction l as [|y l IH]; intros [|i] x H; simpl in *; try lia; auto.
  apply IH. lia.
Qed.

Lemma upd_nth_other : forall l i j x,
  i <> j -> nth j (upd l i x) 0 = nth j l 0.
Proof.
  induction l as [|y l IH]; intros [|i] [|j] x H; simpl; auto; try congruence.
Qed.

Lemma vset_length : forall l i x, length (vset l i x) = length l.
Proof. intros. apply upd_length. Qed.

Lemma vget_vset_same : forall l i x,
  0 <= i < Z.of_nat (length l) -> vget (vset l i x) i = x.
Proof.
  intros l i x H. unfold vget, vset. apply upd_nth_same. lia.
Qed.

Lemma vget_vset_other : forall l i j x,
  0 <= i -> 0 <= j -> i <> j -> vget (vset l i x) j = vget l j.
Proof.
  intros l i j x Hi Hj H. unfold vget, vset. apply upd_nth_other. lia.
Qed.

Lemma vget_vset : forall l i j x,
  0 <= i < Z.of_nat (length l) -> 0 <= j ->
  vget (vset l i x) j = if j =? i then x else vget l j.
Proof.
  intros l i j x Hi Hj. destruct (Z.eqb_spec j i) as [->|Hne].
  - apply vget_vset_same; assumption.
  - apply vget_vset_other; lia.
Qed.

Lemma vget_assign : forall N x i, 0 <= i < N -> vget (assign N x) i = x.
Proof.
  intros N x i H. unfold vget, assign.
  apply nth_repeat_lt. lia.
Qed.

Lemma assign_length : forall N x, 0 <= N -> Z.of_nat (length (assign N x)) = N.
Proof. intros. unfold assign. rewrite repeat_length. lia. Qed.

(** Two vectors of the same length with the same entries are equal. *)
Lemma vec_ext : forall l1 l2 : list Z,
  length l1 = length l2 ->
  (forall i, 0 <= i < Z.of_nat (length l1) -> vget l1 i = vget l2 i) ->
  l1 = l2.
Proof.
  intros l1 l2 Hlen H. apply (nth_ext l1 l2 0 0 Hlen).
  intros k Hk. specialize (H (Z.of_nat k)).
  unfold vget in H. rewrite Nat2Z.id in H. apply H. lia.
Qed.

Example scenario_A :
  option_map fst
    (MulSongs.run (MulSongs.newTreeLocker 7 2)
       [Lock 3 5; Lock 1 9; Unlock 3 5; Lock 1 9])
  = Some [true; false; true; true].
Proof. vm_compute. reflexivity. Qed.

Example scenario_B :
  option_map (fun r => (fst r, MulSongs.lockedBy (snd r), MulSongs.descLocked (snd r)))
    (MulSongs.run (MulSongs.newTreeLocker 7 2)
       [Lock 3 1; Lock 4 1; Upgrade 1 1])
  = Some ([true; true; true], [0;1;0;0;0;0;0], [1;0;0;0;0;0;0]).
Proof. vm_compute. reflexivity. Qed.

Example scenario_C :
  option_map (fun r => (fst r, MulSongs.lockedBy (snd r)))
    (MulSongs.run (MulSongs.newTreeLocker 7 2) [Lock 3 1; Upgrade 1 2])
  = Some ([true; false], [0;0;0;1;0;0;0]).
Proof. vm_compute. reflexivity. Qed.

Example scenario_B_fine :
  option_map (fun r => (fst r, SongM.lockedBy (snd r), SongM.descLocked (snd r),
                        SongM.nodeMx (snd r)))
    (SongM.run (SongM.newTreeLocker 7 2)
       [Lock 3 1; Lock 4 1; Upgrade 1 1; Upgrade 0 2; Unlock 1 1])
  = Some ([true; true; true; false; true], [0;0;0;0;0;0;0], [0;0;0;0;0;0;0],
          [0;0;0;0;0;0;0]).
Proof. vm_compute. reflexivity. Qed.

(** ** The shape of the tree *)

Section TreeShapeFacts.

Variable M : Z.
Hypothesis HM : 1 <= M.

Lemma parentOf_range : forall w, 0 < w -> 0 <= parentOf M w < w.
Proof.
  intros w Hw. unfold parentOf. split.
  - apply Z.div_pos; lia.
  - assert (H : (w - 1) / M <= w - 1).
    { apply Z.div_le_upper_bound; [lia|]. nia. }
    lia.
Qed.

Lemma anc_range : forall a w, anc M a w -> 0 <= a < w.
Proof.
  induction 1 as [w Hw | a w Hw _ IH].
  - apply parentOf_range; assumption.
  - pose proof (parentOf_range w Hw). lia.
Qed.

Lemma anc_irrefl : forall a, ~ anc M a a.
Proof. intros a H. apply anc_range in H. lia. Qed.

Lemma anc_trans : forall a b c, anc M a b -> anc M b c -> anc M a c.
Proof.
  intros a b c Hab Hbc. induction Hbc as [w Hw | b w Hw _ IH].
  - apply anc_up; assumption.
  - apply anc_up; auto.
Qed.

Lemma anc_inv : forall a w,
  anc M a w -> 0 < w /\ (a = parentOf M w \/ anc M a (parentOf M w)).
Proof. intros a w H. inversion H; subst; auto. Qed.

Lemma anc_asym : forall a b, anc M a b -> anc M b a -> False.
Proof.
  intros a b H1 H2. apply anc_range in H1. apply anc_range in H2. lia.
Qed.

(** The ancestors of a node form a chain. *)
Lemma anc_chain : forall a b w,
  anc M a w -> anc M b w -> a = b \/ anc M a b \/ anc M b a.
Proof.
  intros a b w Ha. revert b.
  induction Ha as [w Hw | a w Hw Ha IH]; intros b Hb.
  - apply anc_inv in Hb. destruct Hb as [_ [->|Hb]]; auto.
  - apply anc_inv in Hb. destruct Hb as [_ [->|Hb]]; auto.
Qed.

(** A node strictly between a node and its child does not exist. *)
Lemma anc_parent_between : forall u c y,
  0 < c -> parentOf M c = u -> anc M u y -> anc M y c -> False.
Proof.
  intros u c y Hc Hp Huy Hyc.
  apply anc_inv in Hyc. destruct Hyc as [_ [E|H]].
  - subst. exact (anc_irrefl _ Huy).
  - rewrite Hp in H. exact (anc_asym _ _ Huy H).
Qed.

(** Below a node: one of its children, or below one of its children. *)
Lemma anc_via_child : forall u x,
  anc M u x ->
  exists c, 0 < c /\ parentOf M c = u /\ (c = x \/ anc M c x).
Proof.
  induction 1 as [w Hw | a w Hw Ha IH].
  - exists w. auto.
  - destruct IH as [c [Hc [Hp [E|Hcx]]]].
    + exists c. repeat split; auto. right. subst c. apply anc_parent. exact Hw.
    + exists c. repeat split; auto. right.
      eapply anc_trans; [exact Hcx|]. apply anc_parent. exact Hw.
Qed.

(** Two different children of one node have disjoint subtrees. *)
Lemma siblings_not_anc : forall c1 c2,
  0 < c1 -> 0 < c2 -> parentOf M c1 = parentOf M c2 -> ~ anc M c1 c2.
Proof.
  intros c1 c2 H1 H2 E H. apply anc_inv in H. destruct H as [_ [E'|H]].
  - pose proof (parentOf_range c1 H1). lia.
  - rewrite <- E in H. apply anc_range in H.
    pose proof (parentOf_range c1 H1). lia.
Qed.

Lemma siblings_disjoint : forall c1 c2 w,
  0 < c1 -> 0 < c2 -> parentOf M c1 = parentOf M c2 -> c1 <> c2 ->
  (c1 = w \/ anc M c1 w) -> (c2 = w \/ anc M c2 w) -> False.
Proof.
  intros c1 c2 w H1 H2 E Hne [E1|A1] [E2|A2]; subst.
  - congruence.
  - eapply siblings_not_anc with (c1 := c2) (c2 := w); eauto.
  - eapply siblings_not_anc with (c1 := c1) (c2 := w); eauto.
  - destruct (anc_chain _ _ _ A1 A2) as [?|[H|H]]; [congruence| |].
    + eapply siblings_not_anc with (c1 := c1) (c2 := c2); eauto.
    + eapply siblings_not_anc with (c1 := c2) (c2 := c1); eauto.
Qed.

Lemma ancestors_fuel_stable : forall f1 f2 v,
  (Z.to_nat v <= f1)%nat -> (Z.to_nat v <= f2)%nat ->
  ancestors_fuel M f1 v = ancestors_fuel M f2 v.
Proof.
  induction f1 as [|f1 IH]; intros [|f2] v H1 H2; simpl; auto.
  - destruct (Z.ltb_spec 0 v); [lia|reflexivity].
  - destruct (Z.ltb_spec 0 v); [lia|reflexivity].
  - destruct (Z.ltb_spec 0 v) as [Hv|Hv]; [|reflexivity].
    pose proof (parentOf_range v Hv). f_equal. apply IH; lia.
Qed.

Lemma ancestors_pos : forall v,
  0 < v -> ancestors M v = parentOf M v :: ancestors M (parentOf M v).
Proof.
  intros v Hv. unfold ancestors.
  destruct (Z.to_nat v) as [|f] eqn:E; [lia|]. simpl.
  destruct (Z.ltb_spec 0 v); [|lia].
  pose proof (parentOf_range v Hv). f_equal.
  apply ancestors_fuel_stable; lia.
Qed.

Lemma ancestors_nonpos : forall v, v <= 0 -> ancestors M v = [].
Proof.
  intros v Hv. unfold ancestors.
  replace (Z.to_nat v) with 0%nat by lia. reflexivity.
Qed.

(** Induction along the parent links. *)
Lemma node_ind : forall P : Z -> Prop,
  (forall v, v <= 0 -> P v) ->
  (forall v, 0 < v -> P (parentOf M v) -> P v) ->
  forall v, P v.
Proof.
  intros P H0 HS v.
  assert (H : forall k v, (Z.to_nat v <= k)%nat -> P v).
  { induction k as [|k IH]; intros w Hw.
    - apply H0; lia.
    - destruct (Z_lt_le_dec 0 w) as [Hp|Hp]; [|apply H0; exact Hp].
      apply HS; [exact Hp|]. apply IH.
      pose proof (parentOf_range w Hp). lia. }
  apply (H (Z.to_nat v)). lia.
Qed.

Lemma In_ancestors : forall v a, In a (ancestors M v) <-> anc M a v.
Proof.
  intros v. pattern v. apply node_ind; clear v.
  - intros v Hv a. rewrite ancestors_nonpos by exact Hv. split.
    + intros [].
    + intros H. apply anc_range in H. lia.
  - intros v Hv IH a. rewrite ancestors_pos by exact Hv. simpl. split.
    + intros [<-|H]; [apply anc_parent; exact Hv|].
      apply anc_up; [exact Hv|]. apply IH. exact H.
    + intros H. apply anc_inv in H. destruct H as [_ [->|H]]; [auto|].
      right. apply IH. exact H.
Qed.

Lemma ancb_true : forall a w, ancb M a w = true <-> anc M a w.
Proof.
  intros a w. unfold ancb. rewrite existsb_exists. split.
  - intros [x [Hin E]]. apply Z.eqb_eq in E. subst x.
    apply In_ancestors. exact Hin.
  - intros H. exists a. split; [apply In_ancestors; exact H|apply Z.eqb_refl].
Qed.

Lemma ancb_false : forall a w, ancb M a w = false <-> ~ anc M a w.
Proof.
  intros a w. rewrite <- ancb_true. destruct (ancb M a w); split; congruence.
Qed.

Lemma NoDup_ancestors : forall v, NoDup (ancestors M v).
Proof.
  intros v. pattern v. apply node_ind; clear v.
  - intros v Hv. rewrite ancestors_nonpos by exact Hv. constructor.
  - intros v Hv IH. rewrite ancestors_pos by exact Hv. constructor; [|exact IH].
    intros H. apply In_ancestors in H. exact (anc_irrefl _ H).
Qed.

(** *** Children *)

Lemma In_kidsFrom : forall N k c x,
  In x (kidsFrom N k c) <-> c <= x < c + Z.of_nat k /\ x < N.
Proof.
  intros N. induction k as [|k IH]; intros c x; simpl.
  - split; [intros []|lia].
  - destruct (Z.geb_spec c N) as [H|H]; simpl.
    + split; [intros []|lia].
    + rewrite IH. split.
      * intros [->|H']; lia.
      * intros H'. destruct (Z.eq_dec c x); [left; auto|right; lia].
Qed.

Lemma NoDup_kidsFrom : forall N k c, NoDup (kidsFrom N k c).
Proof.
  intros N. induction k as [|k IH]; intros c; simpl.
  - constructor.
  - destruct (c >=? N); [constructor|].
    constructor; [|apply IH].
    rewrite In_kidsFrom. lia.
Qed.

Lemma parentOf_child : forall u c,
  parentOf M c = u <-> u * M + 1 <= c <= u * M + M.
Proof.
  intros u c. unfold parentOf. split.
  - intros <-.
    pose proof (Z.div_mod (c - 1) M ltac:(lia)).
    pose proof (Z.mod_pos_bound (c - 1) M ltac:(lia)). nia.
  - intros H. symmetry. apply (Z.div_unique (c - 1) M u (c - 1 - u * M)); lia.
Qed.

Lemma In_kids : forall N u c,
  0 <= u -> (In c (kids M N u) <-> 0 < c < N /\ parentOf M c = u).
Proof.
  intros N u c Hu. unfold kids. rewrite In_kidsFrom, parentOf_child.
  rewrite Z2Nat.id by lia. nia.
Qed.

Lemma NoDup_kids : forall N u, NoDup (kids M N u).
Proof. intros. apply NoDup_kidsFrom. Qed.

Lemma kid_anc : forall N u c, 0 <= u -> In c (kids M N u) -> anc M u c.
Proof.
  intros N u c Hu H. apply In_kids in H; [|exact Hu].
  destruct H as [[Hc _] <-]. apply anc_parent. exact Hc.
Qed.

End TreeShapeFacts.

(** ** The parent table and the two loops over the ancestors *)

Lemma fillParents_length : forall k i M par,
  length (fillParents k i M par) = length par.
Proof.
  induction k as [|k IH]; intros i M par; simpl; [reflexivity|].
  rewrite IH. apply vset_length.
Qed.

Lemma fillParents_get : forall k i M par v,
  0 <= i -> i + Z.of_nat k <= Z.of_nat (length par) -> 0 <= v ->
  vget (fillParents k i M par) v =
  if (i <=? v) && (v <? i + Z.of_nat k) then Z.quot (v - 1) M else vget par v.
Proof.
  induction k as [|k IH]; intros i M par v Hi Hk Hv; simpl fillParents.
  - destruct (Z.leb_spec i v), (Z.ltb_spec v (i + Z.of_nat 0)); simpl; auto; lia.
  - rewrite IH; [|lia|rewrite vset_length; lia|lia].
    rewrite vget_vset by lia.
    destruct (Z.leb_spec (i + 1) v), (Z.ltb_spec v (i + 1 + Z.of_nat k)),
      (Z.leb_spec i v), (Z.ltb_spec v (i + Z.of_nat (S k))),
      (Z.eqb_spec v i); simpl; subst; auto; lia.
Qed.

Section Loops.

Variables N M : Z.
Hypothesis HM : 1 <= M.
Hypothesis HN : 0 <= N.

Lemma parentTable_length : Z.of_nat (length (parentTable N M)) = N.
Proof.
  unfold parentTable. rewrite fillParents_length. apply assign_length. exact HN.
Qed.

Lemma parentTable_get : forall v,
  0 <= v < N ->
  vget (parentTable N M) v = if v =? 0 then -1 else parentOf M v.
Proof.
  intros v Hv. unfold parentTable.
  rewrite fillParents_get; [| lia | rewrite assign_length by lia; lia | lia].
  rewrite vget_assign by lia.
  destruct (Z.leb_spec 1 v), (Z.ltb_spec v (1 + Z.of_nat (Z.to_nat (N - 1)))),
    (Z.eqb_spec v 0); simpl; auto; try lia.
  unfold parentOf. apply Z.quot_div_nonneg; lia.
Qed.

Lemma parentTable_next : forall p,
  0 <= p < N -> -1 <= vget (parentTable N M) p < p.
Proof.
  intros p Hp. rewrite parentTable_get by exact Hp.
  destruct (Z.eqb_spec p 0); [lia|].
  pose proof (parentOf_range M HM p ltac:(lia)). lia.
Qed.

Lemma upFrom_parent : forall v,
  0 <= v < N -> upFrom M (vget (parentTable N M) v) = ancestors M v.
Proof.
  intros v Hv. rewrite parentTable_get by exact Hv. unfold upFrom.
  destruct (Z.eqb_spec v 0) as [->|Hne]; simpl.
  - rewrite ancestors_nonpos by lia. reflexivity.
  - pose proof (parentOf_range M HM v ltac:(lia)).
    destruct (Z.eqb_spec (parentOf M v) (-1)); [lia|].
    symmetry. apply ancestors_pos; lia.
Qed.

Lemma lockedAncestor_loop_spec : forall fuel lb p,
  -1 <= p < N -> (Z.to_nat (p + 1) < fuel)%nat ->
  lockedAncestor_loop fuel (parentTable N M) lb p
  = Some (existsb (lockedb lb) (upFrom M p)).
Proof.
  induction fuel as [|fuel IH]; intros lb p Hp Hf; [lia|].
  simpl. unfold upFrom at 1.
  destruct (Z.eqb_spec p (-1)) as [->|Hne]; [reflexivity|].
  simpl. unfold lockedb at 1.
  destruct (negb (vget lb p =? 0)) eqn:E; [reflexivity|]. simpl.
  pose proof (parentTable_next p ltac:(lia)).
  rewrite IH by lia. rewrite upFrom_parent by lia. reflexivity.
Qed.

Lemma lockedAncestor_spec : forall lb v,
  0 <= v < N ->
  lockedAncestor_loop (S (Z.to_nat N)) (parentTable N M) lb
                      (vget (parentTable N M) v)
  = Some (existsb (lockedb lb) (ancestors M v)).
Proof.
  intros lb v Hv. pose proof (parentTable_next v Hv).
  rewrite lockedAncestor_loop_spec by lia.
  rewrite upFrom_parent by exact Hv. reflexivity.
Qed.

Lemma addAncestors_loop_spec : forall fuel d p delta,
  -1 <= p < N -> (Z.to_nat (p + 1) < fuel)%nat ->
  addAncestors_loop fuel (parentTable N M) d p delta
  = Some (fold_left (fun d p => vset d p (vget d p + delta)) (upFrom M p) d).
Proof.
  induction fuel as [|fuel IH]; intros d p delta Hp Hf; [lia|].
  simpl. unfold upFrom at 1.
  destruct (Z.eqb_spec p (-1)) as [->|Hne]; [reflexivity|].
  simpl. pose proof (parentTable_next p ltac:(lia)).
  rewrite IH by lia. rewrite upFrom_parent by lia. reflexivity.
Qed.

Lemma addAncestors_spec : forall d v delta,
  0 <= v < N ->
  addAncestors_loop (S (Z.to_nat N)) (parentTable N M) d
                    (vget (parentTable N M) v) delta
  = Some (bump M d v delta).
Proof.
  intros d v delta Hv. pose proof (parentTable_next v Hv).
  rewrite addAncestors_loop_spec by lia.
  rewrite upFrom_parent by exact Hv. reflexivity.
Qed.

Lemma fold_add_length : forall (l : list Z) d delta,
  length (fold_left (fun d p => vset d p (vget d p + delta)) l d) = length d.
Proof.
  induction l as [|x l IH]; intros d delta; simpl; [reflexivity|].
  rewrite IH. apply vset_length.
Qed.

Lemma fold_add_get : forall (l : list Z) d delta w,
  NoDup l -> (forall x, In x l -> 0 <= x < Z.of_nat (length d)) -> 0 <= w ->
  vget (fold_left (fun d p => vset d p (vget d p + delta)) l d) w
  = vget d w + (if existsb (Z.eqb w) l then delta else 0).
Proof.
  induction l as [|x l IH]; intros d delta w Hnd Hr Hw; simpl.
  - lia.
  - inversion Hnd as [|? ? Hx Hnd']; subst.
    rewrite IH; [| exact Hnd'
                 | intros y Hy; rewrite vset_length; apply Hr; right; exact Hy
                 | exact Hw].
    rewrite vget_vset; [| apply Hr; left; reflexivity | exact Hw].
    destruct (Z.eqb_spec w x) as [->|Hne]; simpl.
    + destruct (existsb (Z.eqb x) l) eqn:E; [|lia].
      apply existsb_exists in E. destruct E as [y [Hy E]].
      apply Z.eqb_eq in E. subst y. contradiction.
    + reflexivity.
Qed.

Lemma bump_length : forall d v delta, length (bump M d v delta) = length d.
Proof. intros. apply fold_add_length. Qed.

Lemma bump_get : forall d v delta w,
  v <= Z.of_nat (length d) -> 0 <= w ->
  vget (bump M d v delta) w = vget d w + (if ancb M w v then delta else 0).
Proof.
  intros d v delta w Hv Hw. unfold bump, ancb.
  apply fold_add_get; [apply NoDup_ancestors; exact HM| |exact Hw].
  intros x Hx. apply In_ancestors in Hx; [|exact HM].
  apply anc_range in Hx; [|exact HM]. lia.
Qed.

End Loops.

(** ** [mulSongs.cpp]: [lockNode] and [unlockNode] *)

Module MulSongsFacts.
Import MulSongs MulSongsSpec.

Lemma spin_unlock_lock : forall t,
  lock_flag t = 0 -> spin_unlock (set_lock_flag t 1) = t.
Proof. intros [] H. simpl in *. subst. reflexivity. Qed.

Lemma hasLockedAncestor_eq : forall t v,
  wf t -> 0 <= v < n t ->
  hasLockedAncestor t v
  = Some (existsb (lockedb (lockedBy t)) (ancestors (m t) v)).
Proof.
  intros t v W Hv. unfold hasLockedAncestor. rewrite (wf_parent t W).
  apply lockedAncestor_spec; [apply W|apply W|exact Hv].
Qed.

Lemma updateAncestorDescLockCount_eq : forall t v delta,
  parent t = parentTable (n t) (m t) -> 1 <= m t -> 0 <= v < n t ->
  updateAncestorDescLockCount t v delta
  = Some (set_descLocked t (bump (m t) (descLocked t) v delta)).
Proof.
  intros t v delta Hp HM Hv. unfold updateAncestorDescLockCount.
  rewrite Hp. rewrite addAncestors_spec by (auto; lia). reflexivity.
Qed.

Lemma hasLockedAncestor_flag : forall t f v,
  hasLockedAncestor (set_lock_flag t f) v = hasLockedAncestor t v.
Proof. reflexivity. Qed.

Ltac fields :=
  cbn [bind lockedBy descLocked n m parent lock_flag
       set_lock_flag set_lockedBy set_descLocked spin_unlock].

(** [lockNode] always returns, and in closed form. *)
Lemma lockNode_eq : forall t v uid,
  wf t -> 0 <= v < n t ->
  lockNode t v uid
  = Some (if lockable t v then (true, after t v uid 1) else (false, t)).
Proof.
  intros t v uid W Hv. unfold lockNode, spin_lock, lockable.
  rewrite (wf_flag t W). cbn [Z.eqb]. fields.
  rewrite hasLockedAncestor_flag, (hasLockedAncestor_eq t v W Hv).
  pose proof (spin_unlock_lock t (wf_flag t W)) as E.
  rewrite E.
  destruct (vget (lockedBy t) v =? 0); cbn [negb andb]; [|reflexivity].
  fields.
  destruct (existsb (lockedb (lockedBy t)) (ancestors (m t) v));
    cbn [negb andb]; [reflexivity|].
  destruct (vget (descLocked t) v =? 0); cbn [negb andb]; [|reflexivity].
  rewrite updateAncestorDescLockCount_eq;
    [| apply W | apply W | exact Hv].
  fields. unfold after, spin_unlock. fields. rewrite (wf_flag t W). reflexivity.
Qed.

Lemma unlockNode_eq : forall t v uid,
  wf t -> 0 <= v < n t ->
  unlockNode t v uid
  = Some (if vget (lockedBy t) v =? uid
          then (true, after t v 0 (-1)) else (false, t)).
Proof.
  intros t v uid W Hv. unfold unlockNode, spin_lock.
  rewrite (wf_flag t W). cbn [Z.eqb]. fields.
  pose proof (spin_unlock_lock t (wf_flag t W)) as E.
  rewrite E.
  destruct (vget (lockedBy t) v =? uid); cbn [negb]; [|reflexivity].
  rewrite updateAncestorDescLockCount_eq;
    [| apply W | apply W | exact Hv].
  fields. unfold after, spin_unlock. fields. rewrite (wf_flag t W). reflexivity.
Qed.

Lemma wf_after : forall t v uid delta, wf t -> wf (after t v uid delta).
Proof.
  intros t v uid delta W. destruct W. constructor; simpl; auto.
  - rewrite vset_length. assumption.
  - rewrite bump_length. assumption.
Qed.

Lemma wf_new : forall N M, 1 <= M -> 0 <= N -> wf (newTreeLocker N M).
Proof.
  intros N M HM HN. constructor; simpl; auto.
  - apply assign_length; exact HN.
  - apply assign_length; exact HN.
Qed.

(** Reading the state after [lockedBy[v] = uid] and the update of the
    ancestors' counters. *)
Lemma after_lockedBy : forall t v uid delta w,
  wf t -> 0 <= v < n t -> 0 <= w ->
  vget (lockedBy (after t v uid delta)) w
  = if w =? v then uid else vget (lockedBy t) w.
Proof.
  intros t v uid delta w W Hv Hw. simpl.
  apply vget_vset; [rewrite (wf_lockedBy t W); exact Hv|exact Hw].
Qed.

Lemma after_descLocked : forall t v uid delta w,
  wf t -> 0 <= v < n t -> 0 <= w ->
  vget (descLocked (after t v uid delta)) w
  = vget (descLocked t) w + (if ancb (m t) w v then delta else 0).
Proof.
  intros t v uid delta w W Hv Hw. simpl.
  apply bump_get; [apply W|rewrite (wf_descLocked t W); lia|exact Hw].
Qed.

Lemma lockable_iff : forall t v,
  wf t ->
  (lockable t v = true <->
   vget (lockedBy t) v = 0 /\
   (forall a, anc (m t) a v -> lockedb (lockedBy t) a = false) /\
   vget (descLocked t) v = 0).
Proof.
  intros t v W. unfold lockable.
  rewrite !andb_true_iff, negb_true_iff, !Z.eqb_eq.
  assert (H : existsb (lockedb (lockedBy t)) (ancestors (m t) v) = false
              <-> forall a, anc (m t) a v -> lockedb (lockedBy t) a = false).
  { split.
    - intros E a Ha.
      destruct (lockedb (lockedBy t) a) eqn:L; [|reflexivity].
      rewrite <- E. symmetry. apply existsb_exists. exists a. split; [|exact L].
      apply In_ancestors; [apply W|exact Ha].
    - intros H. destruct (existsb _ _) eqn:E; [|reflexivity].
      apply existsb_exists in E. destruct E as [a [Ha L]].
      apply In_ancestors in Ha; [|apply W]. rewrite (H a Ha) in L. discriminate. }
  rewrite H. tauto.
Qed.

End MulSongsFacts.

(** ** Counting *)

Lemma In_nodes : forall N x, In x (nodes N) <-> 0 <= x < N.
Proof.
  intros N x. unfold nodes. rewrite in_map_iff. split.
  - intros [k [<- Hk]]. apply in_seq in Hk. lia.
  - intros H. exists (Z.to_nat x). split; [lia|]. apply in_seq. lia.
Qed.

Lemma NoDup_nodes : forall N, NoDup (nodes N).
Proof.
  intros N. unfold nodes. apply Finite.Injective_map_NoDup.
  - intros a b H. lia.
  - apply seq_NoDup.
Qed.

Lemma countZ_nonneg : forall P l, 0 <= countZ P l.
Proof. induction l as [|w l IH]; simpl; [lia|]. destruct (P w); lia. Qed.

Lemma countZ_ext : forall P Q l,
  (forall w, In w l -> P w = Q w) -> countZ P l = countZ Q l.
Proof.
  induction l as [|w l IH]; intros H; simpl; [reflexivity|].
  rewrite (H w (or_introl eq_refl)), IH; [reflexivity|].
  intros x Hx. apply H. right. exact Hx.
Qed.

Lemma countZ_le : forall P Q l,
  (forall w, In w l -> P w = true -> Q w = true) -> countZ P l <= countZ Q l.
Proof.
  induction l as [|w l IH]; intros H; simpl; [lia|].
  assert (IH' : countZ P l <= countZ Q l).
  { apply IH. intros x Hx. apply H. right. exact Hx. }
  destruct (P w) eqn:E.
  - rewrite (H w (or_introl eq_refl) E). lia.
  - destruct (Q w); lia.
Qed.

Lemma countZ_length : forall P l, countZ P l <= Z.of_nat (length l).
Proof. induction l as [|w l IH]; simpl; [lia|]. destruct (P w); lia. Qed.

Lemma countZ_zero : forall P l,
  (forall w, In w l -> P w = false) -> countZ P l = 0.
Proof.
  induction l as [|w l IH]; intros H; simpl; [reflexivity|].
  rewrite (H w (or_introl eq_refl)), IH; [reflexivity|].
  intros x Hx. apply H. right. exact Hx.
Qed.

Lemma countZ_pos : forall P l x, In x l -> P x = true -> 0 < countZ P l.
Proof.
  induction l as [|w l IH]; intros x Hin Px; simpl; [destruct Hin|].
  destruct Hin as [->|Hx].
  - rewrite Px. pose proof (countZ_nonneg P l). lia.
  - pose proof (IH x Hx Px). destruct (P w); lia.
Qed.

Lemma countZ_pos_inv : forall P l,
  0 < countZ P l -> exists x, In x l /\ P x = true.
Proof.
  induction l as [|w l IH]; simpl; intros H; [lia|].
  destruct (P w) eqn:E.
  - exists w. auto.
  - destruct (IH ltac:(lia)) as [x [Hx Px]]. exists x. auto.
Qed.

Lemma countZ_at_most_one : forall P l,
  NoDup l ->
  (forall x y, In x l -> In y l -> P x = true -> P y = true -> x = y) ->
  countZ P l <= 1.
Proof.
  induction l as [|w l IH]; intros Hnd H; simpl; [lia|].
  inversion Hnd as [|? ? Hw Hnd']; subst.
  destruct (P w) eqn:E.
  - rewrite countZ_zero; [lia|].
    intros x Hx. destruct (P x) eqn:Ex; [|reflexivity].
    assert (w = x) by (apply H; simpl; auto). subst. contradiction.
  - apply IH; [exact Hnd'|]. intros x y Hx Hy. apply H; simpl; auto.
Qed.

(** Changing the predicate at one node of a duplicate-free list. *)
Lemma countZ_point : forall P Q l v,
  NoDup l -> In v l ->
  (forall w, In w l -> w <> v -> P w = Q w) ->
  countZ P l - (if P v then 1 else 0) = countZ Q l - (if Q v then 1 else 0).
Proof.
  induction l as [|w l IH]; intros v Hnd Hin H; simpl; [destruct Hin|].
  inversion Hnd as [|? ? Hw Hnd']; subst.
  destruct Hin as [->|Hin].
  - rewrite (countZ_ext P Q l); [destruct (P v), (Q v); lia|].
    intros x Hx. apply H; [right; exact Hx|]. intros ->. contradiction.
  - assert (w <> v) by (intros ->; contradiction).
    rewrite (H w (or_introl eq_refl)) by assumption.
    assert (IH' := IH v Hnd' Hin). 
    assert (H' : forall x, In x l -> x <> v -> P x = Q x)
      by (intros x Hx; apply H; right; exact Hx).
    specialize (IH' H'). destruct (P v), (Q v), (Q w); lia.
Qed.

Lemma sumZ_app : forall f l1 l2, sumZ f (l1 ++ l2) = sumZ f l1 + sumZ f l2.
Proof. induction l1 as [|x l1 IH]; intros l2; simpl; [lia|]. rewrite IH. lia. Qed.

Lemma sumZ_add : forall f g l,
  sumZ (fun x => f x + g x) l = sumZ f l + sumZ g l.
Proof. induction l as [|x l IH]; simpl; [lia|]. rewrite IH. lia. Qed.

Lemma sumZ_indicator : forall (P : Z -> bool) l,
  sumZ (fun x => if P x then 1 else 0) l = countZ P l.
Proof. induction l as [|x l IH]; simpl; [lia|]. rewrite IH. lia. Qed.

(** ** The traversals in closed form *)

Section TraversalSteps.

Variables N M : Z.
Variables lb dl : list Z.
Variable uid : Z.
Hypothesis HM : 1 <= M.
Hypothesis HN : 0 <= N.

Lemma scanChildren_ok : forall k first j acc st,
  existsb (foreignb lb uid) (kidsFrom N k (first + j)) = false ->
  scanChildren N lb dl uid k first j acc st
  = (true, acc ++ filter (lockedb lb) (kidsFrom N k (first + j)),
     rev (filter (pushb lb dl) (kidsFrom N k (first + j))) ++ st).
Proof.
  induction k as [|k IH]; intros first j acc st H; simpl in *.
  - rewrite app_nil_r. reflexivity.
  - destruct (first + j >=? N) eqn:EN; simpl in *.
    + rewrite app_nil_r. reflexivity.
    + apply orb_false_iff in H. destruct H as [Hf H].
      replace (first + j + 1) with (first + (j + 1)) in * by lia.
      unfold foreignb, pushb, lockedb in *.
      destruct (negb (vget lb (first + j) =? 0)) eqn:EL; simpl in *.
      * rewrite Hf. rewrite IH by exact H.
        rewrite <- app_assoc. reflexivity.
      * destruct (vget dl (first + j) >? 0) eqn:ED; simpl.
        -- rewrite IH by exact H. rewrite <- app_assoc. reflexivity.
        -- apply IH. exact H.
Qed.

Lemma scanChildren_foreign : forall k first j acc st,
  existsb (foreignb lb uid) (kidsFrom N k (first + j)) = true ->
  fst (fst (scanChildren N lb dl uid k first j acc st)) = false.
Proof.
  induction k as [|k IH]; intros first j acc st H; simpl in *; [discriminate|].
  destruct (first + j >=? N) eqn:EN; simpl in *; [discriminate|].
  replace (first + j + 1) with (first + (j + 1)) in * by lia.
  unfold foreignb, lockedb in H.
  destruct (negb (vget lb (first + j) =? 0)) eqn:EL; simpl in *.
  - destruct (negb (vget lb (first + j) =? uid)) eqn:EU; simpl in *;
      [reflexivity|].
    apply IH. exact H.
  - destruct (vget dl (first + j) >? 0); apply IH; exact H.
Qed.

Lemma scanChildrenM_ok : forall k base j acc st,
  existsb (foreignb lb uid) (kidsFrom N k (base + j)) = false ->
  scanChildrenM N lb dl uid k base j acc st
  = (false, acc ++ filter (lockedb lb) (kidsFrom N k (base + j)),
     rev (filter (pushMb dl) (kidsFrom N k (base + j))) ++ st).
Proof.
  induction k as [|k IH]; intros base j acc st H; simpl in *.
  - rewrite app_nil_r. reflexivity.
  - destruct (base + j >=? N) eqn:EN; simpl in *.
    + rewrite app_nil_r. reflexivity.
    + apply orb_false_iff in H. destruct H as [Hf H].
      replace (base + j + 1) with (base + (j + 1)) in * by lia.
      unfold foreignb, pushMb, lockedb in *.
      destruct (negb (vget lb (base + j) =? 0)) eqn:EL; simpl in *.
      * rewrite Hf.
        destruct (vget dl (base + j) >? 0) eqn:ED; simpl;
          rewrite IH by exact H; rewrite <- !app_assoc; reflexivity.
      * destruct (vget dl (base + j) >? 0) eqn:ED; simpl.
        -- rewrite IH by exact H. rewrite <- app_assoc. reflexivity.
        -- apply IH. exact H.
Qed.

Lemma scanChildrenM_foreign : forall k base j acc st,
  existsb (foreignb lb uid) (kidsFrom N k (base + j)) = true ->
  fst (fst (scanChildrenM N lb dl uid k base j acc st)) = true.
Proof.
  induction k as [|k IH]; intros base j acc st H; simpl in *; [discriminate|].
  destruct (base + j >=? N) eqn:EN; simpl in *; [discriminate|].
  replace (base + j + 1) with (base + (j + 1)) in * by lia.
  unfold foreignb, lockedb in H.
  destruct (negb (vget lb (base + j) =? 0)) eqn:EL; simpl in *.
  - destruct (negb (vget lb (base + j) =? uid)) eqn:EU; simpl in *;
      [reflexivity|].
    destruct (vget dl (base + j) >? 0); apply IH; exact H.
  - destruct (vget dl (base + j) >? 0); apply IH; exact H.
Qed.

Lemma kids_first : forall u,
  kidsFrom N (Z.to_nat M) (1 * u * M + 1 + 0) = kids M N u.
Proof.
  intros u. unfold kids. f_equal. lia.
Qed.

(** One iteration of the [while] loop of [mulSongs.cpp]. *)
Lemma visit_step_ok : forall fuel acc u rest,
  existsb (foreignb lb uid) (kids M N u) = false ->
  visit N M lb dl uid (S fuel) acc (u :: rest)
  = visit N M lb dl uid fuel
      (acc ++ filter (lockedb lb) (kids M N u))
      (rev (filter (pushb lb dl) (kids M N u)) ++ rest).
Proof.
  intros fuel acc u rest H. cbn [visit].
  rewrite scanChildren_ok by (rewrite kids_first; exact H).
  rewrite kids_first. reflexivity.
Qed.

Lemma visit_step_foreign : forall fuel acc u rest,
  existsb (foreignb lb uid) (kids M N u) = true ->
  exists d, visit N M lb dl uid (S fuel) acc (u :: rest) = Some (false, d).
Proof.
  intros fuel acc u rest H. cbn [visit].
  rewrite <- kids_first in H.
  pose proof (scanChildren_foreign (Z.to_nat M) (1 * u * M + 1) 0 acc rest H) as E.
  destruct (scanChildren N lb dl uid (Z.to_nat M) (1 * u * M + 1) 0 acc rest)
    as [[b d] s]. simpl in E. subst b. exists d. reflexivity.
Qed.

(** One iteration of the [while] loop of [Song_M]. *)
Lemma collect_step_ok : forall fuel acc u rest,
  existsb (foreignb lb uid) (kids M N u) = false ->
  collect N M lb dl uid (S fuel) acc (u :: rest)
  = collect N M lb dl uid fuel
      (acc ++ filter (lockedb lb) (kids M N u))
      (rev (filter (pushMb dl) (kids M N u)) ++ rest).
Proof.
  intros fuel acc u rest H. cbn [collect].
  rewrite scanChildrenM_ok by (rewrite kids_first; exact H).
  rewrite kids_first. reflexivity.
Qed.

Lemma collect_step_foreign : forall fuel acc u rest,
  existsb (foreignb lb uid) (kids M N u) = true ->
  exists d, collect N M lb dl uid (S fuel) acc (u :: rest) = Some (true, d).
Proof.
  intros fuel acc u rest H. cbn [collect].
  rewrite <- kids_first in H.
  pose proof (scanChildrenM_foreign (Z.to_nat M) (1 * u * M + 1) 0 acc rest H) as E.
  destruct (scanChildrenM N lb dl uid (Z.to_nat M) (1 * u * M + 1) 0 acc rest)
    as [[b d] s]. simpl in E. subst b. exists d. reflexivity.
Qed.

(** *** Termination: every node is pushed at most once *)

Lemma kids_cover_once : forall u P w,
  0 <= u -> NoDup P -> incl P (kids M N u) ->
  countZ (fun c => (c =? w) || ancb M c w) P
  <= (if ancb M u w then 1 else 0).
Proof.
  intros u P w Hu Hnd Hin.
  destruct (ancb M u w) eqn:E.
  - apply countZ_at_most_one; [exact Hnd|].
    intros x y Hx Hy Px Py.
    apply Hin in Hx. apply Hin in Hy.
    apply In_kids in Hx; [|exact HM|exact Hu].
    apply In_kids in Hy; [|exact HM|exact Hu].
    destruct Hx as [[Hx0 _] Hxp]. destruct Hy as [[Hy0 _] Hyp].
    destruct (Z.eq_dec x y) as [|Hne]; [assumption|exfalso].
    apply (siblings_disjoint M HM x y w); try assumption; try congruence.
    + apply orb_true_iff in Px. destruct Px as [Px|Px].
      * left. apply Z.eqb_eq. exact Px.
      * right. apply ancb_true; assumption.
    + apply orb_true_iff in Py. destruct Py as [Py|Py].
      * left. apply Z.eqb_eq. exact Py.
      * right. apply ancb_true; assumption.
  - rewrite countZ_zero; [lia|].
    intros c Hc. apply Hin in Hc.
    pose proof (kid_anc M HM N u c Hu Hc) as A.
    destruct ((c =? w) || ancb M c w) eqn:Ec; [exfalso|reflexivity].
    apply ancb_false in E; [|exact HM]. apply E.
    apply orb_true_iff in Ec. destruct Ec as [Ec|Ec].
    + apply Z.eqb_eq in Ec. subst. exact A.
    + apply ancb_true in Ec; [|exact HM]. eapply anc_trans; eauto.
Qed.

Lemma kids_work_list : forall u P l,
  0 <= u -> NoDup P -> incl P (kids M N u) ->
  sumZ (fun c => countZ (fun w => (c =? w) || ancb M c w) l) P
  <= countZ (ancb M u) l.
Proof.
  intros u P l Hu Hnd Hin. induction l as [|w l IH]; simpl.
  - clear. induction P as [|c P IH]; simpl; lia.
  - rewrite sumZ_add. rewrite sumZ_indicator.
    pose proof (kids_cover_once u P w Hu Hnd Hin). lia.
Qed.

Lemma subtreeSize_self : forall u,
  0 <= u < N -> countZ (ancb M u) (nodes N) + 1 <= subtreeSize M N u.
Proof.
  intros u Hu. unfold subtreeSize.
  pose proof (countZ_point (ancb M u) (fun w => (u =? w) || ancb M u w)
                           (nodes N) u (NoDup_nodes N)) as H.
  cbv beta in H. rewrite Z.eqb_refl in H. cbn [orb] in H.
  assert (E : ancb M u u = false).
  { apply ancb_false; [exact HM|]. apply anc_irrefl. exact HM. }
  rewrite E in H.
  assert (H1 : In u (nodes N)) by (apply In_nodes; exact Hu).
  assert (H2 : forall w, In w (nodes N) -> w <> u ->
               ancb M u w = (u =? w) || ancb M u w).
  { intros w _ Hw. destruct (Z.eqb_spec u w); [congruence|reflexivity]. }
  specialize (H H1 H2). lia.
Qed.

Lemma stackWork_kids : forall u P,
  0 <= u < N -> NoDup P -> incl P (kids M N u) ->
  stackWork M N P < subtreeSize M N u.
Proof.
  intros u P Hu Hnd Hin. unfold stackWork.
  pose proof (kids_work_list u P (nodes N) ltac:(lia) Hnd Hin) as H.
  pose proof (subtreeSize_self u Hu).
  unfold subtreeSize at 1. lia.
Qed.

Lemma stackWork_nonneg : forall st, 0 <= stackWork M N st.
Proof.
  induction st as [|u st IH]; unfold stackWork in *; simpl; [lia|].
  pose proof (countZ_nonneg (fun w => (u =? w) || ancb M u w) (nodes N)).
  unfold subtreeSize at 1. lia.
Qed.

Lemma subtreeSize_le : forall u, subtreeSize M N u <= N.
Proof.
  intros u. unfold subtreeSize.
  pose proof (countZ_length (fun w => (u =? w) || ancb M u w) (nodes N)) as H.
  unfold nodes in H at 2. rewrite length_map, length_seq in H. lia.
Qed.

Lemma NoDup_filter_kids : forall (f : Z -> bool) u,
  NoDup (rev (filter f (kids M N u))).
Proof.
  intros f u. apply NoDup_rev. apply NoDup_filter. apply NoDup_kids.
Qed.

Lemma incl_filter_kids : forall (f : Z -> bool) u,
  incl (rev (filter f (kids M N u))) (kids M N u).
Proof.
  intros f u x Hx. apply in_rev in Hx. apply filter_In in Hx. tauto.
Qed.

Lemma stack_range_step : forall (f : Z -> bool) u rest,
  0 <= u ->
  (forall x, In x rest -> 0 <= x < N) ->
  forall x, In x (rev (filter f (kids M N u)) ++ rest) -> 0 <= x < N.
Proof.
  intros f u rest Hu Hr x Hx. apply in_app_or in Hx. destruct Hx as [Hx|Hx].
  - apply incl_filter_kids in Hx. apply In_kids in Hx; [lia|exact HM|exact Hu].
  - apply Hr. exact Hx.
Qed.

(** The [while] loop of [mulSongs.cpp] returns within the fuel. *)
Lemma visit_total_gen : forall fuel acc st,
  (forall x, In x st -> 0 <= x < N) ->
  stackWork M N st < Z.of_nat fuel ->
  exists r, visit N M lb dl uid fuel acc st = Some r.
Proof.
  induction fuel as [|fuel IH]; intros acc st Hr Hw.
  - pose proof (stackWork_nonneg st). lia.
  - destruct st as [|u rest]; [eexists; reflexivity|].
    assert (Hu : 0 <= u < N) by (apply Hr; left; reflexivity).
    destruct (existsb (foreignb lb uid) (kids M N u)) eqn:E.
    + destruct (visit_step_foreign fuel acc u rest E) as [d Hd].
      eexists. exact Hd.
    + rewrite visit_step_ok by exact E. apply IH.
      * apply stack_range_step; [lia|]. intros x Hx. apply Hr. right. exact Hx.
      * pose proof (stackWork_kids u _ Hu (NoDup_filter_kids (pushb lb dl) u)
                                   (incl_filter_kids (pushb lb dl) u)) as H.
        unfold stackWork in *. rewrite sumZ_app. simpl in Hw. lia.
Qed.

Lemma collect_total_gen : forall fuel acc st,
  (forall x, In x st -> 0 <= x < N) ->
  stackWork M N st < Z.of_nat fuel ->
  exists r, collect N M lb dl uid fuel acc st = Some r.
Proof.
  induction fuel as [|fuel IH]; intros acc st Hr Hw.
  - pose proof (stackWork_nonneg st). lia.
  - destruct st as [|u rest]; [eexists; reflexivity|].
    assert (Hu : 0 <= u < N) by (apply Hr; left; reflexivity).
    destruct (existsb (foreignb lb uid) (kids M N u)) eqn:E.
    + destruct (collect_step_foreign fuel acc u rest E) as [d Hd].
      eexists. exact Hd.
    + rewrite collect_step_ok by exact E. apply IH.
      * apply stack_range_step; [lia|]. intros x Hx. apply Hr. right. exact Hx.
      * pose proof (stackWork_kids u _ Hu (NoDup_filter_kids (pushMb dl) u)
                                   (incl_filter_kids (pushMb dl) u)) as H.
        unfold stackWork in *. rewrite sumZ_app. simpl in Hw. lia.
Qed.

Lemma start_fuel : forall v, stackWork M N [v] < Z.of_nat (S (Z.to_nat N)).
Proof.
  intros v. unfold stackWork. simpl. pose proof (subtreeSize_le v). lia.
Qed.

Lemma visit_total : forall v,
  0 <= v < N ->
  exists r, visit N M lb dl uid (S (Z.to_nat N)) [] [v] = Some r.
Proof.
  intros v Hv. apply visit_total_gen; [|apply start_fuel].
  intros x [<-|[]]. exact Hv.
Qed.

Lemma collect_total : forall v,
  0 <= v < N ->
  exists r, collect N M lb dl uid (S (Z.to_nat N)) [] [v] = Some r.
Proof.
  intros v Hv. apply collect_total_gen; [|apply start_fuel].
  intros x [<-|[]]. exact Hv.
Qed.

End TraversalSteps.

(** ** What the traversal of [mulSongs.cpp] finds *)

Section VisitInvariant.

Variables N M : Z.
Variables lb dl : list Z.
Variables uid v : Z.
Hypothesis HM : 1 <= M.
Hypothesis HN : 0 <= N.
Hypothesis Hv : 0 <= v < N.

Lemma visitInv_start : visitInv M N lb dl uid v [] [v].
Proof.
  constructor.
  - intros a [].
  - intros u [<-|[]]. split; [left; reflexivity|exact Hv].
  - constructor.
  - constructor; [intros []|constructor].
  - intros u1 u2 [<-|[]] [<-|[]]. apply anc_irrefl. exact HM.
  - intros a u [].
  - intros x Hx _ _. right. left. exists v. split; [left; reflexivity|exact Hx].
Qed.

Lemma under_stack_node : forall u c,
  (u = v \/ anc M v u) -> anc M u c -> anc M v c.
Proof.
  intros u c [->|H] Hc; [exact Hc|]. eapply anc_trans; eauto.
Qed.

Lemma visitInv_step : forall acc u rest,
  visitInv M N lb dl uid v acc (u :: rest) ->
  existsb (foreignb lb uid) (kids M N u) = false ->
  visitInv M N lb dl uid v
    (acc ++ filter (lockedb lb) (kids M N u))
    (rev (filter (pushb lb dl) (kids M N u)) ++ rest).
Proof.
  intros acc u rest I F.
  destruct I as [Iacc Ist Ind1 Ind2 Iindep Iaccst Icov].
  assert (Hu : (u = v \/ anc M v u) /\ 0 <= u < N)
    by (apply Ist; left; reflexivity).
  destruct Hu as [Huv Hu].
  assert (Hkid : forall c, In c (kids M N u) ->
                   0 < c < N /\ parentOf M c = u /\ anc M u c /\ anc M v c).
  { intros c Hc. pose proof (kid_anc M HM N u c ltac:(lia) Hc) as A.
    apply In_kids in Hc; [|exact HM|lia]. destruct Hc as [Hc Hp].
    repeat split; try lia; auto. eapply under_stack_node; eauto. }
  assert (Hnofor : forall c, In c (kids M N u) -> lockedb lb c = true ->
                     vget lb c = uid).
  { intros c Hc L.
    assert (E : foreignb lb uid c = false).
    { destruct (foreignb lb uid c) eqn:E; [|reflexivity].
      rewrite <- F. symmetry. apply existsb_exists. exists c. auto. }
    unfold foreignb in E. rewrite L in E. simpl in E.
    apply negb_false_iff in E. apply Z.eqb_eq in E. exact E. }
  inversion Ind2 as [|? ? Hu_rest Hnd_rest]; subst.
  constructor.
  - (* collected nodes *)
    intros a Ha. apply in_app_or in Ha. destruct Ha as [Ha|Ha]; [auto|].
    apply filter_In in Ha. destruct Ha as [Ha L].
    destruct (Hkid a Ha) as [Ha1 [_ [_ Ha2]]].
    repeat split; auto; try lia.
  - (* stack nodes *)
    intros x Hx. apply in_app_or in Hx. destruct Hx as [Hx|Hx].
    + apply in_rev in Hx. apply filter_In in Hx. destruct Hx as [Hx _].
      destruct (Hkid x Hx) as [Hx1 [_ [_ Hx2]]]. split; [right; exact Hx2|lia].
    + apply Ist. right. exact Hx.
  - (* no node is collected twice *)
    apply NoDup_app; [exact Ind1 | apply NoDup_filter; apply NoDup_kids |].
    intros a Ha Ha'. apply filter_In in Ha'. destruct Ha' as [Ha' _].
    destruct (Hkid a Ha') as [_ [_ [A _]]].
    exact (Iaccst a u Ha (or_introl eq_refl) A).
  - (* no node is pushed twice *)
    apply NoDup_app; [apply NoDup_filter_kids | exact Hnd_rest |].
    intros c Hc Hc'. apply incl_filter_kids in Hc.
    destruct (Hkid c Hc) as [_ [_ [A _]]].
    exact (Iindep u c (or_introl eq_refl) (or_intror Hc') A).
  - (* the stack nodes have disjoint subtrees *)
    intros u1 u2 H1 H2 A.
    apply in_app_or in H1. apply in_app_or in H2.
    destruct H1 as [H1|H1], H2 as [H2|H2].
    + apply incl_filter_kids in H1. apply incl_filter_kids in H2.
      destruct (Hkid u1 H1) as [? [P1 _]]. destruct (Hkid u2 H2) as [? [P2 _]].
      apply (siblings_not_anc M HM u1 u2); solve [lia | congruence | assumption].
    + apply incl_filter_kids in H1.
      destruct (Hkid u1 H1) as [_ [_ [A1 _]]].
      apply (Iindep u u2 (or_introl eq_refl) (or_intror H2)).
      eapply anc_trans; eauto.
    + apply incl_filter_kids in H2.
      destruct (Hkid u2 H2) as [? [P2 _]].
      apply anc_inv in A. destruct A as [_ [E|A]].
      * rewrite P2 in E. subst u1. contradiction.
      * rewrite P2 in A.
        exact (Iindep u1 u (or_intror H1) (or_introl eq_refl) A).
    + exact (Iindep u1 u2 (or_intror H1) (or_intror H2) A).
  - (* collected nodes are not below stack nodes *)
    intros a x Ha Hx A.
    apply in_app_or in Ha. apply in_app_or in Hx.
    destruct Ha as [Ha|Ha], Hx as [Hx|Hx].
    + apply incl_filter_kids in Hx.
      destruct (Hkid x Hx) as [_ [_ [A1 _]]].
      apply (Iaccst a u Ha (or_introl eq_refl)). eapply anc_trans; eauto.
    + exact (Iaccst a x Ha (or_intror Hx) A).
    + apply filter_In in Ha. destruct Ha as [Ha _].
      apply incl_filter_kids in Hx.
      destruct (Hkid a Ha) as [? [P1 _]]. destruct (Hkid x Hx) as [? [P2 _]].
      apply (siblings_not_anc M HM x a); solve [lia | congruence | assumption].
    + apply filter_In in Ha. destruct Ha as [Ha _].
      destruct (Hkid a Ha) as [? [P1 _]].
      apply anc_inv in A. destruct A as [_ [E|A]].
      * rewrite P1 in E. subst x. contradiction.
      * rewrite P1 in A.
        exact (Iindep x u (or_intror Hx) (or_introl eq_refl) A).
  - (* every locked node below v is accounted for *)
    intros x Hx HxN L.
    destruct (Icov x Hx HxN L) as [Ha|[[u' [[<-|Hu'] A]]|S]].
    + left. apply in_or_app. left. exact Ha.
    + destruct (anc_via_child M u x A) as [c [Hc [Hp Hcx]]].
      assert (HcN : c < N).
      { destruct Hcx as [->|Hcx]; [exact HxN|].
        apply anc_range in Hcx; [lia|exact HM]. }
      assert (Hck : In c (kids M N u)).
      { apply In_kids; [exact HM|lia|]. split; [lia|exact Hp]. }
      destruct (Hkid c Hck) as [_ [_ [Auc Avc]]].
      destruct Hcx as [->|Hcx].
      * left. apply in_or_app. right. apply filter_In. auto.
      * destruct (stoppedb lb dl c) eqn:S.
        -- right. right. exists c. auto.
        -- right. left. exists c. split; [|exact Hcx].
           apply in_or_app. left. apply in_rev. rewrite rev_involutive.
           apply filter_In. split; [exact Hck|].
           unfold stoppedb in S. apply orb_false_iff in S. destruct S as [S1 S2].
           unfold pushb. rewrite S1. simpl.
           apply Z.leb_gt in S2. apply Z.gtb_lt. exact S2.
    + right. left. exists u'. split; [|exact A]. apply in_or_app. right. exact Hu'.
    + right. right. exact S.
Qed.

Lemma visit_result : forall fuel acc st r,
  visitInv M N lb dl uid v acc st ->
  visit N M lb dl uid fuel acc st = Some r ->
  (fst r = true /\ visitInv M N lb dl uid v (snd r) []) \/
  (fst r = false /\
   exists x, anc M v x /\ x < N /\ lockedb lb x = true /\ vget lb x <> uid).
Proof.
  induction fuel as [|fuel IH]; intros acc st r I H; [discriminate|].
  destruct st as [|u rest].
  - simpl in H. inversion H; subst. left. simpl. auto.
  - destruct (existsb (foreignb lb uid) (kids M N u)) eqn:F.
    + destruct (visit_step_foreign N M lb dl uid fuel acc u rest F) as [d Hd].
      rewrite Hd in H. inversion H; subst. right. split; [reflexivity|].
      apply existsb_exists in F. destruct F as [c [Hc Fc]].
      destruct (vi_st _ _ _ _ _ _ _ _ I u (or_introl eq_refl)) as [Huv Hu].
      pose proof (kid_anc M HM N u c ltac:(lia) Hc) as A.
      apply In_kids in Hc; [|exact HM|lia].
      unfold foreignb in Fc. apply andb_true_iff in Fc. destruct Fc as [L O].
      apply negb_true_iff in O. apply Z.eqb_neq in O.
      exists c. split; [eapply under_stack_node; eauto|].
      split; [lia|]. split; assumption.
    + rewrite visit_step_ok in H by exact F.
      apply (IH _ _ r (visitInv_step acc u rest I F) H).
Qed.

(** A successful traversal: the list has no duplicates, its elements are
    below [v] and locked by [uid], and a locked node below [v] that is not
    in the list is hidden behind a node where the traversal stopped. *)
Lemma visit_true : forall L,
  visit N M lb dl uid (S (Z.to_nat N)) [] [v] = Some (true, L) ->
  NoDup L /\
  (forall a, In a L ->
     anc M v a /\ a < N /\ vget lb a = uid /\ lockedb lb a = true) /\
  (forall x, anc M v x -> x < N -> lockedb lb x = true ->
     In x L \/
     exists y, anc M v y /\ anc M y x /\ stoppedb lb dl y = true).
Proof.
  intros L H.
  destruct (visit_result _ _ _ _ visitInv_start H) as [[_ I]|[E _]];
    [|discriminate].
  simpl in I. destruct I as [Iacc _ Ind _ _ _ Icov].
  repeat split; auto.
  - apply Iacc; assumption.
  - apply Iacc; assumption.
  - apply Iacc; assumption.
  - apply Iacc; assumption.
  - intros x Hx HxN Lx.
    destruct (Icov x Hx HxN Lx) as [?|[[u [[] _]]|?]]; auto.
Qed.

Lemma visit_false : forall L,
  visit N M lb dl uid (S (Z.to_nat N)) [] [v] = Some (false, L) ->
  exists x, anc M v x /\ x < N /\ lockedb lb x = true /\ vget lb x <> uid.
Proof.
  intros L H.
  destruct (visit_result _ _ _ _ visitInv_start H) as [[E _]|[_ X]];
    [discriminate|exact X].
Qed.

End VisitInvariant.

(** ** [mulSongs.cpp]: [upgradeNode] *)

Module MulSongsUpgrade.
Import MulSongs MulSongsSpec MulSongsFacts.

Lemma afterAll_static : forall us t,
  n (afterAll t us) = n t /\ m (afterAll t us) = m t /\
  parent (afterAll t us) = parent t /\
  lock_flag (afterAll t us) = lock_flag t.
Proof.
  induction us as [|u us IH]; intros t; simpl; [auto|].
  destruct (IH (after t u 0 (-1))) as [H1 [H2 [H3 H4]]].
  unfold afterAll in *. rewrite H1, H2, H3, H4. simpl. auto.
Qed.

Lemma afterAll_flag : forall us t f,
  afterAll (set_lock_flag t f) us = set_lock_flag (afterAll t us) f.
Proof.
  induction us as [|u us IH]; intros t f; simpl; [reflexivity|].
  unfold afterAll in *. rewrite <- IH. reflexivity.
Qed.

Lemma wf_afterAll : forall us t, wf t -> wf (afterAll t us).
Proof.
  induction us as [|u us IH]; intros t W; simpl; [exact W|].
  apply IH. apply wf_after. exact W.
Qed.

Lemma unlockAll_eq : forall us t,
  parent t = parentTable (n t) (m t) -> 1 <= m t ->
  (forall u, In u us -> 0 <= u < n t) ->
  unlockAll t us = Some (afterAll t us).
Proof.
  induction us as [|u us IH]; intros t Hp HM Hr; [reflexivity|].
  cbn [unlockAll].
  rewrite updateAncestorDescLockCount_eq;
    [| exact Hp | exact HM | apply Hr; left; reflexivity].
  cbn [bind]. apply IH; auto.
  intros x Hx. apply Hr. right. exact Hx.
Qed.

Lemma traverse_total : forall t v uid,
  wf t -> 0 <= v < n t -> exists b L, traverse t v uid = Some (b, L).
Proof.
  intros t v uid W Hv.
  destruct (visit_total (n t) (m t) (lockedBy t) (descLocked t) uid
                        (wf_m t W) (wf_n t W) v Hv) as [[b L] H].
  exists b, L. exact H.
Qed.

Lemma traverse_true : forall t v uid L,
  wf t -> 0 <= v < n t -> traverse t v uid = Some (true, L) ->
  NoDup L /\
  (forall a, In a L ->
     anc (m t) v a /\ 0 <= a < n t /\ vget (lockedBy t) a = uid /\
     lockedb (lockedBy t) a = true) /\
  (forall x, anc (m t) v x -> x < n t -> lockedb (lockedBy t) x = true ->
     In x L \/
     exists y, anc (m t) v y /\ anc (m t) y x /\
               stoppedb (lockedBy t) (descLocked t) y = true).
Proof.
  intros t v uid L W Hv H.
  destruct (visit_true (n t) (m t) (lockedBy t) (descLocked t) uid v
                       (wf_m t W) Hv L H) as [H1 [H2 H3]].
  split; [exact H1|]. split; [|exact H3].
  intros a Ha. destruct (H2 a Ha) as [A [B [C D]]].
  pose proof (anc_range (m t) (wf_m t W) v a A).
  repeat split; auto; lia.
Qed.

Lemma traverse_false : forall t v uid L,
  wf t -> 0 <= v < n t -> traverse t v uid = Some (false, L) ->
  exists x, anc (m t) v x /\ x < n t /\ lockedb (lockedBy t) x = true /\
            vget (lockedBy t) x <> uid.
Proof.
  intros t v uid L W Hv H.
  exact (visit_false (n t) (m t) (lockedBy t) (descLocked t) uid v
                     (wf_m t W) Hv L H).
Qed.

(** [upgradeNode] always returns, and in closed form. *)
Lemma upgradeNode_eq : forall t v uid,
  wf t -> 0 <= v < n t ->
  exists b L,
    traverse t v uid = Some (b, L) /\
    upgradeNode t v uid
    = Some (if upgradable t v && b
            then (true, upgraded t v uid L) else (false, t)).
Proof.
  intros t v uid W Hv.
  destruct (traverse_total t v uid W Hv) as [b [L HT]].
  exists b, L. split; [exact HT|].
  unfold upgradeNode, spin_lock, upgradable.
  rewrite (wf_flag t W). cbn [Z.eqb]. fields.
  rewrite hasLockedAncestor_flag, (hasLockedAncestor_eq t v W Hv).
  pose proof (spin_unlock_lock t (wf_flag t W)) as E.
  rewrite E.
  destruct (vget (lockedBy t) v =? 0); cbn [negb andb]; [|reflexivity].
  fields.
  destruct (existsb (lockedb (lockedBy t)) (ancestors (m t) v));
    cbn [negb andb]; [reflexivity|].
  destruct (vget (descLocked t) v =? 0); cbn [negb andb]; [reflexivity|].
  unfold traverse in HT. rewrite HT. fields.
  destruct b; [|reflexivity].
  destruct (traverse_true t v uid L W Hv HT) as [_ [HL _]].
  rewrite unlockAll_eq;
    [| apply W | apply W | intros u Hu; apply (HL u Hu)].
  fields. rewrite afterAll_flag.
  destruct (afterAll_static L t) as [H1 [H2 [H3 H4]]].
  rewrite updateAncestorDescLockCount_eq;
    [| cbn [set_lockedBy set_lock_flag parent n m]; rewrite H1, H2, H3; apply W
     | cbn [set_lockedBy set_lock_flag m]; rewrite H2; apply W
     | cbn [set_lockedBy set_lock_flag n]; rewrite H1; exact Hv].
  fields. unfold upgraded, after, spin_unlock. fields.
  rewrite H4, (wf_flag t W). reflexivity.
Qed.

Lemma wf_upgraded : forall t v uid L, wf t -> wf (upgraded t v uid L).
Proof.
  intros. unfold upgraded. apply wf_after. apply wf_afterAll. assumption.
Qed.

End MulSongsUpgrade.

(** ** The invariants I1 and I2 *)

Section InvariantFacts.

Variables N M : Z.
Hypothesis HM : 1 <= M.

(** I1, on pairs. *)
Lemma I1_pairs : forall lb,
  I1 M N lb <->
  (forall a w, 0 <= w < N -> anc M a w ->
               lockedb lb a = true -> lockedb lb w = true -> False).
Proof.
  intros lb. split.
  - intros H a w Hw A La Lw.
    destruct (H w Hw Lw) as [H1 _]. rewrite (H1 a A) in La. discriminate.
  - intros H v Hv Lv. split.
    + intros a A. destruct (lockedb lb a) eqn:La; [|reflexivity].
      exfalso. exact (H a v Hv A La Lv).
    + intros d Hd A. destruct (lockedb lb d) eqn:Ld; [|reflexivity].
      exfalso. exact (H v d Hd A Lv Ld).
Qed.

Lemma lockedBelow_nonneg : forall lb v, 0 <= lockedBelow M N lb v.
Proof. intros. apply countZ_nonneg. Qed.

Lemma lockedBelow_le : forall lb v, lockedBelow M N lb v <= N \/ N < 0.
Proof.
  intros lb v. unfold lockedBelow.
  pose proof (countZ_length (fun w => ancb M v w && lockedb lb w) (nodes N)) as H.
  unfold nodes in H at 2. rewrite length_map, length_seq in H. lia.
Qed.

Lemma lockedBelow_zero : forall lb v,
  lockedBelow M N lb v = 0 ->
  forall d, 0 <= d < N -> anc M v d -> lockedb lb d = false.
Proof.
  intros lb v H d Hd A. destruct (lockedb lb d) eqn:L; [|reflexivity].
  exfalso. unfold lockedBelow in H.
  assert (0 < countZ (fun w => ancb M v w && lockedb lb w) (nodes N)).
  { apply (countZ_pos _ _ d).
    - apply In_nodes. exact Hd.
    - rewrite L, andb_true_r. apply ancb_true; assumption. }
  lia.
Qed.

Lemma lockedBelow_pos : forall lb v,
  lockedBelow M N lb v <> 0 ->
  exists d, 0 <= d < N /\ anc M v d /\ lockedb lb d = true.
Proof.
  intros lb v H. pose proof (lockedBelow_nonneg lb v).
  destruct (countZ_pos_inv (fun w => ancb M v w && lockedb lb w) (nodes N))
    as [d [Hd P]]; [unfold lockedBelow in *; lia|].
  apply andb_true_iff in P. destruct P as [A L].
  exists d. split; [apply In_nodes; exact Hd|].
  split; [apply ancb_true; assumption|exact L].
Qed.

(** The scan after the owner of one node has changed. *)
Lemma lockedBelow_vset : forall lb v uid a,
  0 <= v < N -> Z.of_nat (length lb) = N ->
  lockedBelow M N (vset lb v uid) a
  = lockedBelow M N lb a
    + (if ancb M a v
       then (if uid =? 0 then 0 else 1) - (if lockedb lb v then 1 else 0)
       else 0).
Proof.
  intros lb v uid a Hv Hlen. unfold lockedBelow.
  pose proof (countZ_point
                (fun w => ancb M a w && lockedb lb w)
                (fun w => ancb M a w && lockedb (vset lb v uid) w)
                (nodes N) v (NoDup_nodes N)) as H.
  cbv beta in H.
  assert (H1 : In v (nodes N)) by (apply In_nodes; exact Hv).
  assert (H2 : forall w, In w (nodes N) -> w <> v ->
               ancb M a w && lockedb lb w
               = ancb M a w && lockedb (vset lb v uid) w).
  { intros w Hw Hne. apply In_nodes in Hw. unfold lockedb.
    rewrite vget_vset_other by lia. reflexivity. }
  specialize (H H1 H2).
  assert (E : lockedb (vset lb v uid) v = negb (uid =? 0)).
  { unfold lockedb. rewrite vget_vset_same by lia. reflexivity. }
  rewrite E in H.
  destruct (ancb M a v), (lockedb lb v), (uid =? 0); simpl in H; lia.
Qed.

End InvariantFacts.

Module MulSongsInv.
Import MulSongs MulSongsSpec MulSongsFacts MulSongsUpgrade.

(** I2 survives [lockedBy[v] = uid; updateAncestorDescLockCount(v, delta)]
    when [delta] is the change in the number of locked nodes. *)
Lemma I2_after : forall t v uid delta,
  wf t -> 0 <= v < n t ->
  I2 (m t) (n t) (lockedBy t) (descLocked t) ->
  delta = (if uid =? 0 then 0 else 1)
          - (if lockedb (lockedBy t) v then 1 else 0) ->
  I2 (m t) (n t) (lockedBy (after t v uid delta))
     (descLocked (after t v uid delta)).
Proof.
  intros t v uid delta W Hv H Hd a Ha.
  rewrite after_descLocked by (auto; lia).
  cbn [after lockedBy].
  rewrite lockedBelow_vset; [| exact Hv | apply W].
  rewrite (H a Ha). subst delta. reflexivity.
Qed.

Lemma afterAll_cons : forall t u us,
  afterAll t (u :: us) = afterAll (after t u 0 (-1)) us.
Proof. reflexivity. Qed.

(** Owners and counters after the release loop of [upgradeNode]. *)
Lemma afterAll_lockedBy : forall us t w,
  wf t -> (forall u, In u us -> 0 <= u < n t) -> 0 <= w ->
  vget (lockedBy (afterAll t us)) w
  = if existsb (Z.eqb w) us then 0 else vget (lockedBy t) w.
Proof.
  induction us as [|u us IH]; intros t w W Hr Hw; [reflexivity|].
  rewrite afterAll_cons.
  rewrite IH; [| apply wf_after; exact W
               | intros x Hx; apply Hr; right; exact Hx | exact Hw].
  rewrite after_lockedBy; [| exact W | apply Hr; left; reflexivity | exact Hw].
  cbn [existsb].
  destruct (Z.eqb_spec w u); cbn [orb];
    destruct (existsb (Z.eqb w) us); reflexivity.
Qed.

Lemma afterAll_descLocked : forall us t w,
  wf t -> (forall u, In u us -> 0 <= u < n t) -> 0 <= w ->
  vget (descLocked (afterAll t us)) w
  = vget (descLocked t) w - countZ (ancb (m t) w) us.
Proof.
  induction us as [|u us IH]; intros t w W Hr Hw; [simpl; lia|].
  rewrite afterAll_cons.
  rewrite IH; [| apply wf_after; exact W
               | intros x Hx; apply Hr; right; exact Hx | exact Hw].
  rewrite after_descLocked; [| exact W | apply Hr; left; reflexivity | exact Hw].
  cbn [countZ after m]. destruct (ancb (m t) w u); lia.
Qed.

Lemma I2_afterAll : forall us t,
  wf t -> NoDup us ->
  (forall u, In u us -> 0 <= u < n t /\ lockedb (lockedBy t) u = true) ->
  I2 (m t) (n t) (lockedBy t) (descLocked t) ->
  I2 (m t) (n t) (lockedBy (afterAll t us)) (descLocked (afterAll t us)).
Proof.
  induction us as [|u us IH]; intros t W Hnd Hr H; [exact H|].
  inversion Hnd as [|? ? Hu Hnd']; subst.
  destruct (Hr u (or_introl eq_refl)) as [Hu1 Hu2].
  rewrite afterAll_cons.
  assert (X : I2 (m (after t u 0 (-1))) (n (after t u 0 (-1)))
                 (lockedBy (afterAll (after t u 0 (-1)) us))
                 (descLocked (afterAll (after t u 0 (-1)) us))).
  { apply IH.
    - apply wf_after; exact W.
    - exact Hnd'.
    - intros x Hx. destruct (Hr x (or_intror Hx)) as [Hx1 Hx2].
      split; [exact Hx1|]. unfold lockedb in *.
      rewrite after_lockedBy by (auto; lia).
      destruct (Z.eqb_spec x u); [subst; contradiction|exact Hx2].
    - change (m (after t u 0 (-1))) with (m t).
      change (n (after t u 0 (-1))) with (n t).
      apply I2_after; auto. rewrite Hu2. reflexivity. }
  exact X.
Qed.

End MulSongsInv.

Module MulSongsSteps.
Import MulSongs MulSongsSpec MulSongsFacts MulSongsUpgrade MulSongsInv.

Lemma after_lockedb : forall t v uid delta w,
  wf t -> 0 <= v < n t -> 0 <= w ->
  lockedb (lockedBy (after t v uid delta)) w
  = if w =? v then negb (uid =? 0) else lockedb (lockedBy t) w.
Proof.
  intros t v uid delta w W Hv Hw. unfold lockedb.
  rewrite after_lockedBy by assumption.
  destruct (w =? v); reflexivity.
Qed.

Lemma no_locked_ancestor_iff : forall t v,
  wf t ->
  (existsb (lockedb (lockedBy t)) (ancestors (m t) v) = false
   <-> forall a, anc (m t) a v -> lockedb (lockedBy t) a = false).
Proof.
  intros t v W. split.
  - intros E a Ha.
    destruct (lockedb (lockedBy t) a) eqn:L; [|reflexivity].
    rewrite <- E. symmetry. apply existsb_exists. exists a. split; [|exact L].
    apply In_ancestors; [apply W|exact Ha].
  - intros H. destruct (existsb _ _) eqn:E; [|reflexivity].
    apply existsb_exists in E. destruct E as [a [Ha L]].
    apply In_ancestors in Ha; [|apply W]. rewrite (H a Ha) in L. discriminate.
Qed.

Lemma upgradable_iff : forall t v,
  wf t ->
  (upgradable t v = true <->
   vget (lockedBy t) v = 0 /\
   (forall a, anc (m t) a v -> lockedb (lockedBy t) a = false) /\
   vget (descLocked t) v <> 0).
Proof.
  intros t v W. unfold upgradable.
  rewrite !andb_true_iff, !negb_true_iff, Z.eqb_eq, Z.eqb_neq.
  rewrite (no_locked_ancestor_iff t v W). tauto.
Qed.

Ltac static_after :=
  repeat match goal with
    | |- context [m (after ?t ?v ?u ?d)] => change (m (after t v u d)) with (m t)
    | |- context [n (after ?t ?v ?u ?d)] => change (n (after t v u d)) with (n t)
    end.

Lemma consistent_sound : forall t, consistent t -> sound t.
Proof.
  intros t [H1 H2]. split; [exact H1|].
  intros v Hv. rewrite (H2 v Hv). lia.
Qed.

(** The scan after [lockedBy[v] = uid]. *)
Lemma lockedBelow_after : forall t v uid delta a,
  wf t -> 0 <= v < n t ->
  lockedBelow (m t) (n t) (lockedBy (after t v uid delta)) a
  = lockedBelow (m t) (n t) (lockedBy t) a
    + (if ancb (m t) a v
       then (if uid =? 0 then 0 else 1)
            - (if lockedb (lockedBy t) v then 1 else 0)
       else 0).
Proof.
  intros t v uid delta a W Hv. cbn [after lockedBy].
  apply lockedBelow_vset; [exact Hv|apply W].
Qed.

(** The counters stay large enough when [delta] is at least the change in
    the number of locked nodes. *)
Lemma covered_after : forall t v uid delta,
  wf t -> 0 <= v < n t ->
  covered (m t) (n t) (lockedBy t) (descLocked t) ->
  (if uid =? 0 then 0 else 1) - (if lockedb (lockedBy t) v then 1 else 0)
  <= delta ->
  covered (m t) (n t) (lockedBy (after t v uid delta))
          (descLocked (after t v uid delta)).
Proof.
  intros t v uid delta W Hv H Hd a Ha.
  rewrite after_descLocked by (auto; lia).
  rewrite lockedBelow_after by assumption.
  specialize (H a Ha). destruct (ancb (m t) a v); lia.
Qed.

Lemma covered_afterAll : forall us t,
  wf t -> NoDup us ->
  (forall u, In u us -> 0 <= u < n t /\ lockedb (lockedBy t) u = true) ->
  covered (m t) (n t) (lockedBy t) (descLocked t) ->
  covered (m t) (n t) (lockedBy (afterAll t us)) (descLocked (afterAll t us)).
Proof.
  induction us as [|u us IH]; intros t W Hnd Hr H; [exact H|].
  inversion Hnd as [|? ? Hu Hnd']; subst.
  destruct (Hr u (or_introl eq_refl)) as [Hu1 Hu2].
  rewrite afterAll_cons.
  assert (X : covered (m (after t u 0 (-1))) (n (after t u 0 (-1)))
                      (lockedBy (afterAll (after t u 0 (-1)) us))
                      (descLocked (afterAll (after t u 0 (-1)) us))).
  { apply IH.
    - apply wf_after; exact W.
    - exact Hnd'.
    - intros x Hx. destruct (Hr x (or_intror Hx)) as [Hx1 Hx2].
      split; [exact Hx1|].
      rewrite after_lockedb by (auto; lia).
      destruct (Z.eqb_spec x u); [subst; contradiction|exact Hx2].
    - change (m (after t u 0 (-1))) with (m t).
      change (n (after t u 0 (-1))) with (n t).
      apply covered_after; auto. rewrite Hu2. simpl. lia. }
  exact X.
Qed.

Lemma covered_zero : forall t v,
  wf t -> covered (m t) (n t) (lockedBy t) (descLocked t) ->
  0 <= v < n t -> vget (descLocked t) v <= 0 ->
  forall d, 0 <= d < n t -> anc (m t) v d -> lockedb (lockedBy t) d = false.
Proof.
  intros t v W H Hv Hz.
  apply (lockedBelow_zero (n t) (m t) (wf_m t W)).
  pose proof (lockedBelow_nonneg (n t) (m t) (lockedBy t) v).
  specialize (H v Hv). lia.
Qed.

(** [lockNode], with any caller id, keeps I1. *)
Lemma lock_I1 : forall t v uid,
  wf t -> sound t -> 0 <= v < n t -> lockable t v = true ->
  I1 (m t) (n t) (lockedBy (after t v uid 1)).
Proof.
  intros t v uid W [H1 H2] Hv HL.
  apply lockable_iff in HL; [|exact W]. destruct HL as [L0 [LA LD]].
  apply I1_pairs. intros a w Hw A La Lw.
  pose proof (anc_range (m t) (wf_m t W) a w A) as Ra.
  rewrite after_lockedb in La, Lw by (auto; lia).
  rewrite I1_pairs in H1.
  destruct (Z.eqb_spec a v) as [->|Hav], (Z.eqb_spec w v) as [->|Hwv].
  - exact (anc_irrefl (m t) (wf_m t W) v A).
  - rewrite (covered_zero t v W H2 Hv ltac:(lia) w Hw A) in Lw. discriminate.
  - rewrite (LA a A) in La. discriminate.
  - exact (H1 a w Hw A La Lw).
Qed.

(** [unlockNode] keeps I1: it locks nothing. *)
Lemma unlock_I1 : forall t v,
  wf t -> I1 (m t) (n t) (lockedBy t) -> 0 <= v < n t ->
  I1 (m t) (n t) (lockedBy (after t v 0 (-1))).
Proof.
  intros t v W H1 Hv.
  apply I1_pairs. intros a w Hw A La Lw.
  pose proof (anc_range (m t) (wf_m t W) a w A) as Ra.
  rewrite after_lockedb in La, Lw by (auto; lia).
  rewrite I1_pairs in H1.
  destruct (Z.eqb_spec a v), (Z.eqb_spec w v); try discriminate.
  exact (H1 a w Hw A La Lw).
Qed.

(** With I1 and counters that are not too small, the traversal misses no
    locked descendant. *)
Lemma traverse_complete : forall t v uid L,
  wf t -> sound t -> 0 <= v < n t ->
  traverse t v uid = Some (true, L) ->
  forall x, anc (m t) v x -> x < n t -> lockedb (lockedBy t) x = true ->
            In x L.
Proof.
  intros t v uid L W [H1 H2] Hv HT x A Hx Lx.
  destruct (traverse_true t v uid L W Hv HT) as [_ [_ C]].
  destruct (C x A Hx Lx) as [?|[y [Avy [Ayx S]]]]; [assumption|exfalso].
  pose proof (anc_range (m t) (wf_m t W) y x Ayx) as Ry.
  pose proof (anc_range (m t) (wf_m t W) v y Avy) as Rv.
  unfold stoppedb in S. apply orb_true_iff in S. destruct S as [S|S].
  - rewrite I1_pairs in H1. apply (H1 y x); auto. lia.
  - apply Z.leb_le in S.
    rewrite (covered_zero t y W H2 ltac:(lia) S x ltac:(lia) Ayx) in Lx.
    discriminate.
Qed.

Lemma upgraded_lockedb : forall t v uid L w,
  wf t -> 0 <= v < n t -> (forall u, In u L -> 0 <= u < n t) -> 0 <= w ->
  lockedb (lockedBy (upgraded t v uid L)) w
  = if w =? v then negb (uid =? 0)
    else if existsb (Z.eqb w) L then false else lockedb (lockedBy t) w.
Proof.
  intros t v uid L w W Hv HL Hw. unfold upgraded.
  destruct (afterAll_static L t) as [E1 _].
  rewrite after_lockedb;
    [| apply wf_afterAll; exact W | rewrite E1; exact Hv | exact Hw].
  destruct (w =? v); [reflexivity|].
  unfold lockedb. rewrite afterAll_lockedBy by assumption.
  destruct (existsb (Z.eqb w) L); reflexivity.
Qed.

(** A successful [upgradeNode], with any caller id, keeps I1. *)
Lemma upgrade_I1 : forall t v uid L,
  wf t -> sound t -> 0 <= v < n t ->
  upgradable t v = true -> traverse t v uid = Some (true, L) ->
  I1 (m t) (n t) (lockedBy (upgraded t v uid L)).
Proof.
  intros t v uid L W S Hv HU HT.
  pose proof (traverse_complete t v uid L W S Hv HT) as Hcomplete.
  destruct S as [H1 H2].
  destruct (traverse_true t v uid L W Hv HT) as [Hnd [HL _]].
  apply upgradable_iff in HU; [|exact W]. destruct HU as [L0 [LA LD]].
  assert (HLr : forall u, In u L -> 0 <= u < n t)
    by (intros u Hu; apply HL; exact Hu).
  apply I1_pairs. intros a w Hw A La Lw.
  pose proof (anc_range (m t) (wf_m t W) a w A) as Ra.
  rewrite upgraded_lockedb in La, Lw by (auto; lia).
  rewrite I1_pairs in H1.
  destruct (Z.eqb_spec a v) as [->|Hav], (Z.eqb_spec w v) as [->|Hwv].
  - exact (anc_irrefl (m t) (wf_m t W) v A).
  - destruct (existsb (Z.eqb w) L) eqn:EL; [discriminate|].
    pose proof (Hcomplete w A ltac:(lia) Lw) as Hin.
    assert (existsb (Z.eqb w) L = true).
    { apply existsb_exists. exists w. split; [exact Hin|apply Z.eqb_refl]. }
    congruence.
  - destruct (existsb (Z.eqb a) L); [discriminate|].
    rewrite (LA a A) in La. discriminate.
  - destruct (existsb (Z.eqb a) L); [discriminate|].
    destruct (existsb (Z.eqb w) L); [discriminate|].
    exact (H1 a w Hw A La Lw).
Qed.

Lemma upgraded_static : forall t v uid L,
  m (upgraded t v uid L) = m t /\ n (upgraded t v uid L) = n t.
Proof.
  intros t v uid L. destruct (afterAll_static L t) as [E1 [E2 _]].
  unfold upgraded. cbn [after m n]. auto.
Qed.

(** The three operations keep I1 and counters that are not too small, as
    long as no [Unlock] comes from the sentinel. *)
Lemma lock_sound : forall t v uid,
  wf t -> sound t -> 0 <= v < n t -> lockable t v = true ->
  sound (after t v uid 1).
Proof.
  intros t v uid W S Hv HL. unfold sound. static_after. split.
  - apply lock_I1; assumption.
  - apply covered_after; [exact W|exact Hv|apply S|].
    destruct (uid =? 0), (lockedb (lockedBy t) v); lia.
Qed.

Lemma unlock_sound : forall t v uid,
  wf t -> sound t -> 0 <= v < n t -> uid <> 0 -> vget (lockedBy t) v = uid ->
  sound (after t v 0 (-1)).
Proof.
  intros t v uid W [H1 H2] Hv Hu HL. unfold sound. static_after. split.
  - apply unlock_I1; assumption.
  - apply covered_after; [exact W|exact Hv|exact H2|].
    unfold lockedb. rewrite HL.
    destruct (Z.eqb_spec uid 0); [contradiction|]. simpl. lia.
Qed.

Lemma upgrade_sound : forall t v uid L,
  wf t -> sound t -> 0 <= v < n t ->
  upgradable t v = true -> traverse t v uid = Some (true, L) ->
  sound (upgraded t v uid L).
Proof.
  intros t v uid L W S Hv HU HT.
  destruct (upgraded_static t v uid L) as [Em En].
  unfold sound. rewrite Em, En. split.
  - apply upgrade_I1; assumption.
  - destruct (traverse_true t v uid L W Hv HT) as [Hnd [HL _]].
    destruct (afterAll_static L t) as [E1 [E2 _]].
    rewrite <- E1, <- E2.
    change (covered (m (afterAll t L)) (n (afterAll t L))
                    (lockedBy (after (afterAll t L) v uid 1))
                    (descLocked (after (afterAll t L) v uid 1))).
    apply covered_after.
    + apply wf_afterAll. exact W.
    + rewrite E1. exact Hv.
    + rewrite E1, E2. apply covered_afterAll; auto; [|apply S].
      intros u Hu. destruct (HL u Hu) as [_ [R [_ Lu]]]. auto.
    + destruct (uid =? 0), (lockedb (lockedBy (afterAll t L)) v); lia.
Qed.

(** [lockNode] by a valid caller keeps I1 and I2. *)
Lemma lock_consistent : forall t v uid,
  wf t -> consistent t -> 0 <= v < n t -> uid <> 0 ->
  lockable t v = true -> consistent (after t v uid 1).
Proof.
  intros t v uid W C Hv Hu HL. unfold consistent. static_after. split.
  - apply lock_I1; auto using consistent_sound.
  - apply lockable_iff in HL; [|exact W]. destruct HL as [L0 _].
    apply I2_after; auto; [apply C|].
    unfold lockedb. rewrite L0.
    destruct (Z.eqb_spec uid 0); [contradiction|reflexivity].
Qed.

(** [unlockNode] by a valid caller keeps I1 and I2. *)
Lemma unlock_consistent : forall t v uid,
  wf t -> consistent t -> 0 <= v < n t -> uid <> 0 ->
  vget (lockedBy t) v = uid -> consistent (after t v 0 (-1)).
Proof.
  intros t v uid W [H1 H2] Hv Hu HL. unfold consistent. static_after. split.
  - apply unlock_I1; assumption.
  - apply I2_after; auto. unfold lockedb. rewrite HL.
    destruct (Z.eqb_spec uid 0); [contradiction|reflexivity].
Qed.

(** A successful [upgradeNode] keeps I1 and I2, and its caller is valid. *)
Lemma upgrade_consistent : forall t v uid L,
  wf t -> consistent t -> 0 <= v < n t ->
  upgradable t v = true -> traverse t v uid = Some (true, L) ->
  uid <> 0 /\ consistent (upgraded t v uid L).
Proof.
  intros t v uid L W C Hv HU HT.
  pose proof (consistent_sound t C) as S.
  pose proof (traverse_complete t v uid L W S Hv HT) as Hcomplete.
  pose proof (upgrade_I1 t v uid L W S Hv HU HT) as HI1.
  destruct C as [H1 H2].
  destruct (traverse_true t v uid L W Hv HT) as [Hnd [HL _]].
  apply upgradable_iff in HU; [|exact W]. destruct HU as [L0 [LA LD]].
  assert (HLr : forall u, In u L -> 0 <= u < n t)
    by (intros u Hu; apply HL; exact Hu).
  assert (Huid : uid <> 0).
  { intros ->. rewrite (H2 v Hv) in LD.
    destruct (lockedBelow_pos (n t) (m t) (wf_m t W) _ v LD) as [d [Hd [A Ld]]].
    destruct (HL d (Hcomplete d A ltac:(lia) Ld)) as [_ [_ [E Ld']]].
    unfold lockedb in Ld'. rewrite E in Ld'. discriminate. }
  split; [exact Huid|].
  destruct (upgraded_static t v uid L) as [Em En].
  destruct (afterAll_static L t) as [E1 [E2 _]].
  assert (HvL : ~ In v L).
  { intros Hin. destruct (HL v Hin) as [A _].
    exact (anc_irrefl (m t) (wf_m t W) v A). }
  unfold consistent. rewrite Em, En. split; [exact HI1|].
  rewrite <- E1, <- E2.
  change (I2 (m (afterAll t L)) (n (afterAll t L))
             (lockedBy (after (afterAll t L) v uid 1))
             (descLocked (after (afterAll t L) v uid 1))).
  apply I2_after.
  - apply wf_afterAll. exact W.
  - rewrite E1. exact Hv.
  - rewrite E1, E2. apply I2_afterAll; auto.
    intros u Hu. destruct (HL u Hu) as [_ [R [_ Lu]]]. auto.
  - unfold lockedb. rewrite afterAll_lockedBy by (auto; lia).
    destruct (existsb (Z.eqb v) L) eqn:EL.
    + apply existsb_exists in EL. destruct EL as [x [Hx Ex]].
      apply Z.eqb_eq in Ex. subst x. contradiction.
    + rewrite L0. simpl.
      destruct (Z.eqb_spec uid 0); [contradiction|reflexivity].
Qed.

End MulSongsSteps.

(** ** Runs of [mulSongs.cpp] *)

Module MulSongsRuns.
Import MulSongs MulSongsSpec MulSongsFacts MulSongsUpgrade MulSongsInv
       MulSongsSteps.

(** Every operation on a node in range returns, in a well-formed state
    over the same tree. *)
Lemma step_total : forall t o,
  wf t -> in_range t o ->
  exists b t', step t o = Some (b, t') /\ wf t' /\ n t' = n t /\ m t' = m t.
Proof.
  intros t [v uid|v uid|v uid] W Hv; unfold in_range in Hv; simpl in Hv;
    cbn [step].
  - rewrite lockNode_eq by assumption.
    destruct (lockable t v); eexists; eexists; (split; [reflexivity|]);
      auto using wf_after.
  - rewrite unlockNode_eq by assumption.
    destruct (vget (lockedBy t) v =? uid); eexists; eexists;
      (split; [reflexivity|]); auto using wf_after.
  - destruct (upgradeNode_eq t v uid W Hv) as [b [L [HT E]]]. rewrite E.
    destruct (upgradable t v && b); eexists; eexists;
      (split; [reflexivity|]); auto.
    split; [apply wf_upgraded; exact W|].
    destruct (afterAll_static L t) as [E1 [E2 _]]. split; assumption.
Qed.

(** A failed operation changes nothing. *)
Lemma step_false : forall t o t',
  wf t -> in_range t o -> step t o = Some (false, t') -> t' = t.
Proof.
  intros t [v uid|v uid|v uid] t' W Hv; unfold in_range in Hv; simpl in Hv;
    cbn [step].
  - rewrite lockNode_eq by assumption.
    destruct (lockable t v); intros H; inversion H; reflexivity.
  - rewrite unlockNode_eq by assumption.
    destruct (vget (lockedBy t) v =? uid); intros H; inversion H; reflexivity.
  - destruct (upgradeNode_eq t v uid W Hv) as [b [L [HT E]]]. rewrite E.
    destruct (upgradable t v && b); intros H; inversion H; reflexivity.
Qed.

Lemma step_consistent : forall t o b t',
  wf t -> consistent t -> in_range t o -> valid_caller o ->
  step t o = Some (b, t') -> consistent t'.
Proof.
  intros t [v uid|v uid|v uid] b t' W C Hv Hc; unfold in_range in Hv;
    simpl in Hv, Hc; cbn [step].
  - rewrite lockNode_eq by assumption.
    destruct (lockable t v) eqn:E; intros H; inversion H; subst; [|exact C].
    apply lock_consistent; assumption.
  - rewrite unlockNode_eq by assumption.
    destruct (Z.eqb_spec (vget (lockedBy t) v) uid) as [E|E];
      intros H; inversion H; subst; [|exact C].
    apply (unlock_consistent t v (vget (lockedBy t) v)); auto.
  - destruct (upgradeNode_eq t v uid W Hv) as [b' [L [HT E]]]. rewrite E.
    destruct (upgradable t v) eqn:EU, b'; cbn [andb];
      intros H; inversion H; subst; try exact C.
    apply (upgrade_consistent t v uid L); assumption.
Qed.

Lemma step_sound : forall t o b t',
  wf t -> sound t -> in_range t o -> unlock_valid o ->
  step t o = Some (b, t') -> sound t'.
Proof.
  intros t [v uid|v uid|v uid] b t' W C Hv Hc; unfold in_range in Hv;
    simpl in Hv, Hc; cbn [step].
  - rewrite lockNode_eq by assumption.
    destruct (lockable t v) eqn:E; intros H; inversion H; subst; [|exact C].
    apply lock_sound; assumption.
  - rewrite unlockNode_eq by assumption.
    destruct (Z.eqb_spec (vget (lockedBy t) v) uid) as [E|E];
      intros H; inversion H; subst; [|exact C].
    apply (unlock_sound t v (vget (lockedBy t) v)); auto.
  - destruct (upgradeNode_eq t v uid W Hv) as [b' [L [HT E]]]. rewrite E.
    destruct (upgradable t v) eqn:EU, b'; cbn [andb];
      intros H; inversion H; subst; try exact C.
    apply (upgrade_sound t v uid L); assumption.
Qed.

Lemma lockedb_assign : forall N w, lockedb (assign N 0) w = false.
Proof.
  intros N w. unfold lockedb, vget, assign. rewrite nth_repeat. reflexivity.
Qed.

Lemma new_consistent : forall N M, consistent (newTreeLocker N M).
Proof.
  intros N M. split; cbn [newTreeLocker m n lockedBy descLocked].
  - intros v _ L. rewrite lockedb_assign in L. discriminate.
  - intros v Hv. rewrite vget_assign by exact Hv.
    unfold lockedBelow. symmetry. apply countZ_zero.
    intros w _. rewrite lockedb_assign. apply andb_false_r.
Qed.

(** A property that every permitted operation keeps holds along a run, and
    the run returns. *)
Lemma run_invariant : forall (Inv : TreeLocker -> Prop) (permitted : Op -> Prop),
  (forall t o b t', wf t -> Inv t -> in_range t o -> permitted o ->
                    step t o = Some (b, t') -> Inv t') ->
  forall os t,
    wf t -> Inv t ->
    Forall (fun o => 0 <= op_node o < n t) os -> Forall permitted os ->
    exists bs t', run t os = Some (bs, t') /\ wf t' /\ Inv t' /\
                  n t' = n t /\ m t' = m t.
Proof.
  intros Inv permitted Hstep.
  induction os as [|o os IH]; intros t W C Q P.
  - exists [], t. auto.
  - inversion Q as [|? ? Ho Q']; subst. inversion P as [|? ? Hp P']; subst.
    destruct (step_total t o W Ho) as [b [t1 [E [W1 [En Em]]]]].
    pose proof (Hstep t o b t1 W C Ho Hp E) as C1.
    destruct (IH t1 W1 C1) as [bs [t' [E' [W' [C' [En' Em']]]]]];
      [rewrite En; exact Q' | exact P' |].
    exists (b :: bs), t'. cbn [run]. rewrite E. cbn [bind snd fst].
    rewrite E'. cbn [bind snd fst].
    split; [reflexivity|]. split; [exact W'|]. split; [exact C'|].
    split; congruence.
Qed.

Lemma Forall_True : forall os : list Op, Forall (fun _ => True) os.
Proof. induction os; constructor; auto. Qed.

Lemma run_total : forall os t,
  wf t -> Forall (fun o => 0 <= op_node o < n t) os ->
  exists bs t', run t os = Some (bs, t') /\ wf t' /\ n t' = n t /\ m t' = m t.
Proof.
  intros os t W Q.
  destruct (run_invariant (fun _ => True) (fun _ => True)
              (fun _ _ _ _ _ _ _ _ _ => I) os t W I Q (Forall_True os))
    as [bs [t' [E [W' [_ H]]]]].
  exists bs, t'. auto.
Qed.

Lemma run_consistent : forall os t,
  wf t -> consistent t ->
  Forall (fun o => 0 <= op_node o < n t) os -> Forall valid_caller os ->
  exists bs t', run t os = Some (bs, t') /\ wf t' /\ consistent t' /\
                n t' = n t /\ m t' = m t.
Proof. exact (run_invariant consistent valid_caller step_consistent). Qed.

Lemma run_sound : forall os t,
  wf t -> sound t ->
  Forall (fun o => 0 <= op_node o < n t) os -> Forall unlock_valid os ->
  exists bs t', run t os = Some (bs, t') /\ wf t' /\ sound t' /\
                n t' = n t /\ m t' = m t.
Proof. exact (run_invariant sound unlock_valid step_sound). Qed.

End MulSongsRuns.

(** ** [Song_M]: the mutexes *)

Lemma In_insert_sorted : forall x y l,
  In x (insert_sorted y l) <-> x = y \/ In x l.
Proof.
  intros x y l. induction l as [|z l IH]; simpl.
  - intuition.
  - destruct (y <=? z); simpl; [intuition|]. rewrite IH. intuition.
Qed.

Lemma In_sort : forall x l, In x (sort l) <-> In x l.
Proof.
  intros x l. induction l as [|y l IH]; simpl; [tauto|].
  rewrite In_insert_sorted, IH. intuition.
Qed.

Lemma insert_sorted_sorted : forall y l,
  StronglySorted Z.le l -> StronglySorted Z.le (insert_sorted y l).
Proof.
  intros y l H. induction H as [|z l H IH F]; simpl.
  - constructor; constructor.
  - destruct (Z.leb_spec y z).
    + constructor; [constructor; assumption|].
      constructor; [assumption|].
      eapply Forall_impl; [|exact F]. intros a Ha. simpl in Ha. lia.
    + constructor; [exact IH|].
      apply Forall_forall. intros a Ha. apply In_insert_sorted in Ha.
      destruct Ha as [->|Ha]; [lia|].
      rewrite Forall_forall in F. apply F. exact Ha.
Qed.

Lemma sort_sorted : forall l, StronglySorted Z.le (sort l).
Proof.
  induction l as [|x l IH]; simpl; [constructor|].
  apply insert_sorted_sorted. exact IH.
Qed.

Lemma In_unique : forall x l, In x (unique l) <-> In x l.
Proof.
  intros x l. induction l as [|y l IH]; [simpl; tauto|].
  destruct l as [|z l].
  - simpl. tauto.
  - change (unique (y :: z :: l))
      with (if y =? z then unique (z :: l) else y :: unique (z :: l)).
    destruct (Z.eqb_spec y z) as [->|Hne].
    + rewrite IH. simpl. tauto.
    + simpl In at 1. rewrite IH. simpl. tauto.
Qed.

Lemma unique_sorted : forall l,
  StronglySorted Z.le l -> StronglySorted Z.lt (unique l).
Proof.
  intros l H. induction H as [|y l H IH F]; [constructor|].
  destruct l as [|z l].
  - simpl. constructor; constructor.
  - change (unique (y :: z :: l))
      with (if y =? z then unique (z :: l) else y :: unique (z :: l)).
    destruct (Z.eqb_spec y z) as [->|Hne]; [exact IH|].
    constructor; [exact IH|].
    apply Forall_forall. intros a Ha. rewrite In_unique in Ha.
    apply StronglySorted_inv in H. destruct H as [_ Fz].
    rewrite Forall_forall in F, Fz.
    pose proof (F z (or_introl eq_refl)).
    simpl in Ha. destruct Ha as [<-|Ha]; [lia|].
    pose proof (Fz a Ha). lia.
Qed.

Lemma strictly_sorted_NoDup : forall l, StronglySorted Z.lt l -> NoDup l.
Proof.
  intros l H. induction H as [|y l H IH F]; constructor; [|exact IH].
  intros Hin. rewrite Forall_forall in F. pose proof (F y Hin). lia.
Qed.

Lemma NoDup_unique_sort : forall l, NoDup (unique (sort l)).
Proof.
  intros l. apply strictly_sorted_NoDup, unique_sorted, sort_sorted.
Qed.

Lemma In_unique_sort : forall x l, In x (unique (sort l)) <-> In x l.
Proof. intros. rewrite In_unique. apply In_sort. Qed.

Lemma fold_vset_length : forall (l : list Z) c mx,
  length (fold_left (fun mx id => vset mx id c) l mx) = length mx.
Proof.
  induction l as [|x l IH]; intros c mx; simpl; [reflexivity|].
  rewrite IH. apply vset_length.
Qed.

Lemma fold_vset_get : forall (l : list Z) c mx w,
  (forall x, In x l -> 0 <= x < Z.of_nat (length mx)) -> 0 <= w ->
  vget (fold_left (fun mx id => vset mx id c) l mx) w
  = if existsb (Z.eqb w) l then c else vget mx w.
Proof.
  induction l as [|x l IH]; intros c mx w Hr Hw; simpl; [reflexivity|].
  rewrite IH; [| intros y Hy; rewrite vset_length; apply Hr; right; exact Hy
               | exact Hw].
  rewrite vget_vset; [| apply Hr; left; reflexivity | exact Hw].
  destruct (Z.eqb_spec w x); simpl; destruct (existsb (Z.eqb w) l); reflexivity.
Qed.

(** Locking distinct free mutexes succeeds. *)
Lemma lockEach_ok : forall ids mx locks,
  NoDup ids ->
  (forall x, In x ids -> 0 <= x < Z.of_nat (length mx) /\ vget mx x = 0) ->
  SongM.lockEach ids mx locks
  = Some (fold_left (fun mx id => vset mx id 1) ids mx, locks ++ ids).
Proof.
  induction ids as [|id ids IH]; intros mx locks Hnd H; simpl.
  - rewrite app_nil_r. reflexivity.
  - inversion Hnd as [|? ? Hid Hnd']; subst.
    destruct (H id (or_introl eq_refl)) as [Hr Hz]. rewrite Hz. simpl.
    rewrite IH; [rewrite <- app_assoc; reflexivity | exact Hnd' |].
    intros x Hx. destruct (H x (or_intror Hx)) as [Hxr Hxz].
    rewrite vset_length. split; [exact Hxr|].
    rewrite vget_vset_other; [exact Hxz | lia | lia |].
    intros ->. contradiction.
Qed.

(** Acquiring a set of mutexes in a state where all are free, and
    releasing them, gives the state back. *)
Lemma acquire_release : forall N nodes,
  0 <= N -> (forall x, In x nodes -> 0 <= x < N) ->
  exists mx locks,
    SongM.lockEach (unique (sort nodes)) (assign N 0) [] = Some (mx, locks) /\
    fold_left (fun mx id => vset mx id 0) locks mx = assign N 0.
Proof.
  intros N nodes HN Hr.
  assert (Hr' : forall x, In x (unique (sort nodes)) ->
                  0 <= x < Z.of_nat (length (assign N 0))).
  { intros x Hx. rewrite In_unique_sort in Hx. rewrite assign_length by exact HN.
    apply Hr. exact Hx. }
  rewrite lockEach_ok; [| apply NoDup_unique_sort |].
  - eexists. eexists. split; [reflexivity|]. simpl.
    apply vec_ext.
    + rewrite !fold_vset_length. reflexivity.
    + intros i Hi. rewrite !fold_vset_length in Hi.
      rewrite fold_vset_get; [| intros x Hx; rewrite fold_vset_length; auto | lia].
      destruct (existsb (Z.eqb i) (unique (sort nodes))) eqn:E.
      * rewrite vget_assign; [reflexivity|]. rewrite assign_length in Hi; lia.
      * rewrite fold_vset_get by (auto; lia). rewrite E. reflexivity.
  - intros x Hx. split; [auto|]. apply vget_assign.
    specialize (Hr' x Hx). rewrite assign_length in Hr' by exact HN. exact Hr'.
Qed.

(** ** [Song_M]: [lockNode] and [unlockNode] do what [mulSongs.cpp] does *)

Module SongMFacts.
Import MulSongsSpec MulSongsFacts.

Lemma getPathToRoot_loop_spec : forall N M fuel p path,
  1 <= M -> 0 <= N -> -1 <= p < N -> (Z.to_nat (p + 1) < fuel)%nat ->
  SongM.getPathToRoot_loop fuel (parentTable N M) p path
  = Some (path ++ upFrom M p).
Proof.
  intros N M fuel p path HM HN. revert p path.
  induction fuel as [|fuel IH]; intros p path Hp Hf; [lia|].
  simpl. unfold upFrom at 1.
  destruct (Z.eqb_spec p (-1)) as [->|Hne]; [rewrite app_nil_r; reflexivity|].
  pose proof (parentTable_next N M HM HN p ltac:(lia)).
  rewrite IH by lia. rewrite upFrom_parent by (auto; lia).
  rewrite <- app_assoc. reflexivity.
Qed.

Lemma getPathToRoot_eq : forall t v,
  wf t -> 0 <= v < MulSongs.n t ->
  SongM.getPathToRoot (toM t) v true
  = Some (v :: ancestors (MulSongs.m t) v).
Proof.
  intros t v W Hv. unfold SongM.getPathToRoot, toM.
  cbn [SongM.n SongM.parent]. rewrite (wf_parent t W).
  pose proof (parentTable_next _ _ (wf_m t W) (wf_n t W) v Hv).
  rewrite getPathToRoot_loop_spec; [| apply W | apply W | lia | lia].
  rewrite upFrom_parent; [reflexivity | apply W | apply W | exact Hv].
Qed.

Lemma path_in_range : forall t v x,
  wf t -> 0 <= v < MulSongs.n t ->
  In x (v :: ancestors (MulSongs.m t) v) -> 0 <= x < MulSongs.n t.
Proof.
  intros t v x W Hv [<-|Hx]; [exact Hv|].
  apply In_ancestors in Hx; [|apply W].
  apply anc_range in Hx; [lia|apply W].
Qed.

(** Taking the mutexes of a set of nodes in range: it succeeds, and
    releasing them frees every mutex again. *)
Lemma acquireLocks_eq : forall t nodes,
  wf t -> (forall x, In x nodes -> 0 <= x < MulSongs.n t) ->
  exists mx locks,
    SongM.acquireLocks (toM t) nodes []
    = Some (SongM.set_nodeMx (toM t) mx, locks) /\
    fold_left (fun mx id => vset mx id 0) locks mx
    = assign (MulSongs.n t) 0.
Proof.
  intros t nodes W Hr.
  destruct (acquire_release (MulSongs.n t) nodes (wf_n t W) Hr)
    as [mx [locks [E R]]].
  exists mx, locks. split; [|exact R].
  unfold SongM.acquireLocks. cbn [toM SongM.nodeMx]. rewrite E. reflexivity.
Qed.

Lemma hasLockedAncestorM_eq : forall t mx v,
  wf t -> 0 <= v < MulSongs.n t ->
  SongM.hasLockedAncestor (SongM.set_nodeMx (toM t) mx) v
  = Some (existsb (lockedb (MulSongs.lockedBy t))
                  (ancestors (MulSongs.m t) v)).
Proof.
  intros t mx v W Hv. unfold SongM.hasLockedAncestor.
  cbn [toM SongM.set_nodeMx SongM.n SongM.parent SongM.lockedBy SongM.m
       SongM.descLocked SongM.nodeMx].
  rewrite (wf_parent t W).
  apply lockedAncestor_spec; [apply W|apply W|exact Hv].
Qed.

Lemma addToAncestors_eq : forall nn mm lb dl mx v delta,
  1 <= mm -> 0 <= nn -> 0 <= v < nn ->
  SongM.addToAncestors (SongM.mkTL nn mm (parentTable nn mm) lb dl mx) v delta
  = Some (SongM.mkTL nn mm (parentTable nn mm) lb (bump mm dl v delta) mx).
Proof.
  intros nn mm lb dl mx v delta HM HN Hv. unfold SongM.addToAncestors.
  cbn [SongM.n SongM.parent SongM.descLocked].
  rewrite addAncestors_spec by assumption. reflexivity.
Qed.

Ltac fieldsM :=
  cbn [bind toM SongM.set_nodeMx SongM.set_lockedBy SongM.set_descLocked
       SongM.n SongM.m SongM.parent SongM.lockedBy SongM.descLocked
       SongM.nodeMx SongM.releaseLocks].

Lemma release_toM : forall t mx locks,
  fold_left (fun mx id => vset mx id 0) locks mx = assign (MulSongs.n t) 0 ->
  SongM.releaseLocks (SongM.set_nodeMx (toM t) mx) locks = toM t.
Proof.
  intros t mx locks R. unfold SongM.releaseLocks. fieldsM. rewrite R.
  reflexivity.
Qed.

Lemma lockNodeM_eq : forall t v uid,
  wf t -> 0 <= v < MulSongs.n t ->
  SongM.lockNode (toM t) v uid
  = Some (if lockable t v then (true, toM (after t v uid 1))
          else (false, toM t)).
Proof.
  intros t v uid W Hv. unfold SongM.lockNode.
  rewrite (getPathToRoot_eq t v W Hv). cbn [bind].
  destruct (acquireLocks_eq t (v :: ancestors (MulSongs.m t) v) W
                            (fun x => path_in_range t v x W Hv))
    as [mx [locks [E R]]].
  rewrite E. cbn [bind].
  rewrite (hasLockedAncestorM_eq t mx v W Hv).
  rewrite (release_toM t mx locks R).
  unfold lockable. fieldsM.
  destruct (vget (MulSongs.lockedBy t) v =? 0); cbn [negb andb]; [|reflexivity].
  destruct (existsb (lockedb (MulSongs.lockedBy t)) (ancestors (MulSongs.m t) v));
    cbn [negb andb]; [reflexivity|].
  destruct (vget (MulSongs.descLocked t) v =? 0); cbn [negb andb]; [|reflexivity].
  unfold SongM.set_lockedBy, SongM.set_nodeMx, toM. fieldsM.
  rewrite (wf_parent t W).
  rewrite addToAncestors_eq; [| apply W | apply W | exact Hv].
  cbn [bind]. unfold SongM.releaseLocks, SongM.set_nodeMx. fieldsM. rewrite R.
  unfold after, toM. cbn [MulSongs.n MulSongs.m MulSongs.parent
                           MulSongs.lockedBy MulSongs.descLocked].
  rewrite (wf_parent t W). reflexivity.
Qed.

Lemma unlockNodeM_eq : forall t v uid,
  wf t -> 0 <= v < MulSongs.n t ->
  SongM.unlockNode (toM t) v uid
  = Some (if vget (MulSongs.lockedBy t) v =? uid
          then (true, toM (after t v 0 (-1))) else (false, toM t)).
Proof.
  intros t v uid W Hv. unfold SongM.unlockNode.
  rewrite (getPathToRoot_eq t v W Hv). cbn [bind].
  destruct (acquireLocks_eq t (v :: ancestors (MulSongs.m t) v) W
                            (fun x => path_in_range t v x W Hv))
    as [mx [locks [E R]]].
  rewrite E. cbn [bind].
  rewrite (release_toM t mx locks R).
  fieldsM.
  destruct (vget (MulSongs.lockedBy t) v =? uid); cbn [negb]; [|reflexivity].
  unfold SongM.set_lockedBy, SongM.set_nodeMx, toM. fieldsM.
  rewrite (wf_parent t W).
  rewrite addToAncestors_eq; [| apply W | apply W | exact Hv].
  cbn [bind]. unfold SongM.releaseLocks, SongM.set_nodeMx. fieldsM. rewrite R.
  unfold after, toM. cbn [MulSongs.n MulSongs.m MulSongs.parent
                           MulSongs.lockedBy MulSongs.descLocked].
  rewrite (wf_parent t W). reflexivity.
Qed.

End SongMFacts.

(** ** The two traversals agree when the extra visits are harmless *)

Section TraversalSimulation.

Variables N M : Z.
Variables lb dl : list Z.
Variable uid : Z.
Hypothesis HM : 1 <= M.
Hypothesis HN : 0 <= N.
Hypothesis HJ : harmless M N lb dl.

Local Abbreviation sim := (stackSim M N lb dl).
Local Abbreviation inertN := (inert M N lb dl).

Lemma stackSim_app : forall a b c d,
  sim a b -> sim c d -> sim (a ++ c) (b ++ d).
Proof.
  intros a b c d H. induction H; intros H'; simpl.
  - exact H'.
  - apply sim_both. auto.
  - apply sim_skip; auto.
Qed.

Lemma stackSim_rev : forall a b, sim a b -> sim (rev a) (rev b).
Proof.
  intros a b H. induction H; simpl.
  - constructor.
  - apply stackSim_app; [assumption|]. apply sim_both. constructor.
  - rewrite <- (app_nil_r (rev s1)).
    apply stackSim_app; [assumption|]. apply sim_skip; auto. constructor.
Qed.

Lemma stackSim_refl : forall s, sim s s.
Proof. induction s; constructor; assumption. Qed.

Lemma stackSim_skip_all : forall l s1 s2,
  (forall u, In u l -> 0 <= u /\ inertN u) -> sim s1 s2 -> sim s1 (l ++ s2).
Proof.
  induction l as [|u l IH]; intros s1 s2 H S; simpl; [exact S|].
  destruct (H u (or_introl eq_refl)).
  apply sim_skip; auto. apply IH; auto.
  intros x Hx. apply H. right. exact Hx.
Qed.

Lemma stackSim_filter : forall K,
  (forall c, In c K -> 0 <= c) ->
  sim (filter (pushb lb dl) K) (filter (pushMb dl) K).
Proof.
  induction K as [|c K IH]; intros H; simpl; [constructor|].
  assert (IH' : sim (filter (pushb lb dl) K) (filter (pushMb dl) K)).
  { apply IH. intros x Hx. apply H. right. exact Hx. }
  unfold pushb at 1, pushMb at 1.
  destruct (vget dl c >? 0) eqn:D; [|rewrite andb_false_r; exact IH'].
  destruct (lockedb lb c) eqn:L; simpl.
  - apply sim_skip; [apply H; left; reflexivity| |exact IH'].
    apply HJ; [apply H; left; reflexivity|exact L|exact D].
  - apply sim_both. exact IH'.
Qed.

Lemma kids_nonneg : forall u c, 0 <= u -> In c (kids M N u) -> 0 <= c.
Proof.
  intros u c Hu Hc. apply In_kids in Hc; [lia|exact HM|exact Hu].
Qed.

Lemma inert_kids_unlocked : forall u c,
  0 <= u -> inertN u -> In c (kids M N u) -> lockedb lb c = false.
Proof. intros u c Hu I Hc. apply I. apply reach_kid; assumption. Qed.

Lemma inert_kid : forall u c,
  0 <= u -> inertN u -> In c (kids M N u) -> pushMb dl c = true -> inertN c.
Proof.
  intros u c Hu I Hc P x Hx. apply I. eapply reach_step; eauto.
Qed.

Lemma visit_fuel_mono : forall f acc st r,
  visit N M lb dl uid f acc st = Some r ->
  forall f', (f <= f')%nat -> visit N M lb dl uid f' acc st = Some r.
Proof.
  induction f as [|f IH]; intros acc st r H f' Hf; [discriminate|].
  destruct f' as [|f']; [lia|].
  cbn [visit] in *. destruct st as [|u rest]; [exact H|].
  destruct (scanChildren N lb dl uid (Z.to_nat M) (1 * u * M + 1) 0 acc rest)
    as [[[] d] s]; [|exact H].
  apply IH; [exact H|lia].
Qed.

(** Whatever [Song_M] computes from a stack, [mulSongs.cpp] computes from
    the stack without the inert nodes. *)
Lemma collect_visit_sim : forall f2 acc s1 s2 r2,
  sim s1 s2 ->
  (forall u, In u s1 -> 0 <= u) ->
  collect N M lb dl uid f2 acc s2 = Some r2 ->
  exists f1 r1,
    visit N M lb dl uid f1 acc s1 = Some r1 /\
    fst r1 = negb (fst r2) /\
    (fst r1 = true -> snd r1 = snd r2).
Proof.
  induction f2 as [|f2 IH]; intros acc s1 s2 r2 HS Hs H; [discriminate|].
  inversion HS as [|u t1 t2 S'|u t1 t2 Hu I S']; subst.
  - (* both stacks are empty *)
    simpl in H. inversion H; subst.
    exists 1%nat, (true, acc). simpl. auto.
  - (* the same node on top *)
    assert (Hu : 0 <= u) by (apply Hs; left; reflexivity).
    destruct (existsb (foreignb lb uid) (kids M N u)) eqn:F.
    + destruct (collect_step_foreign N M lb dl uid f2 acc u t2 F) as [d Hd].
      destruct (visit_step_foreign N M lb dl uid 0 acc u t1 F) as [d' Hd'].
      rewrite Hd in H. inversion H; subst.
      exists 1%nat, (false, d'). simpl. split; [exact Hd'|].
      split; [reflexivity|discriminate].
    + rewrite collect_step_ok in H by exact F.
      assert (S2 : sim (rev (filter (pushb lb dl) (kids M N u)) ++ t1)
                       (rev (filter (pushMb dl) (kids M N u)) ++ t2)).
      { apply stackSim_app; [|exact S']. apply stackSim_rev.
        apply stackSim_filter. intros c Hc. exact (kids_nonneg u c Hu Hc). }
      assert (Hs2 : forall x,
                In x (rev (filter (pushb lb dl) (kids M N u)) ++ t1) -> 0 <= x).
      { intros x Hx. apply in_app_or in Hx. destruct Hx as [Hx|Hx].
        - apply in_rev in Hx. apply filter_In in Hx. destruct Hx as [Hx _].
          exact (kids_nonneg u x Hu Hx).
        - apply Hs. right. exact Hx. }
      destruct (IH _ _ _ _ S2 Hs2 H) as [f1 [r1 [E1 [E2 E3]]]].
      exists (S f1), r1. split; [|auto].
      rewrite visit_step_ok by exact F. exact E1.
  - (* an inert node on top of the stack of [Song_M] *)
    assert (F : existsb (foreignb lb uid) (kids M N u) = false).
    { destruct (existsb (foreignb lb uid) (kids M N u)) eqn:F; [|reflexivity].
      apply existsb_exists in F. destruct F as [c [Hc Fc]].
      unfold foreignb in Fc.
      rewrite (inert_kids_unlocked u c Hu I Hc) in Fc. discriminate. }
    rewrite collect_step_ok in H by exact F.
    assert (E : filter (lockedb lb) (kids M N u) = []).
    { destruct (filter (lockedb lb) (kids M N u)) as [|c l] eqn:E;
        [reflexivity|exfalso].
      assert (Hc : In c (filter (lockedb lb) (kids M N u)))
        by (rewrite E; left; reflexivity).
      apply filter_In in Hc. destruct Hc as [Hc L].
      rewrite (inert_kids_unlocked u c Hu I Hc) in L. discriminate. }
    rewrite E, app_nil_r in H.
    apply (IH acc s1 (rev (filter (pushMb dl) (kids M N u)) ++ t2) r2);
      [|exact Hs|exact H].
    apply stackSim_skip_all; [|exact S'].
    intros c Hc. apply in_rev in Hc. apply filter_In in Hc.
    destruct Hc as [Hc P]. split; [exact (kids_nonneg u c Hu Hc)|].
    exact (inert_kid u c Hu I Hc P).
Qed.

(** From the same start, [Song_M] finds a foreign lock exactly when
    [mulSongs.cpp] does, and otherwise collects the same list. *)
Lemma collect_agrees : forall v b L,
  0 <= v < N ->
  visit N M lb dl uid (S (Z.to_nat N)) [] [v] = Some (b, L) ->
  exists L',
    collect N M lb dl uid (S (Z.to_nat N)) [] [v] = Some (negb b, L') /\
    (b = true -> L' = L).
Proof.
  intros v b L Hv H.
  destruct (collect_total N M lb dl uid HM HN v Hv) as [[b2 L2] H2].
  destruct (collect_visit_sim _ _ [v] [v] _ (stackSim_refl [v])
              ltac:(intros u [<-|[]]; lia) H2) as [f1 [[b1 L1] [E1 [E2 E3]]]].
  simpl in E2, E3.
  pose proof (visit_fuel_mono _ _ _ _ E1 (Nat.max f1 (S (Z.to_nat N)))
                              (Nat.le_max_l _ _)) as A.
  pose proof (visit_fuel_mono _ _ _ _ H (Nat.max f1 (S (Z.to_nat N)))
                              (Nat.le_max_r _ _)) as B.
  rewrite A in B. inversion B; subst.
  exists L2. rewrite H2. split.
  - rewrite negb_involutive. reflexivity.
  - intros Hb. symmetry. apply E3. exact Hb.
Qed.

End TraversalSimulation.

(** ** The extra visits of [Song_M] are harmless in every reachable state *)

Section ReachFacts.

Variables N M : Z.
Hypothesis HM : 1 <= M.

Lemma reachM_anc : forall dl u x,
  reachM M N dl u x -> anc M u x /\ 0 < x < N.
Proof.
  intros dl u x H. induction H as [u c Hu Hc | u c x Hu Hc P R [IH1 IH2]].
  - split; [eapply kid_anc; eauto|].
    apply In_kids in Hc; [tauto|exact HM|exact Hu].
  - split; [|exact IH2].
    eapply anc_trans; [|exact IH1]. eapply kid_anc; eauto.
Qed.

Lemma reachM_mono : forall dl dl' u x,
  reachM M N dl' u x ->
  (forall y, anc M u y -> anc M y x ->
             pushMb dl' y = true -> pushMb dl y = true) ->
  reachM M N dl u x.
Proof.
  intros dl dl' u x H. induction H as [u c Hu Hc | u c x Hu Hc P R IH]; intros Hy.
  - apply reach_kid; assumption.
  - pose proof (kid_anc M HM N u c Hu Hc) as A.
    destruct (reachM_anc _ _ _ R) as [B _].
    eapply reach_step; eauto.
    apply IH. intros y Hcy Hyx. apply Hy; [|exact Hyx].
    eapply anc_trans; eauto.
Qed.

Lemma reachM_suffix : forall dl u x y,
  reachM M N dl u x -> anc M u y -> anc M y x ->
  pushMb dl y = true /\ reachM M N dl y x.
Proof.
  intros dl u x y H. revert y.
  induction H as [u c Hu Hc | u c x Hu Hc P R IH]; intros y Huy Hyx.
  - exfalso. apply In_kids in Hc; [|exact HM|exact Hu].
    destruct Hc as [Hc Hp].
    exact (anc_parent_between M HM u c y ltac:(lia) Hp Huy Hyx).
  - destruct (reachM_anc _ _ _ R) as [B _].
    destruct (anc_chain M y c x Hyx B) as [->|[Hyc|Hcy]].
    + split; assumption.
    + exfalso. apply In_kids in Hc; [|exact HM|exact Hu].
      destruct Hc as [Hc Hp].
      exact (anc_parent_between M HM u c y ltac:(lia) Hp Huy Hyc).
    + apply IH; assumption.
Qed.

End ReachFacts.

Module MulSongsHarmless.
Import MulSongs MulSongsSpec MulSongsFacts MulSongsUpgrade MulSongsInv
       MulSongsSteps.

Lemma harmless_new : forall N M, harmlessT (newTreeLocker N M).
Proof.
  intros N M w _ L. cbn [newTreeLocker lockedBy] in L.
  rewrite MulSongsRuns.lockedb_assign in L. discriminate.
Qed.

Lemma after_pushM_same : forall t v uid delta y,
  wf t -> 0 <= v < n t -> 0 <= y -> ~ anc (m t) y v ->
  pushMb (descLocked (after t v uid delta)) y = pushMb (descLocked t) y.
Proof.
  intros t v uid delta y W Hv Hy A. unfold pushMb.
  rewrite after_descLocked by assumption.
  apply ancb_false in A; [|apply W]. rewrite A. f_equal. lia.
Qed.

(** Locking [v]: a locked node is not above [v], so nothing changes on
    the paths that matter. *)
Lemma harmless_lock : forall t v uid,
  wf t -> 0 <= v < n t -> harmlessT t -> lockable t v = true ->
  harmlessT (after t v uid 1).
Proof.
  intros t v uid W Hv HJ HL.
  apply lockable_iff in HL; [|exact W]. destruct HL as [L0 [LA LD]].
  unfold harmlessT. cbn [after m n]. fold (after t v uid 1).
  intros w Hw Lw Pw x Rx.
  change (lockedb (lockedBy (after t v uid 1)) w = true) in Lw.
  change (pushMb (descLocked (after t v uid 1)) w = true) in Pw.
  change (reachM (m t) (n t) (descLocked (after t v uid 1)) w x) in Rx.
  change (lockedb (lockedBy (after t v uid 1)) x = false).
  pose proof (wf_m t W) as HM.
  rewrite after_lockedb in Lw by assumption.
  assert (A : ~ anc (m t) w v).
  { intros A. pose proof (anc_range _ HM _ _ A).
    destruct (Z.eqb_spec w v); [lia|]. rewrite (LA w A) in Lw. discriminate. }
  rewrite after_pushM_same in Pw by assumption.
  assert (Rx0 : reachM (m t) (n t) (descLocked t) w x).
  { apply (reachM_mono (n t) (m t) HM _ _ _ _ Rx).
    intros y Hwy Hyx. pose proof (anc_range _ HM _ _ Hwy).
    rewrite after_pushM_same; [auto | exact W | exact Hv | lia |].
    intros B. apply A. eapply anc_trans; eauto. }
  destruct (Z.eqb_spec w v) as [->|Hne].
  { unfold pushMb in Pw. rewrite LD in Pw. discriminate. }
  destruct (reachM_anc (n t) (m t) HM _ _ _ Rx0) as [Awx Hx].
  rewrite after_lockedb by (auto; lia).
  destruct (Z.eqb_spec x v) as [->|_]; [contradiction|].
  exact (HJ w Hw Lw Pw x Rx0).
Qed.

(** Unlocking [v]: fewer locked nodes, smaller counters. *)
Lemma harmless_unlock : forall t v,
  wf t -> 0 <= v < n t -> harmlessT t -> harmlessT (after t v 0 (-1)).
Proof.
  intros t v W Hv HJ.
  unfold harmlessT. cbn [after m n]. fold (after t v 0 (-1)).
  intros w Hw Lw Pw x Rx.
  change (lockedb (lockedBy (after t v 0 (-1))) w = true) in Lw.
  change (pushMb (descLocked (after t v 0 (-1))) w = true) in Pw.
  change (reachM (m t) (n t) (descLocked (after t v 0 (-1))) w x) in Rx.
  change (lockedb (lockedBy (after t v 0 (-1))) x = false).
  pose proof (wf_m t W) as HM.
  assert (Hdec : forall y, 0 <= y ->
            pushMb (descLocked (after t v 0 (-1))) y = true ->
            pushMb (descLocked t) y = true).
  { intros y Hy. unfold pushMb. rewrite after_descLocked by assumption.
    rewrite !Z.gtb_lt. destruct (ancb (m t) y v); lia. }
  rewrite after_lockedb in Lw by assumption.
  destruct (Z.eqb_spec w v); [discriminate|].
  assert (Rx0 : reachM (m t) (n t) (descLocked t) w x).
  { apply (reachM_mono (n t) (m t) HM _ _ _ _ Rx).
    intros y Hwy _. pose proof (anc_range _ HM _ _ Hwy). apply Hdec. lia. }
  destruct (reachM_anc (n t) (m t) HM _ _ _ Rx0) as [Awx Hx].
  rewrite after_lockedb by (auto; lia).
  destruct (Z.eqb_spec x v); [reflexivity|].
  exact (HJ w Hw Lw (Hdec w Hw Pw) x Rx0).
Qed.

Lemma upgraded_descLocked : forall t v uid L y,
  wf t -> 0 <= v < n t -> (forall u, In u L -> 0 <= u < n t) -> 0 <= y ->
  vget (descLocked (upgraded t v uid L)) y
  = vget (descLocked t) y - countZ (ancb (m t) y) L
    + (if ancb (m t) y v then 1 else 0).
Proof.
  intros t v uid L y W Hv HL Hy. unfold upgraded.
  destruct (afterAll_static L t) as [E1 [E2 _]].
  rewrite after_descLocked;
    [| apply wf_afterAll; exact W | rewrite E1; exact Hv | exact Hy].
  rewrite afterAll_descLocked by assumption. rewrite E2. reflexivity.
Qed.

(** Upgrading [v]: the locked nodes that stay below [v] are those that the
    traversal of [mulSongs.cpp] did not reach, and it is stopped on the
    way to them by a node that [Song_M] does not cross either. *)
Lemma harmless_upgrade : forall t v uid L,
  wf t -> 0 <= v < n t -> harmlessT t ->
  upgradable t v = true -> traverse t v uid = Some (true, L) ->
  harmlessT (upgraded t v uid L).
Proof.
  intros t v uid L W Hv HJ HU HT.
  apply upgradable_iff in HU; [|exact W]. destruct HU as [L0 [LA LD]].
  destruct (traverse_true t v uid L W Hv HT) as [Hnd [HL Hcov]].
  assert (HLr : forall u, In u L -> 0 <= u < n t)
    by (intros u Hu; apply HL; exact Hu).
  destruct (afterAll_static L t) as [E1 [E2 _]].
  pose proof (wf_m t W) as HM.
  unfold harmlessT.
  change (m (upgraded t v uid L)) with (m (afterAll t L)).
  change (n (upgraded t v uid L)) with (n (afterAll t L)).
  rewrite E1, E2.
  intros w Hw Lw Pw x Rx.
  assert (Hdec : forall y, 0 <= y -> ~ anc (m t) y v ->
            pushMb (descLocked (upgraded t v uid L)) y = true ->
            pushMb (descLocked t) y = true).
  { intros y Hy A. unfold pushMb. rewrite upgraded_descLocked by assumption.
    apply ancb_false in A; [|exact HM]. rewrite A.
    pose proof (countZ_nonneg (ancb (m t) y) L).
    rewrite !Z.gtb_lt. lia. }
  rewrite upgraded_lockedb in Lw by assumption.
  assert (A : ~ anc (m t) w v).
  { intros A. pose proof (anc_range _ HM _ _ A).
    destruct (Z.eqb_spec w v); [lia|].
    destruct (existsb (Z.eqb w) L); [discriminate|].
    rewrite (LA w A) in Lw. discriminate. }
  assert (Rx0 : reachM (m t) (n t) (descLocked t) w x).
  { apply (reachM_mono (n t) (m t) HM _ _ _ _ Rx).
    intros y Hwy _. pose proof (anc_range _ HM _ _ Hwy).
    apply Hdec; [lia|]. intros B. apply A. eapply anc_trans; eauto. }
  pose proof (Hdec w Hw A Pw) as Pw0.
  destruct (reachM_anc (n t) (m t) HM _ _ _ Rx0) as [Awx Hx].
  rewrite upgraded_lockedb by (auto; lia).
  destruct (Z.eqb_spec x v) as [->|Hxv]; [contradiction|].
  destruct (existsb (Z.eqb x) L) eqn:ExL; [reflexivity|].
  destruct (lockedb (lockedBy t) x) eqn:Lx; [exfalso|reflexivity].
  destruct (Z.eqb_spec w v) as [->|Hwv].
  - (* the upgraded node itself *)
    destruct (Hcov x Awx ltac:(lia) Lx) as [Hin|[y [Avy [Ayx S]]]].
    + assert (existsb (Z.eqb x) L = true).
      { apply existsb_exists. exists x. split; [exact Hin|apply Z.eqb_refl]. }
      congruence.
    + destruct (reachM_suffix (n t) (m t) HM _ _ _ y Rx0 Avy Ayx) as [Py Ry].
      pose proof (anc_range _ HM _ _ Avy).
      unfold stoppedb in S. apply orb_true_iff in S. destruct S as [S|S].
      * rewrite (HJ y ltac:(lia) S Py x Ry) in Lx. discriminate.
      * unfold pushMb in Py. apply Z.gtb_lt in Py. apply Z.leb_le in S. lia.
  - (* a node that was locked before *)
    destruct (existsb (Z.eqb w) L); [discriminate|].
    rewrite (HJ w Hw Lw Pw0 x Rx0) in Lx. discriminate.
Qed.

End MulSongsHarmless.

(** ** [Song_M]: [upgradeNode] does what [mulSongs.cpp] does *)

Module SongMUpgrade.
Import MulSongsSpec MulSongsFacts MulSongsUpgrade MulSongsInv MulSongsSteps
       SongMFacts.

Lemma cannotUpgrade_eq : forall t mx v,
  wf t -> 0 <= v < MulSongs.n t ->
  SongM.cannotUpgrade (SongM.set_nodeMx (toM t) mx) v
  = Some (negb (upgradable t v)).
Proof.
  intros t mx v W Hv. unfold SongM.cannotUpgrade, upgradable.
  rewrite (hasLockedAncestorM_eq t mx v W Hv). fieldsM.
  destruct (vget (MulSongs.lockedBy t) v =? 0); cbn [negb andb]; [|reflexivity].
  destruct (vget (MulSongs.descLocked t) v =? 0); cbn [negb andb].
  - rewrite andb_false_r. reflexivity.
  - rewrite andb_true_r, negb_involutive. reflexivity.
Qed.

Lemma collectLockedDescendants_eq : forall t mx v uid b L,
  wf t -> harmlessT t -> 0 <= v < MulSongs.n t ->
  traverse t v uid = Some (b, L) ->
  exists L',
    SongM.collectLockedDescendants (SongM.set_nodeMx (toM t) mx) v uid []
    = Some (negb b, L') /\ (b = true -> L' = L).
Proof.
  intros t mx v uid b L W HJ Hv HT.
  unfold SongM.collectLockedDescendants. fieldsM.
  apply (collect_agrees (MulSongs.n t) (MulSongs.m t) _ _ uid
                        (wf_m t W) (wf_n t W) HJ v b L Hv HT).
Qed.

(** The guarded release loop of [Song_M] releases every collected node. *)
Lemma unlockAllM_eq : forall L t mx uid,
  wf t -> NoDup L ->
  (forall u, In u L ->
     0 <= u < MulSongs.n t /\ vget (MulSongs.lockedBy t) u = uid) ->
  SongM.unlockAll (SongM.set_nodeMx (toM t) mx) uid L
  = Some (SongM.set_nodeMx (toM (afterAll t L)) mx).
Proof.
  induction L as [|u L IH]; intros t mx uid W Hnd H; [reflexivity|].
  inversion Hnd as [|? ? Hu Hnd']; subst.
  destruct (H u (or_introl eq_refl)) as [Hr Ho].
  cbn [SongM.unlockAll].
  change (SongM.lockedBy (SongM.set_nodeMx (toM t) mx))
    with (MulSongs.lockedBy t).
  rewrite Ho, Z.eqb_refl.
  assert (EQ : SongM.addToAncestors
                 (SongM.set_lockedBy (SongM.set_nodeMx (toM t) mx)
                    (vset (MulSongs.lockedBy t) u 0)) u (-1)
               = Some (SongM.set_nodeMx (toM (after t u 0 (-1))) mx)).
  { unfold SongM.set_lockedBy, SongM.set_nodeMx, toM, after. fieldsM.
    cbn [MulSongs.n MulSongs.m MulSongs.parent MulSongs.lockedBy
         MulSongs.descLocked].
    rewrite (wf_parent t W).
    apply addToAncestors_eq; [apply W | apply W | exact Hr]. }
  rewrite EQ. cbn [bind]. rewrite afterAll_cons.
  apply IH.
  - apply wf_after. exact W.
  - exact Hnd'.
  - intros x Hx. destruct (H x (or_intror Hx)) as [Hxr Hxo].
    split; [exact Hxr|].
    rewrite after_lockedBy by (auto; lia).
    destruct (Z.eqb_spec x u); [subst; contradiction|]. congruence.
Qed.

Lemma upgradeNodeM_eq : forall t v uid b L,
  wf t -> harmlessT t -> 0 <= v < MulSongs.n t ->
  traverse t v uid = Some (b, L) ->
  SongM.upgradeNode (toM t) v uid
  = Some (if upgradable t v && b
          then (true, toM (upgraded t v uid L)) else (false, toM t)).
Proof.
  intros t v uid b L W HJ Hv HT. unfold SongM.upgradeNode.
  rewrite (getPathToRoot_eq t v W Hv). cbn [bind].
  destruct (acquireLocks_eq t (v :: ancestors (MulSongs.m t) v) W
                            (fun x => path_in_range t v x W Hv))
    as [mx [locks [E R]]].
  rewrite E. cbn [bind].
  rewrite (cannotUpgrade_eq t mx v W Hv). cbn [bind].
  rewrite !(release_toM t mx locks R).
  destruct (upgradable t v) eqn:EU; cbn [negb andb]; [|reflexivity].
  destruct (collectLockedDescendants_eq t mx v uid b L W HJ Hv HT)
    as [L' [EC EL]].
  rewrite EC. cbn [bind].
  destruct b; cbn [negb]; [|reflexivity].
  rewrite (EL eq_refl).
  destruct (traverse_true t v uid L W Hv HT) as [Hnd [HL _]].
  assert (Hall : forall x, In x ((v :: ancestors (MulSongs.m t) v) ++ L) ->
                   0 <= x < MulSongs.n t).
  { intros x Hx. apply in_app_or in Hx. destruct Hx as [Hx|Hx].
    - exact (path_in_range t v x W Hv Hx).
    - apply (HL x Hx). }
  destruct (acquireLocks_eq t _ W Hall) as [mx2 [locks2 [E2 R2]]].
  rewrite E2. cbn [bind].
  rewrite (cannotUpgrade_eq t mx2 v W Hv), EU. cbn [bind negb].
  destruct (collectLockedDescendants_eq t mx2 v uid true L W HJ Hv HT)
    as [L2 [EC2 EL2]].
  rewrite EC2. cbn [bind negb]. rewrite (EL2 eq_refl).
  rewrite unlockAllM_eq; [| exact W | exact Hnd
                          | intros u Hu; destruct (HL u Hu) as [_ [? [? _]]]; auto].
  cbn [bind].
  destruct (afterAll_static L t) as [E1 [E2' [E3 _]]].
  unfold SongM.set_lockedBy, SongM.set_nodeMx, toM. fieldsM.
  rewrite E1, E2', E3, (wf_parent t W).
  rewrite addToAncestors_eq; [| apply W | apply W | exact Hv].
  cbn [bind]. unfold SongM.releaseLocks, SongM.set_nodeMx. fieldsM. rewrite R2.
  unfold upgraded, after.
  cbn [MulSongs.n MulSongs.m MulSongs.parent MulSongs.lockedBy
       MulSongs.descLocked].
  rewrite E1, E2', E3, (wf_parent t W). reflexivity.
Qed.

End SongMUpgrade.

(** ** Runs of the two implementations, side by side *)

Module BothRuns.
Import MulSongs MulSongsSpec MulSongsFacts MulSongsUpgrade MulSongsInv
       MulSongsSteps MulSongsRuns MulSongsHarmless SongMFacts SongMUpgrade.

Lemma step_both : forall t o,
  wf t -> harmlessT t -> in_range t o ->
  exists b t',
    step t o = Some (b, t') /\ SongM.step (toM t) o = Some (b, toM t') /\
    wf t' /\ harmlessT t' /\ n t' = n t /\ m t' = m t.
Proof.
  intros t [v uid|v uid|v uid] W HJ Hv; unfold in_range in Hv; simpl in Hv;
    cbn [step SongM.step].
  - rewrite lockNode_eq, lockNodeM_eq by assumption.
    destruct (lockable t v) eqn:E; eexists; eexists;
      (split; [reflexivity|]); (split; [reflexivity|]); auto.
    split; [apply wf_after; exact W|].
    split; [apply harmless_lock; assumption|]. auto.
  - rewrite unlockNode_eq, unlockNodeM_eq by assumption.
    destruct (vget (lockedBy t) v =? uid) eqn:E; eexists; eexists;
      (split; [reflexivity|]); (split; [reflexivity|]); auto.
    split; [apply wf_after; exact W|].
    split; [apply harmless_unlock; assumption|]. auto.
  - destruct (upgradeNode_eq t v uid W Hv) as [b [L [HT E]]].
    rewrite E, (upgradeNodeM_eq t v uid b L W HJ Hv HT).
    destruct (upgradable t v) eqn:EU, b; cbn [andb]; eexists; eexists;
      (split; [reflexivity|]); (split; [reflexivity|]); auto.
    split; [apply wf_upgraded; exact W|].
    split; [apply harmless_upgrade; assumption|].
    destruct (afterAll_static L t) as [E1 [E2 _]]. split; assumption.
Qed.

Lemma run_both : forall os t,
  wf t -> harmlessT t -> Forall (fun o => 0 <= op_node o < n t) os ->
  exists bs t',
    run t os = Some (bs, t') /\ SongM.run (toM t) os = Some (bs, toM t').
Proof.
  induction os as [|o os IH]; intros t W HJ Q.
  - exists [], t. auto.
  - inversion Q as [|? ? Ho Q']; subst.
    destruct (step_both t o W HJ Ho) as [b [t1 [E [EM [W1 [HJ1 [En Em]]]]]]].
    destruct (IH t1 W1 HJ1) as [bs [t' [E' EM']]].
    { rewrite En. exact Q'. }
    exists (b :: bs), t'. cbn [run SongM.run].
    rewrite E, EM. cbn [bind snd fst]. rewrite E', EM'. cbn [bind snd fst].
    auto.
Qed.

(** The brute-force checks decide the invariants. *)
Lemma I1b_true : forall M N lb, 1 <= M -> I1b M N lb = true -> I1 M N lb.
Proof.
  intros M N lb HM H. apply I1_pairs. intros a w Hw A La Lw.
  unfold I1b in H. rewrite forallb_forall in H.
  pose proof (anc_range M HM a w A) as Ra.
  specialize (H a ltac:(apply In_nodes; lia)).
  rewrite La in H. simpl in H. rewrite forallb_forall in H.
  specialize (H w ltac:(apply In_nodes; lia)).
  rewrite Lw, andb_true_r in H. apply negb_true_iff in H.
  apply ancb_false in H; [|exact HM]. contradiction.
Qed.

Lemma I2b_true : forall M N lb dl, I2b M N lb dl = true -> I2 M N lb dl.
Proof.
  intros M N lb dl H v Hv. unfold I2b in H. rewrite forallb_forall in H.
  apply Z.eqb_eq. apply H. apply In_nodes. exact Hv.
Qed.

Lemma soundb_true : forall t, 1 <= m t -> soundb t = true -> sound t.
Proof.
  intros t HM H. unfold soundb in H. apply andb_true_iff in H.
  destruct H as [H1 H2]. split; [apply I1b_true; assumption|].
  intros v Hv. unfold coveredb in H2. rewrite forallb_forall in H2.
  apply Z.leb_le. apply H2. apply In_nodes. exact Hv.
Qed.

Lemma consistentb_true : forall t,
  1 <= m t -> consistentb t = true -> consistent t.
Proof.
  intros t HM H. unfold consistentb in H. apply andb_true_iff in H.
  destruct H as [H1 H2]. split; [apply I1b_true|apply I2b_true]; assumption.
Qed.

End BothRuns.

(** ** Counting the released nodes *)

Lemma countZ_perm : forall P l1 l2,
  Permutation l1 l2 -> countZ P l1 = countZ P l2.
Proof.
  intros P l1 l2 H. induction H; simpl; try lia.
Qed.

Lemma countZ_filter : forall P Q l,
  countZ P (filter Q l) = countZ (fun x => Q x && P x) l.
Proof.
  intros P Q l. induction l as [|x l IH]; simpl; [reflexivity|].
  destruct (Q x); simpl; rewrite IH; reflexivity.
Qed.

Lemma countZ_members : forall P Q L l,
  NoDup L -> NoDup l ->
  (forall x, In x L <-> In x l /\ Q x = true) ->
  countZ P L = countZ (fun x => Q x && P x) l.
Proof.
  intros P Q L l HL Hl H. rewrite <- countZ_filter.
  apply countZ_perm. apply NoDup_Permutation; [exact HL| |].
  - apply NoDup_filter. exact Hl.
  - intros x. rewrite filter_In. apply H.
Qed.

Module MulSongsEffects.
Import MulSongs MulSongsSpec MulSongsFacts MulSongsUpgrade MulSongsInv
       MulSongsSteps MulSongsRuns.

Lemma upgraded_lockedBy : forall t v uid L w,
  wf t -> 0 <= v < n t -> (forall u, In u L -> 0 <= u < n t) -> 0 <= w ->
  vget (lockedBy (upgraded t v uid L)) w
  = if w =? v then uid
    else if existsb (Z.eqb w) L then 0 else vget (lockedBy t) w.
Proof.
  intros t v uid L w W Hv HL Hw. unfold upgraded.
  destruct (afterAll_static L t) as [E1 _].
  rewrite after_lockedBy;
    [| apply wf_afterAll; exact W | rewrite E1; exact Hv | exact Hw].
  destruct (w =? v); [reflexivity|].
  apply afterAll_lockedBy; assumption.
Qed.

Lemma mem_true : forall x (L : list Z), existsb (Z.eqb x) L = true <-> In x L.
Proof.
  intros x L. rewrite existsb_exists. split.
  - intros [y [Hy E]]. apply Z.eqb_eq in E. subst. exact Hy.
  - intros H. exists x. split; [exact H|apply Z.eqb_refl].
Qed.

Lemma mem_false : forall x (L : list Z), existsb (Z.eqb x) L = false <-> ~ In x L.
Proof.
  intros x L. rewrite <- mem_true. destruct (existsb (Z.eqb x) L);
    split; congruence.
Qed.

(** With I1 and counters that are not too small, a successful traversal
    returns exactly the locked nodes below [v]. *)
Lemma traverse_exact : forall t v uid L,
  wf t -> sound t -> 0 <= v < n t ->
  traverse t v uid = Some (true, L) ->
  NoDup L /\
  (forall x, In x L <->
     In x (nodes (n t)) /\
     ancb (m t) v x && lockedb (lockedBy t) x = true) /\
  (forall x, In x L -> vget (lockedBy t) x = uid).
Proof.
  intros t v uid L W C Hv HT.
  destruct (traverse_true t v uid L W Hv HT) as [Hnd [HL _]].
  pose proof (traverse_complete t v uid L W C Hv HT) as HC.
  split; [exact Hnd|]. split.
  - intros x. rewrite In_nodes, andb_true_iff, ancb_true by apply W. split.
    + intros Hx. destruct (HL x Hx) as [A [R [_ Lx]]]. auto.
    + intros [R [A Lx]]. apply HC; auto; lia.
  - intros x Hx. apply (HL x Hx).
Qed.


End MulSongsEffects.


(** ** How far the counters can drift *)

Module MulSongsBounds.
Import MulSongs MulSongsSpec MulSongsFacts MulSongsUpgrade MulSongsInv
       MulSongsSteps MulSongsRuns MulSongsHarmless.

Lemma step_counters_bounded : forall t o b t' y,
  wf t -> in_range t o -> step t o = Some (b, t') -> 0 <= y < n t ->
  Z.abs (vget (descLocked t') y - vget (descLocked t) y) <= n t.
Proof.
  intros t [v uid|v uid|v uid] b t' y W Hv E Hy; unfold in_range in Hv;
    simpl in Hv; cbn [step] in E.
  - rewrite lockNode_eq in E by assumption.
    destruct (lockable t v); inversion E; subst; [|lia].
    rewrite after_descLocked by (auto; lia).
    destruct (ancb (m t) y v); lia.
  - rewrite unlockNode_eq in E by assumption.
    destruct (vget (lockedBy t) v =? uid); inversion E; subst; [|lia].
    rewrite after_descLocked by (auto; lia).
    destruct (ancb (m t) y v); lia.
  - destruct (upgradeNode_eq t v uid W Hv) as [b' [L [HT E']]].
    rewrite E' in E.
    destruct (upgradable t v && b') eqn:EU; inversion E; subst; [|lia].
    apply andb_true_iff in EU. destruct EU as [_ ->].
    destruct (traverse_true t v uid L W Hv HT) as [Hnd [HL _]].
    assert (HLr : forall u, In u L -> 0 <= u < n t)
      by (intros u Hu; apply HL; exact Hu).
    rewrite upgraded_descLocked by (auto; lia).
    pose proof (countZ_nonneg (ancb (m t) y) L).
    pose proof (countZ_length (ancb (m t) y) L).
    assert (Hlen : (length L <= length (nodes (n t)))%nat).
    { apply NoDup_incl_length; [exact Hnd|].
      intros u Hu. apply In_nodes. apply HLr. exact Hu. }
    unfold nodes in Hlen. rewrite length_map, length_seq in Hlen.
    destruct (ancb (m t) y v); lia.
Qed.

(** Along a run every counter moves by at most [n] per operation. *)
Lemma run_counters_bounded : forall os t bs t' y,
  wf t -> Forall (fun o => 0 <= op_node o < n t) os ->
  run t os = Some (bs, t') -> 0 <= y < n t ->
  Z.abs (vget (descLocked t') y - vget (descLocked t) y)
  <= n t * Z.of_nat (length os).
Proof.
  induction os as [|o os IH]; intros t bs t' y W Q E Hy.
  - simpl in E. inversion E; subst. simpl. lia.
  - inversion Q as [|? ? Ho Q']; subst.
    destruct (step_total t o W Ho) as [b [t1 [E1 [W1 [En Em]]]]].
    cbn [run] in E. rewrite E1 in E. cbn [bind snd fst] in E.
    destruct (run t1 os) as [[bs1 t2]|] eqn:E2; [|discriminate].
    cbn [bind snd fst] in E. inversion E; subst.
    pose proof (step_counters_bounded t o b t1 y W Ho E1 Hy) as B1.
    rewrite <- En in Q', Hy.
    pose proof (IH t1 bs1 t' y W1 Q' E2 Hy) as B2.
    rewrite En in B2. cbn [length]. lia.
Qed.

(** From the initial state: as long as [n] times the number of operations
    stays below 2^31, every counter is a value of type [int]. *)
Lemma run_counters_fit_int : forall N M os bs t y,
  1 <= M -> 0 <= N -> Forall (fun o => 0 <= op_node o < N) os ->
  run (newTreeLocker N M) os = Some (bs, t) -> 0 <= y < N ->
  N * Z.of_nat (length os) < 2 ^ 31 ->
  - 2 ^ 31 < vget (descLocked t) y < 2 ^ 31.
Proof.
  intros N M os bs t y HM HN Q E Hy B.
  pose proof (run_counters_bounded os (newTreeLocker N M) bs t y
                (wf_new N M HM HN) Q E Hy) as H.
  cbn [newTreeLocker n descLocked] in H.
  rewrite vget_assign in H by exact Hy. lia.
Qed.

End MulSongsBounds.

(** ** The two arithmetics agree while the counters stay in [int] *)

Lemma pow_31 : 2 ^ 31 = 2147483648.
Proof. reflexivity. Qed.

Lemma pow_32 : 2 ^ 32 = 4294967296.
Proof. reflexivity. Qed.

Lemma to_int_id : forall z, - 2 ^ 31 <= z < 2 ^ 31 -> to_int z = z.
Proof.
  intros z Hz. unfold to_int. rewrite pow_31, pow_32 in *.
  rewrite Z.mod_small by lia. lia.
Qed.

Lemma int_add_to_int : forall a b, int_add (to_int a) b = to_int (a + b).
Proof.
  intros a b. unfold int_add, to_int. f_equal.
  replace ((a + 2 ^ 31) mod 2 ^ 32 - 2 ^ 31 + b + 2 ^ 31)
    with ((a + 2 ^ 31) mod 2 ^ 32 + b) by lia.
  rewrite Zplus_mod_idemp_l. f_equal. lia.
Qed.

Lemma int_add_id : forall a b,
  - 2 ^ 31 <= a + b < 2 ^ 31 -> int_add a b = a + b.
Proof. intros a b H. unfold int_add. apply to_int_id. exact H. Qed.

Section IntLoops.

Variables N M : Z.
Hypothesis HM : 1 <= M.
Hypothesis HN : 0 <= N.

Lemma addAncestors_loop_int_spec : forall fuel d p delta,
  -1 <= p < N -> (Z.to_nat (p + 1) < fuel)%nat ->
  addAncestors_loop_int fuel (parentTable N M) d p delta
  = Some (fold_left (fun d p => vset d p (int_add (vget d p) delta))
                    (upFrom M p) d).
Proof.
  induction fuel as [|fuel IH]; intros d p delta Hp Hf; [lia|].
  cbn [addAncestors_loop_int]. unfold upFrom at 1.
  destruct (Z.eqb_spec p (-1)) as [->|Hne]; [reflexivity|].
  cbn [fold_left]. pose proof (parentTable_next N M HM HN p ltac:(lia)).
  rewrite IH by lia. rewrite upFrom_parent by (auto; lia). reflexivity.
Qed.

Lemma fold_int_eq : forall (l : list Z) d delta,
  NoDup l ->
  (forall x, In x l ->
     0 <= x < Z.of_nat (length d) /\ - 2 ^ 31 <= vget d x + delta < 2 ^ 31) ->
  fold_left (fun d p => vset d p (int_add (vget d p) delta)) l d
  = fold_left (fun d p => vset d p (vget d p + delta)) l d.
Proof.
  induction l as [|x l IH]; intros d delta Hnd H; [reflexivity|].
  inversion Hnd as [|? ? Hx Hnd']; subst. cbn [fold_left].
  destruct (H x (or_introl eq_refl)) as [Hr Hi].
  rewrite (int_add_id _ _ Hi). apply IH; [exact Hnd'|].
  intros y Hy. destruct (H y (or_intror Hy)) as [Hyr Hyi].
  rewrite vset_length. split; [exact Hyr|].
  rewrite vget_vset_other; [exact Hyi | lia | lia |].
  intros ->. contradiction.
Qed.

Lemma addAncestors_int_eq : forall d v delta,
  0 <= v < N -> Z.of_nat (length d) = N ->
  (forall a, anc M a v -> - 2 ^ 31 <= vget d a + delta < 2 ^ 31) ->
  addAncestors_loop_int (S (Z.to_nat N)) (parentTable N M) d
                        (vget (parentTable N M) v) delta
  = Some (bump M d v delta).
Proof.
  intros d v delta Hv Hl H. pose proof (parentTable_next N M HM HN v Hv).
  rewrite addAncestors_loop_int_spec by lia.
  rewrite upFrom_parent by (auto; lia). unfold bump. f_equal.
  apply fold_int_eq; [apply NoDup_ancestors; exact HM|].
  intros x Hx. apply In_ancestors in Hx; [|exact HM].
  pose proof (anc_range _ HM _ _ Hx). split; [lia|]. apply H. exact Hx.
Qed.

End IntLoops.

Lemma NoDup_range_length : forall (L : list Z) N,
  0 <= N -> NoDup L -> (forall x, In x L -> 0 <= x < N) ->
  Z.of_nat (length L) <= N.
Proof.
  intros L N HN Hnd Hr.
  assert (IN : incl L (nodes N)) by (intros x Hx; apply In_nodes; auto).
  pose proof (NoDup_incl_length Hnd IN) as Len.
  unfold nodes in Len. rewrite length_map, length_seq in Len. lia.
Qed.

Module MulSongsIntFacts.
Import MulSongs MulSongsSpec MulSongsFacts MulSongsUpgrade MulSongsInv
       MulSongsSteps MulSongsRuns.

Lemma updateInt_eq : forall t v delta,
  parent t = parentTable (n t) (m t) -> 1 <= m t -> 0 <= v < n t ->
  Z.of_nat (length (descLocked t)) = n t ->
  (forall a, anc (m t) a v ->
     - 2 ^ 31 <= vget (descLocked t) a + delta < 2 ^ 31) ->
  MulSongsInt.updateAncestorDescLockCount t v delta
  = Some (set_descLocked t (bump (m t) (descLocked t) v delta)).
Proof.
  intros t v delta Hp HM Hv Hl H.
  unfold MulSongsInt.updateAncestorDescLockCount.
  rewrite Hp. rewrite addAncestors_int_eq by (auto; lia). reflexivity.
Qed.

Lemma room_inc : forall t v a,
  wf t -> hasRoom t -> 0 <= v < n t -> anc (m t) a v ->
  - 2 ^ 31 <= vget (descLocked t) a + 1 < 2 ^ 31.
Proof.
  intros t v a W R Hv A. pose proof (anc_range _ (wf_m t W) _ _ A).
  destruct (R a ltac:(lia)). lia.
Qed.

Lemma room_dec : forall t v a,
  wf t -> hasRoom t -> 0 <= v < n t -> anc (m t) a v ->
  - 2 ^ 31 <= vget (descLocked t) a + -1 < 2 ^ 31.
Proof.
  intros t v a W R Hv A. pose proof (anc_range _ (wf_m t W) _ _ A).
  destruct (R a ltac:(lia)). lia.
Qed.

Lemma lockNodeInt_eq : forall t v uid,
  wf t -> hasRoom t -> 0 <= v < n t ->
  MulSongsInt.lockNode t v uid = lockNode t v uid.
Proof.
  intros t v uid W R Hv. rewrite lockNode_eq by assumption.
  unfold MulSongsInt.lockNode, spin_lock, lockable.
  rewrite (wf_flag t W). cbn [Z.eqb]. fields.
  rewrite hasLockedAncestor_flag, (hasLockedAncestor_eq t v W Hv).
  pose proof (spin_unlock_lock t (wf_flag t W)) as E.
  rewrite E.
  destruct (vget (lockedBy t) v =? 0); cbn [negb andb]; [|reflexivity].
  fields.
  destruct (existsb (lockedb (lockedBy t)) (ancestors (m t) v));
    cbn [negb andb]; [reflexivity|].
  destruct (vget (descLocked t) v =? 0); cbn [negb andb]; [|reflexivity].
  rewrite updateInt_eq;
    [| apply W | apply W | exact Hv | apply W
     | intros a A; exact (room_inc t v a W R Hv A)].
  fields. unfold after, spin_unlock. fields. rewrite (wf_flag t W). reflexivity.
Qed.

Lemma unlockNodeInt_eq : forall t v uid,
  wf t -> hasRoom t -> 0 <= v < n t ->
  MulSongsInt.unlockNode t v uid = unlockNode t v uid.
Proof.
  intros t v uid W R Hv. rewrite unlockNode_eq by assumption.
  unfold MulSongsInt.unlockNode, spin_lock.
  rewrite (wf_flag t W). cbn [Z.eqb]. fields.
  pose proof (spin_unlock_lock t (wf_flag t W)) as E.
  rewrite E.
  destruct (vget (lockedBy t) v =? uid); cbn [negb]; [|reflexivity].
  rewrite updateInt_eq;
    [| apply W | apply W | exact Hv | apply W
     | intros a A; exact (room_dec t v a W R Hv A)].
  fields. unfold after, spin_unlock. fields. rewrite (wf_flag t W). reflexivity.
Qed.

Lemma unlockAllInt_eq : forall us t,
  parent t = parentTable (n t) (m t) -> 1 <= m t ->
  Z.of_nat (length (descLocked t)) = n t ->
  (forall u, In u us -> 0 <= u < n t) ->
  (forall y, 0 <= y < n t ->
     - 2 ^ 31 + Z.of_nat (length us) <= vget (descLocked t) y < 2 ^ 31) ->
  MulSongsInt.unlockAll t us = Some (afterAll t us).
Proof.
  induction us as [|u us IH]; intros t Hp HM Hl Hr Hb; [reflexivity|].
  cbn [MulSongsInt.unlockAll].
  assert (Hu : 0 <= u < n t) by (apply Hr; left; reflexivity).
  rewrite updateInt_eq; [| exact Hp | exact HM | exact Hu | exact Hl |].
  - cbn [bind]. rewrite afterAll_cons. apply IH.
    + exact Hp.
    + exact HM.
    + cbn [after descLocked n]. rewrite bump_length. exact Hl.
    + intros x Hx. apply Hr. right. exact Hx.
    + intros y Hy. cbn [after descLocked n m] in *.
      rewrite bump_get by (auto; lia).
      destruct (Hb y Hy) as [B1 B2]. cbn [length] in B1.
      rewrite Nat2Z.inj_succ in B1. destruct (ancb (m t) y u); lia.
  - intros a A. pose proof (anc_range _ HM _ _ A).
    cbn [set_lockedBy descLocked].
    destruct (Hb a ltac:(lia)) as [B1 B2]. cbn [length] in B1.
    rewrite Nat2Z.inj_succ in B1. lia.
Qed.

Lemma upgradeNodeInt_eq : forall t v uid,
  wf t -> hasRoom t -> 0 <= v < n t ->
  MulSongsInt.upgradeNode t v uid = upgradeNode t v uid.
Proof.
  intros t v uid W R Hv.
  destruct (upgradeNode_eq t v uid W Hv) as [b [L [HT E0]]]. rewrite E0.
  unfold MulSongsInt.upgradeNode, spin_lock, upgradable.
  rewrite (wf_flag t W). cbn [Z.eqb]. fields.
  rewrite hasLockedAncestor_flag, (hasLockedAncestor_eq t v W Hv).
  pose proof (spin_unlock_lock t (wf_flag t W)) as E.
  rewrite E.
  destruct (vget (lockedBy t) v =? 0); cbn [negb andb]; [|reflexivity].
  fields.
  destruct (existsb (lockedb (lockedBy t)) (ancestors (m t) v));
    cbn [negb andb]; [reflexivity|].
  destruct (vget (descLocked t) v =? 0); cbn [negb andb]; [reflexivity|].
  pose proof HT as HT'. unfold traverse in HT'. rewrite HT'. fields.
  destruct b; [|reflexivity].
  destruct (traverse_true t v uid L W Hv HT) as [Hnd [HL _]].
  assert (HLr : forall u, In u L -> 0 <= u < n t)
    by (intros u Hu; apply (HL u Hu)).
  pose proof (NoDup_range_length L (n t) ltac:(lia) Hnd HLr) as Len.
  rewrite unlockAllInt_eq;
    [| apply W | apply W | apply W | exact HLr
     | intros y Hy; destruct (R y Hy); cbn [set_lock_flag descLocked]; lia].
  fields. rewrite afterAll_flag.
  destruct (afterAll_static L t) as [H1 [H2 [H3 H4]]].
  rewrite updateInt_eq.
  - fields. unfold upgraded, after, spin_unlock. fields.
    rewrite H4, (wf_flag t W). reflexivity.
  - cbn [set_lockedBy set_lock_flag parent n m]. rewrite H1, H2, H3. apply W.
  - cbn [set_lockedBy set_lock_flag m]. rewrite H2. apply W.
  - cbn [set_lockedBy set_lock_flag n]. rewrite H1. exact Hv.
  - cbn [set_lockedBy set_lock_flag descLocked n]. rewrite H1.
    pose proof (wf_descLocked _ (wf_afterAll L t W)) as WL.
    rewrite H1 in WL. exact WL.
  - cbn [set_lockedBy set_lock_flag descLocked m]. rewrite H2.
    intros a A. pose proof (anc_range _ (wf_m t W) _ _ A).
    rewrite afterAll_descLocked by (auto; lia).
    pose proof (countZ_nonneg (ancb (m t) a) L).
    pose proof (countZ_length (ancb (m t) a) L).
    destruct (R a ltac:(lia)). lia.
Qed.

Lemma stepInt_eq : forall t o,
  wf t -> hasRoom t -> in_range t o -> MulSongsInt.step t o = step t o.
Proof.
  intros t o W R Ho. destruct o as [v uid|v uid|v uid];
    unfold in_range in Ho; cbn [op_node MulSongsInt.step step] in *.
  - apply lockNodeInt_eq; assumption.
  - apply unlockNodeInt_eq; assumption.
  - apply upgradeNodeInt_eq; assumption.
Qed.

End MulSongsIntFacts.

Module MulSongsIntRuns.
Import MulSongs MulSongsSpec MulSongsFacts MulSongsUpgrade MulSongsInv
       MulSongsSteps MulSongsRuns MulSongsBounds MulSongsIntFacts.

(** Counters bounded by [B] leave room when [B + n] is below [2^31]. *)
Lemma bounded_hasRoom : forall t B,
  (forall y, 0 <= y < n t -> Z.abs (vget (descLocked t) y) <= B) ->
  B + n t < 2 ^ 31 -> hasRoom t.
Proof.
  intros t B Hb Hlt y Hy. pose proof (Hb y Hy). rewrite pow_31 in *. lia.
Qed.

Lemma runInt_eq : forall os t B,
  wf t -> Forall (fun o => 0 <= op_node o < n t) os ->
  (forall y, 0 <= y < n t -> Z.abs (vget (descLocked t) y) <= B) ->
  B + n t * Z.of_nat (length os) < 2 ^ 31 ->
  MulSongsInt.run t os = run t os.
Proof.
  induction os as [|o os IH]; intros t B W Q Hb Hlt; [reflexivity|].
  inversion Q as [|? ? Ho Q']; subst.
  cbn [length] in Hlt. rewrite Nat2Z.inj_succ, Z.mul_succ_r in Hlt.
  pose proof (wf_n t W) as HN.
  assert (0 <= n t * Z.of_nat (length os)) by (apply Z.mul_nonneg_nonneg; lia).
  assert (R : hasRoom t) by (apply (bounded_hasRoom t B Hb); lia).
  cbn [MulSongsInt.run run]. rewrite (stepInt_eq t o W R Ho).
  destruct (step_total t o W Ho) as [b [t1 [E1 [W1 [En Em]]]]].
  rewrite E1. cbn [bind snd fst].
  rewrite (IH t1 (B + n t)); [reflexivity | exact W1 | | | ].
  - rewrite En. exact Q'.
  - intros y Hy. rewrite En in Hy.
    pose proof (step_counters_bounded t o b t1 y W Ho E1 Hy).
    pose proof (Hb y Hy). lia.
  - rewrite En. lia.
Qed.

End MulSongsIntRuns.

Module SongMIntFacts.
Import MulSongsSpec MulSongsFacts MulSongsUpgrade MulSongsInv MulSongsSteps
       MulSongsRuns MulSongsHarmless MulSongsBounds SongMFacts SongMUpgrade
       BothRuns MulSongsIntFacts MulSongsIntRuns.

Lemma addToAncestorsInt_eq : forall nn mm lb dl mx v delta,
  1 <= mm -> 0 <= nn -> 0 <= v < nn -> Z.of_nat (length dl) = nn ->
  (forall a, anc mm a v -> - 2 ^ 31 <= vget dl a + delta < 2 ^ 31) ->
  SongMInt.addToAncestors
    (SongM.mkTL nn mm (parentTable nn mm) lb dl mx) v delta
  = Some (SongM.mkTL nn mm (parentTable nn mm) lb (bump mm dl v delta) mx).
Proof.
  intros nn mm lb dl mx v delta HM HN Hv Hl H.
  unfold SongMInt.addToAncestors.
  cbn [SongM.n SongM.parent SongM.descLocked].
  rewrite addAncestors_int_eq by assumption. reflexivity.
Qed.

Lemma lockNodeMInt_eq : forall t v uid,
  wf t -> hasRoom t -> 0 <= v < MulSongs.n t ->
  SongMInt.lockNode (toM t) v uid = SongM.lockNode (toM t) v uid.
Proof.
  intros t v uid W R Hv. rewrite lockNodeM_eq by assumption.
  unfold SongMInt.lockNode.
  rewrite (getPathToRoot_eq t v W Hv). cbn [bind].
  destruct (acquireLocks_eq t (v :: ancestors (MulSongs.m t) v) W
                            (fun x => path_in_range t v x W Hv))
    as [mx [locks [E RL]]].
  rewrite E. cbn [bind].
  rewrite (hasLockedAncestorM_eq t mx v W Hv).
  rewrite (release_toM t mx locks RL).
  unfold lockable. fieldsM.
  destruct (vget (MulSongs.lockedBy t) v =? 0); cbn [negb andb]; [|reflexivity].
  destruct (existsb (lockedb (MulSongs.lockedBy t)) (ancestors (MulSongs.m t) v));
    cbn [negb andb]; [reflexivity|].
  destruct (vget (MulSongs.descLocked t) v =? 0); cbn [negb andb]; [|reflexivity].
  unfold SongM.set_lockedBy, SongM.set_nodeMx, toM. fieldsM.
  rewrite (wf_parent t W).
  rewrite addToAncestorsInt_eq;
    [| apply W | apply W | exact Hv | apply W
     | intros a A; exact (room_inc t v a W R Hv A)].
  cbn [bind]. unfold SongM.releaseLocks, SongM.set_nodeMx. fieldsM. rewrite RL.
  unfold after, toM. cbn [MulSongs.n MulSongs.m MulSongs.parent
                           MulSongs.lockedBy MulSongs.descLocked].
  rewrite (wf_parent t W). reflexivity.
Qed.

Lemma unlockNodeMInt_eq : forall t v uid,
  wf t -> hasRoom t -> 0 <= v < MulSongs.n t ->
  SongMInt.unlockNode (toM t) v uid = SongM.unlockNode (toM t) v uid.
Proof.
  intros t v uid W R Hv. rewrite unlockNodeM_eq by assumption.
  unfold SongMInt.unlockNode.
  rewrite (getPathToRoot_eq t v W Hv). cbn [bind].
  destruct (acquireLocks_eq t (v :: ancestors (MulSongs.m t) v) W
                            (fun x => path_in_range t v x W Hv))
    as [mx [locks [E RL]]].
  rewrite E. cbn [bind].
  rewrite (release_toM t mx locks RL).
  fieldsM.
  destruct (vget (MulSongs.lockedBy t) v =? uid); cbn [negb]; [|reflexivity].
  unfold SongM.set_lockedBy, SongM.set_nodeMx, toM. fieldsM.
  rewrite (wf_parent t W).
  rewrite addToAncestorsInt_eq;
    [| apply W | apply W | exact Hv | apply W
     | intros a A; exact (room_dec t v a W R Hv A)].
  cbn [bind]. unfold SongM.releaseLocks, SongM.set_nodeMx. fieldsM. rewrite RL.
  unfold after, toM. cbn [MulSongs.n MulSongs.m MulSongs.parent
                           MulSongs.lockedBy MulSongs.descLocked].
  rewrite (wf_parent t W). reflexivity.
Qed.

Lemma unlockAllMInt_eq : forall L t mx uid,
  wf t -> NoDup L ->
  (forall u, In u L ->
     0 <= u < MulSongs.n t /\ vget (MulSongs.lockedBy t) u = uid) ->
  (forall y, 0 <= y < MulSongs.n t ->
     - 2 ^ 31 + Z.of_nat (length L) <= vget (MulSongs.descLocked t) y
     < 2 ^ 31) ->
  SongMInt.unlockAll (SongM.set_nodeMx (toM t) mx) uid L
  = Some (SongM.set_nodeMx (toM (afterAll t L)) mx).
Proof.
  induction L as [|u L IH]; intros t mx uid W Hnd H Hb; [reflexivity|].
  inversion Hnd as [|? ? Hu Hnd']; subst.
  destruct (H u (or_introl eq_refl)) as [Hr Ho].
  cbn [SongMInt.unlockAll].
  change (SongM.lockedBy (SongM.set_nodeMx (toM t) mx))
    with (MulSongs.lockedBy t).
  rewrite Ho, Z.eqb_refl.
  assert (EQ : SongMInt.addToAncestors
                 (SongM.set_lockedBy (SongM.set_nodeMx (toM t) mx)
                    (vset (MulSongs.lockedBy t) u 0)) u (-1)
               = Some (SongM.set_nodeMx (toM (after t u 0 (-1))) mx)).
  { unfold SongM.set_lockedBy, SongM.set_nodeMx, toM, after. fieldsM.
    cbn [MulSongs.n MulSongs.m MulSongs.parent MulSongs.lockedBy
         MulSongs.descLocked].
    rewrite (wf_parent t W).
    apply addToAncestorsInt_eq; [apply W | apply W | exact Hr | apply W |].
    intros a A. pose proof (anc_range _ (wf_m t W) _ _ A).
    destruct (Hb a ltac:(lia)) as [B1 B2]. cbn [length] in B1.
    rewrite Nat2Z.inj_succ in B1. lia. }
  rewrite EQ. cbn [bind]. rewrite afterAll_cons.
  apply IH.
  - apply wf_after. exact W.
  - exact Hnd'.
  - intros x Hx. destruct (H x (or_intror Hx)) as [Hxr Hxo].
    split; [exact Hxr|].
    rewrite after_lockedBy by (auto; lia).
    destruct (Z.eqb_spec x u); [subst; contradiction|]. congruence.
  - intros y Hy. pose proof (wf_descLocked t W) as WL.
    cbn [after MulSongs.descLocked MulSongs.n MulSongs.m] in *.
    rewrite bump_get by (try apply W; lia).
    destruct (Hb y Hy) as [B1 B2]. cbn [length] in B1.
    rewrite Nat2Z.inj_succ in B1. destruct (ancb (MulSongs.m t) y u); lia.
Qed.

Lemma upgradeNodeMInt_eq : forall t v uid,
  wf t -> harmlessT t -> hasRoom t -> 0 <= v < MulSongs.n t ->
  SongMInt.upgradeNode (toM t) v uid = SongM.upgradeNode (toM t) v uid.
Proof.
  intros t v uid W HJ R Hv.
  destruct (traverse_total t v uid W Hv) as [b [L HT]].
  rewrite (upgradeNodeM_eq t v uid b L W HJ Hv HT).
  unfold SongMInt.upgradeNode.
  rewrite (getPathToRoot_eq t v W Hv). cbn [bind].
  destruct (acquireLocks_eq t (v :: ancestors (MulSongs.m t) v) W
                            (fun x => path_in_range t v x W Hv))
    as [mx [locks [E RL]]].
  rewrite E. cbn [bind].
  rewrite (cannotUpgrade_eq t mx v W Hv). cbn [bind].
  rewrite !(release_toM t mx locks RL).
  destruct (upgradable t v) eqn:EU; cbn [negb andb]; [|reflexivity].
  destruct (collectLockedDescendants_eq t mx v uid b L W HJ Hv HT)
    as [L' [EC EL]].
  rewrite EC. cbn [bind].
  destruct b; cbn [negb]; [|reflexivity].
  rewrite (EL eq_refl).
  destruct (traverse_true t v uid L W Hv HT) as [Hnd [HL _]].
  assert (Hall : forall x, In x ((v :: ancestors (MulSongs.m t) v) ++ L) ->
                   0 <= x < MulSongs.n t).
  { intros x Hx. apply in_app_or in Hx. destruct Hx as [Hx|Hx].
    - exact (path_in_range t v x W Hv Hx).
    - apply (HL x Hx). }
  destruct (acquireLocks_eq t _ W Hall) as [mx2 [locks2 [E2 R2]]].
  rewrite E2. cbn [bind].
  rewrite (cannotUpgrade_eq t mx2 v W Hv), EU. cbn [bind negb].
  destruct (collectLockedDescendants_eq t mx2 v uid true L W HJ Hv HT)
    as [L2 [EC2 EL2]].
  rewrite EC2. cbn [bind negb]. rewrite (EL2 eq_refl).
  assert (HLr : forall u, In u L -> 0 <= u < MulSongs.n t)
    by (intros u Hu; apply (HL u Hu)).
  pose proof (NoDup_range_length L (MulSongs.n t) (wf_n t W) Hnd HLr) as Len.
  rewrite unlockAllMInt_eq;
    [| exact W | exact Hnd
     | intros u Hu; destruct (HL u Hu) as [_ [? [? _]]]; auto
     | intros y Hy; destruct (R y Hy); lia].
  cbn [bind].
  destruct (afterAll_static L t) as [E1 [E2' [E3 _]]].
  unfold SongM.set_lockedBy, SongM.set_nodeMx, toM. fieldsM.
  rewrite E1, E2', E3, (wf_parent t W).
  rewrite addToAncestorsInt_eq; [| apply W | apply W | exact Hv | | ].
  - cbn [bind]. unfold SongM.releaseLocks, SongM.set_nodeMx. fieldsM.
    rewrite R2. unfold upgraded, after.
    cbn [MulSongs.n MulSongs.m MulSongs.parent MulSongs.lockedBy
         MulSongs.descLocked].
    rewrite E1, E2', E3, (wf_parent t W). reflexivity.
  - pose proof (wf_descLocked _ (wf_afterAll L t W)) as WL.
    rewrite E1 in WL. exact WL.
  - intros a A. pose proof (anc_range _ (wf_m t W) _ _ A).
    rewrite afterAll_descLocked by (auto; lia).
    pose proof (countZ_nonneg (ancb (MulSongs.m t) a) L).
    pose proof (countZ_length (ancb (MulSongs.m t) a) L).
    destruct (R a ltac:(lia)). lia.
Qed.

Lemma stepMInt_eq : forall t o,
  wf t -> harmlessT t -> hasRoom t -> in_range t o ->
  SongMInt.step (toM t) o = SongM.step (toM t) o.
Proof.
  intros t o W HJ R Ho. destruct o as [v uid|v uid|v uid];
    unfold in_range in Ho; cbn [op_node SongMInt.step SongM.step] in *.
  - apply lockNodeMInt_eq; assumption.
  - apply unlockNodeMInt_eq; assumption.
  - apply upgradeNodeMInt_eq; assumption.
Qed.

Lemma runMInt_eq : forall os t B,
  wf t -> harmlessT t ->
  Forall (fun o => 0 <= op_node o < MulSongs.n t) os ->
  (forall y, 0 <= y < MulSongs.n t ->
     Z.abs (vget (MulSongs.descLocked t) y) <= B) ->
  B + MulSongs.n t * Z.of_nat (length os) < 2 ^ 31 ->
  SongMInt.run (toM t) os = SongM.run (toM t) os.
Proof.
  induction os as [|o os IH]; intros t B W HJ Q Hb Hlt; [reflexivity|].
  inversion Q as [|? ? Ho Q']; subst.
  cbn [length] in Hlt. rewrite Nat2Z.inj_succ, Z.mul_succ_r in Hlt.
  pose proof (wf_n t W) as HN.
  assert (0 <= MulSongs.n t * Z.of_nat (length os))
    by (apply Z.mul_nonneg_nonneg; lia).
  assert (R : hasRoom t) by (apply (bounded_hasRoom t B Hb); lia).
  cbn [SongMInt.run SongM.run]. rewrite (stepMInt_eq t o W HJ R Ho).
  destruct (step_both t o W HJ Ho) as [b [t1 [E1 [EM [W1 [HJ1 [En Em]]]]]]].
  rewrite EM. cbn [bind snd fst].
  rewrite (IH t1 (B + MulSongs.n t)); [reflexivity | exact W1 | exact HJ1 | | | ].
  - rewrite En. exact Q'.
  - intros y Hy. rewrite En in Hy.
    pose proof (step_counters_bounded t o b t1 y W Ho E1 Hy).
    pose proof (Hb y Hy). lia.
  - rewrite En. lia.
Qed.

End SongMIntFacts.

(** ** The [int] operations in every state *)

Section BumpInt.

Variable M : Z.
Hypothesis HM : 1 <= M.

Lemma fold_int_length : forall (l : list Z) d delta,
  length (fold_left (fun d p => vset d p (int_add (vget d p) delta)) l d)
  = length d.
Proof.
  induction l as [|x l IH]; intros d delta; simpl; [reflexivity|].
  rewrite IH. apply vset_length.
Qed.

Lemma fold_int_get : forall (l : list Z) d delta w,
  NoDup l -> (forall x, In x l -> 0 <= x < Z.of_nat (length d)) -> 0 <= w ->
  vget (fold_left (fun d p => vset d p (int_add (vget d p) delta)) l d) w
  = if existsb (Z.eqb w) l then int_add (vget d w) delta else vget d w.
Proof.
  induction l as [|x l IH]; intros d delta w Hnd Hr Hw; simpl.
  - reflexivity.
  - inversion Hnd as [|? ? Hx Hnd']; subst.
    rewrite IH; [| exact Hnd'
                 | intros y Hy; rewrite vset_length; apply Hr; right; exact Hy
                 | exact Hw].
    rewrite vget_vset; [| apply Hr; left; reflexivity | exact Hw].
    destruct (Z.eqb_spec w x) as [->|Hne]; simpl.
    + destruct (existsb (Z.eqb x) l) eqn:E; [|reflexivity].
      apply existsb_exists in E. destruct E as [y [Hy E]].
      apply Z.eqb_eq in E. subst y. contradiction.
    + reflexivity.
Qed.

Lemma bumpInt_length : forall d v delta,
  length (bumpInt M d v delta) = length d.
Proof. intros. apply fold_int_length. Qed.

Lemma bumpInt_get : forall d v delta w,
  v <= Z.of_nat (length d) -> 0 <= w ->
  vget (bumpInt M d v delta) w
  = if ancb M w v then int_add (vget d w) delta else vget d w.
Proof.
  intros d v delta w Hv Hw. unfold bumpInt, ancb.
  apply fold_int_get; [apply NoDup_ancestors; exact HM| |exact Hw].
  intros x Hx. apply In_ancestors in Hx; [|exact HM].
  apply anc_range in Hx; [|exact HM]. lia.
Qed.

Lemma addAncestors_int_spec : forall N d v delta,
  0 <= N -> 0 <= v < N ->
  addAncestors_loop_int (S (Z.to_nat N)) (parentTable N M) d
                        (vget (parentTable N M) v) delta
  = Some (bumpInt M d v delta).
Proof.
  intros N d v delta HN Hv. pose proof (parentTable_next N M HM HN v Hv).
  rewrite (addAncestors_loop_int_spec N M HM HN) by lia.
  rewrite upFrom_parent by (auto; lia). reflexivity.
Qed.

End BumpInt.

Module MulSongsIntSteps.
Import MulSongs MulSongsSpec MulSongsFacts MulSongsUpgrade MulSongsInv
       MulSongsSteps MulSongsRuns.

Lemma lockNodeInt_spec : forall t v uid,
  wf t -> 0 <= v < n t ->
  MulSongsInt.lockNode t v uid
  = Some (if lockable t v then (true, afterInt t v uid 1) else (false, t)).
Proof.
  intros t v uid W Hv.
  unfold MulSongsInt.lockNode, spin_lock, lockable.
  rewrite (wf_flag t W). cbn [Z.eqb]. fields.
  rewrite hasLockedAncestor_flag, (hasLockedAncestor_eq t v W Hv).
  pose proof (spin_unlock_lock t (wf_flag t W)) as E.
  rewrite E.
  destruct (vget (lockedBy t) v =? 0); cbn [negb andb]; [|reflexivity].
  fields.
  destruct (existsb (lockedb (lockedBy t)) (ancestors (m t) v));
    cbn [negb andb]; [reflexivity|].
  destruct (vget (descLocked t) v =? 0); cbn [negb andb]; [|reflexivity].
  unfold MulSongsInt.updateAncestorDescLockCount. fields.
  rewrite (wf_parent t W).
  rewrite (addAncestors_int_spec (m t) (wf_m t W) (n t)) by (try apply W; lia).
  fields. unfold afterInt, spin_unlock. fields.
  rewrite (wf_flag t W). reflexivity.
Qed.

Lemma unlockNodeInt_spec : forall t v uid,
  wf t -> 0 <= v < n t ->
  MulSongsInt.unlockNode t v uid
  = Some (if vget (lockedBy t) v =? uid
          then (true, afterInt t v 0 (-1)) else (false, t)).
Proof.
  intros t v uid W Hv.
  unfold MulSongsInt.unlockNode, spin_lock.
  rewrite (wf_flag t W). cbn [Z.eqb]. fields.
  pose proof (spin_unlock_lock t (wf_flag t W)) as E.
  rewrite E.
  destruct (vget (lockedBy t) v =? uid); cbn [negb]; [|reflexivity].
  unfold MulSongsInt.updateAncestorDescLockCount. fields.
  rewrite (wf_parent t W).
  rewrite (addAncestors_int_spec (m t) (wf_m t W) (n t)) by (try apply W; lia).
  fields. unfold afterInt, spin_unlock. fields.
  rewrite (wf_flag t W). reflexivity.
Qed.

Lemma afterInt_lockedBy : forall t v uid delta w,
  wf t -> 0 <= v < n t -> 0 <= w ->
  vget (lockedBy (afterInt t v uid delta)) w
  = if w =? v then uid else vget (lockedBy t) w.
Proof.
  intros t v uid delta w W Hv Hw. cbn [afterInt lockedBy].
  apply vget_vset; [rewrite (wf_lockedBy t W); exact Hv | exact Hw].
Qed.

Lemma afterInt_descLocked : forall t v uid delta w,
  wf t -> 0 <= v < n t -> 0 <= w ->
  vget (descLocked (afterInt t v uid delta)) w
  = if ancb (m t) w v then int_add (vget (descLocked t) w) delta
    else vget (descLocked t) w.
Proof.
  intros t v uid delta w W Hv Hw. cbn [afterInt descLocked].
  apply bumpInt_get; [apply W|rewrite (wf_descLocked t W); lia|exact Hw].
Qed.

End MulSongsIntSteps.

(** ** [Song_M]: every call returns, and a false result changes nothing *)

Section CollectRange.

Variables N M : Z.
Variables lb dl : list Z.
Variable uid : Z.
Hypothesis HM : 1 <= M.

Lemma collect_range_gen : forall fuel acc st L,
  (forall x, In x acc -> 0 <= x < N) ->
  (forall x, In x st -> 0 <= x < N) ->
  collect N M lb dl uid fuel acc st = Some (false, L) ->
  forall x, In x L -> 0 <= x < N.
Proof.
  induction fuel as [|fuel IH]; intros acc st L Ha Hs E; [discriminate E|].
  destruct st as [|u rest].
  - cbn [collect] in E. inversion E; subst. exact Ha.
  - assert (Hu : 0 <= u < N) by (apply Hs; left; reflexivity).
    destruct (existsb (foreignb lb uid) (kids M N u)) eqn:EF.
    + destruct (collect_step_foreign N M lb dl uid fuel acc u rest EF)
        as [d Hd].
      rewrite Hd in E. discriminate E.
    + rewrite (collect_step_ok N M lb dl uid) in E by exact EF.
      eapply IH; [ | | exact E].
      * intros x Hx. apply in_app_or in Hx. destruct Hx as [Hx|Hx].
        -- apply Ha. exact Hx.
        -- apply filter_In in Hx. destruct Hx as [Hx _].
           apply In_kids in Hx; [lia|exact HM|lia].
      * apply (stack_range_step N M HM); [lia|].
        intros x Hx. apply Hs. right. exact Hx.
Qed.

End CollectRange.

Module SongMTotal.
Import MulSongsSpec MulSongsFacts MulSongsUpgrade MulSongsInv MulSongsSteps
       SongMFacts SongMUpgrade.

Lemma collectLockedDescendants_total : forall t mx v uid,
  wf t -> 0 <= v < MulSongs.n t ->
  exists f L,
    SongM.collectLockedDescendants (SongM.set_nodeMx (toM t) mx) v uid []
    = Some (f, L) /\
    (f = false -> forall x, In x L -> 0 <= x < MulSongs.n t).
Proof.
  intros t mx v uid W Hv. unfold SongM.collectLockedDescendants. fieldsM.
  destruct (collect_total (MulSongs.n t) (MulSongs.m t)
              (MulSongs.lockedBy t) (MulSongs.descLocked t) uid
              (wf_m t W) (wf_n t W) v Hv) as [[f L] E].
  exists f, L. split; [exact E|]. intros ->.
  eapply (collect_range_gen (MulSongs.n t) (MulSongs.m t) _ _ uid (wf_m t W));
    [ | | exact E].
  - intros x [].
  - intros x [<-|[]]. exact Hv.
Qed.

(** The guarded release loop returns whatever the owners are. *)
Lemma unlockAllM_total : forall L nn mm lb dl mx uid,
  1 <= mm -> 0 <= nn -> (forall u, In u L -> 0 <= u < nn) ->
  exists lb' dl',
    SongM.unlockAll (SongM.mkTL nn mm (parentTable nn mm) lb dl mx) uid L
    = Some (SongM.mkTL nn mm (parentTable nn mm) lb' dl' mx).
Proof.
  induction L as [|u L IH]; intros nn mm lb dl mx uid HM HN Hr.
  - exists lb, dl. reflexivity.
  - cbn [SongM.unlockAll]. fieldsM.
    assert (Hu : 0 <= u < nn) by (apply Hr; left; reflexivity).
    assert (Hr' : forall x, In x L -> 0 <= x < nn)
      by (intros x Hx; apply Hr; right; exact Hx).
    destruct (vget lb u =? uid).
    + unfold SongM.set_lockedBy. fieldsM.
      rewrite addToAncestors_eq by assumption. cbn [bind].
      apply IH; assumption.
    + apply IH; assumption.
Qed.

Lemma upgradeNodeM_returns : forall t v uid,
  wf t -> 0 <= v < MulSongs.n t ->
  exists b t2,
    SongM.upgradeNode (toM t) v uid = Some (b, t2) /\
    (b = false -> t2 = toM t).
Proof.
  intros t v uid W Hv. unfold SongM.upgradeNode.
  rewrite (getPathToRoot_eq t v W Hv). cbn [bind].
  destruct (acquireLocks_eq t (v :: ancestors (MulSongs.m t) v) W
                            (fun x => path_in_range t v x W Hv))
    as [mx [locks [E R]]].
  rewrite E. cbn [bind].
  rewrite (cannotUpgrade_eq t mx v W Hv). cbn [bind].
  rewrite !(release_toM t mx locks R).
  destruct (upgradable t v) eqn:EU; cbn [negb];
    [|exists false, (toM t); split; [reflexivity|reflexivity]].
  destruct (collectLockedDescendants_total t mx v uid W Hv)
    as [f [L [EC HL]]].
  rewrite EC. cbn [bind].
  destruct f; [exists false, (toM t); split; reflexivity|].
  specialize (HL eq_refl).
  assert (Hall : forall x, In x ((v :: ancestors (MulSongs.m t) v) ++ L) ->
                   0 <= x < MulSongs.n t).
  { intros x Hx. apply in_app_or in Hx. destruct Hx as [Hx|Hx].
    - exact (path_in_range t v x W Hv Hx).
    - apply (HL x Hx). }
  destruct (acquireLocks_eq t _ W Hall) as [mx2 [locks2 [E2 R2]]].
  rewrite E2. cbn [bind].
  rewrite (cannotUpgrade_eq t mx2 v W Hv), EU. cbn [bind negb].
  assert (EC2 : SongM.collectLockedDescendants
                  (SongM.set_nodeMx (toM t) mx2) v uid []
                = Some (false, L)) by exact EC.
  rewrite EC2. cbn [bind].
  unfold SongM.set_nodeMx at 1, toM at 1. fieldsM.
  rewrite (wf_parent t W).
  destruct (unlockAllM_total L (MulSongs.n t) (MulSongs.m t)
              (MulSongs.lockedBy t) (MulSongs.descLocked t) mx2 uid
              (wf_m t W) (wf_n t W) HL) as [lb' [dl' EU2]].
  rewrite EU2. cbn [bind]. unfold SongM.set_lockedBy. fieldsM.
  rewrite addToAncestors_eq; [| apply W | apply W | exact Hv].
  cbn [bind]. eexists. eexists. split; [reflexivity|discriminate].
Qed.

Lemma stepM_returns : forall t o,
  wf t -> in_range t o ->
  exists b t2,
    SongM.step (toM t) o = Some (b, t2) /\ (b = false -> t2 = toM t).
Proof.
  intros t [v uid|v uid|v uid] W Hv; unfold in_range in Hv; simpl in Hv;
    cbn [SongM.step].
  - rewrite lockNodeM_eq by assumption.
    destruct (lockable t v); eexists; eexists;
      (split; [reflexivity|]); [discriminate|reflexivity].
  - rewrite unlockNodeM_eq by assumption.
    destruct (vget (MulSongs.lockedBy t) v =? uid); eexists; eexists;
      (split; [reflexivity|]); [discriminate|reflexivity].
  - apply upgradeNodeM_returns; assumption.
Qed.

(** I1 makes the extra visits of [Song_M] harmless: below a locked node
    nothing is locked. *)
Lemma I1_harmless : forall t,
  wf t -> I1 (MulSongs.m t) (MulSongs.n t) (MulSongs.lockedBy t) ->
  harmlessT t.
Proof.
  intros t W H1 w Hw L P x R.
  assert (Hr : 0 <= w < MulSongs.n t).
  { split; [exact Hw|].
    destruct (Z.lt_ge_cases w (MulSongs.n t)) as [|Hge]; [assumption|].
    unfold lockedb, vget in L. rewrite nth_overflow in L; [discriminate L|].
    pose proof (wf_lockedBy t W). lia. }
  destruct (reachM_anc (MulSongs.n t) (MulSongs.m t) (wf_m t W) _ _ _ R)
    as [A Hx].
  destruct (H1 w Hr L) as [_ HD]. apply HD; [lia|exact A].
Qed.

End SongMTotal.

(** ** Runs with valid callers: the counters stay between 0 and n *)

Module IntRunsValid.
Import MulSongs MulSongsSpec MulSongsFacts MulSongsUpgrade MulSongsInv
       MulSongsSteps MulSongsRuns MulSongsHarmless BothRuns
       MulSongsIntFacts MulSongsIntRuns SongMIntFacts SongMTotal.

Lemma consistent_hasRoom : forall t,
  wf t -> consistent t -> n t + 1 < 2 ^ 31 -> hasRoom t.
Proof.
  intros t W [_ C2] Hn y Hy. rewrite (C2 y Hy).
  pose proof (lockedBelow_nonneg (n t) (m t) (lockedBy t) y).
  pose proof (wf_n t W).
  destruct (lockedBelow_le (n t) (m t) (lockedBy t) y);
    rewrite pow_31 in *; lia.
Qed.

Lemma new_counters_zero : forall N M y,
  0 <= y < N -> Z.abs (vget (descLocked (newTreeLocker N M)) y) <= 0.
Proof.
  intros N M y Hy. cbn [newTreeLocker descLocked].
  rewrite vget_assign by exact Hy. lia.
Qed.

Lemma runInt_valid_eq : forall os t,
  wf t -> consistent t -> n t + 1 < 2 ^ 31 ->
  Forall (fun o => 0 <= op_node o < n t) os -> Forall valid_caller os ->
  MulSongsInt.run t os = run t os.
Proof.
  induction os as [|o os IH]; intros t W C Hn Q V; [reflexivity|].
  inversion Q as [|? ? Ho Q']; subst. inversion V as [|? ? Vo V']; subst.
  cbn [MulSongsInt.run run].
  rewrite (stepInt_eq t o W (consistent_hasRoom t W C Hn) Ho).
  destruct (step_total t o W Ho) as [b [t1 [E1 [W1 [En Em]]]]].
  rewrite E1. cbn [bind snd fst].
  rewrite (IH t1); [reflexivity | exact W1 | | | | exact V'].
  - exact (step_consistent t o b t1 W C Ho Vo E1).
  - rewrite En. exact Hn.
  - rewrite En. exact Q'.
Qed.

Lemma runMInt_valid_eq : forall os t,
  wf t -> consistent t -> n t + 1 < 2 ^ 31 ->
  Forall (fun o => 0 <= op_node o < n t) os -> Forall valid_caller os ->
  SongMInt.run (toM t) os = SongM.run (toM t) os.
Proof.
  induction os as [|o os IH]; intros t W C Hn Q V; [reflexivity|].
  inversion Q as [|? ? Ho Q']; subst. inversion V as [|? ? Vo V']; subst.
  cbn [SongMInt.run SongM.run].
  pose proof (I1_harmless t W (proj1 C)) as HJ.
  rewrite (stepMInt_eq t o W HJ (consistent_hasRoom t W C Hn) Ho).
  destruct (step_both t o W HJ Ho) as [b [t1 [E1 [EM [W1 [_ [En Em]]]]]]].
  rewrite EM. cbn [bind snd fst].
  rewrite (IH t1); [reflexivity | exact W1 | | | | exact V'].
  - exact (step_consistent t o b t1 W C Ho Vo E1).
  - rewrite En. exact Hn.
  - rewrite En. exact Q'.
Qed.

(** From the initial state both programs, with [int] counters, do what
    they do with unbounded counters, in a run short enough or with valid
    callers only. *)
Lemma runs_from_new : forall N M os,
  1 <= M -> 0 <= N ->
  Forall (fun o => 0 <= op_node o < N) os ->
  N * Z.of_nat (length os) < 2 ^ 31 \/
  (Forall valid_caller os /\ N + 1 < 2 ^ 31) ->
  MulSongsInt.run (newTreeLocker N M) os = run (newTreeLocker N M) os /\
  SongMInt.run (toM (newTreeLocker N M)) os
  = SongM.run (toM (newTreeLocker N M)) os.
Proof.
  intros N M os HM HN Q [B|[V B]].
  - split.
    + apply (runInt_eq os _ 0 (wf_new N M HM HN) Q);
        [apply new_counters_zero | exact B].
    + apply (runMInt_eq os _ 0 (wf_new N M HM HN) (harmless_new N M) Q);
        [apply new_counters_zero | exact B].
  - split.
    + apply runInt_valid_eq; auto using wf_new, new_consistent.
    + apply runMInt_valid_eq; auto using wf_new, new_consistent.
Qed.

End IntRunsValid.

(** ** A counter that goes round the range of [int] *)

Lemma runInt_app : forall os1 os2 t,
  MulSongsInt.run t (os1 ++ os2)
  = (r <- MulSongsInt.run t os1 ;;
     r' <- MulSongsInt.run (snd r) os2 ;;
     Some (fst r ++ fst r', snd r')).
Proof.
  induction os1 as [|o os1 IH]; intros os2 t; cbn [app MulSongsInt.run bind].
  - cbn [snd fst app]. destruct (MulSongsInt.run t os2) as [[bs t']|];
      reflexivity.
  - destruct (MulSongsInt.step t o) as [[b t1]|]; cbn [bind snd fst];
      [|reflexivity].
    rewrite IH.
    destruct (MulSongsInt.run t1 os1) as [[bs t2]|]; cbn [bind snd fst];
      [|reflexivity].
    destruct (MulSongsInt.run t2 os2) as [[bs' t3]|]; cbn [bind snd fst];
      reflexivity.
Qed.

Lemma runMInt_app : forall os1 os2 t,
  SongMInt.run t (os1 ++ os2)
  = (r <- SongMInt.run t os1 ;;
     r' <- SongMInt.run (snd r) os2 ;;
     Some (fst r ++ fst r', snd r')).
Proof.
  induction os1 as [|o os1 IH]; intros os2 t; cbn [app SongMInt.run bind].
  - cbn [snd fst app]. destruct (SongMInt.run t os2) as [[bs t']|];
      reflexivity.
  - destruct (SongMInt.step t o) as [[b t1]|]; cbn [bind snd fst];
      [|reflexivity].
    rewrite IH.
    destruct (SongMInt.run t1 os1) as [[bs t2]|]; cbn [bind snd fst];
      [|reflexivity].
    destruct (SongMInt.run t2 os2) as [[bs' t3]|]; cbn [bind snd fst];
      reflexivity.
Qed.

(** [Lock(3, 0)] with nothing locked: only the counters of nodes 1 and 0
    move. *)
Lemma lock3_step : forall k,
  MulSongsInt.step (inflatedState k) (Lock 3 0)
  = Some (true, inflatedState (k + 1)).
Proof.
  intros k. unfold inflatedState. rewrite <- (int_add_to_int k 1).
  cbv -[to_int int_add]. reflexivity.
Qed.

Lemma lock3_run : forall k j,
  MulSongsInt.run (inflatedState j) (repeat (Lock 3 0) k)
  = Some (repeat true k, inflatedState (j + Z.of_nat k)).
Proof.
  induction k as [|k IH]; intros j.
  - cbn [repeat MulSongsInt.run]. change (Z.of_nat 0) with 0.
    rewrite Z.add_0_r. reflexivity.
  - cbn [repeat MulSongsInt.run]. rewrite lock3_step. cbn [bind snd fst].
    rewrite IH. cbn [bind snd fst].
    replace (j + 1 + Z.of_nat k) with (j + Z.of_nat (S k)) by lia.
    reflexivity.
Qed.

Lemma lockRun_steps : forall k,
  MulSongsInt.run (MulSongs.newTreeLocker 7 2)
                  (repeat (Lock 3 0) k ++ [Lock 3 5; Lock 1 9])
  = (r <- MulSongsInt.run (inflatedState (0 + Z.of_nat k))
                          [Lock 3 5; Lock 1 9] ;;
     Some (repeat true k ++ fst r, snd r)).
Proof.
  intros k. rewrite runInt_app.
  change (MulSongs.newTreeLocker 7 2) with (inflatedState 0).
  rewrite lock3_run. cbn [bind snd fst].
  destruct (MulSongsInt.run (inflatedState (0 + Z.of_nat k))
                            [Lock 3 5; Lock 1 9]) as [[bs t]|];
    reflexivity.
Qed.

(** [Unlock(4, 0)] with nodes 1 and 3 locked: only the counters of nodes 1
    and 0 move, in both programs. *)
Lemma unlock4_step : forall x y,
  MulSongsInt.step (wrappedState x y) (Unlock 4 0)
  = Some (true, wrappedState (x + -1) (y + -1)).
Proof.
  intros x y. unfold wrappedState.
  rewrite <- (int_add_to_int x (-1)), <- (int_add_to_int y (-1)).
  cbv -[to_int int_add]. reflexivity.
Qed.

Lemma unlock4_stepM : forall x y,
  SongMInt.step (wrappedStateM x y) (Unlock 4 0)
  = Some (true, wrappedStateM (x + -1) (y + -1)).
Proof.
  intros x y. unfold wrappedStateM.
  rewrite <- (int_add_to_int x (-1)), <- (int_add_to_int y (-1)).
  cbv -[to_int int_add]. reflexivity.
Qed.

Lemma unlock4_run : forall k x y,
  MulSongsInt.run (wrappedState x y) (repeat (Unlock 4 0) k)
  = Some (repeat true k, wrappedState (x - Z.of_nat k) (y - Z.of_nat k)).
Proof.
  induction k as [|k IH]; intros x y.
  - cbn [repeat MulSongsInt.run]. change (Z.of_nat 0) with 0.
    rewrite !Z.sub_0_r. reflexivity.
  - cbn [repeat MulSongsInt.run]. rewrite unlock4_step. cbn [bind snd fst].
    rewrite IH. cbn [bind snd fst].
    replace (x + -1 - Z.of_nat k) with (x - Z.of_nat (S k)) by lia.
    replace (y + -1 - Z.of_nat k) with (y - Z.of_nat (S k)) by lia.
    reflexivity.
Qed.

Lemma unlock4_runM : forall k x y,
  SongMInt.run (wrappedStateM x y) (repeat (Unlock 4 0) k)
  = Some (repeat true k, wrappedStateM (x - Z.of_nat k) (y - Z.of_nat k)).
Proof.
  induction k as [|k IH]; intros x y.
  - cbn [repeat SongMInt.run]. change (Z.of_nat 0) with 0.
    rewrite !Z.sub_0_r. reflexivity.
  - cbn [repeat SongMInt.run]. rewrite unlock4_stepM. cbn [bind snd fst].
    rewrite IH. cbn [bind snd fst].
    replace (x + -1 - Z.of_nat k) with (x - Z.of_nat (S k)) by lia.
    replace (y + -1 - Z.of_nat k) with (y - Z.of_nat (S k)) by lia.
    reflexivity.
Qed.

Lemma longRun_steps : forall k,
  MulSongsInt.run (MulSongs.newTreeLocker 7 2)
    ([Lock 3 7; Unlock 4 0; Lock 1 7]
     ++ repeat (Unlock 4 0) k ++ [Upgrade 0 7])
  = (r <- MulSongsInt.upgradeNode
            (wrappedState (0 - Z.of_nat k) (1 - Z.of_nat k)) 0 7 ;;
     Some ([true; true; true] ++ repeat true k ++ [fst r], snd r)).
Proof.
  intros k. rewrite runInt_app.
  assert (P : MulSongsInt.run (MulSongs.newTreeLocker 7 2)
                              [Lock 3 7; Unlock 4 0; Lock 1 7]
              = Some ([true; true; true], wrappedState 0 1))
    by (vm_compute; reflexivity).
  rewrite P. cbn [bind snd fst]. rewrite runInt_app, unlock4_run.
  cbn [bind snd fst MulSongsInt.run MulSongsInt.step].
  destruct (MulSongsInt.upgradeNode _ 0 7) as [[b t]|]; reflexivity.
Qed.

Lemma longRun_stepsM : forall k,
  SongMInt.run (SongM.newTreeLocker 7 2)
    ([Lock 3 7; Unlock 4 0; Lock 1 7]
     ++ repeat (Unlock 4 0) k ++ [Upgrade 0 7])
  = (r <- SongMInt.upgradeNode
            (wrappedStateM (0 - Z.of_nat k) (1 - Z.of_nat k)) 0 7 ;;
     Some ([true; true; true] ++ repeat true k ++ [fst r], snd r)).
Proof.
  intros k. rewrite runMInt_app.
  assert (P : SongMInt.run (SongM.newTreeLocker 7 2)
                           [Lock 3 7; Unlock 4 0; Lock 1 7]
              = Some ([true; true; true], wrappedStateM 0 1))
    by (vm_compute; reflexivity).
  rewrite P. cbn [bind snd fst]. rewrite runMInt_app, unlock4_runM.
  cbn [bind snd fst SongMInt.run SongMInt.step].
  destruct (SongMInt.upgradeNode _ 0 7) as [[b t]|]; reflexivity.
Qed.

Lemma two_to_32 : Z.of_nat (Z.to_nat (2 ^ 32 - 1)) = 2 ^ 32 - 1.
Proof. apply Z2Nat.id. rewrite pow_32. lia. Qed.

Lemma lockRun_result :
  MulSongsInt.run (MulSongs.newTreeLocker 7 2) lockRun
  = Some (repeat true (Z.to_nat (2 ^ 32 - 1)) ++ [true; true],
          MulSongs.mkTL 7 2 (parentTable 7 2) [0; 9; 0; 5; 0; 0; 0]
                        [1; 0; 0; 0; 0; 0; 0] 0).
Proof.
  unfold lockRun. rewrite lockRun_steps, two_to_32.
  assert (P : MulSongsInt.run (inflatedState (0 + (2 ^ 32 - 1)))
                              [Lock 3 5; Lock 1 9]
              = Some ([true; true],
                      MulSongs.mkTL 7 2 (parentTable 7 2) [0; 9; 0; 5; 0; 0; 0]
                                    [1; 0; 0; 0; 0; 0; 0] 0))
    by (vm_compute; reflexivity).
  rewrite P. reflexivity.
Qed.

Lemma longRun_result :
  MulSongsInt.run (MulSongs.newTreeLocker 7 2) longRun
  = Some ([true; true; true] ++ repeat true (Z.to_nat (2 ^ 32 - 1)) ++ [true],
          MulSongs.mkTL 7 2 (parentTable 7 2) [7; 0; 0; 7; 0; 0; 0]
                        [1; 1; 0; 0; 0; 0; 0] 0).
Proof.
  unfold longRun. rewrite longRun_steps, two_to_32.
  assert (P : MulSongsInt.upgradeNode
                (wrappedState (0 - (2 ^ 32 - 1)) (1 - (2 ^ 32 - 1))) 0 7
              = Some (true,
                      MulSongs.mkTL 7 2 (parentTable 7 2) [7; 0; 0; 7; 0; 0; 0]
                                    [1; 1; 0; 0; 0; 0; 0] 0))
    by (vm_compute; reflexivity).
  rewrite P. reflexivity.
Qed.

Lemma longRun_resultM :
  SongMInt.run (SongM.newTreeLocker 7 2) longRun
  = Some ([true; true; true] ++ repeat true (Z.to_nat (2 ^ 32 - 1)) ++ [true],
          SongM.mkTL 7 2 (parentTable 7 2) [7; 0; 0; 0; 0; 0; 0]
                     [0; 0; 0; 0; 0; 0; 0] [0; 0; 0; 0; 0; 0; 0]).
Proof.
  unfold longRun. rewrite longRun_stepsM, two_to_32.
  assert (P : SongMInt.upgradeNode
                (wrappedStateM (0 - (2 ^ 32 - 1)) (1 - (2 ^ 32 - 1))) 0 7
              = Some (true,
                      SongM.mkTL 7 2 (parentTable 7 2) [7; 0; 0; 0; 0; 0; 0]
                                 [0; 0; 0; 0; 0; 0; 0] [0; 0; 0; 0; 0; 0; 0]))
    by (vm_compute; reflexivity).
  rewrite P. reflexivity.
Qed.

(* ================================================================== *)
(** * The properties of the specification *)
(* ================================================================== *)

Import MulSongs MulSongsSpec MulSongsFacts MulSongsUpgrade MulSongsInv
       MulSongsSteps MulSongsRuns MulSongsHarmless MulSongsEffects BothRuns.
Import SongMFacts SongMUpgrade SongMTotal MulSongsIntSteps IntRunsValid.

Lemma anc_2_1_3 : anc 2 1 3.
Proof. apply (ancb_true 2 ltac:(lia)). reflexivity. Qed.

Lemma anc_2_0_3 : anc 2 0 3.
Proof. apply (ancb_true 2 ltac:(lia)). reflexivity. Qed.

(** ** P1, mutual exclusion *)

(** C1, as stated, fails: a caller id 0 is accepted.  [Unlock(3, 0)] on the
    unlocked node 3 succeeds and takes the counters of nodes 1 and 0 to -1;
    after [Lock(3, 5)] the counter of node 1 is 0 again although node 3 is
    locked, and [Lock(1, 9)] locks the parent of a locked node.  Without
    any [Unlock] the same happens once the [int] counter of node 1 has
    gone round: after 2^32 - 1 calls [Lock(3, 0)] it is -1. *)
Lemma C1_counterexample_caller_zero :
  (exists bs t,
     MulSongsInt.run (newTreeLocker 7 2) [Unlock 3 0; Lock 3 5; Lock 1 9]
     = Some (bs, t) /\
     ~ I1 2 7 (lockedBy t)) /\
  (exists bs t,
     MulSongsInt.run (newTreeLocker 7 2) lockRun = Some (bs, t) /\
     Forall unlock_valid lockRun /\
     ~ I1 2 7 (lockedBy t)).
Proof.
  split.
  - eexists. eexists. split; [vm_compute; reflexivity|].
    intros H. destruct (H 3 ltac:(lia) eq_refl) as [H1 _].
    specialize (H1 1 anc_2_1_3). vm_compute in H1. discriminate.
  - eexists. eexists. split; [exact lockRun_result|]. split.
    + unfold lockRun. apply Forall_app. split.
      * apply Forall_forall. intros o Ho. apply repeat_spec in Ho.
        subst o. exact I.
      * repeat constructor.
    + cbn [lockedBy]. intros H. destruct (H 3 ltac:(lia) eq_refl) as [H1 _].
      specialize (H1 1 anc_2_1_3). vm_compute in H1. discriminate.
Qed.

(** C1, amended: starting from the state built by the constructor with
    parameters (n, m), m >= 1, after every finite sequence of Lock, Unlock
    and Upgrade operations on nodes in [0, n) in which no Unlock has the
    caller id 0 and which either is so short that n times its length is
    below 2^31, or has no Lock with the caller id 0 either (and
    n + 1 < 2^31), every operation has returned and, for every node v that
    is locked, no ancestor of v is locked and no descendant of v is
    locked.  The counters are [int]s. *)
Theorem C1_mutual_exclusion_bounded_runs : forall N M os,
  1 <= M -> 0 <= N ->
  Forall (fun o => 0 <= op_node o < N) os ->
  Forall unlock_valid os ->
  N * Z.of_nat (length os) < 2 ^ 31 \/
  (Forall valid_caller os /\ N + 1 < 2 ^ 31) ->
  exists bs t,
    MulSongsInt.run (newTreeLocker N M) os = Some (bs, t) /\
    forall v, 0 <= v < N -> lockedb (lockedBy t) v = true ->
      (forall a, anc M a v -> lockedb (lockedBy t) a = false) /\
      (forall d, 0 <= d < N -> anc M v d -> lockedb (lockedBy t) d = false).
Proof.
  intros N M os HM HN Hr Hc Hb.
  destruct (runs_from_new N M os HM HN Hr Hb) as [EI _].
  destruct (run_sound os (newTreeLocker N M) (wf_new N M HM HN)
                      (consistent_sound _ (new_consistent N M)) Hr Hc)
    as [bs [t [E [_ [[C1 _] [En Em]]]]]].
  exists bs, t. split; [rewrite EI; exact E|].
  cbn [newTreeLocker n m] in En, Em. rewrite En, Em in C1. exact C1.
Qed.

Lemma C1_witness :
  exists bs t,
    MulSongsInt.run (newTreeLocker 7 2)
        [Lock 3 0; Lock 3 5; Lock 1 9; Unlock 3 5; Upgrade 1 0; Lock 1 9;
         Lock 5 2; Upgrade 0 9]
    = Some (bs, t) /\
    forall v, 0 <= v < 7 -> lockedb (lockedBy t) v = true ->
      (forall a, anc 2 a v -> lockedb (lockedBy t) a = false) /\
      (forall d, 0 <= d < 7 -> anc 2 v d -> lockedb (lockedBy t) d = false).
Proof.
  apply (C1_mutual_exclusion_bounded_runs 7 2);
    [lia | lia | repeat constructor; cbn; lia
     | repeat constructor; cbn; lia
     | left; vm_compute; reflexivity].
Defined.

(** ** P2, the counters *)

(** C2, as stated, fails: [Lock(3, 0)] returns true, leaves node 3 unlocked
    and increments the counters of its ancestors 1 and 0. *)
Lemma C2_counterexample_caller_zero :
  exists bs t,
    run (newTreeLocker 7 2) [Lock 3 0] = Some (bs, t) /\
    vget (descLocked t) 1 = 1 /\ lockedBelow 2 7 (lockedBy t) 1 = 0.
Proof.
  eexists. eexists. split; [vm_compute; reflexivity|].
  split; vm_compute; reflexivity.
Qed.

(** C2, amended: starting from the state built by the constructor with
    parameters (n, m), after every finite sequence of Lock, Unlock and
    Upgrade operations on nodes in [0, n), in which every Lock and every
    Unlock has a caller id different from 0, for every node v,
    descendant_lock_count[v] is the number of locked nodes strictly below v
    (and so lies between 0 and n). *)
Theorem C2_counters_valid_callers : forall N M os,
  1 <= M -> 0 <= N ->
  Forall (fun o => 0 <= op_node o < N) os ->
  Forall valid_caller os ->
  exists bs t,
    run (newTreeLocker N M) os = Some (bs, t) /\
    forall v, 0 <= v < N ->
      vget (descLocked t) v = lockedBelow M N (lockedBy t) v /\
      0 <= vget (descLocked t) v <= N.
Proof.
  intros N M os HM HN Hr Hc.
  destruct (run_consistent os (newTreeLocker N M) (wf_new N M HM HN)
                           (new_consistent N M) Hr Hc)
    as [bs [t [E [_ [[_ C2] [En Em]]]]]].
  exists bs, t. split; [exact E|].
  cbn [newTreeLocker n m] in En, Em. rewrite En, Em in C2.
  intros v Hv. split; [exact (C2 v Hv)|]. rewrite (C2 v Hv).
  pose proof (lockedBelow_nonneg N M (lockedBy t) v).
  destruct (lockedBelow_le N M (lockedBy t) v); lia.
Qed.

Lemma C2_witness :
  exists bs t,
    run (newTreeLocker 7 2)
        [Lock 3 1; Lock 4 1; Lock 5 2; Upgrade 1 1; Unlock 5 2]
    = Some (bs, t) /\
    forall v, 0 <= v < 7 ->
      vget (descLocked t) v = lockedBelow 2 7 (lockedBy t) v /\
      0 <= vget (descLocked t) v <= 7.
Proof.
  apply (C2_counters_valid_callers 7 2);
    [lia | lia | repeat constructor; cbn; lia
     | repeat constructor; cbn; lia].
Defined.

(** ** Upgrade *)




(** C4, as stated ("for every state"), fails in its first half: two
    [Unlock(3, 0)] take the counters of nodes 1 and 0 to -2, so that after
    [Lock(3, 5); Lock(4, 5); Lock(5, 5)] the counter of node 1 is 0 and the
    traversal of [Upgrade(0, 5)] does not go below node 1.  The call returns
    true and changes the state, and node 3, a locked descendant of node 0,
    is still locked. *)
Lemma C4_counterexample_missed_descendant :
  exists bs t t',
    run (newTreeLocker 7 2)
        [Unlock 3 0; Unlock 3 0; Lock 3 5; Lock 4 5; Lock 5 5] = Some (bs, t) /\
    upgradeNode t 0 5 = Some (true, t') /\
    t' <> t /\
    anc 2 0 3 /\
    lockedb (lockedBy t) 3 = true /\
    lockedb (lockedBy t') 3 = true.
Proof.
  eexists. eexists. eexists. split; [vm_compute; reflexivity|].
  split; [vm_compute; reflexivity|].
  split; [intros E; apply (f_equal lockedBy) in E; vm_compute in E; discriminate|].
  split; [exact anc_2_0_3|]. split; vm_compute; reflexivity.
Qed.

(** C4, amended: in every state, every Lock, Unlock or Upgrade call on a
    node in range returns, and a call that returns false leaves the entire
    state unchanged, in [mulSongs.cpp] and in [Song_M] (called with every
    mutex free, and leaving every mutex free).  In every state that
    satisfies I1 and in which no descendant_lock_count is smaller than the
    number of locked nodes strictly below its node, Upgrade(v, uid) gives
    the same result and the same state in the two programs, and after it
    either owner[v] = uid and every node that was a locked descendant of v
    is unlocked, or the call has returned false and the state is the one
    before the call; when the state satisfies I2 as well, v is then locked
    (uid is not 0). *)
Theorem C4_all_or_nothing_both : forall t,
  wf t ->
  (forall o, in_range t o ->
     exists b t', step t o = Some (b, t') /\ (b = false -> t' = t)) /\
  (forall o, in_range t o ->
     exists b t2,
       SongM.step (toM t) o = Some (b, t2) /\ (b = false -> t2 = toM t)) /\
  (sound t ->
   forall v uid, 0 <= v < n t ->
   exists b t',
     upgradeNode t v uid = Some (b, t') /\
     SongM.upgradeNode (toM t) v uid = Some (b, toM t') /\
     ((b = true /\
       vget (lockedBy t') v = uid /\
       (consistent t -> lockedb (lockedBy t') v = true) /\
       forall x, 0 <= x < n t -> anc (m t) v x ->
                 lockedb (lockedBy t) x = true ->
                 lockedb (lockedBy t') x = false) \/
      (b = false /\ t' = t))).
Proof.
  intros t W. split; [|split].
  - intros o Ho. destruct (step_total t o W Ho) as [b [t' [E _]]].
    exists b, t'. split; [exact E|]. intros ->.
    exact (step_false t o t' W Ho E).
  - intros o Ho. exact (stepM_returns t o W Ho).
  - intros S v uid Hv.
    destruct (upgradeNode_eq t v uid W Hv) as [b [L [HT E]]].
    pose proof (upgradeNodeM_eq t v uid b L W (I1_harmless t W (proj1 S))
                                Hv HT) as EM.
    destruct (upgradable t v) eqn:EU; cbn [andb] in E, EM;
      [destruct b|];
      try (exists false, t; split; [exact E|]; split; [exact EM|right; auto]).
    exists true, (upgraded t v uid L). split; [exact E|].
    split; [exact EM|]. left.
    destruct (traverse_exact t v uid L W S Hv HT) as [_ [HL _]].
    assert (HLr : forall u, In u L -> 0 <= u < n t).
    { intros u Hin. apply HL in Hin. destruct Hin as [Hin _].
      apply In_nodes. exact Hin. }
    assert (H1 : vget (lockedBy (upgraded t v uid L)) v = uid).
    { rewrite upgraded_lockedBy by (auto; lia). rewrite Z.eqb_refl. reflexivity. }
    split; [reflexivity|]. split; [exact H1|]. split.
    + intros C.
      destruct (upgrade_consistent t v uid L W C Hv EU HT) as [Hu _].
      unfold lockedb. rewrite H1.
      destruct (Z.eqb_spec uid 0); [contradiction|reflexivity].
    + intros x Hx A Lx.
      pose proof (anc_range _ (wf_m t W) _ _ A).
      rewrite upgraded_lockedb by (auto; lia).
      destruct (Z.eqb_spec x v); [lia|].
      assert (Hin : In x L).
      { apply HL. split; [apply In_nodes; exact Hx|].
        rewrite Lx, andb_true_r. apply ancb_true; [apply W|exact A]. }
      apply mem_true in Hin. rewrite Hin. reflexivity.
Qed.

Lemma C4_witness :
  (forall o, in_range scenarioB_locked o ->
     exists b t', step scenarioB_locked o = Some (b, t') /\
                  (b = false -> t' = scenarioB_locked)) /\
  (forall o, in_range scenarioB_locked o ->
     exists b t2,
       SongM.step (toM scenarioB_locked) o = Some (b, t2) /\
       (b = false -> t2 = toM scenarioB_locked)) /\
  (forall v uid, 0 <= v < 7 ->
   exists b t',
     upgradeNode scenarioB_locked v uid = Some (b, t') /\
     SongM.upgradeNode (toM scenarioB_locked) v uid = Some (b, toM t') /\
     ((b = true /\
       vget (lockedBy t') v = uid /\
       (consistent scenarioB_locked -> lockedb (lockedBy t') v = true) /\
       forall x, 0 <= x < 7 -> anc 2 v x ->
                 lockedb (lockedBy scenarioB_locked) x = true ->
                 lockedb (lockedBy t') x = false) \/
      (b = false /\ t' = scenarioB_locked))).
Proof.
  assert (W : wf scenarioB_locked)
    by (constructor; cbn; first [lia | reflexivity]).
  destruct (C4_all_or_nothing_both scenarioB_locked W) as [A [B C]].
  split; [exact A|]. split; [exact B|].
  apply C. apply soundb_true; [cbn; lia | vm_compute; reflexivity].
Defined.

(** ** Lock and Unlock *)

(** C5, as stated, fails for the caller id 0: [Lock(5, 0)] on the initial
    state returns true, and node 5 is as unlocked after the call as it was
    before. *)
Lemma C5_counterexample_still_unlocked :
  exists t',
    MulSongsInt.lockNode (newTreeLocker 7 2) 5 0 = Some (true, t') /\
    lockedb (lockedBy (newTreeLocker 7 2)) 5 = false /\
    lockedb (lockedBy t') 5 = false.
Proof.
  eexists. split; [vm_compute; reflexivity|].
  split; vm_compute; reflexivity.
Qed.

(** C5, amended: in every state, for every node v in range and every
    caller uid, Lock(v, uid) returns, and returns true iff v is unlocked,
    no ancestor of v is locked and descendant_lock_count[v] = 0.  On
    success owner[v] = uid, so that v goes from unlocked to locked by uid
    exactly when uid is not 0 (with uid = 0 it stays unlocked); no other
    owner changes; the counter of every ancestor of v is incremented by 1
    as an [int] (exactly + 1 below the largest [int]) while the other
    counters stay.  On failure the state is unchanged. *)
Theorem C5_lock_contract_any_caller : forall t v uid,
  wf t -> 0 <= v < n t ->
  exists b t',
    MulSongsInt.lockNode t v uid = Some (b, t') /\
    (b = true <->
       vget (lockedBy t) v = 0 /\
       (forall a, anc (m t) a v -> lockedb (lockedBy t) a = false) /\
       vget (descLocked t) v = 0) /\
    (b = true ->
       lockedb (lockedBy t) v = false /\
       vget (lockedBy t') v = uid /\
       (lockedb (lockedBy t') v = true <-> uid <> 0) /\
       (forall w, 0 <= w < n t -> w <> v ->
                  vget (lockedBy t') w = vget (lockedBy t) w) /\
       (forall a, anc (m t) a v ->
                  vget (descLocked t') a = int_add (vget (descLocked t) a) 1) /\
       (forall a, anc (m t) a v ->
                  - 2 ^ 31 <= vget (descLocked t) a < 2 ^ 31 - 1 ->
                  vget (descLocked t') a = vget (descLocked t) a + 1) /\
       (forall w, 0 <= w < n t -> ~ anc (m t) w v ->
                  vget (descLocked t') w = vget (descLocked t) w)) /\
    (b = false -> t' = t).
Proof.
  intros t v uid W Hv. pose proof (wf_m t W) as HM.
  rewrite lockNodeInt_spec by assumption.
  destruct (lockable t v) eqn:E.
  - exists true, (afterInt t v uid 1). split; [reflexivity|].
    pose proof E as E'. apply lockable_iff in E'; [|exact W].
    split; [split; [intros _; exact E'|reflexivity]|].
    split; [|discriminate]. intros _.
    assert (O : vget (lockedBy (afterInt t v uid 1)) v = uid).
    { rewrite afterInt_lockedBy by (auto; lia).
      rewrite Z.eqb_refl. reflexivity. }
    split; [|split; [exact O|split; [|split; [|split; [|split]]]]].
    + unfold lockedb. destruct E' as [E0 _]. rewrite E0. reflexivity.
    + unfold lockedb. rewrite O.
      destruct (Z.eqb_spec uid 0); cbn [negb]; split; congruence.
    + intros w Hw Hne. rewrite afterInt_lockedBy by (auto; lia).
      destruct (Z.eqb_spec w v); [contradiction|reflexivity].
    + intros a A. pose proof (anc_range _ HM _ _ A).
      rewrite afterInt_descLocked by (auto; lia).
      apply ancb_true in A; [|exact HM]. rewrite A. reflexivity.
    + intros a A Hr. pose proof (anc_range _ HM _ _ A).
      rewrite afterInt_descLocked by (auto; lia).
      apply ancb_true in A; [|exact HM]. rewrite A.
      apply int_add_id. lia.
    + intros w Hw A. rewrite afterInt_descLocked by (auto; lia).
      apply ancb_false in A; [|exact HM]. rewrite A. reflexivity.
  - exists false, t. split; [reflexivity|].
    split; [|split; [discriminate|reflexivity]].
    split; [discriminate|]. intros H.
    apply lockable_iff in H; [|exact W]. congruence.
Qed.

Lemma C5_witness :
  exists b t',
    MulSongsInt.lockNode (newTreeLocker 7 2) 3 5 = Some (b, t') /\
    (b = true <->
       vget (lockedBy (newTreeLocker 7 2)) 3 = 0 /\
       (forall a, anc (m (newTreeLocker 7 2)) a 3 ->
                  lockedb (lockedBy (newTreeLocker 7 2)) a = false) /\
       vget (descLocked (newTreeLocker 7 2)) 3 = 0) /\
    (b = true ->
       lockedb (lockedBy (newTreeLocker 7 2)) 3 = false /\
       vget (lockedBy t') 3 = 5 /\
       (lockedb (lockedBy t') 3 = true <-> 5 <> 0) /\
       (forall w, 0 <= w < n (newTreeLocker 7 2) -> w <> 3 ->
                  vget (lockedBy t') w = vget (lockedBy (newTreeLocker 7 2)) w) /\
       (forall a, anc (m (newTreeLocker 7 2)) a 3 ->
                  vget (descLocked t') a
                  = int_add (vget (descLocked (newTreeLocker 7 2)) a) 1) /\
       (forall a, anc (m (newTreeLocker 7 2)) a 3 ->
                  - 2 ^ 31 <= vget (descLocked (newTreeLocker 7 2)) a
                  < 2 ^ 31 - 1 ->
                  vget (descLocked t') a
                  = vget (descLocked (newTreeLocker 7 2)) a + 1) /\
       (forall w, 0 <= w < n (newTreeLocker 7 2) ->
                  ~ anc (m (newTreeLocker 7 2)) w 3 ->
                  vget (descLocked t') w
                  = vget (descLocked (newTreeLocker 7 2)) w)) /\
    (b = false -> t' = newTreeLocker 7 2).
Proof.
  apply (C5_lock_contract_any_caller (newTreeLocker 7 2) 3 5).
  - constructor; cbn; first [lia | reflexivity].
  - cbn; lia.
Defined.

(** C6, as stated, fails for the caller id 0: [Unlock(4, 0)] on the
    unlocked node 4 of the initial state returns true, and decrements the
    counters of the ancestors 1 and 0 to -1. *)
Lemma C6_counterexample_unlocked_node :
  exists t',
    lockedb (lockedBy (newTreeLocker 7 2)) 4 = false /\
    MulSongsInt.unlockNode (newTreeLocker 7 2) 4 0 = Some (true, t') /\
    vget (descLocked t') 1 = -1 /\ vget (descLocked t') 0 = -1.
Proof.
  eexists. split; [vm_compute; reflexivity|].
  split; [vm_compute; reflexivity|].
  split; vm_compute; reflexivity.
Qed.

(** C6, amended: in every state, for every node v in range and every
    caller uid, Unlock(v, uid) returns, and returns true iff
    owner[v] = uid; so a caller with owner[v] <> uid fails, and on a node
    that is already unlocked the call fails exactly when uid is not 0 (with
    uid = 0 it succeeds).  On success owner[v] is the sentinel, no other
    owner changes, and the counter of every ancestor of v is decremented
    by 1 as an [int] (exactly - 1 above the smallest [int]) while the other
    counters stay; on failure the state is unchanged. *)
Theorem C6_unlock_contract_any_caller : forall t v uid,
  wf t -> 0 <= v < n t ->
  exists b t',
    MulSongsInt.unlockNode t v uid = Some (b, t') /\
    (b = true <-> vget (lockedBy t) v = uid) /\
    (vget (lockedBy t) v <> uid -> b = false) /\
    (lockedb (lockedBy t) v = false -> (b = false <-> uid <> 0)) /\
    (b = true ->
       vget (lockedBy t') v = 0 /\
       (forall w, 0 <= w < n t -> w <> v ->
                  vget (lockedBy t') w = vget (lockedBy t) w) /\
       (forall a, anc (m t) a v ->
                  vget (descLocked t') a
                  = int_add (vget (descLocked t) a) (-1)) /\
       (forall a, anc (m t) a v ->
                  - 2 ^ 31 < vget (descLocked t) a < 2 ^ 31 ->
                  vget (descLocked t') a = vget (descLocked t) a - 1) /\
       (forall w, 0 <= w < n t -> ~ anc (m t) w v ->
                  vget (descLocked t') w = vget (descLocked t) w)) /\
    (b = false -> t' = t).
Proof.
  intros t v uid W Hv. pose proof (wf_m t W) as HM.
  rewrite unlockNodeInt_spec by assumption.
  assert (U : lockedb (lockedBy t) v = false -> vget (lockedBy t) v = 0).
  { unfold lockedb. intros H. apply negb_false_iff in H.
    apply Z.eqb_eq in H. exact H. }
  destruct (Z.eqb_spec (vget (lockedBy t) v) uid) as [E|E].
  - exists true, (afterInt t v 0 (-1)). split; [reflexivity|].
    split; [tauto|]. split; [intros; congruence|].
    split; [intros H; apply U in H; split; [discriminate|congruence]|].
    split; [|discriminate]. intros _. split; [|split; [|split; [|split]]].
    + rewrite afterInt_lockedBy by (auto; lia).
      rewrite Z.eqb_refl. reflexivity.
    + intros w Hw Hne. rewrite afterInt_lockedBy by (auto; lia).
      destruct (Z.eqb_spec w v); [contradiction|reflexivity].
    + intros a A. pose proof (anc_range _ HM _ _ A).
      rewrite afterInt_descLocked by (auto; lia).
      apply ancb_true in A; [|exact HM]. rewrite A. reflexivity.
    + intros a A Hr. pose proof (anc_range _ HM _ _ A).
      rewrite afterInt_descLocked by (auto; lia).
      apply ancb_true in A; [|exact HM]. rewrite A.
      rewrite int_add_id by lia. lia.
    + intros w Hw A. rewrite afterInt_descLocked by (auto; lia).
      apply ancb_false in A; [|exact HM]. rewrite A. reflexivity.
  - exists false, t. split; [reflexivity|].
    split; [split; [discriminate|contradiction]|].
    split; [reflexivity|].
    split; [intros H; apply U in H; split; [congruence|reflexivity]|].
    split; [discriminate|reflexivity].
Qed.

Lemma C6_witness :
  (exists b t',
     MulSongsInt.unlockNode scenarioB_locked 3 1 = Some (b, t') /\
     (b = true <-> vget (lockedBy scenarioB_locked) 3 = 1) /\
     (vget (lockedBy scenarioB_locked) 3 <> 1 -> b = false) /\
     (lockedb (lockedBy scenarioB_locked) 3 = false ->
      (b = false <-> 1 <> 0)) /\
     (b = true ->
        vget (lockedBy t') 3 = 0 /\
        (forall w, 0 <= w < n scenarioB_locked -> w <> 3 ->
                   vget (lockedBy t') w = vget (lockedBy scenarioB_locked) w) /\
        (forall a, anc (m scenarioB_locked) a 3 ->
                   vget (descLocked t') a
                   = int_add (vget (descLocked scenarioB_locked) a) (-1)) /\
        (forall a, anc (m scenarioB_locked) a 3 ->
                   - 2 ^ 31 < vget (descLocked scenarioB_locked) a < 2 ^ 31 ->
                   vget (descLocked t') a
                   = vget (descLocked scenarioB_locked) a - 1) /\
        (forall w, 0 <= w < n scenarioB_locked ->
                   ~ anc (m scenarioB_locked) w 3 ->
                   vget (descLocked t') w
                   = vget (descLocked scenarioB_locked) w)) /\
     (b = false -> t' = scenarioB_locked)) /\
  (exists b t',
     MulSongsInt.unlockNode scenarioB_locked 5 2 = Some (b, t') /\
     (b = true <-> vget (lockedBy scenarioB_locked) 5 = 2) /\
     (vget (lockedBy scenarioB_locked) 5 <> 2 -> b = false) /\
     (lockedb (lockedBy scenarioB_locked) 5 = false ->
      (b = false <-> 2 <> 0)) /\
     (b = true ->
        vget (lockedBy t') 5 = 0 /\
        (forall w, 0 <= w < n scenarioB_locked -> w <> 5 ->
                   vget (lockedBy t') w = vget (lockedBy scenarioB_locked) w) /\
        (forall a, anc (m scenarioB_locked) a 5 ->
                   vget (descLocked t') a
                   = int_add (vget (descLocked scenarioB_locked) a) (-1)) /\
        (forall a, anc (m scenarioB_locked) a 5 ->
                   - 2 ^ 31 < vget (descLocked scenarioB_locked) a < 2 ^ 31 ->
                   vget (descLocked t') a
                   = vget (descLocked scenarioB_locked) a - 1) /\
        (forall w, 0 <= w < n scenarioB_locked ->
                   ~ anc (m scenarioB_locked) w 5 ->
                   vget (descLocked t') w
                   = vget (descLocked scenarioB_locked) w)) /\
     (b = false -> t' = scenarioB_locked)).
Proof.
  assert (W : wf scenarioB_locked)
    by (constructor; cbn; first [lia | reflexivity]).
  split.
  - apply (C6_unlock_contract_any_caller scenarioB_locked 3 1 W). cbn; lia.
  - apply (C6_unlock_contract_any_caller scenarioB_locked 5 2 W). cbn; lia.
Defined.

(** ** The caller id 0 *)




(** ** The two implementations *)

(** C8, as stated, fails for long runs: the counters are [int]s.  In the
    tree of 7 nodes, after [Lock(3, 7); Unlock(4, 0); Lock(1, 7)] nodes 1
    and 3 are both locked by caller 7 and the counter of node 1 is 0;
    2^32 - 1 further calls [Unlock(4, 0)] take it once round to 1.
    [Upgrade(0, 7)] then releases node 1 in both programs, and node 3 in
    [Song_M] only, which also looks below a locked child with a positive
    counter. *)
Lemma C8_counterexample_wrapped_counter :
  exists bs1 t1 bs2 t2,
    MulSongsInt.run (MulSongs.newTreeLocker 7 2) longRun = Some (bs1, t1) /\
    SongMInt.run (SongM.newTreeLocker 7 2) longRun = Some (bs2, t2) /\
    vget (MulSongs.lockedBy t1) 3 = 7 /\
    vget (SongM.lockedBy t2) 3 = 0.
Proof.
  eexists. eexists. eexists. eexists.
  split; [exact longRun_result|]. split; [exact longRun_resultM|].
  split; reflexivity.
Qed.

(** C8, amended: for every (n, m) with m >= 1 and every finite sequence of
    Lock, Unlock and Upgrade operations on nodes in [0, n), executed one
    at a time from the initial state, which either is so short that n
    times its length is below 2^31 (with arbitrary caller ids), or in
    which every Lock and every Unlock has a caller id different from 0
    (and n + 1 < 2^31), the single-lock implementation of [mulSongs.cpp]
    and the per-node-mutex implementation of [Song_M] both return for
    every operation, return the same booleans, and end with the same
    owners and the same counters, and with every lock free.  The counters
    are [int]s. *)
Theorem C8_implementations_agree_bounded : forall N M os,
  1 <= M -> 0 <= N ->
  Forall (fun o => 0 <= op_node o < N) os ->
  N * Z.of_nat (length os) < 2 ^ 31 \/
  (Forall valid_caller os /\ N + 1 < 2 ^ 31) ->
  exists bs t1 t2,
    MulSongsInt.run (MulSongs.newTreeLocker N M) os = Some (bs, t1) /\
    SongMInt.run (SongM.newTreeLocker N M) os = Some (bs, t2) /\
    SongM.lockedBy t2 = MulSongs.lockedBy t1 /\
    SongM.descLocked t2 = MulSongs.descLocked t1 /\
    MulSongs.lock_flag t1 = 0 /\
    SongM.nodeMx t2 = assign N 0.
Proof.
  intros N M os HM HN Hr Hb.
  destruct (runs_from_new N M os HM HN Hr Hb) as [EI EIM].
  destruct (run_both os (newTreeLocker N M) (wf_new N M HM HN)
                     (harmless_new N M) Hr) as [bs [t [E EM]]].
  destruct (run_total os (newTreeLocker N M) (wf_new N M HM HN) Hr)
    as [bs' [t' [E' [W' [En _]]]]].
  rewrite E in E'. inversion E'; subst bs' t'.
  exists bs, t, (toM t). split; [rewrite EI; exact E|].
  split; [exact (eq_trans EIM EM)|].
  split; [reflexivity|]. split; [reflexivity|].
  split; [apply W'|]. cbn [toM SongM.nodeMx]. rewrite En. reflexivity.
Qed.

Lemma C8_witness :
  exists bs t1 t2,
    MulSongsInt.run (MulSongs.newTreeLocker 15 2)
      [Unlock 7 0; Lock 7 5; Lock 4 0; Lock 4 0; Upgrade 1 5; Lock 9 3;
       Upgrade 0 5; Unlock 0 5; Upgrade 3 5]
    = Some (bs, t1) /\
    SongMInt.run (SongM.newTreeLocker 15 2)
      [Unlock 7 0; Lock 7 5; Lock 4 0; Lock 4 0; Upgrade 1 5; Lock 9 3;
       Upgrade 0 5; Unlock 0 5; Upgrade 3 5]
    = Some (bs, t2) /\
    SongM.lockedBy t2 = MulSongs.lockedBy t1 /\
    SongM.descLocked t2 = MulSongs.descLocked t1 /\
    MulSongs.lock_flag t1 = 0 /\
    SongM.nodeMx t2 = assign 15 0.
Proof.
  apply (C8_implementations_agree_bounded 15 2);
    [lia | lia | repeat constructor; cbn; lia
     | left; vm_compute; reflexivity].
Defined.

(** ** Failed operations *)

(** C9: in every state s, for every operation op(v, uid) on a node in
    range: if the call returns false in s, the state after it is s, and the
    same call repeated at once returns false again and leaves s. *)
Theorem C9_idempotent_failure : forall t o t',
  wf t -> in_range t o ->
  step t o = Some (false, t') ->
  t' = t /\ step t' o = Some (false, t').
Proof.
  intros t o t' W Ho E.
  pose proof (step_false t o t' W Ho E) as ->. split; [reflexivity|exact E].
Qed.

Lemma C9_witness :
  exists t',
    step scenarioB_locked (Upgrade 1 2) = Some (false, t') /\
    t' = scenarioB_locked /\
    step t' (Upgrade 1 2) = Some (false, t').
Proof.
  exists scenarioB_locked.
  assert (E : step scenarioB_locked (Upgrade 1 2) = Some (false, scenarioB_locked))
    by (vm_compute; reflexivity).
  split; [exact E|].
  apply (C9_idempotent_failure scenarioB_locked (Upgrade 1 2) scenarioB_locked).
  - constructor; cbn; first [lia | reflexivity].
  - unfold in_range; cbn; lia.
  - exact E.
Defined.

(** ** Frame *)

(** C10: every Lock(v, uid) or Unlock(v, uid) call on a node in range,
    whether it returns true or false, leaves owner[w] unchanged for every
    node w different from v, and leaves descendant_lock_count[w] unchanged
    for every node w that is not a proper ancestor of v. *)
Theorem C10_lock_unlock_frame : forall t v uid o,
  wf t -> 0 <= v < n t ->
  o = Lock v uid \/ o = Unlock v uid ->
  exists b t',
    step t o = Some (b, t') /\
    (forall w, 0 <= w < n t -> w <> v ->
               vget (lockedBy t') w = vget (lockedBy t) w) /\
    (forall w, 0 <= w < n t -> ~ anc (m t) w v ->
               vget (descLocked t') w = vget (descLocked t) w).
Proof.
  intros t v uid o W Hv Ho. pose proof (wf_m t W) as HM.
  assert (F : forall u delta,
            (forall w, 0 <= w < n t -> w <> v ->
               vget (lockedBy (after t v u delta)) w = vget (lockedBy t) w) /\
            (forall w, 0 <= w < n t -> ~ anc (m t) w v ->
               vget (descLocked (after t v u delta)) w = vget (descLocked t) w)).
  { intros u delta. split.
    - intros w Hw Hne. rewrite after_lockedBy by (auto; lia).
      destruct (Z.eqb_spec w v); [contradiction|reflexivity].
    - intros w Hw A. rewrite after_descLocked by (auto; lia).
      apply ancb_false in A; [|exact HM]. rewrite A. lia. }
  destruct Ho as [-> | ->]; cbn [step].
  - rewrite lockNode_eq by assumption.
    destruct (lockable t v); eexists; eexists; (split; [reflexivity|]);
      [apply F | split; reflexivity].
  - rewrite unlockNode_eq by assumption.
    destruct (vget (lockedBy t) v =? uid); eexists; eexists;
      (split; [reflexivity|]); [apply F | split; reflexivity].
Qed.

Lemma C10_witness :
  exists b t',
    step scenarioB_locked (Unlock 4 1) = Some (b, t') /\
    (forall w, 0 <= w < n scenarioB_locked -> w <> 4 ->
               vget (lockedBy t') w = vget (lockedBy scenarioB_locked) w) /\
    (forall w, 0 <= w < n scenarioB_locked ->
               ~ anc (m scenarioB_locked) w 4 ->
               vget (descLocked t') w = vget (descLocked scenarioB_locked) w).
Proof.
  apply (C10_lock_unlock_frame scenarioB_locked 4 1 (Unlock 4 1)).
  - constructor; cbn; first [lia | reflexivity].
  - cbn; lia.
  - right; reflexivity.
Defined.

(* ================================================================== *)
(** * Further properties of the code *)
(* ================================================================== *)

(** ** The tree and the helpers of [TreeLocker] *)

Lemma root_anc : forall M w, 1 <= M -> 0 < w -> anc M 0 w.
Proof.
  intros M w HM. revert w.
  apply (node_ind M HM (fun w => 0 < w -> anc M 0 w)).
  - intros v Hv H. lia.
  - intros v Hv IH _.
    pose proof (parentOf_range M HM v Hv) as R.
    destruct (Z.eq_dec (parentOf M v) 0) as [E|E].
    + rewrite <- E. apply anc_parent. exact Hv.
    + apply anc_up; [exact Hv|]. apply IH. lia.
Qed.

Lemma TreeLocker_eq : forall t lb dl,
  lb = lockedBy t -> dl = descLocked t ->
  mkTL (n t) (m t) (parent t) lb dl (lock_flag t) = t.
Proof. intros [? ? ? ? ? ?] lb dl -> ->. reflexivity. Qed.

Lemma bump_bump : forall M d v d1 d2,
  1 <= M -> v <= Z.of_nat (length d) ->
  bump M (bump M d v d1) v d2 = bump M d v (d1 + d2).
Proof.
  intros M d v d1 d2 HM Hv. apply vec_ext.
  - rewrite !bump_length. reflexivity.
  - intros i Hi. rewrite !bump_get by (rewrite ?bump_length; auto; lia).
    destruct (ancb M i v); lia.
Qed.

Lemma bump_zero : forall M d v,
  1 <= M -> v <= Z.of_nat (length d) -> bump M d v 0 = d.
Proof.
  intros M d v HM Hv. apply vec_ext.
  - rewrite bump_length. reflexivity.
  - intros i Hi. rewrite bump_get by (auto; lia).
    destruct (ancb M i v); lia.
Qed.

Lemma bump_comm : forall M d u v d1 d2,
  1 <= M -> u <= Z.of_nat (length d) -> v <= Z.of_nat (length d) ->
  bump M (bump M d v d1) u d2 = bump M (bump M d u d2) v d1.
Proof.
  intros M d u v d1 d2 HM Hu Hv. apply vec_ext.
  - rewrite !bump_length. reflexivity.
  - intros i Hi. rewrite !bump_get by (rewrite ?bump_length; auto; lia).
    lia.
Qed.

Lemma vset_vset_back : forall l v x,
  0 <= v < Z.of_nat (length l) -> vset (vset l v x) v (vget l v) = l.
Proof.
  intros l v x Hv. apply vec_ext.
  - rewrite !vset_length. reflexivity.
  - intros i Hi. rewrite !vset_length in Hi.
    rewrite vget_vset by (rewrite ?vset_length; lia).
    destruct (Z.eqb_spec i v) as [->|Hne]; [reflexivity|].
    rewrite vget_vset_other by lia. reflexivity.
Qed.

(** X1: for m >= 1 and n >= 0 the constructor builds three vectors of
    length n, with every node unlocked, every counter 0 and the spin lock
    free; the root has the parent -1, every other node i has the parent
    (i - 1) / m, a smaller node, and the nodes with parent u are exactly
    u * m + 1, ..., u * m + m, the range that [upgradeNode] scans. *)
Theorem constructor_builds_tree : forall N M,
  1 <= M -> 0 <= N ->
  Z.of_nat (length (parent (newTreeLocker N M))) = N /\
  Z.of_nat (length (lockedBy (newTreeLocker N M))) = N /\
  Z.of_nat (length (descLocked (newTreeLocker N M))) = N /\
  lock_flag (newTreeLocker N M) = 0 /\
  (forall v, 0 <= v < N ->
     vget (lockedBy (newTreeLocker N M)) v = 0 /\
     vget (descLocked (newTreeLocker N M)) v = 0) /\
  (0 < N -> vget (parent (newTreeLocker N M)) 0 = -1) /\
  (forall i, 1 <= i < N ->
     vget (parent (newTreeLocker N M)) i = (i - 1) / M /\
     0 <= vget (parent (newTreeLocker N M)) i < i) /\
  (forall u c, 1 <= c < N ->
     (vget (parent (newTreeLocker N M)) c = u <->
      u * M + 1 <= c <= u * M + M)).
Proof.
  intros N M HM HN. cbn [newTreeLocker parent lockedBy descLocked lock_flag].
  change (fillParents (Z.to_nat (N - 1)) 1 M (assign N (-1)))
    with (parentTable N M).
  split; [apply parentTable_length; exact HN|].
  split; [apply assign_length; exact HN|].
  split; [apply assign_length; exact HN|].
  split; [reflexivity|].
  split; [intros v Hv; split; apply vget_assign; exact Hv|].
  split; [intros H0; rewrite parentTable_get by (auto; lia); reflexivity|].
  split.
  - intros i Hi. rewrite parentTable_get by (auto; lia).
    destruct (Z.eqb_spec i 0); [lia|].
    split; [reflexivity|]. apply parentOf_range; [exact HM|lia].
  - intros u c Hc. rewrite parentTable_get by (auto; lia).
    destruct (Z.eqb_spec c 0); [lia|]. apply parentOf_child. exact HM.
Qed.

Lemma constructor_builds_tree_witness :
  Z.of_nat (length (parent (newTreeLocker 7 2))) = 7 /\
  Z.of_nat (length (lockedBy (newTreeLocker 7 2))) = 7 /\
  Z.of_nat (length (descLocked (newTreeLocker 7 2))) = 7 /\
  lock_flag (newTreeLocker 7 2) = 0 /\
  (forall v, 0 <= v < 7 ->
     vget (lockedBy (newTreeLocker 7 2)) v = 0 /\
     vget (descLocked (newTreeLocker 7 2)) v = 0) /\
  (0 < 7 -> vget (parent (newTreeLocker 7 2)) 0 = -1) /\
  (forall i, 1 <= i < 7 ->
     vget (parent (newTreeLocker 7 2)) i = (i - 1) / 2 /\
     0 <= vget (parent (newTreeLocker 7 2)) i < i) /\
  (forall u c, 1 <= c < 7 ->
     (vget (parent (newTreeLocker 7 2)) c = u <->
      u * 2 + 1 <= c <= u * 2 + 2)).
Proof. apply (constructor_builds_tree 7 2); lia. Defined.

(** X2: [hasLockedAncestor(v)] returns, and returns true exactly when
    some proper ancestor of v is locked; for the root it returns false.
    [Song_M] has the same function. *)
Theorem hasLockedAncestor_correct : forall t v,
  wf t -> 0 <= v < n t ->
  exists b,
    hasLockedAncestor t v = Some b /\
    SongM.hasLockedAncestor (toM t) v = Some b /\
    (b = true <-> exists a, anc (m t) a v /\ vget (lockedBy t) a <> 0) /\
    (v = 0 -> b = false).
Proof.
  intros t v W Hv. pose proof (wf_m t W) as HM.
  exists (existsb (lockedb (lockedBy t)) (ancestors (m t) v)).
  split; [apply hasLockedAncestor_eq; assumption|].
  split.
  { unfold SongM.hasLockedAncestor, toM.
    cbn [SongM.n SongM.parent SongM.lockedBy].
    rewrite <- hasLockedAncestor_eq by assumption. reflexivity. }
  split.
  - rewrite existsb_exists. split.
    + intros [a [Ha La]]. exists a. split; [apply In_ancestors; assumption|].
      unfold lockedb in La. apply negb_true_iff in La.
      apply Z.eqb_neq in La. exact La.
    + intros [a [Ha La]]. exists a. split; [apply In_ancestors; assumption|].
      unfold lockedb. apply negb_true_iff. apply Z.eqb_neq. exact La.
  - intros ->. rewrite ancestors_nonpos by lia. reflexivity.
Qed.

Lemma hasLockedAncestor_correct_witness :
  exists b,
    hasLockedAncestor scenarioB_locked 3 = Some b /\
    SongM.hasLockedAncestor (toM scenarioB_locked) 3 = Some b /\
    (b = true <-> exists a, anc 2 a 3 /\ vget (lockedBy scenarioB_locked) a <> 0) /\
    (3 = 0 -> b = false).
Proof.
  apply (hasLockedAncestor_correct scenarioB_locked 3).
  - constructor; cbn; first [lia | reflexivity].
  - cbn; lia.
Defined.

(** X3: two calls of [updateAncestorDescLockCount] on the same node add
    up, so that +1 followed by -1 restores the counters exactly, a call
    with delta 0 changes nothing, and calls on two nodes commute. *)
Theorem counter_updates_compose : forall t u v d1 d2,
  wf t -> 0 <= u < n t -> 0 <= v < n t ->
  exists t',
    updateAncestorDescLockCount t v (d1 + d2) = Some t' /\
    (t1 <- updateAncestorDescLockCount t v d1 ;;
     updateAncestorDescLockCount t1 v d2) = Some t' /\
    (d1 + d2 = 0 -> t' = t) /\
    updateAncestorDescLockCount t v 0 = Some t /\
    (t1 <- updateAncestorDescLockCount t v d1 ;;
     updateAncestorDescLockCount t1 u d2)
    = (t1 <- updateAncestorDescLockCount t u d2 ;;
       updateAncestorDescLockCount t1 v d1).
Proof.
  intros t u v d1 d2 W Hu Hv.
  pose proof (wf_m t W) as HM. pose proof (wf_parent t W) as HP.
  pose proof (wf_descLocked t W) as HD.
  assert (U : forall w d, 0 <= w < n t ->
            forall dl, updateAncestorDescLockCount (set_descLocked t dl) w d
                       = Some (set_descLocked t (bump (m t) dl w d))).
  { intros w d Hw dl.
    rewrite updateAncestorDescLockCount_eq by (cbn; assumption).
    reflexivity. }
  assert (U0 : forall w d, 0 <= w < n t ->
            updateAncestorDescLockCount t w d
            = Some (set_descLocked t (bump (m t) (descLocked t) w d))).
  { intros w d Hw. apply updateAncestorDescLockCount_eq; assumption. }
  exists (set_descLocked t (bump (m t) (descLocked t) v (d1 + d2))).
  split; [apply U0; exact Hv|]. split; [|split; [|split]].
  - rewrite U0 by exact Hv. cbn [bind]. rewrite U by exact Hv.
    rewrite bump_bump by (auto; lia). reflexivity.
  - intros E. rewrite E, bump_zero by (auto; lia).
    destruct t; reflexivity.
  - rewrite U0 by exact Hv. rewrite bump_zero by (auto; lia).
    destruct t; reflexivity.
  - rewrite !U0 by assumption. cbn [bind]. rewrite !U by assumption.
    rewrite bump_comm by (auto; lia). reflexivity.
Qed.

Lemma counter_updates_compose_witness :
  exists t',
    updateAncestorDescLockCount scenarioB_locked 3 (1 + -1) = Some t' /\
    (t1 <- updateAncestorDescLockCount scenarioB_locked 3 1 ;;
     updateAncestorDescLockCount t1 3 (-1)) = Some t' /\
    (1 + -1 = 0 -> t' = scenarioB_locked) /\
    updateAncestorDescLockCount scenarioB_locked 3 0 = Some scenarioB_locked /\
    (t1 <- updateAncestorDescLockCount scenarioB_locked 3 1 ;;
     updateAncestorDescLockCount t1 6 (-1))
    = (t1 <- updateAncestorDescLockCount scenarioB_locked 6 (-1) ;;
       updateAncestorDescLockCount t1 3 1).
Proof.
  apply (counter_updates_compose scenarioB_locked 6 3 1 (-1)).
  - constructor; cbn; first [lia | reflexivity].
  - cbn; lia.
  - cbn; lia.
Defined.

(** ** How the operations compose *)

Lemma after_after_back : forall t v uid,
  wf t -> 0 <= v < n t ->
  after (after t v uid 1) v (vget (lockedBy t) v) (-1) = t.
Proof.
  intros t v uid W Hv. unfold after at 1.
  cbn [after n m parent lockedBy descLocked lock_flag].
  pose proof (wf_lockedBy t W). pose proof (wf_descLocked t W).
  rewrite bump_bump by (try apply W; lia).
  change (1 + -1) with 0. rewrite bump_zero by (try apply W; lia).
  rewrite vset_vset_back by lia. destruct t; reflexivity.
Qed.

Lemma after_after_forth : forall t v,
  wf t -> 0 <= v < n t ->
  after (after t v 0 (-1)) v (vget (lockedBy t) v) 1 = t.
Proof.
  intros t v W Hv. unfold after at 1.
  cbn [after n m parent lockedBy descLocked lock_flag].
  pose proof (wf_lockedBy t W). pose proof (wf_descLocked t W).
  rewrite bump_bump by (try apply W; lia).
  change (-1 + 1) with 0. rewrite bump_zero by (try apply W; lia).
  rewrite vset_vset_back by lia. destruct t; reflexivity.
Qed.

(** X4: in every state, a [lockNode(v, uid)] that succeeds is undone by
    [unlockNode(v, uid)]: the second call returns true and the state is
    exactly the one before the first call (for every caller id, 0
    included). *)
Theorem lock_then_unlock_restores : forall t v uid t',
  wf t -> 0 <= v < n t ->
  lockNode t v uid = Some (true, t') ->
  unlockNode t' v uid = Some (true, t).
Proof.
  intros t v uid t' W Hv E.
  rewrite lockNode_eq in E by assumption.
  destruct (lockable t v) eqn:EL; [|discriminate E].
  inversion E; subst t'; clear E.
  apply lockable_iff in EL; [|exact W]. destruct EL as [L0 _].
  rewrite unlockNode_eq by (try apply wf_after; assumption).
  rewrite after_lockedBy by (auto; lia). rewrite !Z.eqb_refl.
  pose proof (after_after_back t v uid W Hv) as B. rewrite L0 in B.
  rewrite B. reflexivity.
Qed.

Lemma lock_then_unlock_restores_witness :
  unlockNode (after scenarioB_locked 5 9 1) 5 9 = Some (true, scenarioB_locked).
Proof.
  apply (lock_then_unlock_restores scenarioB_locked 5 9).
  - constructor; cbn; first [lia | reflexivity].
  - cbn; lia.
  - vm_compute. reflexivity.
Defined.

Lemma consistent_locked_counter : forall t v,
  wf t -> consistent t -> 0 <= v < n t ->
  lockedb (lockedBy t) v = true -> vget (descLocked t) v = 0.
Proof.
  intros t v W [C1 C2] Hv L. rewrite (C2 v Hv).
  apply countZ_zero. intros w Hw. apply In_nodes in Hw.
  destruct (ancb (m t) v w) eqn:A; [|reflexivity]. cbn [andb].
  apply ancb_true in A; [|apply W].
  destruct (C1 v Hv L) as [_ D]. apply D; assumption.
Qed.

(** X5: in a state that satisfies I1 and I2, an [unlockNode(v, uid)] that
    succeeds for a caller other than 0 is undone by [lockNode(v, uid)]:
    the lock is granted again and the state is the one before the unlock. *)
Theorem unlock_then_lock_restores : forall t v uid t',
  wf t -> consistent t -> 0 <= v < n t -> uid <> 0 ->
  unlockNode t v uid = Some (true, t') ->
  lockNode t' v uid = Some (true, t).
Proof.
  intros t v uid t' W C Hv Hu E.
  rewrite unlockNode_eq in E by assumption.
  destruct (Z.eqb_spec (vget (lockedBy t) v) uid) as [Eo|]; [|discriminate E].
  inversion E; subst t'; clear E.
  assert (L : lockedb (lockedBy t) v = true).
  { unfold lockedb. rewrite Eo. apply negb_true_iff. apply Z.eqb_neq. exact Hu. }
  pose proof (wf_m t W) as HM.
  rewrite lockNode_eq by (try apply wf_after; assumption).
  assert (EL : lockable (after t v 0 (-1)) v = true).
  { apply lockable_iff; [apply wf_after; exact W|].
    change (m (after t v 0 (-1))) with (m t).
    split; [|split].
    - rewrite after_lockedBy by (auto; lia). rewrite Z.eqb_refl. reflexivity.
    - intros a A. pose proof (anc_range _ HM _ _ A).
      rewrite after_lockedb by (auto; lia).
      destruct (Z.eqb_spec a v); [lia|].
      destruct C as [C1 _]. destruct (C1 v Hv L) as [Up _]. apply Up. exact A.
    - rewrite after_descLocked by (auto; lia).
      assert (ancb (m t) v v = false)
        by (apply ancb_false; [exact HM|apply anc_irrefl; exact HM]).
      rewrite H. rewrite (consistent_locked_counter t v W C Hv L). reflexivity. }
  rewrite EL. pose proof (after_after_forth t v W Hv) as B. rewrite Eo in B.
  rewrite B. reflexivity.
Qed.

Lemma unlock_then_lock_restores_witness :
  lockNode (after scenarioB_locked 3 0 (-1)) 3 1 = Some (true, scenarioB_locked).
Proof.
  apply (unlock_then_lock_restores scenarioB_locked 3 1).
  - constructor; cbn; first [lia | reflexivity].
  - apply consistentb_true; [cbn; lia | vm_compute; reflexivity].
  - cbn; lia.
  - lia.
  - vm_compute. reflexivity.
Defined.

(** ** What a held lock excludes *)

(** X6: in a state that satisfies I1 and whose counters are not below the
    true counts, while a node v is locked every [lockNode] on v, on a
    descendant of v or on an ancestor of v returns false, for every
    caller, the owner included; so does every [upgradeNode] on v or on a
    descendant of v, and every [upgradeNode] on an ancestor of v by a
    caller other than the owner of v.  The state is unchanged. *)
Theorem held_lock_excludes : forall t v w uid',
  wf t -> sound t -> 0 <= v < n t -> 0 <= w < n t ->
  lockedb (lockedBy t) v = true ->
  (w = v \/ anc (m t) v w \/ anc (m t) w v) ->
  lockNode t w uid' = Some (false, t) /\
  ((w = v \/ anc (m t) v w \/ uid' <> vget (lockedBy t) v) ->
   upgradeNode t w uid' = Some (false, t)).
Proof.
  intros t v w uid' W S Hv Hw L Rel.
  pose proof (wf_m t W) as HM.
  assert (NL : w = v \/ anc (m t) v w -> upgradable t w = false /\ lockable t w = false).
  { intros R. split.
    - destruct (upgradable t w) eqn:EU; [|reflexivity]. exfalso.
      apply upgradable_iff in EU; [|exact W]. destruct EU as [U0 [UA _]].
      destruct R as [->|A].
      + unfold lockedb in L. rewrite U0 in L. discriminate L.
      + rewrite (UA v A) in L. discriminate L.
    - destruct (lockable t w) eqn:EL; [|reflexivity]. exfalso.
      apply lockable_iff in EL; [|exact W]. destruct EL as [U0 [UA _]].
      destruct R as [->|A].
      + unfold lockedb in L. rewrite U0 in L. discriminate L.
      + rewrite (UA v A) in L. discriminate L. }
  split.
  - rewrite lockNode_eq by assumption.
    destruct (lockable t w) eqn:EL; [|reflexivity]. exfalso.
    destruct Rel as [R|[R|A]]; try (destruct NL as [_ N]; auto; congruence).
    apply lockable_iff in EL; [|exact W]. destruct EL as [_ [_ D0]].
    destruct S as [_ Cv]. specialize (Cv w Hw).
    assert (0 < lockedBelow (m t) (n t) (lockedBy t) w).
    { apply (countZ_pos _ _ v); [apply In_nodes; exact Hv|].
      rewrite L, andb_true_r. apply ancb_true; assumption. }
    lia.
  - intros R.
    destruct (upgradeNode_eq t w uid' W Hw) as [b [Ls [HT E]]].
    rewrite E. destruct (upgradable t w) eqn:EU; [|reflexivity].
    destruct b; [|reflexivity]. exfalso.
    destruct R as [R|[R|Ne]]; try (destruct NL as [N _]; auto; congruence).
    destruct Rel as [R|[R|A]]; try (destruct NL as [N _]; auto; congruence).
    pose proof (traverse_complete t w uid' Ls W S Hw HT v A ltac:(lia) L) as Hin.
    destruct (traverse_true t w uid' Ls W Hw HT) as [_ [Own _]].
    destruct (Own v Hin) as [_ [_ [Ev _]]]. congruence.
Qed.

Lemma held_lock_excludes_witness :
  lockNode scenarioB_inflated 1 1 = Some (false, scenarioB_inflated) /\
  ((1 = 3 \/ anc 2 3 1 \/ 2 <> vget (lockedBy scenarioB_inflated) 3) ->
   upgradeNode scenarioB_inflated 1 2 = Some (false, scenarioB_inflated)).
Proof.
  assert (W : wf scenarioB_inflated)
    by (constructor; cbn; first [lia | reflexivity]).
  assert (S : sound scenarioB_inflated)
    by (apply soundb_true; [cbn; lia | vm_compute; reflexivity]).
  split.
  - apply (held_lock_excludes scenarioB_inflated 3 1 1 W S);
      [cbn; lia | cbn; lia | reflexivity | right; right; exact anc_2_1_3].
  - apply (held_lock_excludes scenarioB_inflated 3 1 2 W S);
      [cbn; lia | cbn; lia | reflexivity | right; right; exact anc_2_1_3].
Defined.

(** X7: no operation takes a lock away from another caller: in every
    state, when node v is locked and the caller of an operation is not the
    owner of v, the owner of v is the same after the operation. *)
Theorem locks_of_others_untouched : forall t o b t' v,
  wf t -> in_range t o -> 0 <= v < n t ->
  vget (lockedBy t) v <> 0 ->
  op_uid o <> vget (lockedBy t) v ->
  step t o = Some (b, t') ->
  vget (lockedBy t') v = vget (lockedBy t) v.
Proof.
  intros t o b t' v W Ho Hv L Ne E.
  destruct o as [w uid|w uid|w uid]; cbn [step op_uid] in *;
    unfold in_range in Ho; cbn [op_node] in Ho.
  - rewrite lockNode_eq in E by assumption.
    destruct (lockable t w) eqn:EL; inversion E; subst; [|reflexivity].
    apply lockable_iff in EL; [|exact W]. destruct EL as [L0 _].
    rewrite after_lockedBy by (auto; lia).
    destruct (Z.eqb_spec v w); [congruence|reflexivity].
  - rewrite unlockNode_eq in E by assumption.
    destruct (Z.eqb_spec (vget (lockedBy t) w) uid);
      inversion E; subst; [|reflexivity].
    rewrite after_lockedBy by (auto; lia).
    destruct (Z.eqb_spec v w); [congruence|reflexivity].
  - destruct (upgradeNode_eq t w uid W Ho) as [b' [Ls [HT E']]].
    rewrite E' in E.
    destruct (upgradable t w) eqn:EU; cbn [andb] in E;
      [destruct b'|]; inversion E; subst; try reflexivity.
    apply upgradable_iff in EU; [|exact W]. destruct EU as [L0 _].
    destruct (traverse_true t w uid Ls W Ho HT) as [_ [Own _]].
    rewrite upgraded_lockedBy; auto; try lia.
    + destruct (Z.eqb_spec v w); [congruence|].
      destruct (existsb (Z.eqb v) Ls) eqn:EM; [|reflexivity].
      apply mem_true in EM. destruct (Own v EM) as [_ [_ [Ev _]]]. congruence.
    + intros u Hu. apply (Own u Hu).
Qed.

Lemma locks_of_others_untouched_witness :
  vget (lockedBy (after scenarioB_locked 5 9 1)) 3
  = vget (lockedBy scenarioB_locked) 3.
Proof.
  apply (locks_of_others_untouched scenarioB_locked (Lock 5 9) true
                                   (after scenarioB_locked 5 9 1) 3).
  - constructor; cbn; first [lia | reflexivity].
  - unfold in_range; cbn; lia.
  - cbn; lia.
  - vm_compute. discriminate.
  - vm_compute. discriminate.
  - vm_compute. reflexivity.
Defined.

(** ** The root, and the number of locks *)

(** X8: in a state that satisfies I1 and I2, [lockNode] on the root
    succeeds exactly when no node of the tree is locked, and then changes
    no counter. *)
Theorem root_lock_iff_tree_unlocked : forall t uid,
  wf t -> consistent t -> 0 < n t ->
  exists b t',
    lockNode t 0 uid = Some (b, t') /\
    (b = true <-> forall w, 0 <= w < n t -> vget (lockedBy t) w = 0) /\
    (b = true -> descLocked t' = descLocked t).
Proof.
  intros t uid W C Hn. pose proof (wf_m t W) as HM.
  rewrite lockNode_eq by (auto; lia).
  assert (Q : lockable t 0 = true <->
              forall w, 0 <= w < n t -> vget (lockedBy t) w = 0).
  { rewrite lockable_iff by exact W. split.
    - intros [L0 [_ D0]] w Hw.
      destruct (Z.eq_dec w 0) as [->|Hne]; [exact L0|].
      destruct C as [_ C2]. rewrite (C2 0 ltac:(lia)) in D0.
      pose proof (lockedBelow_zero (n t) (m t) HM (lockedBy t) 0 D0 w Hw
                                   (root_anc (m t) w HM ltac:(lia))) as F.
      unfold lockedb in F. apply negb_false_iff in F.
      apply Z.eqb_eq in F. exact F.
    - intros A. split; [apply A; lia|]. split.
      + intros a An. pose proof (anc_range _ HM _ _ An). lia.
      + destruct C as [_ C2]. rewrite (C2 0 ltac:(lia)).
        apply countZ_zero. intros w Hw. apply In_nodes in Hw.
        unfold lockedb. rewrite (A w Hw). rewrite andb_false_r. reflexivity. }
  destruct (lockable t 0) eqn:EL.
  - exists true, (after t 0 uid 1). split; [reflexivity|].
    split; [split; [intros _; apply Q; reflexivity|reflexivity]|].
    intros _. cbn [after descLocked]. unfold bump.
    rewrite ancestors_nonpos by lia. reflexivity.
  - exists false, t. split; [reflexivity|].
    split; [|discriminate]. split; [discriminate|].
    intros A. apply Q in A. discriminate A.
Qed.

Lemma root_lock_iff_tree_unlocked_witness :
  exists b t',
    lockNode scenarioB_locked 0 4 = Some (b, t') /\
    (b = true <-> forall w, 0 <= w < 7 -> vget (lockedBy scenarioB_locked) w = 0) /\
    (b = true -> descLocked t' = descLocked scenarioB_locked).
Proof.
  apply (root_lock_iff_tree_unlocked scenarioB_locked 4).
  - constructor; cbn; first [lia | reflexivity].
  - apply consistentb_true; [cbn; lia | vm_compute; reflexivity].
  - cbn; lia.
Defined.

Lemma lockCount_after : forall t v uid delta,
  wf t -> 0 <= v < n t ->
  lockCount (after t v uid delta)
  = lockCount t + (if uid =? 0 then 0 else 1)
    - (if lockedb (lockedBy t) v then 1 else 0).
Proof.
  intros t v uid delta W Hv. unfold lockCount.
  change (n (after t v uid delta)) with (n t).
  assert (P : countZ (lockedb (lockedBy (after t v uid delta))) (nodes (n t))
              - (if lockedb (lockedBy (after t v uid delta)) v then 1 else 0)
              = countZ (lockedb (lockedBy t)) (nodes (n t))
                - (if lockedb (lockedBy t) v then 1 else 0)).
  { apply countZ_point.
    - apply NoDup_nodes.
    - apply In_nodes. exact Hv.
    - intros w Hw Hne. apply In_nodes in Hw.
      rewrite after_lockedb by (auto; lia).
      destruct (Z.eqb_spec w v); [contradiction|reflexivity]. }
  rewrite after_lockedb in P by (auto; lia). rewrite Z.eqb_refl in P.
  destruct (uid =? 0); cbn [negb] in P; lia.
Qed.

Lemma lockCount_afterAll : forall us t,
  wf t -> NoDup us ->
  (forall u, In u us -> 0 <= u < n t /\ lockedb (lockedBy t) u = true) ->
  lockCount (afterAll t us) = lockCount t - Z.of_nat (length us).
Proof.
  induction us as [|u us IH]; intros t W Hnd Hus.
  - cbn. lia.
  - rewrite afterAll_cons. inversion Hnd; subst.
    destruct (Hus u (or_introl eq_refl)) as [Hu Lu].
    rewrite IH.
    + rewrite lockCount_after by assumption. rewrite Lu.
      cbn [length Z.eqb]. lia.
    + apply wf_after. exact W.
    + assumption.
    + intros x Hx. destruct (Hus x (or_intror Hx)) as [Hxr Lx].
      change (n (after t u 0 (-1))) with (n t). split; [exact Hxr|].
      rewrite after_lockedb by (auto; lia).
      destruct (Z.eqb_spec x u); [subst; contradiction|exact Lx].
Qed.

(** X9: in a state that satisfies I1 and I2, an [upgradeNode(v, uid)] that
    succeeds replaces the descLocked[v] >= 1 locks below v by the one lock
    on v: the number of locks held in the tree goes from k to
    k - descLocked[v] + 1, so it never grows. *)
Theorem upgrade_merges_locks : forall t v uid t',
  wf t -> consistent t -> 0 <= v < n t ->
  upgradeNode t v uid = Some (true, t') ->
  1 <= vget (descLocked t) v /\
  lockCount t' = lockCount t - vget (descLocked t) v + 1 /\
  lockCount t' <= lockCount t.
Proof.
  intros t v uid t' W C Hv E. pose proof (wf_m t W) as HM.
  destruct (upgradeNode_eq t v uid W Hv) as [b [L [HT E']]].
  rewrite E' in E.
  destruct (upgradable t v) eqn:EU; cbn [andb] in E; [|discriminate E].
  destruct b; [|discriminate E]. inversion E; subst t'; clear E E'.
  destruct (upgrade_consistent t v uid L W C Hv EU HT) as [Hu _].
  destruct (traverse_exact t v uid L W (consistent_sound t C) Hv HT)
    as [Hnd [HL _]].
  assert (HLr : forall u, In u L -> 0 <= u < n t /\ lockedb (lockedBy t) u = true).
  { intros u Hin. apply HL in Hin. destruct Hin as [Hin Hb].
    apply In_nodes in Hin. apply andb_true_iff in Hb. tauto. }
  assert (Len : Z.of_nat (length L) = vget (descLocked t) v).
  { destruct C as [_ C2]. rewrite (C2 v Hv).
    pose proof (countZ_members (fun _ => true)
                  (fun x => ancb (m t) v x && lockedb (lockedBy t) x)
                  L (nodes (n t)) Hnd (NoDup_nodes _) HL) as CM.
    assert (A1 : countZ (fun _ : Z => true) L = Z.of_nat (length L)).
    { clear. induction L as [|x L IH]; cbn [countZ length]; [reflexivity|].
      rewrite Nat2Z.inj_succ. lia. }
    rewrite <- A1, CM. unfold lockedBelow. apply countZ_ext.
    intros w _. rewrite andb_true_r. reflexivity. }
  apply upgradable_iff in EU; [|exact W]. destruct EU as [L0 [_ D0]].
  assert (1 <= vget (descLocked t) v).
  { rewrite <- Len in *. lia. }
  split; [assumption|].
  assert (Q : lockCount (upgraded t v uid L)
              = lockCount t - vget (descLocked t) v + 1).
  { unfold upgraded.
    destruct (afterAll_static L t) as [En [Em _]].
    rewrite lockCount_after by (try apply wf_afterAll; try rewrite En; assumption).
    rewrite lockCount_afterAll by assumption.
    unfold lockedb at 1.
    rewrite afterAll_lockedBy by (auto; try lia; intros u Hin; apply HLr; exact Hin).
    rewrite L0. destruct (existsb (Z.eqb v) L); cbn [Z.eqb negb].
    + destruct (Z.eqb_spec uid 0); [contradiction|]. lia.
    + destruct (Z.eqb_spec uid 0); [contradiction|]. lia. }
  split; [exact Q|]. lia.
Qed.

Lemma upgrade_merges_locks_witness :
  1 <= vget (descLocked scenarioB_locked) 1 /\
  lockCount (upgraded scenarioB_locked 1 1 [3; 4])
  = lockCount scenarioB_locked - vget (descLocked scenarioB_locked) 1 + 1 /\
  lockCount (upgraded scenarioB_locked 1 1 [3; 4]) <= lockCount scenarioB_locked.
Proof.
  apply (upgrade_merges_locks scenarioB_locked 1 1).
  - constructor; cbn; first [lia | reflexivity].
  - apply consistentb_true; [cbn; lia | vm_compute; reflexivity].
  - cbn; lia.
  - vm_compute. reflexivity.
Defined.

(** X10: the counters cannot run away, whatever the callers are (0
    included): after k operations on nodes in range, every counter differs
    from its initial value 0 by at most n * k, so that no [int] counter
    overflows as long as n * k < 2^31. *)
Theorem counters_stay_in_int : forall N M os bs t y,
  1 <= M -> 0 <= N ->
  Forall (fun o => 0 <= op_node o < N) os ->
  run (newTreeLocker N M) os = Some (bs, t) ->
  0 <= y < N ->
  Z.abs (vget (descLocked t) y) <= N * Z.of_nat (length os) /\
  (N * Z.of_nat (length os) < 2 ^ 31 ->
   - 2 ^ 31 < vget (descLocked t) y < 2 ^ 31).
Proof.
  intros N M os bs t y HM HN Hr E Hy.
  pose proof (MulSongsBounds.run_counters_bounded os (newTreeLocker N M) bs t y
                (wf_new N M HM HN) Hr E Hy) as B.
  cbn [newTreeLocker n descLocked] in B.
  rewrite vget_assign in B by exact Hy.
  rewrite Z.sub_0_r in B. split; [exact B|]. intros F. lia.
Qed.

Lemma counters_stay_in_int_witness :
  Z.abs (vget [-1; -1; 0; 0; 0; 0; 0] 1) <= 7 * Z.of_nat (length [Unlock 3 0]) /\
  (7 * Z.of_nat (length [Unlock 3 0]) < 2 ^ 31 ->
   - 2 ^ 31 < vget [-1; -1; 0; 0; 0; 0; 0] 1 < 2 ^ 31).
Proof.
  apply (counters_stay_in_int 7 2 [Unlock 3 0] [true]
           (mkTL 7 2 (parentTable 7 2) [0; 0; 0; 0; 0; 0; 0]
                 [-1; -1; 0; 0; 0; 0; 0] 0) 1).
  - lia.
  - lia.
  - repeat constructor; cbn; lia.
  - vm_compute. reflexivity.
  - lia.
Defined.

(** ** [Song_M]: the paths and the mutexes *)

Module SongMLocking.
Import SongMFacts SongMUpgrade.

Lemma sorted_path : forall M v,
  1 <= M -> StronglySorted Z.gt (v :: ancestors M v).
Proof.
  intros M v HM. revert v.
  apply (node_ind M HM (fun v => StronglySorted Z.gt (v :: ancestors M v))).
  - intros v Hv. rewrite ancestors_nonpos by exact Hv.
    constructor; constructor.
  - intros v Hv IH. constructor.
    + rewrite ancestors_pos by assumption. exact IH.
    + apply Forall_forall. intros a Ha.
      apply In_ancestors in Ha; [|exact HM].
      pose proof (anc_range _ HM _ _ Ha). lia.
Qed.

Lemma getPathToRoot_withMx : forall t mx v includeSelf,
  wf t -> 0 <= v < n t ->
  SongM.getPathToRoot (withMx t mx) v includeSelf
  = Some ((if includeSelf then [v] else []) ++ ancestors (m t) v).
Proof.
  intros t mx v includeSelf W Hv. unfold SongM.getPathToRoot, withMx, toM.
  cbn [SongM.set_nodeMx SongM.n SongM.parent]. rewrite (wf_parent t W).
  pose proof (parentTable_next _ _ (wf_m t W) (wf_n t W) v Hv).
  rewrite getPathToRoot_loop_spec; [| apply W | apply W | lia | lia].
  rewrite upFrom_parent; [reflexivity | apply W | apply W | exact Hv].
Qed.

Lemma lockEach_blocked : forall ids mx locks,
  (forall x, In x ids -> 0 <= x) ->
  (exists x, In x ids /\ vget mx x <> 0) ->
  SongM.lockEach ids mx locks = None.
Proof.
  induction ids as [|id ids IH]; intros mx locks Hr [x [Hx Hh]].
  - destruct Hx.
  - cbn [SongM.lockEach].
    destruct (Z.eqb_spec (vget mx id) 0) as [E|E]; [|reflexivity].
    destruct Hx as [->|Hx]; [contradiction|].
    apply IH.
    + intros y Hy. apply Hr. right. exact Hy.
    + exists x. split; [exact Hx|].
      rewrite vget_vset_other; [exact Hh | | |].
      * apply Hr. left. reflexivity.
      * apply Hr. right. exact Hx.
      * intros ->. contradiction.
Qed.

Lemma acquire_general : forall mx nodes,
  (forall x, In x nodes -> 0 <= x < Z.of_nat (length mx) /\ vget mx x = 0) ->
  exists mx',
    SongM.lockEach (unique (sort nodes)) mx [] = Some (mx', unique (sort nodes)) /\
    length mx' = length mx /\
    (forall w, 0 <= w ->
       vget mx' w = if existsb (Z.eqb w) nodes then 1 else vget mx w) /\
    fold_left (fun mx id => vset mx id 0) (unique (sort nodes)) mx' = mx.
Proof.
  intros mx nodes H.
  assert (H' : forall x, In x (unique (sort nodes)) ->
                 0 <= x < Z.of_nat (length mx) /\ vget mx x = 0).
  { intros x Hx. apply H. apply In_unique_sort. exact Hx. }
  assert (M : forall w, existsb (Z.eqb w) (unique (sort nodes))
                        = existsb (Z.eqb w) nodes).
  { intros w. destruct (existsb (Z.eqb w) nodes) eqn:E.
    - apply mem_true. apply In_unique_sort. apply mem_true. exact E.
    - apply mem_false. rewrite In_unique_sort. apply mem_false. exact E. }
  rewrite lockEach_ok; [| apply NoDup_unique_sort | exact H'].
  eexists. split; [reflexivity|].
  assert (G : forall w, 0 <= w ->
            vget (fold_left (fun mx id => vset mx id 1) (unique (sort nodes)) mx) w
            = if existsb (Z.eqb w) nodes then 1 else vget mx w).
  { intros w Hw. rewrite fold_vset_get; [rewrite M; reflexivity| |exact Hw].
    intros x Hx. apply H'. exact Hx. }
  split; [apply fold_vset_length|]. split; [exact G|].
  apply vec_ext.
  - rewrite !fold_vset_length. reflexivity.
  - intros i Hi. rewrite !fold_vset_length in Hi.
    rewrite fold_vset_get;
      [| intros x Hx; rewrite fold_vset_length; apply H'; exact Hx | lia].
    rewrite M. rewrite G by lia.
    destruct (existsb (Z.eqb i) nodes) eqn:E; [|reflexivity].
    apply mem_true in E. symmetry. apply H. exact E.
Qed.

Lemma acquireLocks_withMx : forall t mx nodes,
  (forall x, In x nodes -> 0 <= x < Z.of_nat (length mx) /\ vget mx x = 0) ->
  exists mx',
    SongM.acquireLocks (withMx t mx) nodes []
    = Some (withMx t mx', unique (sort nodes)) /\
    SongM.releaseLocks (withMx t mx') (unique (sort nodes)) = withMx t mx /\
    (forall w, 0 <= w ->
       vget mx' w = if existsb (Z.eqb w) nodes then 1 else vget mx w).
Proof.
  intros t mx nodes H.
  destruct (acquire_general mx nodes H) as [mx' [E [_ [G R]]]].
  exists mx'. split; [|split; [|exact G]].
  - unfold SongM.acquireLocks, withMx. fieldsM. rewrite E. reflexivity.
  - unfold SongM.releaseLocks, withMx. fieldsM. rewrite R. reflexivity.
Qed.

Lemma acquireLocks_blocked : forall t mx nodes,
  (forall x, In x nodes -> 0 <= x) ->
  (exists x, In x nodes /\ vget mx x <> 0) ->
  SongM.acquireLocks (withMx t mx) nodes [] = None.
Proof.
  intros t mx nodes Hr [x [Hx Hh]].
  unfold SongM.acquireLocks, withMx. fieldsM.
  rewrite lockEach_blocked; [reflexivity| |].
  - intros y Hy. apply Hr. apply In_unique_sort. exact Hy.
  - exists x. split; [apply In_unique_sort; exact Hx|exact Hh].
Qed.

Lemma path_free : forall t mx v,
  wf t -> Z.of_nat (length mx) = n t -> 0 <= v < n t ->
  (forall x, x = v \/ anc (m t) x v -> vget mx x = 0) ->
  forall x, In x (v :: ancestors (m t) v) ->
            0 <= x < Z.of_nat (length mx) /\ vget mx x = 0.
Proof.
  intros t mx v W Hl Hv F x Hx. rewrite Hl.
  split; [exact (path_in_range t v x W Hv Hx)|].
  apply F. destruct Hx as [<-|Hx]; [left; reflexivity|].
  right. apply In_ancestors in Hx; [exact Hx|apply W].
Qed.

Lemma release_withMx : forall t t' mx mx' locks,
  SongM.releaseLocks (withMx t mx') locks = withMx t mx ->
  SongM.releaseLocks (withMx t' mx') locks = withMx t' mx.
Proof.
  intros t t' mx mx' locks R. unfold SongM.releaseLocks, withMx in *.
  fieldsM. cbn [SongM.set_nodeMx SongM.nodeMx toM] in *.
  inversion R as [R']. rewrite R'. reflexivity.
Qed.

Lemma addToAncestors_withMx : forall t mx v uid delta,
  wf t -> 0 <= v < n t ->
  SongM.addToAncestors
    (SongM.set_lockedBy (withMx t mx) (vset (lockedBy t) v uid)) v delta
  = Some (withMx (after t v uid delta) mx).
Proof.
  intros t mx v uid delta W Hv.
  unfold SongM.set_lockedBy, SongM.set_nodeMx, withMx, after, toM. fieldsM.
  cbn [n m parent lockedBy descLocked].
  rewrite (wf_parent t W).
  apply addToAncestors_eq; [apply W | apply W | exact Hv].
Qed.

Lemma lockNode_withMx : forall t mx v uid,
  wf t -> Z.of_nat (length mx) = n t -> 0 <= v < n t ->
  (forall x, x = v \/ anc (m t) x v -> vget mx x = 0) ->
  SongM.lockNode (withMx t mx) v uid
  = Some (if lockable t v then (true, withMx (after t v uid 1) mx)
          else (false, withMx t mx)).
Proof.
  intros t mx v uid W Hl Hv F. unfold SongM.lockNode.
  rewrite (getPathToRoot_withMx t mx v true W Hv). cbn [bind app].
  destruct (acquireLocks_withMx t mx _ (path_free t mx v W Hl Hv F))
    as [mx' [E [R _]]].
  rewrite E. cbn [bind].
  unfold withMx at 3. rewrite (hasLockedAncestorM_eq t mx' v W Hv).
  pose proof (release_withMx t (after t v uid 1) mx mx' _ R) as R1.
  change (SongM.lockedBy (withMx t mx')) with (lockedBy t).
  change (SongM.descLocked (withMx t mx')) with (descLocked t).
  unfold lockable.
  destruct (vget (lockedBy t) v =? 0); cbn [negb andb bind];
    [|rewrite R; reflexivity].
  destruct (existsb (lockedb (lockedBy t)) (ancestors (m t) v));
    cbn [negb andb]; [rewrite R; reflexivity|].
  destruct (vget (descLocked t) v =? 0); cbn [negb andb];
    [|rewrite R; reflexivity].
  rewrite addToAncestors_withMx by assumption. cbn [bind].
  rewrite R1. reflexivity.
Qed.

Lemma unlockNode_withMx : forall t mx v uid,
  wf t -> Z.of_nat (length mx) = n t -> 0 <= v < n t ->
  (forall x, x = v \/ anc (m t) x v -> vget mx x = 0) ->
  SongM.unlockNode (withMx t mx) v uid
  = Some (if vget (lockedBy t) v =? uid
          then (true, withMx (after t v 0 (-1)) mx)
          else (false, withMx t mx)).
Proof.
  intros t mx v uid W Hl Hv F. unfold SongM.unlockNode.
  rewrite (getPathToRoot_withMx t mx v true W Hv). cbn [bind app].
  destruct (acquireLocks_withMx t mx _ (path_free t mx v W Hl Hv F))
    as [mx' [E [R _]]].
  rewrite E. cbn [bind].
  pose proof (release_withMx t (after t v 0 (-1)) mx mx' _ R) as R1.
  change (SongM.lockedBy (withMx t mx')) with (lockedBy t).
  destruct (vget (lockedBy t) v =? uid); cbn [negb];
    [|rewrite R; reflexivity].
  rewrite addToAncestors_withMx by assumption. cbn [bind].
  rewrite R1. reflexivity.
Qed.

Lemma consistent_harmless : forall t, wf t -> consistent t -> harmlessT t.
Proof.
  intros t W C w Hw L P. exfalso.
  assert (Hr : 0 <= w < n t).
  { split; [exact Hw|]. destruct (Z.lt_ge_cases w (n t)) as [|Hge]; [assumption|].
    unfold lockedb, vget in L. rewrite nth_overflow in L; [discriminate L|].
    pose proof (wf_lockedBy t W). lia. }
  pose proof (consistent_locked_counter t w W C Hr L) as D0.
  unfold pushMb in P. rewrite D0 in P. discriminate P.
Qed.

Lemma upgradeNode_withMx : forall t mx v uid b L,
  wf t -> harmlessT t -> Z.of_nat (length mx) = n t -> 0 <= v < n t ->
  (forall x, x = v \/ anc (m t) x v -> vget mx x = 0) ->
  (forall x, 0 <= x < n t -> anc (m t) v x ->
             lockedb (lockedBy t) x = true -> vget mx x = 0) ->
  traverse t v uid = Some (b, L) ->
  SongM.upgradeNode (withMx t mx) v uid
  = Some (if upgradable t v && b
          then (true, withMx (upgraded t v uid L) mx)
          else (false, withMx t mx)).
Proof.
  intros t mx v uid b L W HJ Hl Hv F FD HT. unfold SongM.upgradeNode.
  rewrite (getPathToRoot_withMx t mx v true W Hv). cbn [bind app].
  destruct (acquireLocks_withMx t mx _ (path_free t mx v W Hl Hv F))
    as [mx' [E [R _]]].
  rewrite E. cbn [bind].
  rewrite (cannotUpgrade_eq t mx' v W Hv
           : SongM.cannotUpgrade (withMx t mx') v = _). cbn [bind].
  destruct (upgradable t v) eqn:EU; cbn [negb andb]; [|rewrite R; reflexivity].
  destruct (collectLockedDescendants_eq t mx' v uid b L W HJ Hv HT)
    as [L' [EC EL]].
  change (SongM.set_nodeMx (toM t) mx') with (withMx t mx') in EC.
  rewrite EC. cbn [bind].
  destruct b; cbn [negb]; [|rewrite R; reflexivity].
  rewrite (EL eq_refl). rewrite R.
  destruct (traverse_true t v uid L W Hv HT) as [Hnd [HL _]].
  assert (Hall : forall x, In x (v :: ancestors (m t) v ++ L) ->
                   0 <= x < Z.of_nat (length mx) /\ vget mx x = 0).
  { intros x Hx. change (In x ((v :: ancestors (m t) v) ++ L)) in Hx.
    apply in_app_or in Hx. destruct Hx as [Hx|Hx].
    - exact (path_free t mx v W Hl Hv F x Hx).
    - destruct (HL x Hx) as [A [Hr [_ Lx]]]. rewrite Hl. split; [exact Hr|].
      apply FD; assumption. }
  destruct (acquireLocks_withMx t mx _ Hall) as [mx2 [E2 [R2 _]]].
  rewrite E2. cbn [bind].
  rewrite (cannotUpgrade_eq t mx2 v W Hv
           : SongM.cannotUpgrade (withMx t mx2) v = _), EU.
  cbn [bind negb].
  destruct (collectLockedDescendants_eq t mx2 v uid true L W HJ Hv HT)
    as [L2 [EC2 EL2]].
  change (SongM.set_nodeMx (toM t) mx2) with (withMx t mx2) in EC2.
  rewrite EC2. cbn [bind negb]. rewrite (EL2 eq_refl).
  assert (EU2 : SongM.unlockAll (withMx t mx2) uid L
                = Some (withMx (afterAll t L) mx2)).
  { apply unlockAllM_eq; [exact W | exact Hnd |].
    intros u Hu. destruct (HL u Hu) as [_ [? [? _]]]. auto. }
  rewrite EU2. cbn [bind].
  destruct (afterAll_static L t) as [E1 _].
  change (SongM.lockedBy (withMx (afterAll t L) mx2))
    with (lockedBy (afterAll t L)).
  rewrite addToAncestors_withMx by (try apply wf_afterAll; try rewrite E1; assumption).
  cbn [bind].
  rewrite (release_withMx t (after (afterAll t L) v uid 1) mx mx2 _ R2).
  reflexivity.
Qed.

End SongMLocking.

Import SongMFacts SongMUpgrade SongMLocking.

(** X11: [getPathToRoot(v, true)] returns v followed by its proper
    ancestors, nearest first: a strictly decreasing list that ends at the
    root and has at most n entries; with [includeSelf] false the same list
    without v. *)
Theorem getPathToRoot_correct : forall t mx v,
  wf t -> 0 <= v < n t ->
  exists path,
    SongM.getPathToRoot (withMx t mx) v true = Some (v :: path) /\
    SongM.getPathToRoot (withMx t mx) v false = Some path /\
    (forall a, In a path <-> anc (m t) a v) /\
    StronglySorted Z.gt (v :: path) /\
    last (v :: path) 0 = 0 /\
    Z.of_nat (length (v :: path)) <= n t.
Proof.
  intros t mx v W Hv. pose proof (wf_m t W) as HM.
  exists (ancestors (m t) v).
  split; [apply (getPathToRoot_withMx t mx v true W Hv)|].
  split; [apply (getPathToRoot_withMx t mx v false W Hv)|].
  split; [intros a; apply In_ancestors; exact HM|].
  split; [apply sorted_path; exact HM|].
  split.
  - revert v Hv.
    apply (node_ind (m t) HM
             (fun v => 0 <= v < n t -> last (v :: ancestors (m t) v) 0 = 0)).
    + intros v Hv0 Hv. rewrite ancestors_nonpos by exact Hv0. cbn. lia.
    + intros v Hv0 IH Hv. rewrite ancestors_pos by assumption.
      pose proof (parentOf_range (m t) HM v Hv0).
      change (last (parentOf (m t) v :: ancestors (m t) (parentOf (m t) v)) 0 = 0).
      apply IH. lia.
  - assert (ND : NoDup (v :: ancestors (m t) v)).
    { constructor; [|apply NoDup_ancestors; exact HM].
      intros Hin. apply In_ancestors in Hin; [|exact HM].
      exact (anc_irrefl _ HM _ Hin). }
    assert (IN : incl (v :: ancestors (m t) v) (nodes (n t))).
    { intros x Hx. apply In_nodes. exact (path_in_range t v x W Hv Hx). }
    pose proof (NoDup_incl_length ND IN) as Len.
    unfold nodes in Len. rewrite length_map, length_seq in Len. lia.
Qed.

Lemma getPathToRoot_correct_witness :
  exists path,
    SongM.getPathToRoot (withMx scenarioB_locked [0; 1; 0; 0; 0; 0; 1]) 4 true
    = Some (4 :: path) /\
    SongM.getPathToRoot (withMx scenarioB_locked [0; 1; 0; 0; 0; 0; 1]) 4 false
    = Some path /\
    (forall a, In a path <-> anc 2 a 4) /\
    StronglySorted Z.gt (4 :: path) /\
    last (4 :: path) 0 = 0 /\
    Z.of_nat (length (4 :: path)) <= 7.
Proof.
  apply (getPathToRoot_correct scenarioB_locked [0; 1; 0; 0; 0; 0; 1] 4).
  - constructor; cbn; first [lia | reflexivity].
  - cbn; lia.
Defined.

(** X12: [acquireLocks] takes the mutexes of the nodes it is given in
    strictly increasing order of node index, each one once even when the
    list names a node twice.  When these mutexes are free it returns, holds
    exactly them, leaves the other mutexes as they were, and destroying
    the locks restores the mutexes; when one of them is held it does not
    return. *)
Theorem acquireLocks_ordered : forall t mx nodes,
  (forall x, In x nodes -> 0 <= x < Z.of_nat (length mx)) ->
  ((forall x, In x nodes -> vget mx x = 0) ->
   exists mx' locks,
     SongM.acquireLocks (withMx t mx) nodes [] = Some (withMx t mx', locks) /\
     StronglySorted Z.lt locks /\
     (forall x, In x locks <-> In x nodes) /\
     (forall w, 0 <= w ->
        vget mx' w = if existsb (Z.eqb w) nodes then 1 else vget mx w) /\
     SongM.releaseLocks (withMx t mx') locks = withMx t mx) /\
  ((exists x, In x nodes /\ vget mx x <> 0) ->
   SongM.acquireLocks (withMx t mx) nodes [] = None).
Proof.
  intros t mx nodes Hr. split.
  - intros Hf.
    destruct (acquireLocks_withMx t mx nodes
                (fun x Hx => conj (Hr x Hx) (Hf x Hx))) as [mx' [E [R G]]].
    exists mx', (unique (sort nodes)).
    split; [exact E|]. split; [apply unique_sorted; apply sort_sorted|].
    split; [intros x; apply In_unique_sort|]. split; [exact G|exact R].
  - intros Hh. apply acquireLocks_blocked; [|exact Hh].
    intros x Hx. apply Hr. exact Hx.
Qed.

Lemma acquireLocks_ordered_witness :
  ((forall x, In x [4; 1; 0; 4; 3] -> vget [0; 0; 1; 0; 0; 0; 0] x = 0) ->
   exists mx' locks,
     SongM.acquireLocks (withMx scenarioB_locked [0; 0; 1; 0; 0; 0; 0])
                        [4; 1; 0; 4; 3] []
     = Some (withMx scenarioB_locked mx', locks) /\
     StronglySorted Z.lt locks /\
     (forall x, In x locks <-> In x [4; 1; 0; 4; 3]) /\
     (forall w, 0 <= w ->
        vget mx' w = if existsb (Z.eqb w) [4; 1; 0; 4; 3] then 1
                     else vget [0; 0; 1; 0; 0; 0; 0] w) /\
     SongM.releaseLocks (withMx scenarioB_locked mx') locks
     = withMx scenarioB_locked [0; 0; 1; 0; 0; 0; 0]) /\
  ((exists x, In x [4; 1; 0; 4; 3] /\ vget [0; 0; 1; 0; 0; 0; 0] x <> 0) ->
   SongM.acquireLocks (withMx scenarioB_locked [0; 0; 1; 0; 0; 0; 0])
                      [4; 1; 0; 4; 3] [] = None).
Proof.
  apply (acquireLocks_ordered scenarioB_locked [0; 0; 1; 0; 0; 0; 0]
                              [4; 1; 0; 4; 3]).
  intros x Hx. cbn in Hx. cbn [length]. lia.
Defined.

(** X13: in a state that satisfies I1 and I2, [collectLockedDescendants(v,
    uid)] returns; it reports a foreign lock exactly when some locked node
    below v is not locked by uid, and otherwise its candidates are exactly
    the locked nodes below v, each one once. *)
Theorem collectLockedDescendants_correct : forall t mx v uid,
  wf t -> consistent t -> 0 <= v < n t ->
  exists foreignLockFound candidates,
    SongM.collectLockedDescendants (withMx t mx) v uid []
    = Some (foreignLockFound, candidates) /\
    (foreignLockFound = true <->
     exists x, 0 <= x < n t /\ anc (m t) v x /\
               vget (lockedBy t) x <> 0 /\ vget (lockedBy t) x <> uid) /\
    (foreignLockFound = false ->
     NoDup candidates /\
     forall x, In x candidates <->
               0 <= x < n t /\ anc (m t) v x /\ vget (lockedBy t) x <> 0).
Proof.
  intros t mx v uid W C Hv. pose proof (wf_m t W) as HM.
  assert (LK : forall x, lockedb (lockedBy t) x = true <-> vget (lockedBy t) x <> 0).
  { intros x. unfold lockedb. rewrite negb_true_iff, Z.eqb_neq. reflexivity. }
  destruct (traverse_total t v uid W Hv) as [b [L HT]].
  destruct (collectLockedDescendants_eq t mx v uid b L W
              (consistent_harmless t W C) Hv HT) as [L' [EC EL]].
  exists (negb b), L'. split; [exact EC|].
  destruct b; cbn [negb].
  - rewrite (EL eq_refl).
    destruct (traverse_exact t v uid L W (consistent_sound t C) Hv HT)
      as [Hnd [HL HO]].
    assert (HL' : forall x, In x L <->
                    0 <= x < n t /\ anc (m t) v x /\ vget (lockedBy t) x <> 0).
    { intros x. rewrite HL, In_nodes, andb_true_iff, ancb_true, LK by exact HM.
      tauto. }
    split.
    + split; [discriminate|]. intros [x [Hx [A [Lx Fx]]]]. exfalso.
      apply Fx. apply HO. apply HL'. tauto.
    + intros _. split; [exact Hnd|exact HL'].
  - split; [|discriminate]. split; [|reflexivity]. intros _.
    destruct (traverse_false t v uid L W Hv HT) as [x [A [Hx [Lx Fx]]]].
    pose proof (anc_range _ HM _ _ A).
    exists x. split; [lia|]. split; [exact A|]. split; [apply LK; exact Lx|exact Fx].
Qed.

Lemma collectLockedDescendants_correct_witness :
  exists foreignLockFound candidates,
    SongM.collectLockedDescendants (withMx scenarioB_locked [0; 0; 0; 0; 0; 0; 0])
                                   0 1 []
    = Some (foreignLockFound, candidates) /\
    (foreignLockFound = true <->
     exists x, 0 <= x < 7 /\ anc 2 0 x /\
               vget (lockedBy scenarioB_locked) x <> 0 /\
               vget (lockedBy scenarioB_locked) x <> 1) /\
    (foreignLockFound = false ->
     NoDup candidates /\
     forall x, In x candidates <->
               0 <= x < 7 /\ anc 2 0 x /\ vget (lockedBy scenarioB_locked) x <> 0).
Proof.
  apply (collectLockedDescendants_correct scenarioB_locked
           [0; 0; 0; 0; 0; 0; 0] 0 1).
  - constructor; cbn; first [lia | reflexivity].
  - apply consistentb_true; [cbn; lia | vm_compute; reflexivity].
  - cbn; lia.
Defined.

(** X14: an operation of [Song_M] depends on the mutexes of its own
    footprint only: the node, its ancestors and, for an upgrade, the
    locked nodes below.  In a state that satisfies I1 and I2, when these
    are free the operation returns what the operation of [mulSongs.cpp]
    returns and leaves every mutex as it was, whichever other mutexes are
    held; when the mutex of the node or of one of its ancestors is held,
    the operation does not return. *)
Theorem song_m_takes_only_its_footprint : forall t mx o,
  wf t -> consistent t -> Z.of_nat (length mx) = n t -> in_range t o ->
  ((forall x, footprint t o x -> vget mx x = 0) ->
   exists b t',
     step t o = Some (b, t') /\
     SongM.step (withMx t mx) o = Some (b, withMx t' mx)) /\
  ((exists x, (x = op_node o \/ anc (m t) x (op_node o)) /\ vget mx x <> 0) ->
   SongM.step (withMx t mx) o = None).
Proof.
  intros t mx o W C Hl Ho. pose proof (wf_m t W) as HM. split.
  - intros F.
    assert (FP : forall x, x = op_node o \/ anc (m t) x (op_node o) ->
                           vget mx x = 0).
    { intros x Hx. apply F. unfold footprint. tauto. }
    destruct o as [v uid|v uid|v uid]; unfold in_range in Ho;
      cbn [op_node step SongM.step] in *.
    + rewrite lockNode_eq, lockNode_withMx by assumption.
      destruct (lockable t v); eexists; eexists; split; reflexivity.
    + rewrite unlockNode_eq, unlockNode_withMx by assumption.
      destruct (vget (lockedBy t) v =? uid); eexists; eexists; split; reflexivity.
    + destruct (upgradeNode_eq t v uid W Ho) as [b [L [HT E]]].
      rewrite E.
      rewrite (upgradeNode_withMx t mx v uid b L W (consistent_harmless t W C)
                                  Hl Ho FP); [| |exact HT].
      * destruct (upgradable t v && b); eexists; eexists; split; reflexivity.
      * intros x Hx A Lx. apply F. unfold footprint. right. right. tauto.
  - intros [x [Hx Hh]].
    assert (Hp : In x (op_node o :: ancestors (m t) (op_node o))).
    { destruct Hx as [->|A]; [left; reflexivity|right].
      apply In_ancestors; assumption. }
    assert (B : SongM.acquireLocks (withMx t mx)
                  (op_node o :: ancestors (m t) (op_node o)) [] = None).
    { apply acquireLocks_blocked.
      - intros y Hy. pose proof (path_in_range t _ y W Ho Hy). lia.
      - exists x. split; assumption. }
    destruct o as [v uid|v uid|v uid]; unfold in_range in Ho;
      cbn [op_node step SongM.step] in *.
    + unfold SongM.lockNode.
      rewrite (getPathToRoot_withMx t mx v true W Ho). cbn [bind app].
      rewrite B. reflexivity.
    + unfold SongM.unlockNode.
      rewrite (getPathToRoot_withMx t mx v true W Ho). cbn [bind app].
      rewrite B. reflexivity.
    + unfold SongM.upgradeNode.
      rewrite (getPathToRoot_withMx t mx v true W Ho). cbn [bind app].
      rewrite B. reflexivity.
Qed.

Lemma song_m_takes_only_its_footprint_witness :
  ((forall x, footprint scenarioB_locked (Upgrade 1 1) x ->
              vget [0; 0; 1; 0; 0; 1; 1] x = 0) ->
   exists b t',
     step scenarioB_locked (Upgrade 1 1) = Some (b, t') /\
     SongM.step (withMx scenarioB_locked [0; 0; 1; 0; 0; 1; 1]) (Upgrade 1 1)
     = Some (b, withMx t' [0; 0; 1; 0; 0; 1; 1])) /\
  ((exists x, (x = op_node (Upgrade 1 1) \/ anc 2 x (op_node (Upgrade 1 1))) /\
              vget [0; 0; 1; 0; 0; 1; 1] x <> 0) ->
   SongM.step (withMx scenarioB_locked [0; 0; 1; 0; 0; 1; 1]) (Upgrade 1 1)
   = None).
Proof.
  apply (song_m_takes_only_its_footprint scenarioB_locked
           [0; 0; 1; 0; 0; 1; 1] (Upgrade 1 1)).
  - constructor; cbn; first [lia | reflexivity].
  - apply consistentb_true; [cbn; lia | vm_compute; reflexivity].
  - reflexivity.
  - unfold in_range; cbn; lia.
Defined.

(** ** [mulSongs.cpp]: the queue between [main] and the worker *)

Module QueueFacts.
Import MulSongsMain.

Lemma firstn_snoc : forall (A : Type) (l : list A) k d,
  (k < length l)%nat -> firstn (S k) l = firstn k l ++ [nth k l d].
Proof.
  induction l as [|x l IH]; intros k d Hk; [cbn in Hk; lia|].
  destruct k as [|k]; [reflexivity|].
  change (x :: firstn (S k) l = x :: (firstn k l ++ [nth k l d])).
  f_equal. apply IH. cbn in Hk. lia.
Qed.

Lemma firstn_app_left : forall (A : Type) (l1 l2 : list A) k,
  (k <= length l1)%nat -> firstn k (l1 ++ l2) = firstn k l1.
Proof.
  intros A l1 l2 k Hk. rewrite firstn_app.
  replace (k - length l1)%nat with O by lia.
  cbn [firstn]. apply app_nil_r.
Qed.

Lemma push_eq : forall s q,
  spinlock s = 0 -> push s q = Some (mkQueue (data s ++ [q]) (head s) 0).
Proof.
  intros s q E. unfold push, q_lock. rewrite E. reflexivity.
Qed.

Lemma pop_eq : forall s q,
  spinlock s = 0 ->
  pop s q
  = Some (if head s <? Z.of_nat (length (data s))
          then (true, nth (Z.to_nat (head s)) (data s) q,
                mkQueue (data s) (head s + 1) 0)
          else (false, q, s)).
Proof.
  intros s q E. unfold pop, q_lock. rewrite E. cbn [Z.eqb bind data head].
  destruct (head s <? Z.of_nat (length (data s))); [reflexivity|].
  unfold q_unlock. cbn [data head]. destruct s as [d h f]. cbn in E.
  subst f. reflexivity.
Qed.

Lemma queueRun_spec : forall ops s,
  spinlock s = 0 -> 0 <= head s <= Z.of_nat (length (data s)) ->
  exists popped s',
    queueRun s ops = Some (popped, s') /\
    data s' = data s ++ pushed ops /\
    head s' = head s + Z.of_nat (length popped) /\
    head s' <= Z.of_nat (length (data s')) /\
    spinlock s' = 0 /\
    firstn (Z.to_nat (head s)) (data s) ++ popped
    = firstn (Z.to_nat (head s')) (data s').
Proof.
  induction ops as [|o ops IH]; intros s E Hh.
  - exists [], s. cbn [queueRun pushed length]. rewrite !app_nil_r.
    repeat split; try reflexivity; lia.
  - destruct o as [q|].
    + cbn [queueRun pushed]. rewrite push_eq by exact E. cbn [bind].
      destruct (IH (mkQueue (data s ++ [q]) (head s) 0)) as [popped [s' H]].
      * reflexivity.
      * cbn [data head]. rewrite length_app. cbn [length]. lia.
      * cbn [data head] in H. destruct H as [R [D [H1 [H2 [H3 H4]]]]].
        exists popped, s'. split; [exact R|].
        split; [rewrite D, <- app_assoc; reflexivity|].
        split; [exact H1|]. split; [exact H2|]. split; [exact H3|].
        rewrite <- H4. rewrite firstn_app_left by lia. reflexivity.
    + cbn [queueRun pushed]. rewrite pop_eq by exact E. cbn [bind].
      destruct (Z.ltb_spec (head s) (Z.of_nat (length (data s)))) as [Hlt|Hge].
      * destruct (IH (mkQueue (data s) (head s + 1) 0)) as [popped [s' H]].
        -- reflexivity.
        -- cbn [data head]. lia.
        -- cbn [data head] in H. destruct H as [R [D [H1 [H2 [H3 H4]]]]].
           rewrite R. cbn [bind fst snd app].
           eexists. exists s'. split; [reflexivity|].
           split; [exact D|]. cbn [length].
           split; [lia|]. split; [exact H2|]. split; [exact H3|].
           rewrite <- H4.
           replace (Z.to_nat (head s + 1)) with (S (Z.to_nat (head s))) by lia.
           rewrite (firstn_snoc _ (data s) (Z.to_nat (head s))
                                (mkQuery 0 0 0 false)) by lia.
           rewrite <- app_assoc. reflexivity.
      * destruct (IH s E Hh) as [popped [s' [R H]]].
        rewrite R. cbn [bind fst snd app].
        exists popped, s'. split; [reflexivity|exact H].
Qed.

End QueueFacts.

(** X15: the queue is first in, first out and loses nothing.  After any
    sequence of [push] and [pop] calls on a new queue, the items that the
    successful [pop]s have delivered are, in order, the first of the items
    pushed; the storage still holds every item ever pushed, and [head]
    counts the deliveries; the next [pop] delivers the oldest item not yet
    delivered, and when there is none it returns false and leaves its
    argument and the queue as they are. *)
Theorem queue_is_fifo : forall ops,
  exists popped s,
    queueRun MulSongsMain.newQueue ops = Some (popped, s) /\
    MulSongsMain.data s = pushed ops /\
    popped = firstn (length popped) (pushed ops) /\
    (length popped <= length (pushed ops))%nat /\
    MulSongsMain.head s = Z.of_nat (length popped) /\
    MulSongsMain.spinlock s = 0 /\
    forall q,
      MulSongsMain.pop s q
      = Some (if (length popped <? length (pushed ops))%nat
              then (true, nth (length popped) (pushed ops) q,
                    MulSongsMain.mkQueue (pushed ops)
                                         (Z.of_nat (length popped) + 1) 0)
              else (false, q, s)).
Proof.
  intros ops.
  destruct (QueueFacts.queueRun_spec ops MulSongsMain.newQueue eq_refl)
    as [popped [s [R [D [H1 [H2 [H3 H4]]]]]]]; [cbn; lia|].
  cbn [MulSongsMain.newQueue MulSongsMain.data MulSongsMain.head app firstn
       Z.to_nat Z.add] in *.
  exists popped, s. split; [exact R|]. split; [exact D|].
  rewrite D in *. rewrite H1 in *. rewrite Nat2Z.id in H4.
  split; [exact H4|]. split; [lia|]. split; [reflexivity|].
  split; [exact H3|]. intros q.
  rewrite QueueFacts.pop_eq by exact H3. rewrite D, H1, Nat2Z.id.
  destruct (Z.ltb_spec (Z.of_nat (length popped))
                       (Z.of_nat (length (pushed ops))));
    destruct (Nat.ltb_spec (length popped) (length (pushed ops)));
    try lia; reflexivity.
Qed.

(** ** The name table of the two [main]s *)

Module NameFacts.

Lemma find_store : forall mp k value k',
  find (store mp k value) k'
  = if String.eqb k' k then Some value else find mp k'.
Proof.
  induction mp as [|[k0 v0] mp IH]; intros k value k'.
  - cbn [store find]. reflexivity.
  - cbn [store find].
    destruct (String.eqb_spec k k0) as [->|Hne].
    + cbn [find]. destruct (String.eqb_spec k' k0); reflexivity.
    + cbn [find]. rewrite IH.
      destruct (String.eqb_spec k' k0) as [->|]; [|reflexivity].
      destruct (String.eqb_spec k0 k) as [->|]; [contradiction|reflexivity].
Qed.

Lemma find_readNames : forall names i mp k,
  find (readNames names i mp) k
  = match lastIndex names i k with
    | Some j => Some j
    | None => find mp k
    end.
Proof.
  induction names as [|x names IH]; intros i mp k; [reflexivity|].
  cbn [readNames lastIndex]. rewrite IH.
  destruct (lastIndex names (i + 1) k); [reflexivity|].
  rewrite find_store. destruct (String.eqb k x); reflexivity.
Qed.

Lemma lastIndex_Some : forall names i k j,
  lastIndex names i k = Some j ->
  i <= j < i + Z.of_nat (length names) /\
  nth (Z.to_nat (j - i)) names String.EmptyString = k /\
  forall j', j < j' < i + Z.of_nat (length names) ->
             nth (Z.to_nat (j' - i)) names String.EmptyString <> k.
Proof.
  induction names as [|x names IH]; intros i k j E; [discriminate E|].
  cbn [lastIndex] in E. cbn [length]. rewrite Nat2Z.inj_succ.
  destruct (lastIndex names (i + 1) k) as [j0|] eqn:E0.
  - inversion E; subst j0. destruct (IH _ _ _ E0) as [R [Hn Hl]].
    split; [lia|]. split.
    + replace (Z.to_nat (j - i)) with (S (Z.to_nat (j - (i + 1)))) by lia.
      exact Hn.
    + intros j' Hj'.
      replace (Z.to_nat (j' - i)) with (S (Z.to_nat (j' - (i + 1)))) by lia.
      apply Hl. lia.
  - destruct (String.eqb_spec k x) as [->|Hne]; [|discriminate E].
    inversion E; subst j. split; [lia|]. split.
    + rewrite Z.sub_diag. reflexivity.
    + intros j' Hj' Hin.
      replace (Z.to_nat (j' - i)) with (S (Z.to_nat (j' - (i + 1)))) in Hin by lia.
      cbn [nth] in Hin.
      assert (In x names).
      { rewrite <- Hin. apply nth_In. lia. }
      clear - E0 H. revert E0 H. generalize (i + 1). clear.
      induction names as [|y names IH]; intros i E0 Hin; [destruct Hin|].
      cbn [lastIndex] in E0.
      destruct (lastIndex names (i + 1) x) eqn:E1; [discriminate E0|].
      destruct (String.eqb_spec x y) as [->|Hne]; [discriminate E0|].
      destruct Hin as [->|Hin]; [contradiction|]. exact (IH _ E1 Hin).
Qed.

Lemma lastIndex_None : forall names i k,
  lastIndex names i k = None <-> ~ In k names.
Proof.
  induction names as [|x names IH]; intros i k.
  - cbn. tauto.
  - cbn [lastIndex In]. specialize (IH (i + 1) k).
    destruct (lastIndex names (i + 1) k).
    + split; [discriminate|]. intros H. exfalso.
      assert (Some z = None -> False) by discriminate.
      destruct IH as [_ IH]. apply H0. apply IH. tauto.
    + destruct (String.eqb_spec k x) as [->|Hne].
      * split; [discriminate|]. intros H. exfalso. apply H. left. reflexivity.
      * split; [|reflexivity]. intros _ [H|H]; [congruence|].
        destruct IH as [IH _]. exact (IH eq_refl H).
Qed.

Lemma fetch_table : forall names name,
  fst (fetch (readNames names 0 []) name) = nodeOf names name.
Proof.
  intros names name. unfold fetch, nodeOf. rewrite find_readNames.
  destruct (lastIndex names 0 name); reflexivity.
Qed.

Lemma fetch_stable : forall mp name name',
  fst (fetch (snd (fetch mp name)) name') = fst (fetch mp name').
Proof.
  intros mp name name'. unfold fetch at 2.
  destruct (find mp name) eqn:E; [reflexivity|].
  cbn [snd]. unfold fetch. rewrite find_store.
  destruct (String.eqb_spec name' name) as [->|].
  - rewrite E. reflexivity.
  - destruct (find mp name'); reflexivity.
Qed.

Lemma nodeOf_range : forall names name,
  names <> [] -> 0 <= nodeOf names name < Z.of_nat (length names).
Proof.
  intros names name Hne. unfold nodeOf.
  destruct (lastIndex names 0 name) eqn:E.
  - apply lastIndex_Some in E. lia.
  - destruct names; [contradiction|]. cbn [length]. lia.
Qed.

End NameFacts.

(** X16: how the two [main]s turn a node name into a node index.  The
    index that a query gets depends on the names of the input only: it is
    the index of the last node of that name, and 0, the root, for a name
    that no node has; it is a node of the tree whenever the tree has a
    node.  Looking a name up, which inserts an unknown name, changes no
    later lookup. *)
Theorem names_resolve_to_nodes : forall names name,
  fst (fetch (readNames names 0 []) name) = nodeOf names name /\
  (~ In name names -> nodeOf names name = 0) /\
  (In name names ->
   nth (Z.to_nat (nodeOf names name)) names String.EmptyString = name /\
   forall j, nodeOf names name < j < Z.of_nat (length names) ->
             nth (Z.to_nat j) names String.EmptyString <> name) /\
  (names <> [] -> 0 <= nodeOf names name < Z.of_nat (length names)) /\
  (forall name',
     fst (fetch (snd (fetch (readNames names 0 []) name)) name')
     = fst (fetch (readNames names 0 []) name')).
Proof.
  intros names name.
  split; [apply NameFacts.fetch_table|].
  split.
  { intros Hn. unfold nodeOf.
    apply (NameFacts.lastIndex_None names 0) in Hn. rewrite Hn. reflexivity. }
  split.
  { intros Hin. unfold nodeOf.
    destruct (lastIndex names 0 name) as [j|] eqn:E.
    - destruct (NameFacts.lastIndex_Some _ _ _ _ E) as [R [Hn Hl]].
      rewrite Z.sub_0_r in Hn. split; [exact Hn|].
      intros j' Hj'. specialize (Hl j' ltac:(lia)).
      rewrite Z.sub_0_r in Hl. exact Hl.
    - apply NameFacts.lastIndex_None in E. contradiction. }
  split; [apply NameFacts.nodeOf_range|].
  intros name'. apply NameFacts.fetch_stable.
Qed.

(** ** [mulSongs.cpp]: the executions of [main] and the worker thread *)

Module ThreadFacts.
Import MulSongs MulSongsSpec MulSongsFacts MulSongsRuns MulSongsMain
       QueueFacts NameFacts.

Lemma dispatch_total : forall t q,
  wf t -> 0 <= node_id q < n t ->
  exists b t',
    dispatch t q = Some (b, t') /\ wf t' /\ n t' = n t /\ m t' = m t.
Proof.
  intros t q W Hq. unfold dispatch.
  destruct (op q =? 1).
  { exact (step_total t (Lock (node_id q) (uid q)) W Hq). }
  destruct (op q =? 2).
  { exact (step_total t (Unlock (node_id q) (uid q)) W Hq). }
  destruct (op q =? 3).
  { exact (step_total t (Upgrade (node_id q) (uid q)) W Hq). }
  exists false, t. repeat split; try reflexivity; apply W.
Qed.

Lemma sequential_snoc : forall l t0 out t q b t',
  sequential t0 l = Some (out, t) ->
  dispatch t q = Some (b, t') ->
  sequential t0 (l ++ [q]) = Some (out ++ [print b], t').
Proof.
  induction l as [|x l IH]; intros t0 out t q b t' E D.
  - cbn in E. inversion E; subst. cbn [app sequential]. rewrite D.
    reflexivity.
  - cbn [app sequential] in *.
    destruct (dispatch t0 x) as [[b0 t1]|]; [|discriminate E].
    cbn [bind fst snd] in *.
    destruct (sequential t1 l) as [[out1 t2]|] eqn:E1; [|discriminate E].
    cbn [bind fst snd] in E. inversion E; subst.
    rewrite (IH t1 out1 t q b t' E1 D). reflexivity.
Qed.

Lemma skipn_cons_nth : forall (A : Type) (l : list A) k x rest d,
  skipn k l = x :: rest ->
  (k < length l)%nat /\ nth k l d = x /\ skipn (S k) l = rest.
Proof.
  induction l as [|y l IH]; intros k x rest d E.
  - destruct k; discriminate E.
  - destruct k as [|k].
    + cbn in E. inversion E; subst. cbn. repeat split. lia.
    + cbn [skipn] in E. destruct (IH k x rest d E) as [H1 [H2 H3]].
      cbn [length nth]. repeat split; [lia|exact H2|exact H3].
Qed.

Lemma skipn_nil_length : forall (A : Type) (l : list A) k,
  skipn k l = [] -> (length l <= k)%nat.
Proof.
  induction l as [|y l IH]; intros k E; [cbn; lia|].
  destruct k as [|k]; [discriminate E|].
  cbn [skipn] in E. specialize (IH k E). cbn [length]. lia.
Qed.

Section Executions.

Variables (names : list String.string) (N M : Z) (qs : list InputQuery)
          (q0 : Query).
Hypothesis HM : 1 <= M.
Hypothesis HN : 1 <= N.
Hypothesis HL : Z.of_nat (length names) = N.

Local Abbreviation at_ := (threadsAt names N M qs q0).
Local Abbreviation Q := (map (resolve names) qs).
Local Abbreviation sentinel :=
  (mkQuery (op q0) (node_id q0) (uid q0) true).

Lemma names_nonempty : names <> [].
Proof. intros ->. cbn in HL. lia. Qed.

Lemma sent_length : length (sent names qs q0) = S (length qs).
Proof. unfold sent. rewrite length_app, length_map. cbn. lia. Qed.

Lemma sent_query : forall k d,
  (k < length qs)%nat ->
  nth k (sent names qs q0) d = resolve names (nth k qs (mkInput 0 String.EmptyString 0)).
Proof.
  intros k d Hk. unfold sent. rewrite app_nth1 by (rewrite length_map; exact Hk).
  rewrite (nth_indep _ d (resolve names (mkInput 0 String.EmptyString 0)))
    by (rewrite length_map; exact Hk).
  apply map_nth.
Qed.

Lemma sent_sentinel : forall d, nth (length qs) (sent names qs q0) d = sentinel.
Proof.
  intros d. unfold sent. rewrite app_nth2 by (rewrite length_map; lia).
  rewrite length_map, Nat.sub_diag. reflexivity.
Qed.

Lemma start_at : at_ O O (start N M names qs).
Proof.
  constructor; cbn [start cin sentinel_pushed name_to_id queue tl cout
                    worker_returned newQueue data head spinlock skipn firstn
                    sequential].
  - lia.
  - reflexivity.
  - reflexivity.
  - intros name. apply fetch_table.
  - reflexivity.
  - reflexivity.
  - reflexivity.
  - reflexivity.
  - reflexivity.
  - apply wf_new; lia.
  - reflexivity.
Qed.

Lemma main_turn_at : forall k h p,
  at_ k h p ->
  exists p', main_turn q0 p = Some p' /\ at_ (Nat.min (S k) (S (length qs))) h p'.
Proof.
  intros k h p A. destruct A. unfold main_turn.
  destruct (cin p) as [|x rest] eqn:EC.
  - symmetry in ta_cin0. apply skipn_nil_length in ta_cin0.
    destruct (sentinel_pushed p) eqn:ES.
    + symmetry in ta_sentinel0. apply Nat.ltb_lt in ta_sentinel0.
      exists p. split; [reflexivity|].
      replace (Nat.min (S k) (S (length qs))) with k by lia.
      constructor; try assumption.
      * rewrite EC. symmetry. apply skipn_all2. lia.
      * rewrite ES. symmetry. apply Nat.ltb_lt. lia.
    + symmetry in ta_sentinel0. apply Nat.ltb_ge in ta_sentinel0.
      assert (k = length qs) by lia. subst k.
      rewrite push_eq by assumption. cbn [bind].
      eexists. split; [reflexivity|].
      replace (Nat.min (S (length qs)) (S (length qs))) with (S (length qs)) by lia.
      constructor; cbn [cin sentinel_pushed name_to_id queue tl cout
                        worker_returned data head spinlock];
        try assumption; try reflexivity; try lia.
      * symmetry. apply skipn_all2. lia.
      * symmetry. apply Nat.ltb_lt. lia.
      * rewrite ta_data0.
        rewrite (firstn_snoc _ (sent names qs q0) (length qs) q0)
          by (rewrite sent_length; lia).
        rewrite sent_sentinel. reflexivity.
  - symmetry in ta_cin0.
    destruct (skipn_cons_nth _ qs k x rest (mkInput 0 String.EmptyString 0) ta_cin0)
      as [Hk [Hx Hrest]].
    destruct (fetch (name_to_id p) (in_node x)) as [id mp] eqn:EF.
    rewrite push_eq by assumption. cbn [bind].
    eexists. split; [reflexivity|].
    replace (Nat.min (S k) (S (length qs))) with (S k) by lia.
    constructor; cbn [cin sentinel_pushed name_to_id queue tl cout
                      worker_returned data head spinlock];
      try assumption; try reflexivity; try lia.
    + symmetry. exact Hrest.
    + rewrite ta_sentinel0.
      destruct (Nat.ltb_spec (length qs) k); destruct (Nat.ltb_spec (length qs) (S k));
        try lia; reflexivity.
    + intros name. replace mp with (snd (fetch (name_to_id p) (in_node x)))
        by (rewrite EF; reflexivity).
      rewrite fetch_stable. apply ta_names0.
    + rewrite ta_data0.
      rewrite (firstn_snoc _ (sent names qs q0) k q0)
        by (rewrite sent_length; lia).
      rewrite sent_query by exact Hk. rewrite Hx. unfold resolve.
      rewrite <- (ta_names0 (in_node x)), EF. reflexivity.
Qed.

Lemma worker_turn_at : forall k h p,
  at_ k h p ->
  exists p', worker_turn q0 p = Some p' /\
             at_ k (if (h <? k)%nat then S h else h) p'.
Proof.
  intros k h p A. destruct A. unfold worker_turn.
  destruct (worker_returned p) eqn:EW.
  - symmetry in ta_done0. apply Nat.ltb_lt in ta_done0.
    exists p. split; [reflexivity|].
    replace (h <? k)%nat with false by (symmetry; apply Nat.ltb_ge; lia).
    constructor; try assumption. rewrite EW. symmetry. apply Nat.ltb_lt. lia.
  - symmetry in ta_done0. apply Nat.ltb_ge in ta_done0.
    rewrite pop_eq by assumption. cbn [bind].
    rewrite ta_data0, ta_head0, Nat2Z.id.
    rewrite length_firstn, sent_length.
    replace (Nat.min k (S (length qs))) with k by lia.
    destruct (Nat.ltb_spec h k) as [Hlt|Hge];
      destruct (Z.ltb_spec (Z.of_nat h) (Z.of_nat k)); try lia.
    + (* an item is delivered *)
      rewrite (nth_indep _ (newQuery q0) q0)
        by (rewrite length_firstn, sent_length; lia).
      assert (Hn : nth h (firstn k (sent names qs q0)) q0
                   = nth h (sent names qs q0) q0).
      { rewrite <- (firstn_skipn k (sent names qs q0)) at 2.
        rewrite app_nth1 by (rewrite length_firstn, sent_length; lia).
        reflexivity. }
      rewrite Hn.
      destruct (Nat.eq_dec h (length qs)) as [->|Hne].
      * (* the sentinel *)
        rewrite sent_sentinel. cbn [is_sentinel].
        eexists. split; [reflexivity|].
        constructor; cbn [cin sentinel_pushed name_to_id queue tl cout
                          worker_returned data head spinlock];
          try assumption; try reflexivity; try lia.
        -- symmetry. apply Nat.ltb_lt. lia.
        -- rewrite firstn_all2 by (rewrite length_map; lia).
           rewrite firstn_all2 in ta_out0 by (rewrite length_map; lia).
           exact ta_out0.
      * (* a query *)
        rewrite sent_query by lia.
        set (x := nth h qs (mkInput 0 String.EmptyString 0)).
        change (is_sentinel (resolve names x)) with false. cbv iota.
        destruct (dispatch_total (tl p) (resolve names x) ta_wf0)
          as [b [t' [ED [W' [En _]]]]].
        { cbn [resolve node_id]. rewrite ta_n0, <- HL.
          apply nodeOf_range. exact names_nonempty. }
        rewrite ED. cbn [bind fst snd].
        eexists. split; [reflexivity|].
        constructor; cbn [cin sentinel_pushed name_to_id queue tl cout
                          worker_returned data head spinlock];
          try assumption; try reflexivity; try lia.
        -- symmetry. apply Nat.ltb_ge. lia.
        -- rewrite (firstn_snoc _ Q h (resolve names x))
             by (rewrite length_map; lia).
           apply (sequential_snoc _ _ _ (tl p)); [exact ta_out0|].
           rewrite <- ED. f_equal.
           rewrite (nth_indep _ _ (resolve names (mkInput 0 String.EmptyString 0)))
             by (rewrite length_map; lia).
           rewrite map_nth. reflexivity.
    + (* nothing to deliver *)
      eexists. split; [reflexivity|].
      constructor; cbn [cin sentinel_pushed name_to_id queue tl cout
                        worker_returned data head spinlock];
        try assumption; try reflexivity; try lia.
      symmetry. apply Nat.ltb_ge. lia.
Qed.

Lemma run_threads_at : forall sch k h p,
  at_ k h p ->
  exists p' k' h',
    run_threads q0 sch p = Some p' /\ at_ k' h' p' /\
    k' = Nat.min (k + turns MainThread sch) (S (length qs)) /\
    (h <= h')%nat /\
    (k = S (length qs) ->
     h' = Nat.min (h + turns WorkerThread sch) (S (length qs))).
Proof.
  induction sch as [|th sch IH]; intros k h p A.
  - exists p, k, h. cbn [run_threads turns].
    pose proof (ta_le _ _ _ _ _ _ _ _ A).
    split; [reflexivity|]. split; [exact A|]. repeat split; lia.
  - cbn [run_threads]. destruct th; cbn [turn turns].
    + destruct (main_turn_at k h p A) as [p1 [E1 A1]]. rewrite E1. cbn [bind].
      destruct (IH _ _ _ A1) as [p' [k' [h' [R [A' [Hk [Hh Hw]]]]]]].
      exists p', k', h'. split; [exact R|]. split; [exact A'|].
      pose proof (ta_le _ _ _ _ _ _ _ _ A).
      split; [lia|]. split; [exact Hh|].
      intros ->. apply Hw. lia.
    + destruct (worker_turn_at k h p A) as [p1 [E1 A1]]. rewrite E1. cbn [bind].
      destruct (IH _ _ _ A1) as [p' [k' [h' [R [A' [Hk [Hh Hw]]]]]]].
      exists p', k', h'. split; [exact R|]. split; [exact A'|].
      pose proof (ta_le _ _ _ _ _ _ _ _ A).
      split; [exact Hk|].
      destruct (Nat.ltb_spec h k).
      * split; [lia|]. intros Ek. rewrite (Hw Ek). lia.
      * split; [lia|]. intros Ek. rewrite (Hw Ek). lia.
Qed.

End Executions.

End ThreadFacts.

Module ProgramFacts.
Import MulSongs MulSongsSpec MulSongsFacts MulSongsRuns MulSongsHarmless
       BothRuns MulSongsMain QueueFacts NameFacts ThreadFacts.

Lemma run_threads_app : forall q0 s1 s2 p,
  run_threads q0 (s1 ++ s2) p
  = (p1 <- run_threads q0 s1 p ;; run_threads q0 s2 p1).
Proof.
  induction s1 as [|th s1 IH]; intros s2 p; [reflexivity|].
  cbn [app run_threads]. destruct (turn q0 th p); [|reflexivity].
  cbn [bind]. apply IH.
Qed.

Lemma sequential_length : forall l t out t',
  sequential t l = Some (out, t') -> length out = length l.
Proof.
  induction l as [|x l IH]; intros t out t' E.
  - cbn in E. inversion E. reflexivity.
  - cbn [sequential] in E.
    destruct (dispatch t x) as [[b t1]|]; [|discriminate E].
    cbn [bind fst snd] in E.
    destruct (sequential t1 l) as [[out1 t2]|] eqn:E1; [|discriminate E].
    cbn [bind fst snd] in E. inversion E; subst. cbn [length].
    rewrite (IH _ _ _ E1). reflexivity.
Qed.

Lemma dispatch_both : forall t q,
  wf t -> harmlessT t -> 0 <= node_id q < n t ->
  exists b t',
    dispatch t q = Some (b, t') /\
    SongMMain.dispatch (toM t) (op q) (node_id q) (uid q) = Some (b, toM t') /\
    wf t' /\ harmlessT t' /\ n t' = n t.
Proof.
  intros t q W HJ Hq. unfold dispatch, SongMMain.dispatch.
  destruct (op q =? 1).
  { destruct (step_both t (Lock (node_id q) (uid q)) W HJ Hq)
      as [b [t' [E [EM [W' [HJ' [En _]]]]]]]. exists b, t'. tauto. }
  destruct (op q =? 2).
  { destruct (step_both t (Unlock (node_id q) (uid q)) W HJ Hq)
      as [b [t' [E [EM [W' [HJ' [En _]]]]]]]. exists b, t'. tauto. }
  destruct (op q =? 3).
  { destruct (step_both t (Upgrade (node_id q) (uid q)) W HJ Hq)
      as [b [t' [E [EM [W' [HJ' [En _]]]]]]]. exists b, t'. tauto. }
  exists false, t. tauto.
Qed.

Lemma queries_both : forall names qs id t cout,
  names <> [] ->
  wf t -> harmlessT t -> n t = Z.of_nat (length names) ->
  (forall name, fst (fetch id name) = nodeOf names name) ->
  exists out t',
    sequential t (map (resolve names) qs) = Some (out, t') /\
    SongMMain.queries id (toM t) qs cout = Some (cout ++ out, toM t').
Proof.
  intros names qs. induction qs as [|x qs IH]; intros id t cout Hne W HJ En Hid.
  - exists [], t. cbn. rewrite app_nil_r. split; reflexivity.
  - cbn [map sequential SongMMain.queries].
    destruct (fetch id (in_node x)) as [v id'] eqn:EF.
    assert (Ev : v = nodeOf names (in_node x)).
    { rewrite <- (Hid (in_node x)), EF. reflexivity. }
    destruct (dispatch_both t (resolve names x) W HJ)
      as [b [t1 [E [EM [W1 [HJ1 En1]]]]]].
    { cbn [resolve node_id]. rewrite En. apply nodeOf_range. exact Hne. }
    rewrite E. cbn [resolve op node_id uid] in EM. rewrite Ev, EM.
    cbn [bind fst snd].
    destruct (IH id' t1 (cout ++ [print b]) Hne W1 HJ1 ltac:(congruence))
      as [out [t' [ES EQ]]].
    { intros name. replace id' with (snd (fetch id (in_node x)))
        by (rewrite EF; reflexivity).
      rewrite fetch_stable. apply Hid. }
    rewrite ES, EQ. cbn [bind fst snd].
    exists (print b :: out), t'. split; [reflexivity|].
    rewrite <- app_assoc. reflexivity.
Qed.

End ProgramFacts.

(** X17: whatever the interleaving of [main] and the worker thread of
    [mulSongs.cpp] is, the execution goes on (the threads meet at the
    spin lock of the queue only, which is free between two rounds), and
    what has been printed is always the answers to the first h queries of
    the input, answered one at a time in the order of the input, for some
    h; once [join] has returned it is the answers to all of them.  The
    output does not depend on the values of the uninitialised members of
    the sentinel. *)
Theorem threads_answer_in_input_order : forall N M names qs q0 sch,
  1 <= M -> 1 <= N -> Z.of_nat (length names) = N ->
  exists p,
    MulSongsMain.run_threads q0 sch (MulSongsMain.start N M names qs)
    = Some p /\
    (exists h, (h <= length qs)%nat /\
       sequential (newTreeLocker N M) (firstn h (map (resolve names) qs))
       = Some (MulSongsMain.cout p, MulSongsMain.tl p)) /\
    (MulSongsMain.returned p = true ->
       sequential (newTreeLocker N M) (map (resolve names) qs)
       = Some (MulSongsMain.cout p, MulSongsMain.tl p)).
Proof.
  intros N M names qs q0 sch HM HN HL.
  destruct (ThreadFacts.run_threads_at names N M qs q0 HN HL sch O O _
              (ThreadFacts.start_at names N M qs q0 HM HN))
    as [p [k [h [R [A _]]]]].
  exists p. split; [exact R|]. destruct A. split.
  - exists (Nat.min h (length qs)). split; [lia|].
    destruct (Nat.le_gt_cases h (length qs)).
    + replace (Nat.min h (length qs)) with h by lia. exact ta_out0.
    + replace (Nat.min h (length qs)) with (length qs) by lia.
      rewrite firstn_all2 by (rewrite length_map; lia).
      rewrite firstn_all2 in ta_out0 by (rewrite length_map; lia).
      exact ta_out0.
  - unfold MulSongsMain.returned. rewrite ta_done0. intros Hr.
    apply andb_true_iff in Hr. destruct Hr as [_ Hr]. apply Nat.ltb_lt in Hr.
    rewrite firstn_all2 in ta_out0 by (rewrite length_map; lia).
    exact ta_out0.
Qed.

Lemma threads_answer_in_input_order_witness :
  exists p,
    MulSongsMain.run_threads (MulSongsMain.mkQuery 7 8 9 false)
      [MulSongsMain.WorkerThread; MulSongsMain.MainThread;
       MulSongsMain.MainThread; MulSongsMain.WorkerThread;
       MulSongsMain.MainThread; MulSongsMain.WorkerThread;
       MulSongsMain.WorkerThread]
      (MulSongsMain.start 3 2 ["a"; "b"; "c"]%string
         [mkInput 1 "b"%string 5; mkInput 4 "zz"%string 5])
    = Some p /\
    (exists h, (h <= 2)%nat /\
       sequential (newTreeLocker 3 2)
         (firstn h (map (resolve ["a"; "b"; "c"]%string)
                        [mkInput 1 "b"%string 5; mkInput 4 "zz"%string 5]))
       = Some (MulSongsMain.cout p, MulSongsMain.tl p)) /\
    (MulSongsMain.returned p = true ->
       sequential (newTreeLocker 3 2)
         (map (resolve ["a"; "b"; "c"]%string)
              [mkInput 1 "b"%string 5; mkInput 4 "zz"%string 5])
       = Some (MulSongsMain.cout p, MulSongsMain.tl p)).
Proof.
  apply (threads_answer_in_input_order 3 2 ["a"; "b"; "c"]%string
           [mkInput 1 "b"%string 5; mkInput 4 "zz"%string 5]);
    [lia | lia | reflexivity].
Defined.

(** X18: the program ends.  In every execution in which [main] gets at
    least Q + 1 rounds and the worker then gets at least Q + 1 rounds,
    [join] returns, and exactly Q lines have been printed. *)
Theorem threads_finish : forall N M names qs q0 s1 s2,
  1 <= M -> 1 <= N -> Z.of_nat (length names) = N ->
  (length qs < turns MulSongsMain.MainThread s1)%nat ->
  (length qs < turns MulSongsMain.WorkerThread s2)%nat ->
  exists p,
    MulSongsMain.run_threads q0 (s1 ++ s2) (MulSongsMain.start N M names qs)
    = Some p /\
    MulSongsMain.returned p = true /\
    length (MulSongsMain.cout p) = length qs.
Proof.
  intros N M names qs q0 s1 s2 HM HN HL H1 H2.
  destruct (ThreadFacts.run_threads_at names N M qs q0 HN HL s1 O O _
              (ThreadFacts.start_at names N M qs q0 HM HN))
    as [p1 [k1 [h1 [R1 [A1 [Hk1 _]]]]]].
  destruct (ThreadFacts.run_threads_at names N M qs q0 HN HL s2 k1 h1 _ A1)
    as [p [k [h [R [A [Hk [Hh Hw]]]]]]].
  exists p. rewrite ProgramFacts.run_threads_app, R1. cbn [bind].
  split; [exact R|].
  pose proof (ta_le _ _ _ _ _ _ _ _ A1) as L1.
  assert (Ek1 : k1 = S (length qs)) by lia.
  specialize (Hw Ek1).
  assert (Ek : k = S (length qs)) by lia.
  assert (Eh : h = S (length qs)) by lia.
  destruct A. split.
  - unfold MulSongsMain.returned. rewrite ta_sentinel0, ta_done0, Ek, Eh.
    rewrite (proj2 (Nat.ltb_lt _ _)) by lia. reflexivity.
  - rewrite firstn_all2 in ta_out0 by (rewrite length_map; lia).
    rewrite (ProgramFacts.sequential_length _ _ _ _ ta_out0).
    apply length_map.
Qed.

Lemma threads_finish_witness :
  exists p,
    MulSongsMain.run_threads (MulSongsMain.mkQuery 7 8 9 false)
      ([MulSongsMain.WorkerThread; MulSongsMain.MainThread;
        MulSongsMain.MainThread; MulSongsMain.WorkerThread;
        MulSongsMain.MainThread]
       ++ [MulSongsMain.WorkerThread; MulSongsMain.MainThread;
           MulSongsMain.WorkerThread; MulSongsMain.WorkerThread])
      (MulSongsMain.start 3 2 ["a"; "b"; "c"]%string
         [mkInput 1 "b"%string 5; mkInput 4 "zz"%string 5])
    = Some p /\
    MulSongsMain.returned p = true /\
    length (MulSongsMain.cout p) = length [mkInput 1 "b"%string 5; mkInput 4 "zz"%string 5].
Proof.
  apply (threads_finish 3 2 ["a"; "b"; "c"]%string
           [mkInput 1 "b"%string 5; mkInput 4 "zz"%string 5]);
    [lia | lia | reflexivity | cbn; lia | cbn; lia].
Defined.

(** X19: the two programs print the same.  On the same input (with at
    least one node and m >= 1) [main] of [Song_M] returns, prints one line
    for each query, and every execution of [mulSongs.cpp] in which [join]
    has returned has printed exactly these lines and ends with the same
    owners and counters. *)
Theorem both_programs_print_the_same : forall N M names qs,
  1 <= M -> 1 <= N -> Z.of_nat (length names) = N ->
  exists out t,
    SongMMain.main N M names qs = Some (out, toM t) /\
    length out = length qs /\
    forall q0 sch p,
      MulSongsMain.run_threads q0 sch (MulSongsMain.start N M names qs)
      = Some p ->
      MulSongsMain.returned p = true ->
      MulSongsMain.cout p = out /\ MulSongsMain.tl p = t.
Proof.
  intros N M names qs HM HN HL.
  assert (Hne : names <> []) by (intros ->; cbn in HL; lia).
  destruct (ProgramFacts.queries_both names qs (readNames names 0 [])
              (newTreeLocker N M) [] Hne (wf_new N M HM ltac:(lia))
              (harmless_new N M) ltac:(cbn; lia)
              (NameFacts.fetch_table names))
    as [out [t [ES EQ]]].
  exists out, t. split; [exact EQ|].
  split.
  { rewrite (ProgramFacts.sequential_length _ _ _ _ ES). apply length_map. }
  intros q0 sch p R Hr.
  destruct (ThreadFacts.run_threads_at names N M qs q0 HN HL sch O O _
              (ThreadFacts.start_at names N M qs q0 HM HN))
    as [p' [k [h [R' [A _]]]]].
  rewrite R in R'. inversion R'; subst p'. destruct A.
  unfold MulSongsMain.returned in Hr. rewrite ta_done0 in Hr.
  apply andb_true_iff in Hr. destruct Hr as [_ Hr]. apply Nat.ltb_lt in Hr.
  rewrite firstn_all2 in ta_out0 by (rewrite length_map; lia).
  rewrite ES in ta_out0. inversion ta_out0. split; reflexivity.
Qed.

Lemma both_programs_print_the_same_witness :
  exists out t,
    SongMMain.main 3 2 ["a"; "b"; "c"]%string
      [mkInput 1 "b"%string 5; mkInput 4 "zz"%string 5; mkInput 3 "a"%string 5]
    = Some (out, toM t) /\
    length out = length [mkInput 1 "b"%string 5; mkInput 4 "zz"%string 5;
                         mkInput 3 "a"%string 5] /\
    forall q0 sch p,
      MulSongsMain.run_threads q0 sch
        (MulSongsMain.start 3 2 ["a"; "b"; "c"]%string
           [mkInput 1 "b"%string 5; mkInput 4 "zz"%string 5;
            mkInput 3 "a"%string 5])
      = Some p ->
      MulSongsMain.returned p = true ->
      MulSongsMain.cout p = out /\ MulSongsMain.tl p = t.
Proof.
  apply (both_programs_print_the_same 3 2 ["a"; "b"; "c"]%string);
    [lia | lia | reflexivity].
Defined.

(** ** The frame of [upgradeNode], and mutual exclusion in the program *)



Lemma In_firstn : forall (A : Type) (l : list A) k x,
  In x (firstn k l) -> In x l.
Proof.
  intros A l k x H. rewrite <- (firstn_skipn k l).
  apply in_or_app. left. exact H.
Qed.

Lemma sequential_sound : forall l t out t',
  wf t -> sound t ->
  (forall q, In q l ->
     0 <= MulSongsMain.node_id q < n t /\
     (MulSongsMain.op q = 2 -> MulSongsMain.uid q <> 0)) ->
  sequential t l = Some (out, t') ->
  sound t' /\ n t' = n t /\ m t' = m t.
Proof.
  induction l as [|q l IH]; intros t out t' W S H E.
  - cbn in E. inversion E; subst. split; [assumption|split; reflexivity].
  - cbn [sequential] in E.
    destruct (MulSongsMain.dispatch t q) as [[b t1]|] eqn:ED; [|discriminate E].
    cbn [bind fst snd] in E.
    destruct (sequential t1 l) as [[out1 t2]|] eqn:E1; [|discriminate E].
    cbn [bind fst snd] in E. inversion E; subst; clear E.
    destruct (H q (or_introl eq_refl)) as [Hq Hu].
    assert (P : wf t1 /\ sound t1 /\ n t1 = n t /\ m t1 = m t).
    { unfold MulSongsMain.dispatch in ED.
      assert (G : forall o, step t o = Some (b, t1) ->
                  op_node o = MulSongsMain.node_id q -> unlock_valid o ->
                  wf t1 /\ sound t1 /\ n t1 = n t /\ m t1 = m t).
      { intros o Eo En Ev.
        assert (Ho : in_range t o) by (unfold in_range; rewrite En; exact Hq).
        destruct (step_total t o W Ho) as [b' [t'' [E' [W' [N' M']]]]].
        rewrite Eo in E'. inversion E'; subst.
        split; [exact W'|]. split; [|split; assumption].
        apply (step_sound t o b' t'' W S Ho Ev Eo). }
      destruct (MulSongsMain.op q =? 1).
      { apply (G (Lock _ _) ED); [reflexivity|exact I]. }
      destruct (Z.eqb_spec (MulSongsMain.op q) 2).
      { apply (G (Unlock _ _) ED); [reflexivity|]. cbn. auto. }
      destruct (MulSongsMain.op q =? 3).
      { apply (G (Upgrade _ _) ED); [reflexivity|exact I]. }
      inversion ED; subst.
      split; [assumption|]. split; [assumption|]. split; reflexivity. }
    destruct P as [W1 [S1 [N1 M1]]].
    destruct (IH t1 out1 t' W1 S1) as [S' [N' M']]; [|exact E1|].
    + intros q' Hq'. rewrite N1. apply H. right. exact Hq'.
    + split; [exact S'|]. split; congruence.
Qed.

(** X21: mutual exclusion holds in the program.  In every execution of
    [mulSongs.cpp], on every input with at least one node in which no
    unlock query (op 2) has a caller id that is 0 after the conversion to
    [int], at every moment no locked node has a locked ancestor or a
    locked descendant. *)
Theorem program_keeps_mutual_exclusion : forall N M names qs q0 sch p,
  1 <= M -> 1 <= N -> Z.of_nat (length names) = N ->
  (forall x, In x qs -> in_op x = 2 -> to_int (in_uid x) <> 0) ->
  MulSongsMain.run_threads q0 sch (MulSongsMain.start N M names qs) = Some p ->
  I1 M N (lockedBy (MulSongsMain.tl p)).
Proof.
  intros N M names qs q0 sch p HM HN HL Hu R.
  destruct (ThreadFacts.run_threads_at names N M qs q0 HN HL sch O O _
              (ThreadFacts.start_at names N M qs q0 HM HN))
    as [p' [k [h [R' [A _]]]]].
  rewrite R in R'. inversion R'; subst p'. destruct A.
  assert (Hq : forall q, In q (firstn h (map (resolve names) qs)) ->
            0 <= MulSongsMain.node_id q < n (newTreeLocker N M) /\
            (MulSongsMain.op q = 2 -> MulSongsMain.uid q <> 0)).
  { intros q Hq. apply In_firstn in Hq. apply in_map_iff in Hq.
    destruct Hq as [x [<- Hx]]. cbn [resolve MulSongsMain.node_id
      MulSongsMain.op MulSongsMain.uid newTreeLocker n].
    split; [|apply Hu; exact Hx].
    rewrite <- HL. apply NameFacts.nodeOf_range. intros ->. cbn in HL. lia. }
  destruct (sequential_sound _ _ _ _ (wf_new N M HM ltac:(lia))
              (consistent_sound _ (new_consistent N M)) Hq ta_out0)
    as [[S1 _] [En Em]].
  cbn [newTreeLocker n m] in En, Em. rewrite En, Em in S1. exact S1.
Qed.

Lemma program_keeps_mutual_exclusion_witness :
  I1 2 3
     (lockedBy
        (MulSongsMain.tl
           (MulSongsMain.mkProcess
              [("a", 0); ("b", 1); ("c", 2); ("zz", 0)]%string [] false
              (MulSongsMain.mkQueue
                 [MulSongsMain.mkQuery 1 1 5 false;
                  MulSongsMain.mkQuery 2 0 4 false] 1 0)
              (mkTL 3 2 (parentTable 3 2) [0; 5; 0] [1; 0; 0] 0)
              ["true"%string] false))).
Proof.
  apply (program_keeps_mutual_exclusion 3 2 ["a"; "b"; "c"]%string
           [mkInput 1 "b"%string 5; mkInput 2 "zz"%string 4]
           (MulSongsMain.mkQuery 7 8 9 false)
           [MulSongsMain.MainThread; MulSongsMain.WorkerThread;
            MulSongsMain.MainThread]).
  - lia.
  - lia.
  - reflexivity.
  - intros x [<-|[<-|[]]]; cbn; intros; try discriminate.
  - vm_compute. reflexivity.
Defined.

(** ** Operations on unrelated nodes *)

Module Independence.
Import MulSongs MulSongsSpec MulSongsFacts MulSongsUpgrade MulSongsInv
       MulSongsSteps MulSongsRuns MulSongsEffects.

Lemma vset_comm : forall l x a y b,
  0 <= x < Z.of_nat (length l) -> 0 <= y < Z.of_nat (length l) -> x <> y ->
  vset (vset l x a) y b = vset (vset l y b) x a.
Proof.
  intros l x a y b Hx Hy Hne. apply vec_ext.
  - rewrite !vset_length. reflexivity.
  - intros i Hi. rewrite !vset_length in Hi.
    rewrite !vget_vset by (rewrite ?vset_length; lia).
    destruct (Z.eqb_spec i y), (Z.eqb_spec i x); try reflexivity. lia.
Qed.

Lemma after_comm : forall t x a d1 y b d2,
  wf t -> 0 <= x < n t -> 0 <= y < n t -> x <> y ->
  after (after t x a d1) y b d2 = after (after t y b d2) x a d1.
Proof.
  intros t x a d1 y b d2 W Hx Hy Hne. unfold after.
  cbn [n m parent lockedBy descLocked lock_flag].
  pose proof (wf_lockedBy t W). pose proof (wf_descLocked t W).
  rewrite (vset_comm (lockedBy t) x a y b) by lia.
  rewrite (bump_comm (m t) (descLocked t) y x d1 d2) by (try apply W; lia).
  reflexivity.
Qed.

Lemma applyEdits_static : forall es t,
  wf t ->
  wf (applyEdits t es) /\ n (applyEdits t es) = n t /\
  m (applyEdits t es) = m t.
Proof.
  induction es as [|e es IH]; intros t W.
  - split; [exact W|]. split; reflexivity.
  - cbn [applyEdits fold_left].
    destruct (IH (after t (fst (fst e)) (snd (fst e)) (snd e))
                 (wf_after _ _ _ _ W)) as [W' [En Em]].
    split; [exact W'|]. split; [exact En|exact Em].
Qed.

Lemma after_applyEdits_comm : forall es t x a d,
  wf t -> 0 <= x < n t ->
  (forall e, In e es -> 0 <= fst (fst e) < n t /\ fst (fst e) <> x) ->
  after (applyEdits t es) x a d = applyEdits (after t x a d) es.
Proof.
  induction es as [|e es IH]; intros t x a d W Hx H; [reflexivity|].
  destruct (H e (or_introl eq_refl)) as [He Hne].
  change (after (applyEdits (after t (fst (fst e)) (snd (fst e)) (snd e)) es)
                x a d
          = applyEdits (after (after t x a d) (fst (fst e)) (snd (fst e))
                              (snd e)) es).
  rewrite IH.
  - rewrite (after_comm t (fst (fst e)) _ _ x a d) by (auto; lia).
    reflexivity.
  - apply wf_after. exact W.
  - exact Hx.
  - intros e' He'. apply H. right. exact He'.
Qed.

Lemma applyEdits_comm : forall e2 e1 t,
  wf t ->
  (forall e, In e e1 -> 0 <= fst (fst e) < n t) ->
  (forall e, In e e2 -> 0 <= fst (fst e) < n t) ->
  (forall a b, In a e1 -> In b e2 -> fst (fst a) <> fst (fst b)) ->
  applyEdits (applyEdits t e1) e2 = applyEdits (applyEdits t e2) e1.
Proof.
  induction e2 as [|e e2 IH]; intros e1 t W H1 H2 Hd; [reflexivity|].
  change (applyEdits (after (applyEdits t e1) (fst (fst e)) (snd (fst e))
                            (snd e)) e2
          = applyEdits (applyEdits (after t (fst (fst e)) (snd (fst e))
                                          (snd e)) e2) e1).
  rewrite after_applyEdits_comm.
  - apply IH.
    + apply wf_after. exact W.
    + exact H1.
    + intros x Hx. apply H2. right. exact Hx.
    + intros a b Ha Hb. apply Hd; [exact Ha|right; exact Hb].
  - exact W.
  - apply H2. left. reflexivity.
  - intros x Hx. split; [apply H1; exact Hx|].
    apply Hd; [exact Hx|left; reflexivity].
Qed.

Lemma applyEdits_app : forall e1 e2 t,
  applyEdits t (e1 ++ e2) = applyEdits (applyEdits t e1) e2.
Proof. intros e1 e2 t. apply fold_left_app. Qed.

Lemma applyEdits_release : forall L t,
  applyEdits t (map (fun u => (u, 0, -1)) L) = afterAll t L.
Proof.
  induction L as [|u L IH]; intros t; [reflexivity|].
  rewrite afterAll_cons. cbn [map applyEdits fold_left fst snd].
  apply IH.
Qed.

Lemma step_edits : forall t o,
  wf t -> in_range t o ->
  step t o = Some (if permitted t o then (true, applyEdits t (edits t o))
                   else (false, t)).
Proof.
  intros t o W Ho. destruct o as [v uid|v uid|v uid];
    unfold in_range in Ho; cbn [op_node step permitted edits] in *.
  - rewrite lockNode_eq by assumption. reflexivity.
  - rewrite unlockNode_eq by assumption. reflexivity.
  - destruct (upgradeNode_eq t v uid W Ho) as [b [L [HT E]]].
    rewrite E, HT. rewrite applyEdits_app, applyEdits_release. reflexivity.
Qed.

(** The nodes that a permitted operation writes are its node and nodes
    below it. *)
Lemma edits_nodes : forall t o e,
  wf t -> in_range t o -> permitted t o = true -> In e (edits t o) ->
  0 <= fst (fst e) < n t /\
  (fst (fst e) = op_node o \/ anc (m t) (op_node o) (fst (fst e))).
Proof.
  intros t o e W Ho Hp He. destruct o as [v uid|v uid|v uid];
    unfold in_range in Ho; cbn [op_node edits permitted] in *.
  - destruct He as [<-|[]]. cbn. auto.
  - destruct He as [<-|[]]. cbn. auto.
  - destruct (traverse t v uid) as [[b L]|] eqn:HT; [|destruct He].
    apply andb_true_iff in Hp. destruct Hp as [_ ->].
    apply in_app_or in He. destruct He as [He|[<-|[]]]; [|cbn; auto].
    apply in_map_iff in He. destruct He as [u [<- Hu]]. cbn [fst].
    destruct (traverse_true t v uid L W Ho HT) as [_ [Own _]].
    destruct (Own u Hu) as [A [R _]]. auto.
Qed.

Lemma unrelated_sym : forall M u v, unrelated M u v -> unrelated M v u.
Proof. intros M u v [H1 [H2 H3]]. repeat split; auto. Qed.

Lemma unrelated_apart : forall M u v x w,
  unrelated M u v ->
  (x = u \/ anc M u x) -> (w = v \/ anc M w v \/ anc M v w) -> x <> w.
Proof.
  intros M u v x w [H1 [H2 H3]] Hx Hw E. subst w.
  destruct Hx as [->|Ax]; destruct Hw as [Ev|[Av|Av]]; subst; auto.
  - apply H2. exact (anc_trans _ _ _ _ Ax Av).
  - destruct (anc_chain _ _ _ _ Ax Av) as [?|[?|?]]; auto.
Qed.

Lemma unrelated_not_above : forall M u v x w,
  unrelated M u v ->
  (x = u \/ anc M u x) -> (w = v \/ anc M v w) -> ~ anc M w x.
Proof.
  intros M u v x w [H1 [H2 H3]] Hx Hw A.
  assert (Av : anc M v x).
  { destruct Hw as [->|Aw]; [exact A|exact (anc_trans _ _ _ _ Aw A)]. }
  destruct Hx as [->|Ax]; [auto|].
  destruct (anc_chain _ _ _ _ Ax Av) as [?|[?|?]]; auto.
Qed.

Lemma sameView_refl : forall M u t, sameView M u t t.
Proof. intros M u t. split; intros; reflexivity. Qed.

Lemma sameView_trans : forall M u t1 t2 t3,
  sameView M u t1 t2 -> sameView M u t2 t3 -> sameView M u t1 t3.
Proof.
  intros M u t1 t2 t3 [A1 A2] [B1 B2]. split; intros x Hx Hv.
  - rewrite (A1 x Hx Hv). apply B1; assumption.
  - rewrite (A2 x Hx Hv). apply B2; assumption.
Qed.

Lemma sameView_sym : forall M u t1 t2, sameView M u t1 t2 -> sameView M u t2 t1.
Proof.
  intros M u t1 t2 [A1 A2]. split; intros x Hx Hv; symmetry;
    [apply A1|apply A2]; assumption.
Qed.

Lemma view_after : forall t u v x a d,
  wf t -> unrelated (m t) u v -> 0 <= x < n t ->
  (x = u \/ anc (m t) u x) ->
  sameView (m t) v t (after t x a d).
Proof.
  intros t u v x a d W U Hx Sx. pose proof (wf_m t W) as HM. split.
  - intros w Hw Vw. rewrite after_lockedBy by (auto; lia).
    destruct (Z.eqb_spec w x) as [->|]; [|reflexivity].
    exfalso. exact (unrelated_apart _ _ _ _ _ U Sx Vw eq_refl).
  - intros w Hw Vw. rewrite after_descLocked by (auto; lia).
    rewrite (proj2 (ancb_false _ HM w x)); [lia|].
    exact (unrelated_not_above _ _ _ _ _ U Sx Vw).
Qed.

Lemma view_applyEdits : forall es t u v,
  wf t -> unrelated (m t) u v ->
  (forall e, In e es ->
     0 <= fst (fst e) < n t /\
     (fst (fst e) = u \/ anc (m t) u (fst (fst e)))) ->
  sameView (m t) v t (applyEdits t es).
Proof.
  induction es as [|e es IH]; intros t u v W U H; [apply sameView_refl|].
  destruct (H e (or_introl eq_refl)) as [He Se].
  apply (sameView_trans _ _ _ (after t (fst (fst e)) (snd (fst e)) (snd e))).
  - exact (view_after t u v _ _ _ W U He Se).
  - apply (IH (after t (fst (fst e)) (snd (fst e)) (snd e)) u v).
    + apply wf_after. exact W.
    + exact U.
    + intros e' He'. apply H. right. exact He'.
Qed.

Lemma scanChildren_ext : forall N lb dl lb' dl' uid k first j acc st,
  (forall c, first + j <= c < first + j + Z.of_nat k -> c < N ->
     vget lb c = vget lb' c /\ vget dl c = vget dl' c) ->
  scanChildren N lb dl uid k first j acc st
  = scanChildren N lb' dl' uid k first j acc st.
Proof.
  intros N lb dl lb' dl' uid k. induction k as [|k IH];
    intros first j acc st H; [reflexivity|].
  cbn [scanChildren]. cbv zeta.
  destruct (Z.geb_spec (first + j) N) as [|Hlt]; [reflexivity|].
  destruct (H (first + j) ltac:(lia) Hlt) as [-> ->].
  assert (H' : forall c, first + (j + 1) <= c < first + (j + 1) + Z.of_nat k ->
                 c < N -> vget lb c = vget lb' c /\ vget dl c = vget dl' c).
  { intros c Hc Hn. apply H; lia. }
  rewrite !(IH first (j + 1) _ _ H'). reflexivity.
Qed.

Lemma scanChildren_stack : forall N lb dl uid k first j acc st x,
  In x (snd (scanChildren N lb dl uid k first j acc st)) ->
  In x st \/ (first + j <= x < first + j + Z.of_nat k /\ x < N).
Proof.
  intros N lb dl uid k. induction k as [|k IH]; intros first j acc st x Hx.
  - left. exact Hx.
  - cbn [scanChildren] in Hx. cbv zeta in Hx.
    destruct (Z.geb_spec (first + j) N) as [|Hlt]; [left; exact Hx|].
    destruct (negb (vget lb (first + j) =? 0)).
    + destruct (negb (vget lb (first + j) =? uid)); [left; exact Hx|].
      destruct (IH _ _ _ _ _ Hx) as [?|?]; [left; assumption|right; lia].
    + destruct (vget dl (first + j) >? 0).
      * destruct (IH _ _ _ _ _ Hx) as [[<-|?]|?];
          [right; lia | left; assumption | right; lia].
      * destruct (IH _ _ _ _ _ Hx) as [?|?]; [left; assumption|right; lia].
Qed.

Lemma visit_ext : forall N M lb dl lb' dl' uid u,
  1 <= M ->
  (forall x, anc M u x -> x < N ->
     vget lb x = vget lb' x /\ vget dl x = vget dl' x) ->
  forall fuel acc st,
    (forall s, In s st -> 0 <= s /\ (s = u \/ anc M u s)) ->
    visit N M lb dl uid fuel acc st = visit N M lb' dl' uid fuel acc st.
Proof.
  intros N M lb dl lb' dl' uid u HM H.
  induction fuel as [|fuel IH]; intros acc st Hst; [reflexivity|].
  cbn [visit]. destruct st as [|s rest]; [reflexivity|]. cbv zeta.
  destruct (Hst s (or_introl eq_refl)) as [Hs Su].
  assert (Kid : forall c, 1 * s * M + 1 + 0 <= c
                          < 1 * s * M + 1 + 0 + Z.of_nat (Z.to_nat M) ->
                          anc M u c).
  { intros c Hc. rewrite Z2Nat.id in Hc by lia.
    assert (Ep : parentOf M c = s) by (apply parentOf_child; [exact HM|lia]).
    assert (Ac : anc M s c) by (rewrite <- Ep; apply anc_parent; nia).
    destruct Su as [->|Au]; [exact Ac|exact (anc_trans _ _ _ _ Au Ac)]. }
  rewrite (scanChildren_ext N lb dl lb' dl' uid (Z.to_nat M) (1 * s * M + 1) 0
                            acc rest).
  - destruct (scanChildren N lb' dl' uid (Z.to_nat M) (1 * s * M + 1) 0 acc rest)
      as [[b d] s'] eqn:ES.
    destruct b; [|reflexivity]. apply IH.
    intros x Hx.
    pose proof (scanChildren_stack N lb' dl' uid (Z.to_nat M) (1 * s * M + 1) 0
                                   acc rest x) as G.
    rewrite ES in G. destruct (G Hx) as [Hin|[Hc _]].
    + apply Hst. right. exact Hin.
    + split; [nia|]. right. apply Kid. exact Hc.
  - intros c Hc Hn. apply H; [|exact Hn]. apply Kid. exact Hc.
Qed.

Lemma existsb_agree : forall (f g : Z -> bool) l,
  (forall x, In x l -> f x = g x) -> existsb f l = existsb g l.
Proof.
  intros f g l. induction l as [|x l IH]; intros H; [reflexivity|].
  cbn [existsb]. rewrite (H x (or_introl eq_refl)).
  rewrite IH; [reflexivity|]. intros y Hy. apply H. right. exact Hy.
Qed.

(** An operation decides and acts on what it sees of the state. *)
Lemma view_decides : forall t t' o,
  wf t -> n t' = n t -> m t' = m t -> in_range t o ->
  sameView (m t) (op_node o) t t' ->
  permitted t' o = permitted t o /\ edits t' o = edits t o.
Proof.
  intros t t' o W En Em Ho [V1 V2]. pose proof (wf_m t W) as HM.
  assert (Hv : 0 <= op_node o) by (unfold in_range in Ho; lia).
  assert (A : existsb (lockedb (lockedBy t')) (ancestors (m t) (op_node o))
              = existsb (lockedb (lockedBy t)) (ancestors (m t) (op_node o))).
  { apply existsb_agree. intros a Ha. apply In_ancestors in Ha; [|exact HM].
    pose proof (anc_range _ HM _ _ Ha). unfold lockedb.
    rewrite (V1 a) by (auto; lia). reflexivity. }
  assert (T : forall uid, traverse t' (op_node o) uid = traverse t (op_node o) uid).
  { intros uid. unfold traverse. rewrite En, Em. symmetry.
    apply (visit_ext _ _ _ _ _ _ _ (op_node o) HM).
    - intros x Ax _. pose proof (anc_range _ HM _ _ Ax).
      split; [apply V1|apply V2]; auto; lia.
    - intros s [<-|[]]. auto. }
  destruct o as [v uid|v uid|v uid]; cbn [op_node permitted edits] in *.
  - split; [|reflexivity]. unfold lockable.
    rewrite Em, A, <- (V1 v), <- (V2 v) by auto. reflexivity.
  - split; [|reflexivity]. rewrite <- (V1 v) by auto. reflexivity.
  - rewrite T. split; [|reflexivity]. unfold upgradable.
    rewrite Em, A, <- (V1 v), <- (V2 v) by auto. reflexivity.
Qed.

(** Two operations on unrelated nodes, one after the other: the second
    one decides and acts as it would have in the state before the first. *)
Lemma step_then_step : forall t oa ob,
  wf t -> in_range t oa -> in_range t ob ->
  unrelated (m t) (op_node oa) (op_node ob) ->
  exists ta,
    ta = (if permitted t oa then applyEdits t (edits t oa) else t) /\
    step t oa = Some (permitted t oa, ta) /\
    step ta ob
    = Some (permitted t ob,
            if permitted t ob then applyEdits ta (edits t ob) else ta).
Proof.
  intros t oa ob W Ha Hb U.
  exists (if permitted t oa then applyEdits t (edits t oa) else t).
  split; [reflexivity|]. split.
  { rewrite step_edits by assumption.
    destruct (permitted t oa); reflexivity. }
  set (ta := if permitted t oa then applyEdits t (edits t oa) else t).
  assert (Sa : wf ta /\ n ta = n t /\ m ta = m t).
  { unfold ta. destruct (permitted t oa).
    - apply applyEdits_static. exact W.
    - split; [exact W|split; reflexivity]. }
  destruct Sa as [Wa [En Em]].
  assert (V : sameView (m t) (op_node ob) t ta).
  { unfold ta. destruct (permitted t oa) eqn:Pa; [|apply sameView_refl].
    apply (view_applyEdits _ t (op_node oa) (op_node ob) W U).
    intros e He. exact (edits_nodes t oa e W Ha Pa He). }
  destruct (view_decides t ta ob W En Em Hb V) as [Ep Ee].
  rewrite step_edits; [|exact Wa|unfold in_range in *; rewrite En; exact Hb].
  rewrite Ep, Ee. destruct (permitted t ob); reflexivity.
Qed.

End Independence.

(** X22: operations on unrelated nodes do not interfere.  In every state,
    for two operations (any of Lock, Unlock, Upgrade, any callers) on two
    nodes of which neither is the other nor an ancestor of the other, the
    two orders of execution give the same two results and the same final
    state. *)
Theorem unrelated_operations_commute : forall t o1 o2,
  wf t -> in_range t o1 -> in_range t o2 ->
  unrelated (m t) (op_node o1) (op_node o2) ->
  exists b1 b2 t',
    (r1 <- step t o1 ;; r2 <- step (snd r1) o2 ;;
     Some (fst r1, fst r2, snd r2)) = Some (b1, b2, t') /\
    (r2 <- step t o2 ;; r1 <- step (snd r2) o1 ;;
     Some (fst r1, fst r2, snd r1)) = Some (b1, b2, t').
Proof.
  intros t o1 o2 W H1 H2 U.
  destruct (Independence.step_then_step t o1 o2 W H1 H2 U)
    as [ta [Eta [Sa Sab]]].
  destruct (Independence.step_then_step t o2 o1 W H2 H1
              (Independence.unrelated_sym _ _ _ U))
    as [tb [Etb [Sb Sba]]].
  exists (permitted t o1), (permitted t o2),
         (if permitted t o2 then applyEdits ta (edits t o2) else ta).
  rewrite Sa, Sb. cbn [bind fst snd]. rewrite Sab, Sba. cbn [bind fst snd].
  split; [reflexivity|]. f_equal. f_equal. subst ta tb.
  destruct (permitted t o1) eqn:P1; destruct (permitted t o2) eqn:P2;
    try reflexivity.
  symmetry. apply Independence.applyEdits_comm.
  - exact W.
  - intros e He. apply (Independence.edits_nodes t o1 e W H1 P1 He).
  - intros e He. apply (Independence.edits_nodes t o2 e W H2 P2 He).
  - intros a b Ha Hb.
    destruct (Independence.edits_nodes t o1 a W H1 P1 Ha) as [_ Sa'].
    destruct (Independence.edits_nodes t o2 b W H2 P2 Hb) as [_ Sb'].
    apply (Independence.unrelated_apart _ _ _ _ _ U Sa').
    destruct Sb' as [->|Ab]; [left; reflexivity|right; right; exact Ab].
Qed.

Lemma unrelated_operations_commute_witness :
  exists b1 b2 t',
    (r1 <- step scenarioB_locked (Upgrade 1 1) ;;
     r2 <- step (snd r1) (Lock 5 2) ;;
     Some (fst r1, fst r2, snd r2)) = Some (b1, b2, t') /\
    (r2 <- step scenarioB_locked (Lock 5 2) ;;
     r1 <- step (snd r2) (Upgrade 1 1) ;;
     Some (fst r1, fst r2, snd r1)) = Some (b1, b2, t').
Proof.
  apply (unrelated_operations_commute scenarioB_locked (Upgrade 1 1) (Lock 5 2)).
  - constructor; cbn; first [lia | reflexivity].
  - unfold in_range; cbn; lia.
  - unfold in_range; cbn; lia.
  - cbn [op_node scenarioB_locked m]. split; [lia|].
    split; intros A; apply (ancb_true 2 ltac:(lia)) in A; vm_compute in A;
      discriminate A.
Defined.
